(** * pygame_funny_simulations: a shallow embedding of the seven simulations

    The repository holds seven independent Pygame/Pymunk programs
    (colorful_flooding, pizza_rain, rebound_collisions, sand_clock,
    shooting_star, solar_system, wrecking_ball).  Every program has the same
    shape: a class whose constructor builds the window (and, for five of them,
    a Pymunk space), the methods [process_events], [run_logic], [draw] and
    [clock_tick], and a [__main__] block that calls them in a loop.

    Python methods mutate [self] and the objects of the libraries, and they
    may raise.  They are embedded as computations of a state-and-exception
    monad over the pair (attributes of [self], state of the world); the state
    reached when an exception is raised is kept, as in Python. *)

From Stdlib Require Import ZArith List Bool Lia QArith Qcanon Reals Lra.
From Stdlib Require PrimFloat Uint63 FloatOps SpecFloat.
From stdpp Require Import gmap list strings numbers.

Local Open Scope Z_scope.

(** ** Exceptions and results *)

(** The exceptions the programs can meet.  [ValueError] carries its message,
    so that an error raised by the repository's own [raise] statements can be
    told from one raised inside a library. *)
Inductive exn :=
| AssertionError
| ValueError (msg : string)
| ZeroDivisionError
| IndexError.

Inductive result (A : Type) :=
| Ok (a : A)
| Raise (e : exn).
Arguments Ok {A} a.
Arguments Raise {A} e.

Definition is_ok {A} (r : result A) : bool :=
  match r with Ok _ => true | Raise _ => false end.

(** ** The monad of Python methods *)

Definition M (S A : Type) : Type := S -> result A * S.

#[global] Instance M_ret {S} : MRet (M S) := fun A a s => (Ok a, s).

#[global] Instance M_bind {S} : MBind (M S) := fun A B f m s =>
  match m s with
  | (Ok a, s') => f a s'
  | (Raise e, s') => (Raise e, s')
  end.

Definition raise {S A} (e : exn) : M S A := fun s => (Raise e, s).
Definition get {S} : M S S := fun s => (Ok s, s).
Definition gets {S A} (f : S -> A) : M S A := fun s => (Ok (f s), s).
Definition put {S} (s : S) : M S unit := fun _ => (Ok tt, s).
Definition modify {S} (f : S -> S) : M S unit := fun s => (Ok tt, f s).

(** [try: m except e: pass]: the exception [e] is swallowed, any other one
    propagates; the state changes made before the exception stay. *)
Definition try_except_pass {S} (m : M S unit) (handled : exn -> bool) : M S unit :=
  fun s =>
    match m s with
    | (Ok tt, s') => (Ok tt, s')
    | (Raise e, s') => if handled e then (Ok tt, s') else (Raise e, s')
    end.

Definition is_AssertionError (e : exn) : bool :=
  match e with AssertionError => true | _ => false end.

(** A method of an object of class [X] runs on (attributes of self, world);
    these lift a computation on one side of the pair. *)
Definition on_self {X W A} (m : M X A) : M (X * W) A := fun s =>
  let '(r, x') := m s.1 in (r, (x', s.2)).
Definition on_world {X W A} (m : M W A) : M (X * W) A := fun s =>
  let '(r, w') := m s.2 in (r, (s.1, w')).

(** A method call on an object held in an attribute of [self]. *)
Definition on_attr {X W A B} (getter : X -> A) (setter : A -> X -> X) (m : M A B)
  : M (X * W) B :=
  fun s => let '(r, a') := m (getter s.1) in (r, (setter a' s.1, s.2)).

(** A constructor that calls a method of the object it is building: the
    method runs on the attributes set so far. *)
Definition under_construction {X W} (self : X) (m : M (X * W) unit) : M W X :=
  fun w =>
    match m (self, w) with
    | (Ok _, (self', w')) => (Ok self', w')
    | (Raise e, (_, w')) => (Raise e, w')
    end.

(** ** Loops *)

(** [for x in l: body] when the body does not change the list it walks. *)
Fixpoint for_each {S A} (l : list A) (body : A -> M S unit) : M S unit :=
  match l with
  | [] => mret tt
  | x :: l' => body x;; for_each l' body
  end.

(** [for _ in range(n): body]; [range(n)] is empty for [n <= 0]. *)
Fixpoint repeat_n {St} (n : nat) (body : M St unit) : M St unit :=
  match n with
  | O => mret tt
  | S n' => body;; repeat_n n' body
  end.
Definition for_range {St} (n : Z) (body : M St unit) : M St unit :=
  repeat_n (Z.to_nat n) body.

(** [for x in self.lst: body] when the body may remove elements of
    [self.lst]: Python's list iterator keeps an index, reads the current list
    at that index in every round and stops when the index is past the end.
    No body of the repository lengthens the list it walks, so the number of
    rounds is at most the length of the list when the loop starts, which is
    the fuel given by [for_in]. *)
Fixpoint for_from {St A} (fuel i : nat) (lst : St -> list A) (body : A -> M St unit)
  : M St unit :=
  match fuel with
  | O => mret tt
  | S fuel' =>
      s ← get;
      match lst s !! i with
      | None => mret tt
      | Some x => body x;; for_from fuel' (S i) lst body
      end
  end.
Definition for_in {S A} (lst : S -> list A) (body : A -> M S unit) : M S unit :=
  s ← get; for_from (length (lst s)) 0 lst body.

(** ** Numbers

    Coordinates flow through the programs as Python numbers: the
    configuration gives integers, Pymunk stores positions and velocities as
    C doubles.  The code is embedded once, over any number type [F] with the
    operations the programs use; the rationals (exact arithmetic) and
    binary64 (what CPython and Pymunk compute with) are instances. *)
Class Num (F : Type) := {
  of_int : Z -> F;
  nadd : F -> F -> F;
  nsub : F -> F -> F;
  nmul : F -> F -> F;
  ndiv : F -> F -> F;
  nneg : F -> F;
  nlt : F -> F -> bool;
  (** Python's [int(x)]: truncation towards zero *)
  ntrunc : F -> Z;
}.

Definition Qc_of_Z (z : Z) : Qc := Q2Qc (inject_Z z).
Definition Qc_trunc (q : Qc) : Z := Z.quot (Qnum q) (Z.pos (Qden q)).

#[global] Instance Num_Qc : Num Qc := {|
  of_int := Qc_of_Z;
  nadd := Qcplus;
  nsub := Qcminus;
  nmul := Qcmult;
  ndiv := Qcdiv;
  nneg := Qcopp;
  nlt x y := bool_decide (x < y)%Qc;
  ntrunc := Qc_trunc;
|}.

(** Python's [float(z)] for the integers met here (below 2^63 in absolute
    value). *)
Definition float_of_Z (z : Z) : PrimFloat.float :=
  if z <? 0 then PrimFloat.opp (PrimFloat.of_uint63 (Uint63.of_Z (- z)))
  else PrimFloat.of_uint63 (Uint63.of_Z z).

Definition float_trunc (f : PrimFloat.float) : Z :=
  match FloatOps.Prim2SF f with
  | SpecFloat.S754_finite s m e =>
      let v := if 0 <=? e then Z.pos m * 2 ^ e else Z.pos m / 2 ^ (- e) in
      if s then - v else v
  | _ => 0
  end.

#[global] Instance Num_float : Num PrimFloat.float := {|
  of_int := float_of_Z;
  nadd := PrimFloat.add;
  nsub := PrimFloat.sub;
  nmul := PrimFloat.mul;
  ndiv := PrimFloat.div;
  nneg := PrimFloat.opp;
  nlt := PrimFloat.ltb;
  ntrunc := float_trunc;
|}.

(** Python's [a // b] and [a / b] on integers raise on a zero divisor. *)
Definition floordiv {St} (a b : Z) : M St Z :=
  if b =? 0 then raise ZeroDivisionError else mret (a / b).

(** ** Pygame: events and the calls the programs make *)

Inductive key := K_SPACE | K_UP | K_DOWN | K_LEFT | K_RIGHT | K_r | K_other.

Inductive event :=
| QUIT
| KEYDOWN (k : key)
| MOUSEBUTTONDOWN
| MOUSEBUTTONUP
| OTHER_EVENT.

(** The shape classes of Pymunk.  The repository builds circles and
    segments only; [Poly] is the third class the library offers. *)
Inductive geometry :=
| Circle (radius : Z)
| Segment (a b : Z * Z) (radius : Z)
| Poly (vertices : list (Z * Z)) (radius : Z).

#[global] Instance geometry_eq_dec : EqDecision geometry.
Proof. solve_decision. Defined.

Definition circle_or_segment (g : geometry) : bool :=
  match g with
  | Circle _ | Segment _ _ _ => true
  | Poly _ _ => false
  end.

(** An object handed to [Space.add] or [Space.remove], as the log keeps
    it: the identity of a body, or the identity and class of a shape. *)
Inductive logged_obj :=
| LBody (i : nat)
| LShape (i : nat) (g : geometry).

#[global] Instance logged_obj_eq_dec : EqDecision logged_obj.
Proof. solve_decision. Defined.

(** The calls into Pygame and Pymunk that the programs make, in the order
    they are made; this log is how the world sees a run. *)
Inductive call :=
| lib_pygame_init
| lib_display_set_mode (w h : Z)
| lib_display_set_caption
| lib_Clock_new
| lib_Clock_tick (fps : Z)
| lib_event_get
| lib_mouse_get_pos
| lib_image_load (path : string)
| lib_transform_scale (w h : Z)
| lib_transform_rotate (angle : Z)
| lib_sprite_group_draw
| lib_surface_fill
| lib_surface_blit
| lib_draw_circle
| lib_draw_line
| lib_display_update
| lib_space_new
| lib_space_step
| lib_space_add (objs : list logged_obj)
| lib_space_remove (objs : list logged_obj).

#[global] Instance call_eq_dec : EqDecision call.
Proof. solve_decision. Defined.

(** ** Pymunk: bodies, shapes and spaces *)

Inductive body_type := DYNAMIC | KINEMATIC | STATIC.

Section Pymunk.
Context {F : Type} {NF : Num F}.

Definition vec : Type := F * F.
Definition vec_of_int (p : Z * Z) : vec := (of_int p.1, of_int p.2).

(** A [pymunk.Body].  Bodies are mutable and shared (a ball and the space
    it was added to hold the same body), so they live in a store and are
    referred to by identity. *)
Record Body := mkBody {
  b_type : body_type;
  b_mass : Z;
  b_moment : Z;
  position : vec;
  velocity : vec;
}.

#[global] Instance Body_inhabited : Inhabited Body :=
  populate (mkBody STATIC 0 0 (vec_of_int (0, 0)) (vec_of_int (0, 0))).

Definition set_position (p : vec) (b : Body) : Body :=
  mkBody (b_type b) (b_mass b) (b_moment b) p (velocity b).
Definition set_velocity (v : vec) (b : Body) : Body :=
  mkBody (b_type b) (b_mass b) (b_moment b) (position b) v.

(** A [pymunk.Shape]: its identity, the body it is attached to, and its
    data, which no program changes once the shape is in a space. *)
Record Shape := mkShape {
  shape_id : nat;
  shape_body : nat;
  geom : geometry;
  elasticity : F;
  friction : F;
}.

Definition shape_radius (sh : Shape) : Z :=
  match geom sh with
  | Circle r => r
  | Segment _ _ r => r
  | Poly _ r => r
  end.


(** A [pymunk.Space]: the bodies and the shapes that were added to it. *)
Record Space := mkSpace {
  sp_bodies : gset nat;
  sp_shapes : gmap nat Shape;
  gravity : Z * Z;
}.

Definition Space_empty : Space := mkSpace ∅ ∅ (0, 0).
Definition set_gravity (g : Z * Z) (sp : Space) : Space :=
  mkSpace (sp_bodies sp) (sp_shapes sp) g.

(** What is handed to [Space.add] and [Space.remove]. *)
Inductive obj :=
| OBody (i : nat)
| OShape (sh : Shape).

(** [Space.add] of several objects takes the objects in order; Pymunk asserts that an
    object is not yet in the space. *)
Definition Space_add1 (o : obj) : M Space unit :=
  sp ← get;
  match o with
  | OBody i =>
      if decide (i ∈ sp_bodies sp) then raise AssertionError
      else put (mkSpace ({[i]} ∪ sp_bodies sp) (sp_shapes sp) (gravity sp))
  | OShape sh =>
      match sp_shapes sp !! shape_id sh with
      | Some _ => raise AssertionError
      | None => put (mkSpace (sp_bodies sp) (<[shape_id sh := sh]> (sp_shapes sp)) (gravity sp))
      end
  end.
Definition Space_add (objs : list obj) : M Space unit := for_each objs Space_add1.

(** [Space.remove] of several objects takes the objects in order; Pymunk asserts that
    each one is in the space ("already removed?"), so removing an object
    twice raises [AssertionError]. *)
Definition Space_remove1 (o : obj) : M Space unit :=
  sp ← get;
  match o with
  | OBody i =>
      if decide (i ∈ sp_bodies sp)
      then put (mkSpace (sp_bodies sp ∖ {[i]}) (sp_shapes sp) (gravity sp))
      else raise AssertionError
  | OShape sh =>
      match sp_shapes sp !! shape_id sh with
      | Some _ => put (mkSpace (sp_bodies sp) (delete (shape_id sh) (sp_shapes sp)) (gravity sp))
      | None => raise AssertionError
      end
  end.
Definition Space_remove (objs : list obj) : M Space unit := for_each objs Space_remove1.

(** ** The world outside the program

    The store of Pymunk bodies, the physics engine, Python's [random]
    module, the Pygame event queue and mouse, the file system, and the log
    of the library calls made so far. *)
Record World := mkWorld {
  bodies : gmap nat Body;
  next_id : nat;
  (** the engine: the position and velocity that one [Space.step] gives to
      a body of the space *)
  physics : Space -> gmap nat Body -> nat -> vec * vec;
  (** [random]: the stream of raw draws and how many were consumed *)
  rng : nat -> nat;
  rng_pos : nat;
  event_queue : list event;
  mouse : Z * Z;
  path_exists : string -> bool;
  calls : list call;
}.

Definition set_bodies (f : gmap nat Body -> gmap nat Body) (w : World) : World :=
  mkWorld (f (bodies w)) (next_id w) (physics w) (rng w) (rng_pos w)
          (event_queue w) (mouse w) (path_exists w) (calls w).
Definition set_next_id (n : nat) (w : World) : World :=
  mkWorld (bodies w) n (physics w) (rng w) (rng_pos w)
          (event_queue w) (mouse w) (path_exists w) (calls w).
Definition set_rng_pos (n : nat) (w : World) : World :=
  mkWorld (bodies w) (next_id w) (physics w) (rng w) n
          (event_queue w) (mouse w) (path_exists w) (calls w).
Definition set_event_queue (q : list event) (w : World) : World :=
  mkWorld (bodies w) (next_id w) (physics w) (rng w) (rng_pos w)
          q (mouse w) (path_exists w) (calls w).
Definition set_mouse (p : Z * Z) (w : World) : World :=
  mkWorld (bodies w) (next_id w) (physics w) (rng w) (rng_pos w)
          (event_queue w) p (path_exists w) (calls w).
Definition set_calls (f : list call -> list call) (w : World) : World :=
  mkWorld (bodies w) (next_id w) (physics w) (rng w) (rng_pos w)
          (event_queue w) (mouse w) (path_exists w) (f (calls w)).

(** A library call is appended to the log. *)
Definition log (c : call) : M World unit := modify (set_calls (fun l => l ++ [c])).

Definition describe (o : obj) : logged_obj :=
  match o with
  | OBody i => LBody i
  | OShape sh => LShape (shape_id sh) (geom sh)
  end.

(** [space.add(...)] in a constructor, where the space is still a local
    value: an exception leaves the constructor. *)
Definition Space_add_to (sp : Space) (objs : list obj) : M World Space :=
  log (lib_space_add (describe <$> objs));;
  match Space_add objs sp with
  | (Ok _, sp') => mret sp'
  | (Raise e, _) => raise e
  end.

(** [self.space.add(...)] and [self.space.remove(...)], for a space held
    in an attribute of [self]. *)
Definition attr_space_add {X} (getter : X -> Space) (setter : Space -> X -> X)
           (objs : list obj) : M (X * World) unit :=
  on_world (log (lib_space_add (describe <$> objs)));;
  on_attr getter setter (Space_add objs).
Definition attr_space_remove {X} (getter : X -> Space) (setter : Space -> X -> X)
           (objs : list obj) : M (X * World) unit :=
  on_world (log (lib_space_remove (describe <$> objs)));;
  on_attr getter setter (Space_remove objs).

(** *** Pymunk objects in the world *)

Definition fresh_id : M World nat :=
  w ← get; put (set_next_id (S (next_id w)) w);; mret (next_id w).

(** [pymunk.Body(mass, moment, body_type)]: a new body at the origin. *)
Definition Body_new (ty : body_type) (mass moment : Z) : M World nat :=
  i ← fresh_id;
  modify (set_bodies (insert i (mkBody ty mass moment (vec_of_int (0, 0)) (vec_of_int (0, 0)))));;
  mret i.

Definition body_of (w : World) (i : nat) : Body := bodies w !!! i.
Definition Body_set_position (i : nat) (p : vec) : M World unit :=
  modify (set_bodies (fun h => <[i := set_position p (h !!! i)]> h)).
Definition Body_set_velocity (i : nat) (v : vec) : M World unit :=
  modify (set_bodies (fun h => <[i := set_velocity v (h !!! i)]> h)).

(** [pymunk.Circle(body, radius)] and [pymunk.Segment(body, a, b, radius)];
    elasticity and friction are 0 until they are assigned. *)
Definition Shape_new (body : nat) (g : geometry) (e f : F) : M World Shape :=
  i ← fresh_id; mret (mkShape i body g e f).

(** [pymunk.Space()]. *)
Definition Space_new : M World Space := log lib_space_new;; mret Space_empty.

(** [space.step(dt)]: the engine moves the bodies of the space; it neither
    adds nor removes anything (the programs register no callback). *)
Definition step_bodies (sp : Space) (w : World) : gmap nat Body :=
  map_imap (fun i b =>
              Some (if decide (i ∈ sp_bodies sp)
                    then let kin := physics w sp (bodies w) i in
                         set_velocity kin.2 (set_position kin.1 b)
                    else b)) (bodies w).
Definition Space_step (sp : Space) : M World unit :=
  log lib_space_step;;
  w ← get; put (set_bodies (fun _ => step_bodies sp w) w).

(** *** Python's [random] *)

Definition rng_draw : M World nat :=
  w ← get; put (set_rng_pos (S (rng_pos w)) w);; mret (rng w (rng_pos w)).

(** [random.randrange(start, stop)]: [ValueError] on an empty range. *)
Definition randrange (start stop : Z) : M World Z :=
  if start <? stop
  then d ← rng_draw; mret (start + Z.of_nat d mod (stop - start))
  else raise (ValueError "empty range for randrange()").

(** [random.choice((-1, 1))] and [random.choice((False, True))]. *)
Definition choice_sign : M World Z :=
  d ← rng_draw; mret (if Nat.even d then -1 else 1).
Definition choice_bool : M World bool :=
  d ← rng_draw; mret (Nat.odd d).
(** [random.choice(seq)] on a list. *)
Definition choice {A} (l : list A) : M World A :=
  match l with
  | [] => raise IndexError
  | x :: _ => d ← rng_draw; mret (nth (d mod length l)%nat l x)
  end.

(** [random.choices(population=range(255), k=3)]: an RGB colour. *)
Definition rgb : Type := list Z.
Definition random_color : M World rgb :=
  r ← rng_draw; g ← rng_draw; b ← rng_draw;
  mret [Z.of_nat r mod 255; Z.of_nat g mod 255; Z.of_nat b mod 255].

(** [random.random() > 0.5]. *)
Definition random_gt_half : M World bool :=
  d ← rng_draw; mret (Nat.odd d).

(** *** Pygame in the world *)

(** [pygame.event.get()]: the queued events, which leave the queue. *)
Definition pygame_event_get : M World (list event) :=
  log lib_event_get;;
  w ← get; put (set_event_queue [] w);; mret (event_queue w).

Definition pygame_mouse_get_pos : M World (Z * Z) :=
  log lib_mouse_get_pos;; gets mouse.

(** The four calls with which every constructor opens the window. *)
Definition open_window (w h : Z) : M World unit :=
  log lib_pygame_init;; log (lib_display_set_mode w h);; log lib_display_set_caption;; log lib_Clock_new.

End Pymunk.

Arguments Body F : clear implicits.
Arguments Shape F : clear implicits.
Arguments Space F : clear implicits.
Arguments World F : clear implicits.
Arguments obj F : clear implicits.
Arguments vec F : clear implicits.

(** ** Python values and lists *)

(** What [process_events] hands back to the main loop: a [bool], or, in
    one program, a list. *)
Inductive pyval (A : Type) :=
| PyBool (b : bool)
| PyList (l : list A).
Arguments PyBool {A} b.
Arguments PyList {A} l.

(** Python's truth value, as [while running:] tests it. *)
Definition truthy {A} (v : pyval A) : bool :=
  match v with
  | PyBool b => b
  | PyList l => negb (bool_decide (l = []))
  end.

(** [l.remove(x)]: the first element that is [x] leaves the list;
    [ValueError] when there is none.  Objects are compared by identity,
    which [same] decides. *)
Fixpoint remove_first {A} (same : A -> bool) (l : list A) : option (list A) :=
  match l with
  | [] => None
  | y :: l' => if same y then Some l' else cons y <$> remove_first same l'
  end.
Definition list_remove {St A} (same : A -> bool) (l : list A) : M St (list A) :=
  match remove_first same l with
  | Some l' => mret l'
  | None => raise (ValueError "list.remove(x): x not in list")
  end.

(** ** The main loop

    Every program ends with the same block:
    [running = True; while running: running = x.process_events();
     x.run_logic(); x.draw(); x.clock_tick()].
    It is embedded once, over the four methods.  The user and the clock
    are outside the program: each frame brings the events queued since the
    last one and the position of the mouse. *)

Record Simulation (St A : Type) := mkSimulation {
  sim_process_events : M St (pyval A);
  sim_run_logic : M St unit;
  sim_draw : M St unit;
  sim_clock_tick : M St unit;
}.
Arguments mkSimulation {St A}.
Arguments sim_process_events {St A}.
Arguments sim_run_logic {St A}.
Arguments sim_draw {St A}.
Arguments sim_clock_tick {St A}.

Record Frame := mkFrame {
  frame_events : list event;
  frame_mouse : Z * Z;
}.

Definition arrive {F} (f : Frame) (w : World F) : World F :=
  set_mouse (frame_mouse f) (set_event_queue (frame_events f) w).

(** The method calls that returned, in order; [process_events] with the
    value it returned. *)
Inductive method_call (A : Type) :=
| called_process_events (returned : pyval A)
| called_run_logic
| called_draw
| called_clock_tick.
Arguments called_process_events {A} returned.
Arguments called_run_logic {A}.
Arguments called_draw {A}.
Arguments called_clock_tick {A}.

(** How a run over finitely many frames ends: the loop was left, or it is
    still running when the frames are used up, or a method raised. *)
Inductive ending :=
| Exited
| StillRunning
| Crashed (e : exn).

Record Run (St A : Type) := mkRun {
  trace : list (method_call A);
  ended : ending;
  final : St;
}.
Arguments mkRun {St A}.
Arguments trace {St A}.
Arguments ended {St A}.
Arguments final {St A}.

(** One pass through the body of the [while]. *)
Definition iteration {St A} (sim : Simulation St A) (s : St) : Run St A * option (pyval A) :=
  match sim_process_events sim s with
  | (Raise e, s1) => (mkRun [] (Crashed e) s1, None)
  | (Ok running, s1) =>
      match sim_run_logic sim s1 with
      | (Raise e, s2) => (mkRun [called_process_events running] (Crashed e) s2, None)
      | (Ok _, s2) =>
          match sim_draw sim s2 with
          | (Raise e, s3) =>
              (mkRun [called_process_events running; called_run_logic] (Crashed e) s3, None)
          | (Ok _, s3) =>
              match sim_clock_tick sim s3 with
              | (Raise e, s4) =>
                  (mkRun [called_process_events running; called_run_logic; called_draw]
                         (Crashed e) s4, None)
              | (Ok _, s4) =>
                  (mkRun [called_process_events running; called_run_logic; called_draw;
                          called_clock_tick] StillRunning s4, Some running)
              end
          end
      end
  end.

(** [while running: ...], entered with [running = True]. *)
Fixpoint main_loop {X F A} (sim : Simulation (X * World F) A) (frames : list Frame)
         (s : X * World F) : Run (X * World F) A :=
  match frames with
  | [] => mkRun [] StillRunning s
  | f :: frames' =>
      match iteration sim (s.1, arrive f s.2) with
      | (r, None) => r
      | (r, Some running) =>
          if truthy running
          then let r' := main_loop sim frames' (final r) in
               mkRun (trace r ++ trace r') (ended r') (final r')
          else mkRun (trace r) Exited (final r)
      end
  end.

(** The whole [__main__] block: the constructor, then the loop.  The
    result is the trace of the loop, how the run ended and the world at the
    end.  A constructor gives [None] when it was cut while still looping. *)
Definition main {X F A} (init : M (World F) (option X)) (sim : Simulation (X * World F) A)
           (frames : list Frame) (w : World F) : list (method_call A) * ending * World F :=
  match init w with
  | (Ok (Some self), w') =>
      let r := main_loop sim frames (self, w') in (trace r, ended r, (final r).2)
  | (Ok None, w') => ([], StillRunning, w')
  | (Raise e, w') => ([], Crashed e, w')
  end.

(** A constructor that always comes to an end. *)
Definition returning {W A} (m : M W A) : M W (option A) := a ← m; mret (Some a).

(** The number of times a call stands in the log of the world. *)
Definition n_calls {F} (c : call) (w : World F) : nat := count_occ call_eq_dec (calls w) c.

(** The calls a computation added to the log. *)
Definition new_calls {F} (before after : World F) : list call :=
  drop (length (calls before)) (calls after).

(** * colorful_flooding *)

Module Ball.
Section Ball.
Context {F : Type} {NF : Num F}.

Record t := mk {
  color : rgb;
  body : nat;
  shape : Shape F;
}.

(** [Ball.__init__] *)
Definition init (center : Z * Z) (mass radius : Z) (elasticity friction : F)
           (color : rgb) : M (World F) t :=
  body ← Body_new DYNAMIC mass 1;
  Body_set_position body (vec_of_int center);;
  shape ← Shape_new body (Circle radius) elasticity friction;
  mret (mk color body shape).

(** [Ball.is_out_of_the_screen]:
    [self.body.position[1] - self.shape.radius // 2 > screen_height] *)
Definition is_out_of_the_screen (self : t) (screen_height : Z) (w : World F) : bool :=
  nlt (of_int screen_height)
      (nsub (position (body_of w (body self))).2 (of_int (shape_radius (shape self) / 2))).

(** Two balls are the same object when they hold the same body. *)
Definition same (a b : t) : bool := bool_decide (body a = body b).

Definition draw (self : t) : M (World F) unit := log lib_draw_circle.

End Ball.
Arguments t F : clear implicits.
End Ball.

Module ColorfulFlooding.
Section ColorfulFlooding.
Context {F : Type} {NF : Num F}.

(** The keys of [colorful_flooding/config.yml] that the code reads. *)
Record Config := mkConfig {
  screen_width : Z;
  screen_height : Z;
  gravity_y : Z;
  n_sources : Z;
  create_balls_every : Z;
  mass : Z;
  radius : Z;
  elasticity : F;
  friction : F;
  pygame_clock_tick : Z;
}.

Record t := mk {
  _config : Config;
  space : Space F;
  sources_positions : list (Z * Z);
  _screen_bottom : nat * Shape F;
  balls_list : list (Ball.t F);
  counter : Z;
  _remove_screen_bottom : bool;
}.

Definition set_space (sp : Space F) (self : t) : t :=
  mk (_config self) sp (sources_positions self) (_screen_bottom self)
     (balls_list self) (counter self) (_remove_screen_bottom self).
Definition set_balls_list (l : list (Ball.t F)) (self : t) : t :=
  mk (_config self) (space self) (sources_positions self) (_screen_bottom self)
     l (counter self) (_remove_screen_bottom self).
Definition set_counter (c : Z) (self : t) : t :=
  mk (_config self) (space self) (sources_positions self) (_screen_bottom self)
     (balls_list self) c (_remove_screen_bottom self).
Definition set_remove_screen_bottom (b : bool) (self : t) : t :=
  mk (_config self) (space self) (sources_positions self) (_screen_bottom self)
     (balls_list self) (counter self) b.

Definition St : Type := t * World F.

(** [self.space.add(...)] and [self.space.remove(...)] *)
Definition space_add (objs : list (obj F)) : M St unit :=
  attr_space_add space set_space objs.
Definition space_remove (objs : list (obj F)) : M St unit :=
  attr_space_remove space set_space objs.

(** A static body with a segment of radius 4 on it. *)
Definition new_border (a b : Z * Z) : M (World F) (nat * Shape F) :=
  body ← Body_new STATIC 0 0;
  shape ← Shape_new body (Segment a b 4) (of_int 0) (of_int 0);
  mret (body, shape).

(** [ColorfulFlooding.__init__]; [cfg] is what [_get_config] reads. *)
Definition init (cfg : Config) : M (World F) t :=
  open_window (screen_width cfg) (screen_height cfg);;
  space ← Space_new;
  let space := set_gravity (0, gravity_y cfg) space in
  let sources_y := screen_height cfg / 5 in
  sources_intra_distance ← floordiv (screen_width cfg) (n_sources cfg + 1);
  let sources_positions :=
    (fun k => (k * sources_intra_distance, sources_y)) <$> seqZ 1 (n_sources cfg) in
  let tl := (0, 0) in
  let tr := (screen_width cfg, 0) in
  let bl := (0, screen_height cfg) in
  let br := (screen_width cfg, screen_height cfg) in
  _screen_bottom ← new_border bl br;
  upper ← new_border tl tr;
  left ← new_border tl bl;
  right ← new_border tr br;
  space ← Space_add_to space
            [OBody _screen_bottom.1; OShape _screen_bottom.2;
             OBody upper.1; OShape upper.2;
             OBody left.1; OShape left.2;
             OBody right.1; OShape right.2];
  mret (mk cfg space sources_positions _screen_bottom [] 0 false).

(** [ColorfulFlooding.process_events]: the loop over the events, which
    may return [False] from inside ([Some]), then the final [return]. *)
Fixpoint process_events_loop (evs : list event) : M St (option (pyval (Ball.t F))) :=
  match evs with
  | [] => mret None
  | QUIT :: _ => mret (Some (PyBool false))
  | KEYDOWN K_SPACE :: evs' =>
      on_self (modify (set_remove_screen_bottom true));; process_events_loop evs'
  | _ :: evs' => process_events_loop evs'
  end.

Definition process_events : M St (pyval (Ball.t F)) :=
  evs ← on_world pygame_event_get;
  r ← process_events_loop evs;
  match r with
  | Some v => mret v
  | None =>
      (* return not self._remove_screen_bottom or self.balls_list *)
      self ← gets fst;
      mret (if negb (_remove_screen_bottom self) then PyBool true
            else PyList (balls_list self))
  end.

(** The body of the loop over [self.sources_positions] in [run_logic]. *)
Definition create_ball (source : Z * Z) : M St unit :=
  cfg ← gets (fun s => _config s.1);
  sign ← on_world choice_sign;
  col ← on_world random_color;
  new_ball ← on_world (Ball.init (source.1 + sign, source.2) (mass cfg) (radius cfg)
                                 (elasticity cfg) (friction cfg) col);
  on_self (modify (fun self => set_balls_list (balls_list self ++ [new_ball]) self));;
  space_add [OBody (Ball.body new_ball); OShape (Ball.shape new_ball)].

(** The body of the loop over [self.balls_list] in [run_logic]. *)
Definition remove_if_out (ball : Ball.t F) : M St unit :=
  s ← get;
  if Ball.is_out_of_the_screen ball (screen_height (_config s.1)) s.2 then
    l ← list_remove (Ball.same ball) (balls_list s.1);
    on_self (modify (set_balls_list l));;
    space_remove [OBody (Ball.body ball); OShape (Ball.shape ball)]
  else mret tt.

(** The [try]/[except AssertionError: pass] around the removal of the
    bottom segment. *)
Definition remove_bottom : M St unit :=
  self ← gets fst;
  try_except_pass
    (space_remove [OBody (_screen_bottom self).1; OShape (_screen_bottom self).2])
    is_AssertionError.

(** [ColorfulFlooding.run_logic] *)
Definition run_logic : M St unit :=
  self ← gets fst;
  on_world (Space_step (space self));;
  on_self (modify (fun self => set_counter (counter self + 1) self));;
  self ← gets fst;
  (if negb (_remove_screen_bottom self)
      && (counter self =? create_balls_every (_config self))
   then
     on_self (modify (set_counter 0));;
     for_each (sources_positions self) create_ball
   else mret tt);;
  self ← gets fst;
  (if _remove_screen_bottom self then remove_bottom else mret tt);;
  for_in (fun s : St => balls_list s.1) remove_if_out.

(** [ColorfulFlooding.draw] *)
Definition draw : M St unit :=
  on_world (log lib_surface_fill);;
  self ← gets fst;
  for_each (balls_list self) (fun ball => on_world (Ball.draw ball));;
  on_world (log lib_display_update).

(** [ColorfulFlooding.clock_tick] *)
Definition clock_tick : M St unit :=
  cfg ← gets (fun s => _config s.1);
  on_world (log (lib_Clock_tick (pygame_clock_tick cfg))).

(** The program, as the main loop sees it. *)
Definition simulation : Simulation St (Ball.t F) :=
  mkSimulation process_events run_logic draw clock_tick.

End ColorfulFlooding.
Arguments t F : clear implicits.
Arguments Config F : clear implicits.
Arguments St F : clear implicits.
End ColorfulFlooding.

(** * wrecking_ball *)

Module SmallBall.
Section SmallBall.
Context {F : Type} {NF : Num F}.

Record t := mk {
  color : rgb;
  radius : Z;
  body : nat;
  shape : Shape F;
}.

(** [SmallBall.__init__] *)
Definition init (center : Z * Z) (radius mass : Z) (elasticity friction : F)
           (color : rgb) : M (World F) t :=
  body ← Body_new DYNAMIC mass 1;
  Body_set_position body (vec_of_int center);;
  shape ← Shape_new body (Circle radius) elasticity friction;
  mret (mk color radius body shape).

(** [SmallBall.is_out_of_screen] *)
Definition is_out_of_screen (self : t) (screen_width screen_height : Z) (w : World F)
  : bool :=
  let pos := position (body_of w (body self)) in
  let out_lower := nlt (of_int screen_height) (nsub pos.2 (of_int (radius self / 2))) in
  let out_left := nlt (nadd pos.1 (of_int (radius self / 2))) (of_int 0) in
  let out_right := nlt (of_int screen_width) (nsub pos.1 (of_int (radius self / 2))) in
  out_lower || out_left || out_right.

Definition same (a b : t) : bool := bool_decide (body a = body b).

Definition draw (self : t) : M (World F) unit := log lib_draw_circle.

End SmallBall.
Arguments t F : clear implicits.
End SmallBall.

Module WreckingBall.
Section WreckingBall.
Context {F : Type} {NF : Num F}.

(** The keys of [wrecking_ball/config.yml] that the code reads. *)
Record Config := mkConfig {
  screen_width : Z;
  screen_height : Z;
  gravity_y : Z;
  min_velocity_x : Z;
  max_velocity_x : Z;
  min_velocity_y : Z;
  max_velocity_y : Z;
  wrecking_ball_radius : Z;
  small_ball_radius : Z;
  small_ball_mass : Z;
  elasticity : F;
  friction : F;
  pygame_clock_tick : Z;
}.

Record t := mk {
  _config : Config;
  space : Space F;
  wrecking_ball_body : nat;
  wrecking_ball_shape : Shape F;
  small_balls_list : list (SmallBall.t F);
}.

Definition set_space (sp : Space F) (self : t) : t :=
  mk (_config self) sp (wrecking_ball_body self) (wrecking_ball_shape self)
     (small_balls_list self).
Definition set_small_balls_list (l : list (SmallBall.t F)) (self : t) : t :=
  mk (_config self) (space self) (wrecking_ball_body self) (wrecking_ball_shape self) l.

Definition St : Type := t * World F.

Definition space_add (objs : list (obj F)) : M St unit :=
  attr_space_add space set_space objs.
Definition space_remove (objs : list (obj F)) : M St unit :=
  attr_space_remove space set_space objs.

(** [WreckingBall.__init__] *)
Definition init (cfg : Config) : M (World F) t :=
  open_window (screen_width cfg) (screen_height cfg);;
  space ← Space_new;
  let space := set_gravity (0, gravity_y cfg) space in
  wrecking_ball_body ← Body_new KINEMATIC 0 0;
  Body_set_position wrecking_ball_body
                    (vec_of_int (screen_width cfg / 2, screen_height cfg / 2));;
  vx ← randrange (min_velocity_x cfg) (max_velocity_x cfg);
  sx ← choice_sign;
  let velocity_x := vx * sx in
  vy ← randrange (min_velocity_y cfg) (max_velocity_y cfg);
  sy ← choice_sign;
  let velocity_y := vy * sy in
  Body_set_velocity wrecking_ball_body (vec_of_int (velocity_x, velocity_y));;
  wrecking_ball_shape ← Shape_new wrecking_ball_body (Circle (wrecking_ball_radius cfg))
                                  (of_int 0) (of_int 0);
  space ← Space_add_to space [OBody wrecking_ball_body; OShape wrecking_ball_shape];
  mret (mk cfg space wrecking_ball_body wrecking_ball_shape []).

(** [WreckingBall.process_events] *)
Fixpoint process_events_loop (evs : list event) : option bool :=
  match evs with
  | [] => None
  | QUIT :: _ => Some false
  | _ :: evs' => process_events_loop evs'
  end.
Definition process_events : M St (pyval unit) :=
  evs ← on_world pygame_event_get;
  match process_events_loop evs with
  | Some b => mret (PyBool b)
  | None => mret (PyBool true)
  end.

(** The first part of [run_logic]: keep the wrecking ball in the screen.
    Both tests read the velocity as it was before the first assignment. *)
Definition bounce : M St unit :=
  self ← gets fst;
  w ← gets snd;
  let cfg := _config self in
  let b := body_of w (wrecking_ball_body self) in
  let '(vel_x, vel_y) := velocity b in
  let '(x, y) := position b in
  let r := of_int (shape_radius (wrecking_ball_shape self)) in
  (if nlt (of_int (screen_width cfg)) (nadd x r) || nlt (nsub x r) (of_int 0)
   then on_world (Body_set_velocity (wrecking_ball_body self) (nneg vel_x, vel_y))
   else mret tt);;
  (if nlt (of_int (screen_height cfg)) (nadd y r) || nlt (nsub y r) (of_int 0)
   then on_world (Body_set_velocity (wrecking_ball_body self) (vel_x, nneg vel_y))
   else mret tt).

(** The second part: a new small ball above the top of the screen. *)
Definition create_small_ball : M St unit :=
  cfg ← gets (fun s => _config s.1);
  x ← on_world (randrange 0 (screen_width cfg));
  let new_random_center := (x, (- screen_height cfg) / 4) in
  col ← on_world random_color;
  new_small_ball ← on_world (SmallBall.init new_random_center (small_ball_radius cfg)
                                (small_ball_mass cfg) (elasticity cfg) (friction cfg) col);
  on_self (modify (fun self =>
                     set_small_balls_list (small_balls_list self ++ [new_small_ball]) self));;
  space_add [OBody (SmallBall.body new_small_ball); OShape (SmallBall.shape new_small_ball)].

(** The body of the loop over [self.small_balls_list]. *)
Definition remove_if_out (small_ball : SmallBall.t F) : M St unit :=
  s ← get;
  let cfg := _config s.1 in
  if SmallBall.is_out_of_screen small_ball (screen_width cfg) (screen_height cfg) s.2 then
    l ← list_remove (SmallBall.same small_ball) (small_balls_list s.1);
    on_self (modify (set_small_balls_list l));;
    space_remove [OBody (SmallBall.body small_ball); OShape (SmallBall.shape small_ball)]
  else mret tt.

(** [WreckingBall.run_logic] *)
Definition run_logic : M St unit :=
  self ← gets fst;
  on_world (Space_step (space self));;
  bounce;;
  create_small_ball;;
  for_in (fun s : St => small_balls_list s.1) remove_if_out.

(** [WreckingBall.draw] *)
Definition draw : M St unit :=
  on_world (log lib_surface_fill);;
  on_world (log lib_draw_circle);;
  self ← gets fst;
  for_each (small_balls_list self) (fun b => on_world (SmallBall.draw b));;
  on_world (log lib_display_update).

(** [WreckingBall.clock_tick] *)
Definition clock_tick : M St unit :=
  cfg ← gets (fun s => _config s.1);
  on_world (log (lib_Clock_tick (pygame_clock_tick cfg))).

(** The program, as the main loop sees it. *)
Definition simulation : Simulation St unit :=
  mkSimulation process_events run_logic draw clock_tick.

End WreckingBall.
Arguments t F : clear implicits.
Arguments Config F : clear implicits.
Arguments St F : clear implicits.
End WreckingBall.

(** * sand_clock *)

Module SandGrain.
Section SandGrain.
Context {F : Type} {NF : Num F}.

Definition desert_yellow : rgb := [255; 200; 0].

Record t := mk {
  color : rgb;
  radius : Z;
  body : nat;
  shape : Shape F;
}.

(** The message of the [ValueError] that [SandGrain.__init__] raises. *)
Definition color_type_error (color_type : string) : string :=
  "'color_type' must be either 'random' or 'yellow'," +:+ "but " +:+ color_type
    +:+ " was given.".

(** [SandGrain.__init__] *)
Definition init (center : Z * Z) (radius mass : Z) (color_type : string)
  : M (World F) t :=
  color ← (if String.eqb color_type "random" then random_color
           else if String.eqb color_type "yellow" then mret desert_yellow
           else raise (ValueError (color_type_error color_type)));
  body ← Body_new DYNAMIC mass 1;
  Body_set_position body (vec_of_int center);;
  shape ← Shape_new body (Circle radius) (of_int 0) (of_int 0);
  mret (mk color radius body shape).

Definition draw (self : t) : M (World F) unit := log lib_draw_circle.

End SandGrain.
Arguments t F : clear implicits.
End SandGrain.

Module SandClockStructure.
Section SandClockStructure.
Context {F : Type} {NF : Num F}.

Record t := mk {
  center : Z * Z;
  width : Z;
  height : Z;
  line_width : Z;
  line_color : rgb;
  body : list nat;
  shape : list (Shape F);
}.

Definition static_body : M (World F) nat := Body_new STATIC 1 1.
Definition segment (body : nat) (a b : Z * Z) (radius : Z) : M (World F) (Shape F) :=
  Shape_new body (Segment a b radius) (of_int 0) (of_int 0).

(** [SandClockStructure.__init__]: six bodies, then six segments; the last
    three segments are all attached to the fourth body, as in the source. *)
Definition init (center : Z * Z) (width height neck_width line_width : Z)
           (line_color : rgb) : M (World F) t :=
  let tl := (center.1 - width / 2, center.2 - height / 2) in
  let tr := (center.1 + width / 2, center.2 - height / 2) in
  let nl := (center.1 - neck_width / 2, center.2) in
  let nr := (center.1 + neck_width / 2, center.2) in
  let bl := (center.1 - width / 2, center.2 + height / 2) in
  let br := (center.1 + width / 2, center.2 + height / 2) in
  b0 ← static_body; b1 ← static_body; b2 ← static_body;
  b3 ← static_body; b4 ← static_body; b5 ← static_body;
  s0 ← segment b0 tl tr line_width;
  s1 ← segment b1 tr nr line_width;
  s2 ← segment b2 nr br line_width;
  s3 ← segment b3 br bl line_width;
  s4 ← segment b3 bl nl line_width;
  s5 ← segment b3 nl tl line_width;
  mret (mk center width height line_width line_color
           [b0; b1; b2; b3; b4; b5] [s0; s1; s2; s3; s4; s5]).

(** [SandClockStructure.init_grain_random_position] *)
Definition init_grain_random_position (self : t) : M (World F) (Z * Z) :=
  let tl := ((center self).1 - width self / 2, (center self).2 - height self / 2) in
  (* m = (tl[1] - self.center[1]) / (tl[0] - self.center[0]) *)
  m ← (if tl.1 - (center self).1 =? 0 then raise ZeroDivisionError
       else mret (ndiv (of_int (tl.2 - (center self).2)) (of_int (tl.1 - (center self).1))));
  let b := nsub (of_int tl.2) (nmul m (of_int tl.1)) in
  x ← randrange (tl.1 + 30) ((center self).1 - 15);
  let y_max := ntrunc (nadd (nmul m (of_int x)) b) in
  y ← randrange (tl.2 + 5) (y_max - 5);
  random_gt_half ≫= fun heads : bool =>
  let x := if heads then (center self).1 - x + (center self).1 else x in
  mret (x, y).

Definition draw (self : t) : M (World F) unit :=
  for_each (shape self) (fun _ => log lib_draw_line).

End SandClockStructure.
Arguments t F : clear implicits.
End SandClockStructure.

Module SandClock.
Section SandClock.
Context {F : Type} {NF : Num F}.

(** The keys of [sand_clock/config.yml] that the code reads. *)
Record Config := mkConfig {
  screen_width : Z;
  screen_height : Z;
  gravity_y : Z;
  structure_width : Z;
  structure_height : Z;
  neck_width : Z;
  line_width : Z;
  line_color : rgb;
  n_sand_grains : Z;
  sand_grain_radius : Z;
  sand_grain_mass : Z;
  sand_grain_color_type : string;
  pygame_clock_tick : Z;
}.

Record t := mk {
  _config : Config;
  space : Space F;
  sand_clock_structure : SandClockStructure.t F;
  sand_grains_list : list (SandGrain.t F);
  _tip_over : bool;
  _reset : bool;
}.

Definition set_tip_over (b : bool) (self : t) : t :=
  mk (_config self) (space self) (sand_clock_structure self) (sand_grains_list self)
     b (_reset self).
Definition set_reset (b : bool) (self : t) : t :=
  mk (_config self) (space self) (sand_clock_structure self) (sand_grains_list self)
     (_tip_over self) b.

Definition St : Type := t * World F.

(** [for body, shape in zip(...): self.space.add(body, shape)] *)
Fixpoint add_structure (l : list (nat * Shape F)) (space : Space F) : M (World F) (Space F) :=
  match l with
  | [] => mret space
  | (body, shape) :: l' =>
      space ← Space_add_to space [OBody body; OShape shape];
      add_structure l' space
  end.

(** [for _ in range(n_sand_grains): ... self.sand_grains_list.append(sand_grain)] *)
Fixpoint create_grains (n : nat) (cfg : Config) (structure : SandClockStructure.t F)
         (acc : list (SandGrain.t F)) : M (World F) (list (SandGrain.t F)) :=
  match n with
  | O => mret acc
  | S n' =>
      center ← SandClockStructure.init_grain_random_position structure;
      sand_grain ← SandGrain.init center (sand_grain_radius cfg) (sand_grain_mass cfg)
                                  (sand_grain_color_type cfg);
      create_grains n' cfg structure (acc ++ [sand_grain])
  end.

(** [for sand_grain_ in self.sand_grains_list: self.space.add(...)] *)
Fixpoint add_grains (l : list (SandGrain.t F)) (space : Space F) : M (World F) (Space F) :=
  match l with
  | [] => mret space
  | g :: l' =>
      space ← Space_add_to space [OBody (SandGrain.body g); OShape (SandGrain.shape g)];
      add_grains l' space
  end.

(** [SandClock.__init__] *)
Definition init (cfg : Config) : M (World F) t :=
  open_window (screen_width cfg) (screen_height cfg);;
  space ← Space_new;
  let space := set_gravity (0, gravity_y cfg) space in
  structure ← SandClockStructure.init (screen_width cfg / 2, screen_height cfg / 2)
                 (structure_width cfg) (structure_height cfg) (neck_width cfg)
                 (line_width cfg) (line_color cfg);
  space ← add_structure (zip (SandClockStructure.body structure)
                             (SandClockStructure.shape structure)) space;
  sand_grains_list ← create_grains (Z.to_nat (n_sand_grains cfg)) cfg structure [];
  space ← add_grains sand_grains_list space;
  mret (mk cfg space structure sand_grains_list false false).

(** [SandClock.process_events] *)
Fixpoint process_events_loop (evs : list event) : M St (option bool) :=
  match evs with
  | [] => mret None
  | QUIT :: _ => mret (Some false)
  | KEYDOWN K_SPACE :: evs' => on_self (modify (set_tip_over true));; process_events_loop evs'
  | KEYDOWN K_r :: evs' => on_self (modify (set_reset true));; process_events_loop evs'
  | _ :: evs' => process_events_loop evs'
  end.
Definition process_events : M St (pyval unit) :=
  evs ← on_world pygame_event_get;
  r ← process_events_loop evs;
  match r with
  | Some b => mret (PyBool b)
  | None => mret (PyBool true)
  end.

(** One round of the loop of [_flip_vertically]:
    [y = 2 * structure_center_y - sand_grain.body.position.y]. *)
Definition flip_grain (structure_center_y : Z) (sand_grain : SandGrain.t F)
  : M (World F) unit :=
  w ← get;
  let pos := position (body_of w (SandGrain.body sand_grain)) in
  let x := pos.1 in
  let y := nsub (of_int (2 * structure_center_y)) pos.2 in
  Body_set_position (SandGrain.body sand_grain) (x, y).

(** [SandClock._flip_vertically] *)
Definition _flip_vertically : M St unit :=
  self ← gets fst;
  let structure_center_y := (SandClockStructure.center (sand_clock_structure self)).2 in
  for_each (sand_grains_list self) (fun g => on_world (flip_grain structure_center_y g)).

(** [SandClock.run_logic]; [self.__init__()] builds every attribute anew
    from the same configuration file. *)
Definition run_logic : M St unit :=
  self ← gets fst;
  on_world (Space_step (space self));;
  self ← gets fst;
  (if _tip_over self
   then on_self (modify (set_tip_over false));; _flip_vertically
   else mret tt);;
  self ← gets fst;
  (if _reset self
   then on_self (modify (set_reset false));;
        self' ← on_world (init (_config self));
        on_self (put self')
   else mret tt).

(** [SandClock.draw] *)
Definition draw : M St unit :=
  on_world (log lib_surface_fill);;
  self ← gets fst;
  on_world (SandClockStructure.draw (sand_clock_structure self));;
  for_each (sand_grains_list self) (fun g => on_world (SandGrain.draw g));;
  on_world (log lib_display_update).

(** [SandClock.clock_tick] *)
Definition clock_tick : M St unit :=
  cfg ← gets (fun s => _config s.1);
  on_world (log (lib_Clock_tick (pygame_clock_tick cfg))).

(** The program, as the main loop sees it. *)
Definition simulation : Simulation St unit :=
  mkSimulation process_events run_logic draw clock_tick.

End SandClock.
Arguments t F : clear implicits.
Arguments Config : clear implicits.
Arguments St F : clear implicits.
End SandClock.

(** * shooting_star *)

Module Spark.
Section Spark.
Context {F : Type} {NF : Num F}.

Record t := mk {
  color : rgb;
  radius : Z;
  _init_radius : Z;
  lifespan : Z;
  _time_steps_left : Z;
  body : nat;
  shape : Shape F;
}.

(** [Spark.__init__] *)
Definition init (mouse_pos : Z * Z) (color : rgb) (radius lifespan : Z) : M (World F) t :=
  body ← Body_new DYNAMIC 10 10;
  Body_set_position body (vec_of_int mouse_pos);;
  shape ← Shape_new body (Circle radius) (of_int 0) (of_int 0);
  mret (mk color radius radius lifespan lifespan body shape).

(** [Spark.zero_radius] *)
Definition zero_radius : M t bool :=
  modify (fun self => mk (color self) (radius self) (_init_radius self) (lifespan self)
                         (_time_steps_left self - 1) (body self) (shape self));;
  self ← get;
  r ← floordiv (_init_radius self * _time_steps_left self) (lifespan self);
  put (mk (color self) r (_init_radius self) (lifespan self)
          (_time_steps_left self) (body self) (shape self));;
  mret (r =? 0).

Definition same (a b : t) : bool := bool_decide (body a = body b).

Definition draw (self : t) : M (World F) unit := log lib_draw_circle.

End Spark.
Arguments t F : clear implicits.
End Spark.

Module ShootingStar.
Section ShootingStar.
Context {F : Type} {NF : Num F}.

(** The keys of [shooting_star/config.yml] that the code reads. *)
Record Config := mkConfig {
  screen_width : Z;
  screen_height : Z;
  gravity_y : Z;
  min_radius : Z;
  max_radius : Z;
  min_lifespan : Z;
  max_lifespan : Z;
  new_sparks_per_time_step : Z;
  pygame_clock_tick : Z;
}.

Record t := mk {
  _config : Config;
  _mouse_pos : option (Z * Z);
  _is_mouse_still_pressed : bool;
  spark_list : list (Spark.t F);
  space : Space F;
}.

Definition set_is_mouse_still_pressed (b : bool) (self : t) : t :=
  mk (_config self) (_mouse_pos self) b (spark_list self) (space self).
Definition set_spark_list (l : list (Spark.t F)) (self : t) : t :=
  mk (_config self) (_mouse_pos self) (_is_mouse_still_pressed self) l (space self).
Definition set_space (sp : Space F) (self : t) : t :=
  mk (_config self) (_mouse_pos self) (_is_mouse_still_pressed self) (spark_list self) sp.

Definition St : Type := t * World F.

Definition space_add (objs : list (obj F)) : M St unit :=
  attr_space_add space set_space objs.

(** [ShootingStar.__init__] *)
Definition init (cfg : Config) : M (World F) t :=
  open_window (screen_width cfg) (screen_height cfg);;
  space ← Space_new;
  let space := set_gravity (0, gravity_y cfg) space in
  mret (mk cfg None false [] space).

(** [ShootingStar._create_and_add_a_new_spark] *)
Definition _create_and_add_a_new_spark (mouse_pos : Z * Z) : M St unit :=
  cfg ← gets (fun s => _config s.1);
  random_color ← on_world random_color;
  random_radius ← on_world (randrange (min_radius cfg) (max_radius cfg));
  random_lifespan ← on_world (randrange (min_lifespan cfg) (max_lifespan cfg));
  sign ← on_world choice_sign;
  let mouse_pos_ := (mouse_pos.1 + sign, mouse_pos.2) in
  new_spark ← on_world (Spark.init mouse_pos_ random_color random_radius random_lifespan);
  on_self (modify (fun self => set_spark_list (spark_list self ++ [new_spark]) self));;
  space_add [OBody (Spark.body new_spark); OShape (Spark.shape new_spark)].

(** [ShootingStar.process_events] *)
Fixpoint process_events_loop (evs : list event) : M St (option bool) :=
  match evs with
  | [] => mret None
  | QUIT :: _ => mret (Some false)
  | MOUSEBUTTONDOWN :: evs' =>
      on_self (modify (set_is_mouse_still_pressed true));; process_events_loop evs'
  | MOUSEBUTTONUP :: evs' =>
      on_self (modify (set_is_mouse_still_pressed false));; process_events_loop evs'
  | _ :: evs' => process_events_loop evs'
  end.
Definition process_events : M St (pyval unit) :=
  evs ← on_world pygame_event_get;
  r ← process_events_loop evs;
  match r with
  | Some b => mret (PyBool b)
  | None => mret (PyBool true)
  end.

(** The body of the loop over [self.spark_list]: [zero_radius] changes the
    spark, which the list holds by reference; a spark of radius zero leaves
    the list (but stays in the space). *)
Definition shrink_spark (spark : Spark.t F) : M St unit :=
  fun s =>
    let '(r, spark') := Spark.zero_radius spark in
    let l := (fun x => if Spark.same spark x then spark' else x) <$> spark_list s.1 in
    let s' := (set_spark_list l s.1, s.2) in
    match r with
    | Raise e => (Raise e, s')
    | Ok false => (Ok tt, s')
    | Ok true =>
        (l' ← list_remove (Spark.same spark) l;
         on_self (modify (set_spark_list l'))) s'
    end.

(** [ShootingStar.run_logic] *)
Definition run_logic : M St unit :=
  self ← gets fst;
  on_world (Space_step (space self));;
  (if _is_mouse_still_pressed self
   then for_range (new_sparks_per_time_step (_config self))
                  (mouse_pos ← on_world pygame_mouse_get_pos;
                   _create_and_add_a_new_spark mouse_pos)
   else mret tt);;
  for_in (fun s : St => spark_list s.1) shrink_spark.

(** [ShootingStar.draw] *)
Definition draw : M St unit :=
  on_world (log lib_surface_fill);;
  self ← gets fst;
  for_each (spark_list self) (fun sp => on_world (Spark.draw sp));;
  on_world (log lib_display_update).

(** [ShootingStar.clock_tick] *)
Definition clock_tick : M St unit :=
  cfg ← gets (fun s => _config s.1);
  on_world (log (lib_Clock_tick (pygame_clock_tick cfg))).

(** The program, as the main loop sees it. *)
Definition simulation : Simulation St unit :=
  mkSimulation process_events run_logic draw clock_tick.

End ShootingStar.
Arguments t F : clear implicits.
Arguments St F : clear implicits.
End ShootingStar.

(** * rebound_collisions *)

Module ReboundCircle.
Section ReboundCircle.
Context {F : Type} {NF : Num F}.

(** The class [Circle] of rebound_collisions.py. *)
Record t := mk {
  body : nat;
  color : rgb;
  radius : Z;
  shape : Shape F;
}.

(** [Circle.__init__] *)
Definition init (mass moment : Z) (init_center : Z * Z) (radius : Z)
           (velocity : Z * Z) (color : rgb) : M (World F) t :=
  body ← Body_new DYNAMIC mass moment;
  Body_set_position body (vec_of_int init_center);;
  Body_set_velocity body (vec_of_int velocity);;
  shape ← Shape_new body (Circle radius) (of_int 1) (of_int 0);
  mret (mk body color radius shape).

(** [Circle.update] *)
Definition update (self : t) (screen_width screen_height : Z) : M (World F) unit :=
  w ← get;
  let b := body_of w (body self) in
  let '(velocity_x, velocity_y) := velocity b in
  let '(x, y) := position b in
  let r := of_int (radius self) in
  let velocity_x :=
    if nlt (of_int screen_width) (nadd x r) || nlt (nsub x r) (of_int 0)
    then nneg velocity_x else velocity_x in
  let velocity_y :=
    if nlt (of_int screen_height) (nadd y r) || nlt (nsub y r) (of_int 0)
    then nneg velocity_y else velocity_y in
  Body_set_velocity (body self) (velocity_x, velocity_y).

Definition draw (self : t) : M (World F) unit := log lib_draw_circle.

End ReboundCircle.
Arguments t F : clear implicits.
End ReboundCircle.

Module ReboundCollisions.
Section ReboundCollisions.
Context {F : Type} {NF : Num F}.

(** The keys of [rebound_collisions/config.yml] that the code reads. *)
Record Config := mkConfig {
  screen_width : Z;
  screen_height : Z;
  min_mass : Z;
  max_mass : Z;
  min_moment : Z;
  max_moment : Z;
  min_radius : Z;
  max_radius : Z;
  min_velocity_x : Z;
  max_velocity_x : Z;
  min_velocity_y : Z;
  max_velocity_y : Z;
  pygame_clock_tick : Z;
}.

Record t := mk {
  _config : Config;
  _mouse_pos : option (Z * Z);
  space : Space F;
  circle_list : list (ReboundCircle.t F);
}.

Definition set_mouse_pos (p : option (Z * Z)) (self : t) : t :=
  mk (_config self) p (space self) (circle_list self).
Definition set_space (sp : Space F) (self : t) : t :=
  mk (_config self) (_mouse_pos self) sp (circle_list self).
Definition set_circle_list (l : list (ReboundCircle.t F)) (self : t) : t :=
  mk (_config self) (_mouse_pos self) (space self) l.

Definition St : Type := t * World F.

Definition space_add (objs : list (obj F)) : M St unit :=
  attr_space_add space set_space objs.

(** [ReboundCollisions._create_and_add_a_new_circle] *)
Definition _create_and_add_a_new_circle (center : Z * Z) : M St unit :=
  cfg ← gets (fun s => _config s.1);
  random_mass ← on_world (randrange (min_mass cfg) (max_mass cfg));
  random_moment ← on_world (randrange (min_moment cfg) (max_moment cfg));
  random_radius ← on_world (randrange (min_radius cfg) (max_radius cfg));
  vx ← on_world (randrange (min_velocity_x cfg) (max_velocity_x cfg));
  sx ← on_world choice_sign;
  let random_velocity_x := vx * sx in
  vy ← on_world (randrange (min_velocity_y cfg) (max_velocity_y cfg));
  sy ← on_world choice_sign;
  let random_velocity_y := vy * sy in
  random_color ← on_world random_color;
  new_circle ← on_world (ReboundCircle.init random_mass random_moment center random_radius
                            (random_velocity_x, random_velocity_y) random_color);
  on_self (modify (fun self => set_circle_list (circle_list self ++ [new_circle]) self));;
  space_add [OBody (ReboundCircle.body new_circle); OShape (ReboundCircle.shape new_circle)].

(** [ReboundCollisions.__init__]: the window (without a caption), an empty
    space without gravity, and a first circle in the middle of the screen. *)
Definition init (cfg : Config) : M (World F) t :=
  log lib_pygame_init;;
  log (lib_display_set_mode (screen_width cfg) (screen_height cfg));;
  log lib_Clock_new;;
  space ← Space_new;
  let space := set_gravity (0, 0) space in
  under_construction (mk cfg None space [])
    (_create_and_add_a_new_circle (screen_width cfg / 2, screen_height cfg / 2)).

(** [ReboundCollisions.process_events] *)
Fixpoint process_events_loop (evs : list event) : M St (option bool) :=
  match evs with
  | [] => mret None
  | QUIT :: _ => mret (Some false)
  | MOUSEBUTTONDOWN :: evs' =>
      pos ← on_world pygame_mouse_get_pos;
      on_self (modify (set_mouse_pos (Some pos)));;
      process_events_loop evs'
  | _ :: evs' => process_events_loop evs'
  end.
Definition process_events : M St (pyval unit) :=
  evs ← on_world pygame_event_get;
  r ← process_events_loop evs;
  match r with
  | Some b => mret (PyBool b)
  | None => mret (PyBool true)
  end.

(** [ReboundCollisions.run_logic] *)
Definition run_logic : M St unit :=
  self ← gets fst;
  on_world (Space_step (space self));;
  for_each (circle_list self)
           (fun circle => on_world (ReboundCircle.update circle (screen_width (_config self))
                                                         (screen_height (_config self))));;
  self ← gets fst;
  (match _mouse_pos self with
   | Some pos =>
       _create_and_add_a_new_circle pos;;
       on_self (modify (set_mouse_pos None))
   | None => mret tt
   end);;
  on_world (log lib_display_set_caption).

(** [ReboundCollisions.draw] *)
Definition draw : M St unit :=
  on_world (log lib_surface_fill);;
  self ← gets fst;
  for_each (circle_list self) (fun c => on_world (ReboundCircle.draw c));;
  on_world (log lib_display_update).

(** [ReboundCollisions.clock_tick] *)
Definition clock_tick : M St unit :=
  cfg ← gets (fun s => _config s.1);
  on_world (log (lib_Clock_tick (pygame_clock_tick cfg))).

(** The program, as the main loop sees it. *)
Definition simulation : Simulation St unit :=
  mkSimulation process_events run_logic draw clock_tick.

End ReboundCollisions.
Arguments t F : clear implicits.
Arguments St F : clear implicits.
End ReboundCollisions.

(** * pizza_rain *)

(** A [pygame.Surface] holding an image, and a [pygame.Rect]. *)
Record Surface := mkSurface {
  surf_path : string;
  surf_w : Z;
  surf_h : Z;
  surf_angle : Z;
}.
Record Rect := mkRect {
  rect_x : Z;
  rect_y : Z;
  rect_w : Z;
  rect_h : Z;
}.

(** [pygame.transform.scale] and [pygame.transform.rotate] give a new
    surface. *)
Definition surface_scale (s : Surface) (w h : Z) : Surface :=
  mkSurface (surf_path s) w h (surf_angle s).
Definition surface_rotate (s : Surface) (angle : Z) : Surface :=
  mkSurface (surf_path s) (surf_h s) (surf_w s) ((surf_angle s + angle) mod 360).

(** [Rect.colliderect]: rectangles of size zero never collide. *)
Definition colliderect (a b : Rect) : bool :=
  if (rect_w a =? 0) || (rect_h a =? 0) || (rect_w b =? 0) || (rect_h b =? 0) then false
  else (Z.min (rect_x a) (rect_x a + rect_w a) <? Z.max (rect_x b) (rect_x b + rect_w b))
       && (Z.min (rect_y a) (rect_y a + rect_h a) <? Z.max (rect_y b) (rect_y b + rect_h b))
       && (Z.min (rect_x b) (rect_x b + rect_w b) <? Z.max (rect_x a) (rect_x a + rect_w a))
       && (Z.min (rect_y b) (rect_y b + rect_h b) <? Z.max (rect_y a) (rect_y a + rect_h a)).

Module Pizza.

Record t := mk {
  image : Surface;
  rect : Rect;
  vertical_speed : Z;
  rotation_every : Z;
  diameter : Z;
  screen_height : Z;
  n_updates : Z;
}.

Definition path_error : string := "The given pizza_img_path does not exists".

(** [Pizza.__init__] *)
Definition init {F} (pizza_img_path : string) (vertical_speed rotation_every diameter
                     screen_height : Z) : M (World F) t :=
  w ← get;
  (if path_exists w pizza_img_path then mret tt else raise (ValueError path_error));;
  log (lib_image_load pizza_img_path);;
  log (lib_transform_scale diameter diameter);;
  let image := surface_scale (mkSurface pizza_img_path 0 0 0) diameter diameter in
  let rect := mkRect 0 0 (surf_w image) (surf_h image) in
  mret (mk image rect vertical_speed rotation_every diameter screen_height 0).

(** [Pizza.set_center]: [self.rect.center = (x, y)] *)
Definition set_center (x y : Z) (self : t) : t :=
  let r := rect self in
  mk (image self) (mkRect (x - rect_w r / 2) (y - rect_h r / 2) (rect_w r) (rect_h r))
     (vertical_speed self) (rotation_every self) (diameter self) (screen_height self)
     (n_updates self).

(** The [else] branch of [Pizza.update]: fall, wrap around, maybe rotate. *)
Definition fall (self : t) : t :=
  let r := rect self in
  let y := rect_y r + vertical_speed self in
  (* if self.rect.top > self.screen_height: self.rect.bottom = 0 *)
  let y := if screen_height self <? y then 0 - rect_h r else y in
  let rect := mkRect (rect_x r) y (rect_w r) (rect_h r) in
  let n := n_updates self + 1 in
  if n =? rotation_every self
  then mk (surface_rotate (image self) 90) rect (vertical_speed self) (rotation_every self)
          (diameter self) (screen_height self) 0
  else mk (image self) rect (vertical_speed self) (rotation_every self)
          (diameter self) (screen_height self) n.

(** [Pizza.update]; [None] is Python's [None], the default of both
    arguments. *)
Definition update (vertical_speed_incr rotation_every_incr : option Z) (self : t) : t :=
  match vertical_speed_incr, rotation_every_incr with
  | Some incr, _ =>
      mk (image self) (rect self) (Z.max 1 (vertical_speed self + incr))
         (rotation_every self) (diameter self) (screen_height self) (n_updates self)
  | None, Some incr =>
      let rotation_every := Z.max 1 (rotation_every self + incr) in
      mk (image self) (rect self) (vertical_speed self) rotation_every
         (diameter self) (screen_height self) (rotation_every - 1)
  | None, None => fall self
  end.

End Pizza.

Module PizzaRain.
Section PizzaRain.
Context {F : Type}.

(** The keys of [pizza_rain/config.yml] that the code reads, and the
    directory of the program, which [_get_config] finds. *)
Record Config := mkConfig {
  dir_path : string;
  screen_width : Z;
  screen_height : Z;
  number_of_pizzas : Z;
  pizza_images_files : list string;
  vertical_speed : Z;
  rotation_every : Z;
  diameter : Z;
  vertical_speed_incr : Z;
  rotation_every_incr : Z;
  pygame_clock_tick : Z;
}.

Record t := mk {
  _config : Config;
  _is_running : bool;
  _pizza_list : list Pizza.t;
}.

Definition set_is_running (b : bool) (self : t) : t :=
  mk (_config self) b (_pizza_list self).
Definition set_pizza_list (l : list Pizza.t) (self : t) : t :=
  mk (_config self) (_is_running self) l.

Definition St : Type := t * World F.

(** [pygame.sprite.spritecollide(pizza, group, dokill=0)], as a truth
    value: some sprite of the group overlaps the pizza. *)
Definition spritecollide (pizza : Pizza.t) (group : list Pizza.t) : bool :=
  existsb (fun p => colliderect (Pizza.rect pizza) (Pizza.rect p)) group.

(** [while spritecollide(...): pizza.set_center(random, random)].  The
    loop draws positions until the pizza is free, which may be never; [fuel]
    bounds the number of rounds, and [None] says the bound was reached. *)
Fixpoint place (fuel : nat) (cfg : Config) (group : list Pizza.t) (pizza : Pizza.t)
  : M (World F) (option Pizza.t) :=
  if spritecollide pizza group then
    match fuel with
    | O => mret None
    | S fuel' =>
        x ← randrange 0 (screen_width cfg);
        y ← randrange 0 (screen_height cfg);
        place fuel' cfg group (Pizza.set_center x y pizza)
    end
  else mret (Some pizza).

(** [for _ in range(number_of_pizzas): ...] *)
Fixpoint create_pizzas (fuel n : nat) (cfg : Config) (group : list Pizza.t)
  : M (World F) (option (list Pizza.t)) :=
  match n with
  | O => mret (Some group)
  | S n' =>
      pizza_img ← choice (pizza_images_files cfg);
      pizza ← Pizza.init (dir_path cfg +:+ "/images/" +:+ pizza_img) (vertical_speed cfg)
                         (rotation_every cfg) (diameter cfg) (screen_height cfg);
      placed ← place fuel cfg group pizza;
      match placed with
      | None => mret None
      | Some pizza => create_pizzas fuel n' cfg (group ++ [pizza])
      end
  end.

(** [PizzaRain.__init__]; [None] when a placement loop was cut by [fuel]. *)
Definition init (fuel : nat) (cfg : Config) : M (World F) (option t) :=
  open_window (screen_width cfg) (screen_height cfg);;
  pizzas ← create_pizzas fuel (Z.to_nat (number_of_pizzas cfg)) cfg [];
  mret (mk cfg true <$> pizzas).

(** [self._pizza_list.update(...)]: every sprite of the group is updated. *)
Definition group_update (vertical_speed_incr rotation_every_incr : option Z) : M St unit :=
  on_self (modify (fun self =>
    set_pizza_list (Pizza.update vertical_speed_incr rotation_every_incr <$> _pizza_list self)
                   self)).

(** [PizzaRain.process_events] *)
Fixpoint process_events_loop (evs : list event) : M St (option bool) :=
  match evs with
  | [] => mret None
  | QUIT :: _ => mret (Some false)
  | KEYDOWN k :: evs' =>
      cfg ← gets (fun s => _config s.1);
      (match k with
       | K_SPACE => on_self (modify (fun self => set_is_running (negb (_is_running self)) self))
       | K_UP => group_update (Some (- vertical_speed_incr cfg)) None
       | K_DOWN => group_update (Some (vertical_speed_incr cfg)) None
       | K_RIGHT => group_update None (Some (- rotation_every_incr cfg))
       | K_LEFT => group_update None (Some (rotation_every_incr cfg))
       | _ => mret tt
       end);;
      process_events_loop evs'
  | _ :: evs' => process_events_loop evs'
  end.
Definition process_events : M St (pyval unit) :=
  evs ← on_world pygame_event_get;
  r ← process_events_loop evs;
  match r with
  | Some b => mret (PyBool b)
  | None => mret (PyBool true)
  end.

(** [PizzaRain.run_logic] *)
Definition run_logic : M St unit :=
  self ← gets fst;
  (if _is_running self then group_update None None else mret tt);;
  on_world (log lib_display_set_caption).

(** [PizzaRain.draw] *)
Definition draw : M St unit :=
  on_world (log lib_surface_fill);;
  on_world (log lib_sprite_group_draw);;
  on_world (log lib_display_update).

(** [PizzaRain.clock_tick] *)
Definition clock_tick : M St unit :=
  cfg ← gets (fun s => _config s.1);
  on_world (log (lib_Clock_tick (pygame_clock_tick cfg))).

(** The program, as the main loop sees it. *)
Definition simulation : Simulation St unit :=
  mkSimulation process_events run_logic draw clock_tick.

End PizzaRain.
Arguments t : clear implicits.
Arguments St F : clear implicits.
End PizzaRain.

(** * solar_system

    The planets compute with [math.sqrt] and true division; they are
    embedded over the real numbers (exact arithmetic). *)

Module Sun.

Record t := mk {
  center : Z * Z;
  radius : Z;
  color : rgb;
}.

(** [Sun.__init__] *)
Definition init (screen_center : Z * Z) (radius : Z) (color : rgb) : t :=
  mk screen_center radius color.

Definition draw {F} (self : t) : M (World F) unit := log lib_draw_circle.

End Sun.

Module Planet.
Local Open Scope R_scope.

Record t := mk {
  center : R * R;
  radius : Z;
  translation_step : R;
  clockwise_translation : bool;
  color : rgb;
  screen_center : R * R;
  original_vector_norm : R;
}.

(** The Euclidean distance of two points, as both methods compute it. *)
Definition distance (p q : R * R) : R :=
  sqrt ((p.1 - q.1) ^ 2 + (p.2 - q.2) ^ 2).

(** [Planet.__init__] *)
Definition init (init_center : R * R) (radius : Z) (translation_step : R)
           (clockwise_translation : bool) (color : rgb) (screen_center : R * R) : t :=
  mk init_center radius translation_step clockwise_translation color screen_center
     (distance screen_center init_center).

(** [Planet.update]; the division by [new_vector_norm] raises when the
    norm is zero. *)
Definition update : M t unit := fun self =>
  let v_x := (screen_center self).1 - (center self).1 in
  let v_y := (screen_center self).2 - (center self).2 in
  let '(v_perp_x, v_perp_y) :=
    if clockwise_translation self then (v_y, - v_x) else (- v_y, v_x) in
  let new_center_x := translation_step self * v_perp_x + (center self).1 in
  let new_center_y := translation_step self * v_perp_y + (center self).2 in
  let new_vector_norm := distance (screen_center self) (new_center_x, new_center_y) in
  if Req_dec_T new_vector_norm 0 then (Raise ZeroDivisionError, self)
  else
    let new_center_x :=
      (screen_center self).1 + (new_center_x - (screen_center self).1)
                               / new_vector_norm * original_vector_norm self in
    let new_center_y :=
      (screen_center self).2 + (new_center_y - (screen_center self).2)
                               / new_vector_norm * original_vector_norm self in
    (Ok tt, mk (new_center_x, new_center_y) (radius self) (translation_step self)
               (clockwise_translation self) (color self) (screen_center self)
               (original_vector_norm self)).

Definition draw {F} (self : t) : M (World F) unit := log lib_draw_circle.

End Planet.

Module SolarSystem.
Section SolarSystem.
Context {F : Type}.

(** The keys of [solar_system/config.yml] that the code reads, and the
    directory of the program. *)
Record Config := mkConfig {
  dir_path : string;
  background_image : string;
  screen_width : Z;
  screen_height : Z;
  sun_radius : Z;
  sun_color : rgb;
  intra_planets_distance : Z;
  n_planets : Z;
  planets_radius : list Z;
  planets_translation_steps : list R;
  planets_colors : list rgb;
  pygame_clock_tick : Z;
}.

Record t := mk {
  _config : Config;
  sun : Sun.t;
  planets_list : list Planet.t;
}.

Definition set_planets_list (l : list Planet.t) (self : t) : t :=
  mk (_config self) (sun self) l.

Definition St : Type := t * World F.

(** [l[i]]: [IndexError] past the end. *)
Definition index {A} (l : list A) (i : nat) : M (World F) A :=
  match l !! i with
  | Some x => mret x
  | None => raise IndexError
  end.

Definition point (p : Z * Z) : R * R := (IZR p.1, IZR p.2).

(** [for i in range(n_planets): ...] of the constructor, from round [i] on. *)
Fixpoint create_planets (n i : nat) (cfg : Config) (screen_center : Z * Z) (next_y : Z)
         (acc : list Planet.t) : M (World F) (list Planet.t) :=
  match n with
  | O => mret acc
  | S n' =>
      r ← index (planets_radius cfg) i;
      let next_y := next_y - r in
      radius ← index (planets_radius cfg) i;
      translation_step ← index (planets_translation_steps cfg) i;
      clockwise ← choice_bool;
      color ← index (planets_colors cfg) i;
      let planet := Planet.init (point (screen_width cfg / 2, next_y)) radius translation_step
                                clockwise color (point screen_center) in
      let next_y := next_y - (Planet.radius planet + intra_planets_distance cfg) in
      create_planets n' (S i) cfg screen_center next_y (acc ++ [planet])
  end.

(** [SolarSystem.__init__] *)
Definition init (cfg : Config) : M (World F) t :=
  log (lib_image_load (dir_path cfg +:+ "/images/" +:+ background_image cfg));;
  log (lib_transform_scale (screen_width cfg) (screen_height cfg));;
  open_window (screen_width cfg) (screen_height cfg);;
  let _screen_center := (screen_width cfg / 2, screen_height cfg / 2) in
  let sun := Sun.init _screen_center (sun_radius cfg) (sun_color cfg) in
  let next_y := Sun.radius sun + intra_planets_distance cfg in
  let next_y := _screen_center.2 - next_y in
  planets_list ← create_planets (Z.to_nat (n_planets cfg)) 0 cfg _screen_center next_y [];
  mret (mk cfg sun planets_list).

(** [SolarSystem.process_events] *)
Fixpoint process_events_loop (evs : list event) : option bool :=
  match evs with
  | [] => None
  | QUIT :: _ => Some false
  | _ :: evs' => process_events_loop evs'
  end.
Definition process_events : M St (pyval unit) :=
  evs ← on_world pygame_event_get;
  match process_events_loop evs with
  | Some b => mret (PyBool b)
  | None => mret (PyBool true)
  end.

(** [for planet in self.planets_list: planet.update()]: the planets are
    updated in place, one after the other. *)
Fixpoint update_planets (done todo : list Planet.t) : M t unit :=
  match todo with
  | [] => mret tt
  | planet :: todo' =>
      let '(r, planet') := Planet.update planet in
      modify (set_planets_list (done ++ planet' :: todo'));;
      match r with
      | Ok _ => update_planets (done ++ [planet']) todo'
      | Raise e => raise e
      end
  end.

(** [SolarSystem.run_logic] *)
Definition run_logic : M St unit :=
  self ← gets fst;
  on_self (update_planets [] (planets_list self)).

(** [SolarSystem.draw] *)
Definition draw : M St unit :=
  on_world (log lib_surface_blit);;
  self ← gets fst;
  on_world (Sun.draw (sun self));;
  for_each (planets_list self) (fun p => on_world (Planet.draw p));;
  on_world (log lib_display_update).

(** [SolarSystem.clock_tick] *)
Definition clock_tick : M St unit :=
  cfg ← gets (fun s => _config s.1);
  on_world (log (lib_Clock_tick (pygame_clock_tick cfg))).

(** The program, as the main loop sees it. *)
Definition simulation : Simulation St unit :=
  mkSimulation process_events run_logic draw clock_tick.

End SolarSystem.
Arguments t : clear implicits.
Arguments St F : clear implicits.
End SolarSystem.

(** * The seven programs *)

Inductive program :=
| colorful_flooding
| pizza_rain
| rebound_collisions
| sand_clock
| shooting_star
| solar_system
| wrecking_ball.

(** What a program is made of: its configuration, its class, the size of
    the window that the configuration asks for, the constructor and the four
    methods. *)
Record Program (F : Type) := mkProgram {
  p_config : Type;
  p_self : Type;
  p_returned : Type;
  p_screen : p_config -> Z * Z;
  p_init : p_config -> M (World F) (option p_self);
  p_simulation : Simulation (p_self * World F) p_returned;
}.
Arguments mkProgram {F}.
Arguments p_config {F}.
Arguments p_self {F}.
Arguments p_returned {F}.
Arguments p_screen {F}.
Arguments p_init {F}.
Arguments p_simulation {F}.

Definition the_program {F} {NF : Num F} (p : program) : Program F :=
  match p with
  | colorful_flooding =>
      mkProgram (ColorfulFlooding.Config F) (ColorfulFlooding.t F) (Ball.t F)
                (fun cfg => (ColorfulFlooding.screen_width cfg,
                             ColorfulFlooding.screen_height cfg))
                (fun cfg => returning (ColorfulFlooding.init cfg))
                ColorfulFlooding.simulation
  | pizza_rain =>
      (* the configuration, and the bound on the placement loops *)
      mkProgram (nat * PizzaRain.Config) PizzaRain.t unit
                (fun cfg => (PizzaRain.screen_width cfg.2, PizzaRain.screen_height cfg.2))
                (fun cfg => PizzaRain.init cfg.1 cfg.2)
                PizzaRain.simulation
  | rebound_collisions =>
      mkProgram ReboundCollisions.Config (ReboundCollisions.t F) unit
                (fun cfg => (ReboundCollisions.screen_width cfg,
                             ReboundCollisions.screen_height cfg))
                (fun cfg => returning (ReboundCollisions.init cfg))
                ReboundCollisions.simulation
  | sand_clock =>
      mkProgram SandClock.Config (SandClock.t F) unit
                (fun cfg => (SandClock.screen_width cfg, SandClock.screen_height cfg))
                (fun cfg => returning (SandClock.init cfg))
                SandClock.simulation
  | shooting_star =>
      mkProgram ShootingStar.Config (ShootingStar.t F) unit
                (fun cfg => (ShootingStar.screen_width cfg, ShootingStar.screen_height cfg))
                (fun cfg => returning (ShootingStar.init cfg))
                ShootingStar.simulation
  | solar_system =>
      mkProgram SolarSystem.Config SolarSystem.t unit
                (fun cfg => (SolarSystem.screen_width cfg, SolarSystem.screen_height cfg))
                (fun cfg => returning (SolarSystem.init cfg))
                SolarSystem.simulation
  | wrecking_ball =>
      mkProgram (WreckingBall.Config F) (WreckingBall.t F) unit
                (fun cfg => (WreckingBall.screen_width cfg, WreckingBall.screen_height cfg))
                (fun cfg => returning (WreckingBall.init cfg))
                WreckingBall.simulation
  end.

(** The programs that import Pymunk; pizza_rain and solar_system only
    import Pygame. *)
Definition uses_pymunk (p : program) : bool :=
  match p with
  | pizza_rain | solar_system => false
  | _ => true
  end.

(** The world when [__main__] has run over the given frames. *)
Definition world_after_main {F} {NF : Num F} (p : program) (cfg : p_config (the_program p))
           (frames : list Frame) (w : World F) : World F :=
  (main (p_init (the_program p) cfg) (p_simulation (the_program p)) frames w).2.

(** * Properties of the embedded programs *)

(** Running monadic code on a symbolic state: the combinators are unfolded
    and the matches on known results are reduced. *)
Ltac mrun :=
  repeat (cbv beta iota zeta delta
              [mbind M_bind mret M_ret get gets put modify raise on_world on_self on_attr
               under_construction try_except_pass];
          cbn [fst snd]).
Ltac mrun_in H :=
  repeat (cbv beta iota zeta delta
              [mbind M_bind mret M_ret get gets put modify raise on_world on_self on_attr
               under_construction try_except_pass] in H;
          cbn [fst snd] in H).

(** ** pizza_rain: the speeds of a pizza stay positive *)

Module PizzaFacts.

(** A sequence of calls [pizza.update(vertical_speed_incr, rotation_every_incr)]. *)
Definition updates (calls : list (option Z * option Z)) (p : Pizza.t) : Pizza.t :=
  foldl (fun p args => Pizza.update args.1 args.2 p) p calls.

Definition speeds_positive (p : Pizza.t) : Prop :=
  1 <= Pizza.vertical_speed p /\ 1 <= Pizza.rotation_every p.

Lemma init_attributes {F} path vs re d sh (w w' : World F) p :
  Pizza.init path vs re d sh w = (Ok p, w') ->
  Pizza.vertical_speed p = vs /\ Pizza.rotation_every p = re.
Proof.
  unfold Pizza.init, log. mrun. destruct (path_exists w path); [|discriminate].
  intros [= <- _]. split; reflexivity.
Qed.

Lemma fall_speeds p :
  Pizza.vertical_speed (Pizza.fall p) = Pizza.vertical_speed p
  /\ Pizza.rotation_every (Pizza.fall p) = Pizza.rotation_every p.
Proof. unfold Pizza.fall. destruct (_ =? _); split; reflexivity. Qed.

Lemma update_speeds_positive a b p :
  speeds_positive p -> speeds_positive (Pizza.update a b p).
Proof.
  unfold speeds_positive. intros [Hv Hr].
  destruct a as [incr|]; [|destruct b as [incr|]]; simpl.
  - split; [apply Z.le_max_l | exact Hr].
  - split; [exact Hv | apply Z.le_max_l].
  - destruct (fall_speeds p) as [-> ->]. split; assumption.
Qed.

Lemma updates_speeds_positive calls p :
  speeds_positive p -> speeds_positive (updates calls p).
Proof.
  revert p. induction calls as [|[a b] calls IH]; intros p Hp; simpl.
  - exact Hp.
  - apply IH, update_speeds_positive, Hp.
Qed.

(** C10.  A pizza built by [Pizza.__init__] with [vertical_speed >= 1] and
    [rotation_every >= 1] has both attributes at least 1 after any sequence
    of [update] calls, whatever increments (negative ones too, or none)
    each call is given. *)
Theorem update_keeps_speeds_positive {F} path vs re d sh (w w' : World F) p
        (calls : list (option Z * option Z)) :
  Pizza.init path vs re d sh w = (Ok p, w') ->
  1 <= vs -> 1 <= re ->
  1 <= Pizza.vertical_speed (updates calls p)
  /\ 1 <= Pizza.rotation_every (updates calls p).
Proof.
  intros Hinit Hvs Hre.
  destruct (init_attributes _ _ _ _ _ _ _ _ Hinit) as [Ev Er].
  apply updates_speeds_positive. split; [rewrite Ev | rewrite Er]; assumption.
Qed.

End PizzaFacts.

(** ** solar_system: the orbit radius of a planet *)

Module PlanetFacts.
Local Open Scope R_scope.

(** [n] calls of [planet.update()] in a row. *)
Fixpoint updates (n : nat) : M Planet.t unit :=
  match n with
  | O => mret tt
  | S n' => Planet.update;; updates n'
  end.

(** On its orbit: away from the screen centre, at the distance that the
    constructor stored. *)
Definition on_orbit (p : Planet.t) : Prop :=
  Planet.center p <> Planet.screen_center p
  /\ Planet.distance (Planet.screen_center p) (Planet.center p) = Planet.original_vector_norm p.

Lemma sum_squares_pos (a b : R) : (a, b) <> (0, 0) -> 0 < a ^ 2 + b ^ 2.
Proof.
  intros H. destruct (Req_dec_T a 0) as [Ea|Ea].
  - destruct (Req_dec_T b 0) as [Eb|Eb]; [subst; now contradiction H|].
    pose proof (pow2_ge_0 a). assert (0 < b ^ 2) by nra. lra.
  - pose proof (pow2_ge_0 b). assert (0 < a ^ 2) by nra. lra.
Qed.

Lemma distance_pos (p q : R * R) : q <> p -> 0 < Planet.distance p q.
Proof.
  intros H. unfold Planet.distance. apply sqrt_lt_R0, sum_squares_pos.
  intros [= E1 E2]. apply H. destruct p, q; simpl in *. f_equal; lra.
Qed.

Lemma distance_zero (p : R * R) : Planet.distance p p = 0.
Proof.
  unfold Planet.distance. replace ((p.1 - p.1) ^ 2 + (p.2 - p.2) ^ 2) with 0 by ring.
  apply sqrt_0.
Qed.

(** The vector to the stepped centre is the old one, stretched: its squared
    length is [(1 + step^2)] times the old squared length. *)
Lemma stepped_norm (sx sy cx cy t : R) (cw : bool) :
  let v_x := sx - cx in
  let v_y := sy - cy in
  let vp := if cw then (v_y, - v_x) else (- v_y, v_x) in
  (sx - (t * vp.1 + cx)) ^ 2 + (sy - (t * vp.2 + cy)) ^ 2
  = (1 + t ^ 2) * (v_x ^ 2 + v_y ^ 2).
Proof. destruct cw; simpl; ring. Qed.

(** One call of [update] on a planet on its orbit returns normally and
    leaves the planet on its orbit. *)
Lemma update_on_orbit (p : Planet.t) :
  on_orbit p ->
  exists p', Planet.update p = (Ok tt, p')
             /\ on_orbit p'
             /\ Planet.screen_center p' = Planet.screen_center p
             /\ Planet.original_vector_norm p' = Planet.original_vector_norm p.
Proof.
  intros [Hne Hd].
  destruct p as [[cx cy] rad t cw col [sx sy] o].
  cbn [Planet.center Planet.screen_center Planet.original_vector_norm] in *.
  assert (Ho : 0 < o) by (rewrite <- Hd; apply distance_pos; exact Hne).
  assert (Hv : 0 < (sx - cx) ^ 2 + (sy - cy) ^ 2).
  { apply sum_squares_pos. intros [= E1 E2]. apply Hne. f_equal; lra. }
  pose proof (stepped_norm sx sy cx cy t cw) as Hs. cbv zeta in Hs.
  unfold Planet.update.
  cbn [Planet.center Planet.screen_center Planet.original_vector_norm
       Planet.translation_step Planet.clockwise_translation Planet.radius Planet.color
       fst snd].
  destruct (if cw then (sy - cy, - (sx - cx)) else (- (sy - cy), sx - cx))
    as [vpx vpy] eqn:Evp.
  cbn [fst snd] in Hs.
  set (nx := t * vpx + cx) in *. set (ny := t * vpy + cy) in *.
  assert (HD : 0 < (sx - nx) ^ 2 + (sy - ny) ^ 2).
  { rewrite Hs. apply Rmult_lt_0_compat; [|exact Hv]. pose proof (pow2_ge_0 t). lra. }
  set (nn := Planet.distance (sx, sy) (nx, ny)).
  assert (Hnn : 0 < nn) by (apply sqrt_lt_R0; exact HD).
  assert (Hnn2 : nn ^ 2 = (sx - nx) ^ 2 + (sy - ny) ^ 2).
  { unfold nn, Planet.distance. cbn [fst snd]. rewrite <- Rsqr_pow2. apply Rsqr_sqrt. lra. }
  destruct (Req_dec_T nn 0) as [E|_]; [lra|].
  eexists. split; [reflexivity|].
  cbn [Planet.center Planet.screen_center Planet.original_vector_norm].
  assert (Hdist : Planet.distance (sx, sy)
                    (sx + (nx - sx) / nn * o, sy + (ny - sy) / nn * o) = o).
  { unfold Planet.distance. cbn [fst snd].
    replace ((sx - (sx + (nx - sx) / nn * o)) ^ 2 + (sy - (sy + (ny - sy) / nn * o)) ^ 2)
      with (o ^ 2 * (((sx - nx) ^ 2 + (sy - ny) ^ 2) / nn ^ 2)) by (field; lra).
    rewrite <- Hnn2. replace (nn ^ 2 / nn ^ 2) with 1 by (field; lra).
    rewrite Rmult_1_r, <- Rsqr_pow2. apply sqrt_Rsqr. lra. }
  repeat split; try exact Hdist.
  cbn [Planet.center Planet.screen_center]. intros E.
  rewrite E, distance_zero in Hdist. lra.
Qed.

Lemma init_on_orbit init_center radius step cw color sc :
  init_center <> sc -> on_orbit (Planet.init init_center radius step cw color sc).
Proof. intros H. split; [exact H | reflexivity]. Qed.

Lemma updates_on_orbit (n : nat) (p : Planet.t) :
  on_orbit p ->
  exists p', updates n p = (Ok tt, p')
             /\ on_orbit p'
             /\ Planet.screen_center p' = Planet.screen_center p
             /\ Planet.original_vector_norm p' = Planet.original_vector_norm p.
Proof.
  revert p. induction n as [|n IH]; intros p Hp; simpl.
  - exists p. repeat split; apply Hp.
  - destruct (update_on_orbit p Hp) as (p1 & E1 & H1 & Hs1 & Ho1).
    destruct (IH p1 H1) as (p2 & E2 & H2 & Hs2 & Ho2).
    exists p2. split; [|repeat split; try apply H2; congruence].
    mrun. rewrite E1. exact E2.
Qed.

(** C8.  A planet built by [Planet.__init__] with a centre distinct from
    the screen centre keeps its orbit radius under any number of [update]
    calls, over the real numbers: every call returns normally, and after it
    the distance from the new centre to [screen_center] is exactly
    [original_vector_norm], the distance the constructor measured. *)
Theorem update_keeps_orbit_radius init_center radius step cw color sc (n : nat) :
  init_center <> sc ->
  exists p', updates n (Planet.init init_center radius step cw color sc) = (Ok tt, p')
             /\ Planet.distance (Planet.screen_center p') (Planet.center p')
                = Planet.original_vector_norm p'
             /\ Planet.original_vector_norm p' = Planet.distance sc init_center
             /\ Planet.screen_center p' = sc.
Proof.
  intros H.
  destruct (updates_on_orbit n _ (init_on_orbit init_center radius step cw color sc H))
    as (p' & E & [_ Hd] & Hs & Ho).
  exists p'. repeat split; assumption.
Qed.

End PlanetFacts.

(** ** What a computation adds to the log

    No program reads the log, so what a computation does to it is to append
    calls.  [emits lg P R m]: from any state, [m] appends to the log (read
    by [lg]) only calls that satisfy [P], and a value it returns satisfies
    [R]. *)

Section Emits.
Context {St : Type} (lg : St -> list call) (P : call -> bool).

Definition emits {A} (R : A -> Prop) (m : M St A) : Prop :=
  forall s, (exists l, lg (m s).2 = lg s ++ l /\ forallb P l = true)
            /\ forall a, (m s).1 = Ok a -> R a.

Lemma emits_weaken {A} (R R' : A -> Prop) (m : M St A) :
  emits R m -> (forall a, R a -> R' a) -> emits R' m.
Proof. intros H HR s. destruct (H s) as [Hl Ha]. split; [exact Hl | auto]. Qed.

Lemma emits_ret {A} (R : A -> Prop) (a : A) : R a -> emits R (mret a).
Proof.
  intros Ha s. split.
  - exists []. split; [symmetry; apply app_nil_r | reflexivity].
  - intros a' [= <-]. exact Ha.
Qed.

Lemma emits_raise {A} (R : A -> Prop) (e : exn) : emits R (raise e).
Proof.
  intros s. split.
  - exists []. split; [symmetry; apply app_nil_r | reflexivity].
  - intros a' [=].
Qed.

Lemma emits_get (R : St -> Prop) : (forall s, R s) -> emits R get.
Proof.
  intros HR s. split.
  - exists []. split; [symmetry; apply app_nil_r | reflexivity].
  - intros a' [= <-]. apply HR.
Qed.

Lemma emits_gets {A} (f : St -> A) (R : A -> Prop) : (forall s, R (f s)) -> emits R (gets f).
Proof.
  intros HR s. split.
  - exists []. split; [symmetry; apply app_nil_r | reflexivity].
  - intros a' [= <-]. apply HR.
Qed.

Lemma emits_modify (f : St -> St) (R : unit -> Prop) :
  (forall s, lg (f s) = lg s) -> R tt -> emits R (modify f).
Proof.
  intros Hf HR s. split.
  - exists []. simpl. rewrite Hf. split; [symmetry; apply app_nil_r | reflexivity].
  - intros [] _. exact HR.
Qed.

Lemma emits_bind {A B} (R1 : A -> Prop) (R2 : B -> Prop) (m : M St A) (f : A -> M St B) :
  emits R1 m -> (forall a, R1 a -> emits R2 (f a)) -> emits R2 (m ≫= f).
Proof.
  intros Hm Hf s. destruct (Hm s) as [(l1 & E1 & F1) Ha].
  unfold mbind, M_bind. destruct (m s) as [[a|e] s1]; simpl in *.
  - destruct (Hf a (Ha a eq_refl) s1) as [(l2 & E2 & F2) Hb]. split; [|exact Hb].
    exists (l1 ++ l2). rewrite E2, E1, app_assoc. split; [reflexivity|].
    rewrite forallb_app, F1, F2. reflexivity.
  - split; [|intros b [=]]. exists l1. auto.
Qed.

Lemma emits_for_each {A} (l : list A) (body : A -> M St unit) :
  (forall x, x ∈ l -> emits (fun _ => True) (body x)) ->
  emits (fun _ => True) (for_each l body).
Proof.
  induction l as [|x l IH]; intros Hb; simpl.
  - apply emits_ret. exact I.
  - eapply emits_bind; [apply Hb; left|]. intros _ _. apply IH.
    intros y Hy. apply Hb. now right.
Qed.

Lemma emits_repeat_n (n : nat) (body : M St unit) :
  emits (fun _ => True) body -> emits (fun _ => True) (repeat_n n body).
Proof.
  intros Hb. induction n as [|n IH]; simpl.
  - apply emits_ret. exact I.
  - eapply emits_bind; [exact Hb|]. intros _ _. exact IH.
Qed.

Lemma emits_for_range (n : Z) (body : M St unit) :
  emits (fun _ => True) body -> emits (fun _ => True) (for_range n body).
Proof. apply emits_repeat_n. Qed.

Lemma emits_for_from {A} fuel i (lst : St -> list A) (body : A -> M St unit) :
  (forall x, emits (fun _ => True) (body x)) ->
  emits (fun _ => True) (for_from fuel i lst body).
Proof.
  intros Hb. revert i. induction fuel as [|fuel IH]; intros i; simpl.
  - apply emits_ret. exact I.
  - eapply emits_bind; [apply emits_get; intros; exact I|].
    intros s0 _. destruct (lst s0 !! i) as [x|].
    + eapply emits_bind; [apply Hb|]. intros _ _. apply IH.
    + apply emits_ret. exact I.
Qed.

Lemma emits_for_in {A} (lst : St -> list A) (body : A -> M St unit) :
  (forall x, emits (fun _ => True) (body x)) ->
  emits (fun _ => True) (for_in lst body).
Proof.
  intros Hb. unfold for_in. eapply emits_bind; [apply emits_get; intros; exact I|].
  intros s0 _. apply emits_for_from, Hb.
Qed.

Lemma emits_try_except_pass (m : M St unit) (handled : exn -> bool) :
  emits (fun _ => True) m -> emits (fun _ => True) (try_except_pass m handled).
Proof.
  intros Hm s. destruct (Hm s) as [Hl _]. split; [|auto].
  unfold try_except_pass. destruct (m s) as [[[]|e] s1]; simpl in *; [exact Hl|].
  destruct (handled e); exact Hl.
Qed.

Lemma emits_list_remove {A} (same : A -> bool) (l : list A) :
  emits (fun _ => True) (list_remove same l).
Proof.
  unfold list_remove. destruct (remove_first same l).
  - apply emits_ret. exact I.
  - apply emits_raise.
Qed.

Lemma emits_floordiv (a b : Z) : emits (fun _ => True) (floordiv a b).
Proof.
  unfold floordiv. destruct (b =? 0); [apply emits_raise | apply emits_ret; exact I].
Qed.

End Emits.

(** A computation that only touches [self] adds nothing to the log of the
    world. *)
Lemma emits_on_self {X F A} (P : call -> bool) (R : A -> Prop) (m : M X A) :
  (forall x a, (m x).1 = Ok a -> R a) ->
  emits (fun s : X * World F => calls s.2) P R (on_self m).
Proof.
  intros HR [x w]. unfold on_self. simpl. destruct (m x) as [r x'] eqn:E. simpl. split.
  - exists []. split; [symmetry; apply app_nil_r | reflexivity].
  - intros a ->. apply (HR x). rewrite E. reflexivity.
Qed.

Lemma emits_on_attr {X F A B} (P : call -> bool) (R : B -> Prop)
      (getter : X -> A) (setter : A -> X -> X) (m : M A B) :
  (forall x a, (m x).1 = Ok a -> R a) ->
  emits (fun s : X * World F => calls s.2) P R (on_attr getter setter m).
Proof.
  intros HR [x w]. unfold on_attr. simpl. destruct (m (getter x)) as [r x'] eqn:E. simpl.
  split.
  - exists []. split; [symmetry; apply app_nil_r | reflexivity].
  - intros a ->. apply (HR (getter x)). rewrite E. reflexivity.
Qed.

Lemma emits_on_world {X F A} (P : call -> bool) (R : A -> Prop) (m : M (World F) A) :
  emits calls P R m ->
  emits (fun s : X * World F => calls s.2) P R (on_world m).
Proof.
  intros Hm [x w]. destruct (Hm w) as [Hl Ha]. unfold on_world. simpl.
  destruct (m w) as [r w']. simpl in *. split; [exact Hl | exact Ha].
Qed.

Lemma emits_under_construction {X F} (P : call -> bool) (self : X)
      (m : M (X * World F) unit) :
  emits (fun s : X * World F => calls s.2) P (fun _ => True) m ->
  emits calls P (fun _ => True) (under_construction self m).
Proof.
  intros Hm w. destruct (Hm (self, w)) as [Hl _]. unfold under_construction.
  destruct (m (self, w)) as [[[]|e] [self' w']]; simpl in *; split; auto.
Qed.

Lemma emits_mono {St A} (lg : St -> list call) (P P' : call -> bool) (R : A -> Prop)
      (m : M St A) :
  (forall c, P c = true -> P' c = true) -> emits lg P R m -> emits lg P' R m.
Proof.
  intros HP Hm s. destruct (Hm s) as [(l & E & Fl) Ha]. split; [|exact Ha].
  exists l. split; [exact E|]. rewrite forallb_forall in *. auto.
Qed.

(** The log after a computation is the log before it followed by the new
    calls. *)
Lemma emits_new_calls {F A} (P : call -> bool) (R : A -> Prop) (m : M (World F) A) w :
  emits calls P R m ->
  calls (m w).2 = calls w ++ new_calls w (m w).2 /\ forallb P (new_calls w (m w).2) = true.
Proof.
  intros Hm. destruct (Hm w) as [(l & E & Fl) _]. unfold new_calls.
  rewrite E, drop_app_length. auto.
Qed.

(** *** The calls of the library operations *)

(** A shape handed to [Space.add] is a circle or a segment. *)
Definition obj_ok (o : logged_obj) : bool :=
  match o with
  | LBody _ => true
  | LShape _ g => circle_or_segment g
  end.
Definition call_ok (c : call) : bool :=
  match c with
  | lib_space_add objs => forallb obj_ok objs
  | _ => true
  end.

(** What may follow the [space.step] of a frame: anything but another
    step, and only circles and segments are added. *)
Definition is_benign (c : call) : bool :=
  match c with
  | lib_space_step => false
  | _ => call_ok c
  end.

(** What a constructor does once the window and the space exist: it opens
    no other window, builds no other space and steps nothing. *)
Definition is_plain (c : call) : bool :=
  match c with
  | lib_space_new | lib_space_step | lib_display_set_mode _ _ => false
  | _ => call_ok c
  end.

Lemma plain_benign c : is_plain c = true -> is_benign c = true.
Proof. destruct c; simpl; auto. Qed.

Lemma benign_ok c : is_benign c = true -> call_ok c = true.
Proof. destruct c; simpl; auto. Qed.

Section WorldCalls.
Context {F : Type} {NF : Num F} (P : call -> bool).

Local Abbreviation wemits := (emits (@calls F) P).

(** An operation that leaves the log alone. *)
Lemma emits_silent {A} (R : A -> Prop) (m : M (World F) A) :
  (forall w, calls (m w).2 = calls w) ->
  (forall w a, (m w).1 = Ok a -> R a) ->
  wemits R m.
Proof.
  intros Hs HR w. split; [|apply HR].
  exists []. rewrite Hs. split; [symmetry; apply app_nil_r | reflexivity].
Qed.

Lemma emits_log (c : call) : P c = true -> wemits (fun _ => True) (log c).
Proof.
  intros Hc w. split; [|auto]. exists [c]. split; [reflexivity|].
  simpl. rewrite Hc. reflexivity.
Qed.

Lemma emits_fresh_id : wemits (fun _ => True) fresh_id.
Proof. apply emits_silent; [reflexivity | auto]. Qed.

Lemma emits_Body_new ty mass moment : wemits (fun _ => True) (Body_new ty mass moment).
Proof. apply emits_silent; [reflexivity | auto]. Qed.

Lemma emits_Body_set_position i p : wemits (fun _ => True) (Body_set_position i p).
Proof. apply emits_silent; [reflexivity | auto]. Qed.

Lemma emits_Body_set_velocity i v : wemits (fun _ => True) (Body_set_velocity i v).
Proof. apply emits_silent; [reflexivity | auto]. Qed.

Lemma emits_Shape_new body g e f :
  wemits (fun sh => geom sh = g) (Shape_new body g e f).
Proof.
  apply emits_silent; [reflexivity|]. intros w sh. unfold Shape_new, fresh_id. mrun.
  intros [= <-]. reflexivity.
Qed.

Lemma emits_rng_draw : wemits (fun _ => True) rng_draw.
Proof. apply emits_silent; [reflexivity | auto]. Qed.

Lemma emits_randrange a b : wemits (fun _ => True) (randrange a b).
Proof.
  unfold randrange. destruct (a <? b); [|apply emits_raise].
  apply emits_silent; [reflexivity | auto].
Qed.

Lemma emits_choice_sign : wemits (fun _ => True) choice_sign.
Proof. apply emits_silent; [reflexivity | auto]. Qed.

Lemma emits_choice_bool : wemits (fun _ => True) choice_bool.
Proof. apply emits_silent; [reflexivity | auto]. Qed.

Lemma emits_choice {A} (l : list A) : wemits (fun _ => True) (choice l).
Proof.
  destruct l; [apply emits_raise|]. apply emits_silent; [reflexivity | auto].
Qed.

Lemma emits_random_color : wemits (fun _ => True) random_color.
Proof. apply emits_silent; [reflexivity | auto]. Qed.

Lemma emits_random_gt_half : wemits (fun _ => True) random_gt_half.
Proof. apply emits_silent; [reflexivity | auto]. Qed.

Lemma emits_pygame_event_get :
  P lib_event_get = true -> wemits (fun _ => True) pygame_event_get.
Proof.
  intros HP. unfold pygame_event_get.
  eapply emits_bind; [apply emits_log, HP|]. intros _ _.
  apply emits_silent; [reflexivity | auto].
Qed.

Lemma emits_pygame_mouse_get_pos :
  P lib_mouse_get_pos = true -> wemits (fun _ => True) pygame_mouse_get_pos.
Proof.
  intros HP. unfold pygame_mouse_get_pos.
  eapply emits_bind; [apply emits_log, HP|]. intros _ _.
  apply emits_gets. auto.
Qed.

Lemma emits_Space_add_to (sp : Space F) (objs : list (obj F)) :
  P (lib_space_add (describe <$> objs)) = true ->
  wemits (fun _ => True) (Space_add_to sp objs).
Proof.
  intros HP. unfold Space_add_to.
  eapply emits_bind; [apply emits_log, HP|]. intros _ _.
  destruct (Space_add objs sp) as [[[]|e] sp']; [apply emits_ret; exact I | apply emits_raise].
Qed.

Lemma emits_attr_space_add {X} (getter : X -> Space F) (setter : Space F -> X -> X)
      (objs : list (obj F)) :
  P (lib_space_add (describe <$> objs)) = true ->
  emits (fun s : X * World F => calls s.2) P (fun _ => True)
        (attr_space_add getter setter objs).
Proof.
  intros HP. unfold attr_space_add.
  eapply emits_bind; [apply emits_on_world, emits_log, HP|]. intros _ _.
  apply emits_on_attr. auto.
Qed.

Lemma emits_attr_space_remove {X} (getter : X -> Space F) (setter : Space F -> X -> X)
      (objs : list (obj F)) :
  P (lib_space_remove (describe <$> objs)) = true ->
  emits (fun s : X * World F => calls s.2) P (fun _ => True)
        (attr_space_remove getter setter objs).
Proof.
  intros HP. unfold attr_space_remove.
  eapply emits_bind; [apply emits_on_world, emits_log, HP|]. intros _ _.
  apply emits_on_attr. auto.
Qed.

End WorldCalls.

(** *** Proof automation for [emits] *)

Lemma emits_ret_any {St A} (lg : St -> list call) (P : call -> bool) (a : A) :
  emits lg P (fun _ => True) (mret a).
Proof. apply emits_ret. exact I. Qed.

Lemma emits_get_any {St} (lg : St -> list call) (P : call -> bool) :
  emits lg P (fun _ => True) get.
Proof. apply emits_get. intros; exact I. Qed.

Lemma emits_gets_any {St A} (lg : St -> list call) (P : call -> bool) (f : St -> A) :
  emits lg P (fun _ => True) (gets f).
Proof. apply emits_gets. intros; exact I. Qed.

Lemma emits_on_self_any {X F A} (P : call -> bool) (m : M X A) :
  emits (fun s : X * World F => calls s.2) P (fun _ => True) (on_self m).
Proof. apply emits_on_self. intros; exact I. Qed.

Lemma emits_on_attr_any {X F A B} (P : call -> bool) (getter : X -> A)
      (setter : A -> X -> X) (m : M A B) :
  emits (fun s : X * World F => calls s.2) P (fun _ => True) (on_attr getter setter m).
Proof. apply emits_on_attr. intros; exact I. Qed.

Create HintDb emits discriminated.

#[global] Hint Resolve emits_fresh_id emits_Body_new emits_Body_set_position
  emits_Body_set_velocity emits_Shape_new emits_rng_draw emits_randrange
  emits_choice_sign emits_choice_bool emits_choice emits_random_color
  emits_random_gt_half emits_floordiv emits_list_remove emits_raise : emits.

(** The side condition of a logging step: the predicate accepts the call.
    The shapes of a [Space.add] are known from what built them. *)
Ltac accept_call :=
  cbv beta in *; cbn [fst snd] in *; cbn;
  repeat match goal with
         | H : geom _ = _ |- _ => rewrite H
         end;
  first [ reflexivity
        | assumption
        | match goal with
          | HP : forall c, _ c = true -> ?P c = true |- ?P _ = true =>
              apply HP; cbn;
              repeat match goal with
                     | H : geom _ = _ |- _ => rewrite H
                     end;
              reflexivity
          end ].

Ltac emits_go :=
  lazymatch goal with
  | |- emits _ _ _ (mbind _ _) =>
      eapply emits_bind; [emits_go | intros ? ?; emits_go]
  | |- emits _ _ _ (mret _) => first [apply emits_ret_any | apply emits_ret; try exact I]
  | |- emits _ _ _ (if ?b then _ else _) => destruct b; emits_go
  | |- emits _ _ _ (match ?x with _ => _ end) => destruct x; emits_go
  | |- emits _ _ _ (on_world _) => apply emits_on_world; emits_go
  | |- emits _ _ _ (on_self _) => apply emits_on_self_any
  | |- emits _ _ _ (on_attr _ _ _) => apply emits_on_attr_any
  | |- emits _ _ _ get => apply emits_get_any
  | |- emits _ _ _ (gets _) => apply emits_gets_any
  | |- emits _ _ _ (log _) => apply emits_log; accept_call
  | |- emits _ _ _ pygame_event_get => apply emits_pygame_event_get; accept_call
  | |- emits _ _ _ pygame_mouse_get_pos => apply emits_pygame_mouse_get_pos; accept_call
  | |- emits _ _ _ (Space_add_to _ _) => apply emits_Space_add_to; accept_call
  | |- emits _ _ _ (attr_space_add _ _ _) => apply emits_attr_space_add; accept_call
  | |- emits _ _ _ (attr_space_remove _ _ _) => apply emits_attr_space_remove; accept_call
  | |- emits _ _ _ (for_each _ _) => apply emits_for_each; intros ? ?; emits_go
  | |- emits _ _ _ (for_in _ _) => apply emits_for_in; intros ?; emits_go
  | |- emits _ _ _ (for_range _ _) => apply emits_for_range; emits_go
  | |- emits _ _ _ (try_except_pass _ _) => apply emits_try_except_pass; emits_go
  | |- emits _ _ _ (under_construction _ _) => apply emits_under_construction; emits_go
  | |- _ => first [ solve [eauto with emits]
                  | eapply emits_weaken; [solve [eauto with emits] | intros; exact I] ]
  end.

(** *** The first calls of a constructor and of [run_logic] *)

Lemma n_calls_app {F} (c : call) (w w' : World F) (l : list call) :
  calls w' = calls w ++ l -> n_calls c w' = (n_calls c w + count_occ call_eq_dec l c)%nat.
Proof. intros E. unfold n_calls. rewrite E. apply count_occ_app. Qed.

Lemma n_calls_log {F} (c c' : call) (w : World F) :
  n_calls c (set_calls (fun l => l ++ [c']) w)
  = (n_calls c w + if decide (c' = c) then 1 else 0)%nat.
Proof.
  unfold n_calls. cbn [calls set_calls]. rewrite count_occ_app. reflexivity.
Qed.

Ltac count_calls :=
  repeat (rewrite n_calls_log);
  repeat first [ rewrite decide_True by reflexivity
               | rewrite decide_False by discriminate ];
  lia.

Lemma count_occ_rejected (P : call -> bool) (l : list call) (c : call) :
  forallb P l = true -> P c = false -> count_occ call_eq_dec l c = 0%nat.
Proof.
  intros Hl Hc. apply count_occ_not_In. intros Hin.
  rewrite forallb_forall in Hl. rewrite (Hl c Hin) in Hc. discriminate.
Qed.

Section FirstCalls.
Context {F : Type} {NF : Num F}.

Lemma emits_open_window (P : call -> bool) (w h : Z) :
  P lib_pygame_init = true -> P (lib_display_set_mode w h) = true ->
  P lib_display_set_caption = true -> P lib_Clock_new = true ->
  emits (@calls F) P (fun _ => True) (open_window w h).
Proof. intros H1 H2 H3 H4. unfold open_window. emits_go. Qed.

Lemma emits_Space_new (P : call -> bool) :
  P lib_space_new = true -> emits (@calls F) P (fun _ => True) Space_new.
Proof. intros H. unfold Space_new. emits_go. Qed.

Lemma emits_Space_step (P : call -> bool) (sp : Space F) :
  P lib_space_step = true -> emits (@calls F) P (fun _ => True) (Space_step sp).
Proof.
  intros H. unfold Space_step. eapply emits_bind; [apply emits_log, H|]. intros _ _.
  apply emits_silent; [reflexivity | auto].
Qed.

(** A constructor that opens the window, builds the space and then goes
    on plainly logs one [set_mode] and one [Space()], whether the rest
    returns or raises. *)
Lemma window_then_space {X} (w h : Z) (rest : Space F -> M (World F) X) (w0 : World F) :
  (forall sp, emits calls is_plain (fun _ => True) (rest sp)) ->
  let w1 := ((open_window w h;; Space_new ≫= rest) w0).2 in
  n_calls (lib_display_set_mode w h) w1 = S (n_calls (lib_display_set_mode w h) w0)
  /\ n_calls lib_space_new w1 = S (n_calls lib_space_new w0).
Proof.
  intros Hrest. unfold open_window, Space_new, log. mrun.
  set (w2 := set_calls _ _).
  destruct (Hrest Space_empty w2) as [(l & E & Hl) _].
  split.
  - rewrite (n_calls_app (lib_display_set_mode w h) w2 _ l E),
      (count_occ_rejected is_plain l (lib_display_set_mode w h) Hl eq_refl).
    unfold w2. count_calls.
  - rewrite (n_calls_app lib_space_new w2 _ l E),
      (count_occ_rejected is_plain l lib_space_new Hl eq_refl).
    unfold w2. count_calls.
Qed.

(** A constructor that opens the window and then goes on plainly logs one
    [set_mode] and no [Space()]. *)
Lemma window_only {X} (w h : Z) (rest : M (World F) X) (w0 : World F) :
  emits calls is_plain (fun _ => True) rest ->
  let w1 := ((open_window w h;; rest) w0).2 in
  n_calls (lib_display_set_mode w h) w1 = S (n_calls (lib_display_set_mode w h) w0)
  /\ n_calls lib_space_new w1 = n_calls lib_space_new w0.
Proof.
  intros Hrest. unfold open_window, log. mrun.
  set (w2 := set_calls _ _).
  destruct (Hrest w2) as [(l & E & Hl) _].
  split.
  - rewrite (n_calls_app (lib_display_set_mode w h) w2 _ l E),
      (count_occ_rejected is_plain l (lib_display_set_mode w h) Hl eq_refl).
    unfold w2. count_calls.
  - rewrite (n_calls_app lib_space_new w2 _ l E),
      (count_occ_rejected is_plain l lib_space_new Hl eq_refl).
    unfold w2. count_calls.
Qed.

(** A [run_logic] that steps the space first and then goes on benignly
    steps exactly once, whether the rest returns or raises. *)
Lemma step_first {X} (sp_of : X -> Space F) (rest : X -> M (X * World F) unit)
      (s : X * World F) :
  (forall self, emits (fun s : X * World F => calls s.2) is_benign (fun _ => True) (rest self)) ->
  n_calls lib_space_step
          ((gets fst ≫= fun self => on_world (Space_step (sp_of self));; rest self) s).2.2
  = S (n_calls lib_space_step s.2).
Proof.
  intros Hrest. destruct s as [self w]. unfold Space_step, log. mrun.
  set (w2 := set_bodies _ _).
  destruct (Hrest self (self, w2)) as [(l & E & Hl) _]. simpl in E.
  rewrite (n_calls_app lib_space_step w2 _ l E),
    (count_occ_rejected is_benign l lib_space_step Hl eq_refl).
  unfold w2. change (n_calls lib_space_step (set_bodies ?f ?w)) with (n_calls lib_space_step w).
  count_calls.
Qed.

(** A [run_logic] that logs benign calls only never steps. *)
Lemma no_step {St} (lg : St -> list call) (m : M St unit) (s : St) :
  emits lg is_benign (fun _ => True) m ->
  count_occ call_eq_dec (lg (m s).2) lib_space_step
  = count_occ call_eq_dec (lg s) lib_space_step.
Proof.
  intros Hm. destruct (Hm s) as [(l & E & Hl) _].
  rewrite E, count_occ_app, (count_occ_rejected is_benign l lib_space_step Hl eq_refl). lia.
Qed.

End FirstCalls.

Lemma plain_plain c : is_plain c = true -> is_plain c = true.
Proof. auto. Qed.

Lemma plain_ok c : is_plain c = true -> call_ok c = true.
Proof. intros H. apply benign_ok, plain_benign, H. Qed.

Lemma benign_benign c : is_benign c = true -> is_benign c = true.
Proof. auto. Qed.

#[global] Hint Resolve plain_plain plain_benign plain_ok benign_ok benign_benign : emits.

(** ** colorful_flooding: what the methods log *)

Module ColorfulFloodingCalls.
Section Calls.
Context {F : Type} {NF : Num F}.
Context (P : call -> bool) (HP : forall c, is_plain c = true -> P c = true).

Lemma cf_emits_Ball_init center mass radius e f col :
  emits (@calls F) P (fun b => geom (Ball.shape b) = Circle radius)
        (Ball.init center mass radius e f col).
Proof. unfold Ball.init. emits_go. assumption. Qed.

Lemma cf_emits_new_border a b :
  emits (@calls F) P (fun bs => geom bs.2 = Segment a b 4) (ColorfulFlooding.new_border a b).
Proof. unfold ColorfulFlooding.new_border. emits_go. assumption. Qed.

Lemma cf_emits_create_ball source :
  emits (fun s : ColorfulFlooding.St F => calls s.2) P (fun _ => True)
        (ColorfulFlooding.create_ball source).
Proof.
  unfold ColorfulFlooding.create_ball, ColorfulFlooding.space_add.
  eapply emits_bind; [emits_go|]. intros cfg _.
  eapply emits_bind; [emits_go|]. intros sign _.
  eapply emits_bind; [emits_go|]. intros col _.
  eapply emits_bind; [apply emits_on_world, cf_emits_Ball_init|]. intros new_ball Hb.
  emits_go.
Qed.

Lemma cf_emits_remove_if_out ball :
  emits (fun s : ColorfulFlooding.St F => calls s.2) P (fun _ => True)
        (ColorfulFlooding.remove_if_out ball).
Proof.
  unfold ColorfulFlooding.remove_if_out, ColorfulFlooding.space_remove. emits_go.
Qed.

Lemma cf_emits_remove_bottom :
  emits (fun s : ColorfulFlooding.St F => calls s.2) P (fun _ => True)
        ColorfulFlooding.remove_bottom.
Proof.
  unfold ColorfulFlooding.remove_bottom, ColorfulFlooding.space_remove. emits_go.
Qed.

End Calls.

#[global] Hint Resolve cf_emits_Ball_init cf_emits_new_border cf_emits_create_ball
  cf_emits_remove_if_out cf_emits_remove_bottom : emits.

Section Methods.
Context {F : Type} {NF : Num F}.

(** What [__init__] does once the window and the space exist. *)
Ltac init_rest :=
  eapply emits_bind; [emits_go|]; intros d _;
  eapply emits_bind; [apply cf_emits_new_border; auto with emits|]; intros [b0 s0] H0;
  eapply emits_bind; [apply cf_emits_new_border; auto with emits|]; intros [b1 s1] H1;
  eapply emits_bind; [apply cf_emits_new_border; auto with emits|]; intros [b2 s2] H2;
  eapply emits_bind; [apply cf_emits_new_border; auto with emits|]; intros [b3 s3] H3;
  cbn [fst snd] in *; emits_go.

Lemma cf_init_counts (cfg : ColorfulFlooding.Config F) (w0 : World F) :
  let w1 := (ColorfulFlooding.init cfg w0).2 in
  n_calls (lib_display_set_mode (ColorfulFlooding.screen_width cfg)
                                (ColorfulFlooding.screen_height cfg)) w1
  = S (n_calls (lib_display_set_mode (ColorfulFlooding.screen_width cfg)
                                     (ColorfulFlooding.screen_height cfg)) w0)
  /\ n_calls lib_space_new w1 = S (n_calls lib_space_new w0).
Proof.
  unfold ColorfulFlooding.init. apply window_then_space. intros sp. init_rest.
Qed.

Lemma cf_init_adds_ok (cfg : ColorfulFlooding.Config F) :
  emits calls call_ok (fun _ => True) (ColorfulFlooding.init cfg).
Proof.
  unfold ColorfulFlooding.init.
  eapply emits_bind; [apply emits_open_window; reflexivity|]. intros _ _.
  eapply emits_bind; [apply emits_Space_new; reflexivity|]. intros sp _.
  init_rest.
Qed.

(** What [run_logic] does after [self.space.step]. *)
Lemma cf_run_logic_rest (P : call -> bool) (HP : forall c, is_plain c = true -> P c = true) :
  emits (fun s : ColorfulFlooding.St F => calls s.2) P (fun _ => True)
        (on_self (modify (fun self => ColorfulFlooding.set_counter
                                        (ColorfulFlooding.counter self + 1) self));;
         self ← gets fst;
         (if negb (ColorfulFlooding._remove_screen_bottom self)
             && (ColorfulFlooding.counter self
                 =? ColorfulFlooding.create_balls_every (ColorfulFlooding._config self))
          then
            on_self (modify (ColorfulFlooding.set_counter 0));;
            for_each (ColorfulFlooding.sources_positions self) ColorfulFlooding.create_ball
          else mret tt);;
         self ← gets fst;
         (if ColorfulFlooding._remove_screen_bottom self
          then ColorfulFlooding.remove_bottom else mret tt);;
         for_in (fun s : ColorfulFlooding.St F => ColorfulFlooding.balls_list s.1)
                ColorfulFlooding.remove_if_out).
Proof. emits_go. Qed.

Lemma cf_run_logic_steps_once (s : ColorfulFlooding.St F) :
  n_calls lib_space_step (ColorfulFlooding.run_logic s).2.2 = S (n_calls lib_space_step s.2).
Proof.
  unfold ColorfulFlooding.run_logic.
  apply (step_first ColorfulFlooding.space). intros _.
  apply cf_run_logic_rest. auto with emits.
Qed.

Lemma cf_run_logic_adds_ok :
  emits (fun s : ColorfulFlooding.St F => calls s.2) call_ok (fun _ => True)
        ColorfulFlooding.run_logic.
Proof.
  unfold ColorfulFlooding.run_logic.
  eapply emits_bind; [emits_go|]. intros self _.
  eapply emits_bind; [apply emits_on_world, emits_Space_step; reflexivity|]. intros _ _.
  apply cf_run_logic_rest. auto with emits.
Qed.

End Methods.
End ColorfulFloodingCalls.

(** ** wrecking_ball: what the methods log *)

Module WreckingBallCalls.
Section Calls.
Context {F : Type} {NF : Num F}.
Context (P : call -> bool) (HP : forall c, is_plain c = true -> P c = true).

Lemma wb_emits_SmallBall_init center radius mass e f col :
  emits (@calls F) P (fun b => geom (SmallBall.shape b) = Circle radius)
        (SmallBall.init center radius mass e f col).
Proof. unfold SmallBall.init. emits_go. assumption. Qed.

Lemma wb_emits_bounce :
  emits (fun s : WreckingBall.St F => calls s.2) P (fun _ => True) WreckingBall.bounce.
Proof. unfold WreckingBall.bounce. emits_go. Qed.

Lemma wb_emits_create_small_ball :
  emits (fun s : WreckingBall.St F => calls s.2) P (fun _ => True)
        WreckingBall.create_small_ball.
Proof.
  unfold WreckingBall.create_small_ball, WreckingBall.space_add.
  eapply emits_bind; [emits_go|]. intros cfg _.
  eapply emits_bind; [emits_go|]. intros x _.
  eapply emits_bind; [emits_go|]. intros col _.
  eapply emits_bind; [apply emits_on_world, wb_emits_SmallBall_init|]. intros b Hb.
  emits_go.
Qed.

Lemma wb_emits_remove_if_out ball :
  emits (fun s : WreckingBall.St F => calls s.2) P (fun _ => True)
        (WreckingBall.remove_if_out ball).
Proof. unfold WreckingBall.remove_if_out, WreckingBall.space_remove. emits_go. Qed.

End Calls.

#[global] Hint Resolve wb_emits_SmallBall_init wb_emits_bounce wb_emits_create_small_ball
  wb_emits_remove_if_out : emits.

Section Methods.
Context {F : Type} {NF : Num F}.

Ltac init_rest :=
  eapply emits_bind; [emits_go|]; intros body _;
  eapply emits_bind; [emits_go|]; intros _ _;
  eapply emits_bind; [emits_go|]; intros vx _;
  eapply emits_bind; [emits_go|]; intros sx _;
  eapply emits_bind; [emits_go|]; intros vy _;
  eapply emits_bind; [emits_go|]; intros sy _;
  eapply emits_bind; [emits_go|]; intros _ _;
  eapply emits_bind; [apply emits_Shape_new|]; intros sh Hsh;
  emits_go.

Lemma wb_init_counts (cfg : WreckingBall.Config F) (w0 : World F) :
  let w1 := (WreckingBall.init cfg w0).2 in
  n_calls (lib_display_set_mode (WreckingBall.screen_width cfg)
                                (WreckingBall.screen_height cfg)) w1
  = S (n_calls (lib_display_set_mode (WreckingBall.screen_width cfg)
                                     (WreckingBall.screen_height cfg)) w0)
  /\ n_calls lib_space_new w1 = S (n_calls lib_space_new w0).
Proof.
  unfold WreckingBall.init. apply window_then_space. intros sp. init_rest.
Qed.

Lemma wb_init_adds_ok (cfg : WreckingBall.Config F) :
  emits calls call_ok (fun _ => True) (WreckingBall.init cfg).
Proof.
  unfold WreckingBall.init.
  eapply emits_bind; [apply emits_open_window; reflexivity|]. intros _ _.
  eapply emits_bind; [apply emits_Space_new; reflexivity|]. intros sp _.
  init_rest.
Qed.

Lemma wb_run_logic_steps_once (s : WreckingBall.St F) :
  n_calls lib_space_step (WreckingBall.run_logic s).2.2 = S (n_calls lib_space_step s.2).
Proof.
  unfold WreckingBall.run_logic.
  apply (step_first WreckingBall.space). intros _. emits_go.
Qed.

Lemma wb_run_logic_adds_ok :
  emits (fun s : WreckingBall.St F => calls s.2) call_ok (fun _ => True)
        WreckingBall.run_logic.
Proof.
  unfold WreckingBall.run_logic.
  eapply emits_bind; [emits_go|]. intros self _.
  eapply emits_bind; [apply emits_on_world, emits_Space_step; reflexivity|]. intros _ _.
  emits_go.
Qed.

End Methods.
End WreckingBallCalls.

(** ** sand_clock: what the methods log *)

Module SandClockCalls.

Definition shape_ok {F} (sh : Shape F) : bool := circle_or_segment (geom sh).

Lemma sc_zip_shapes_ok {F} (l1 : list nat) (l2 : list (Shape F)) :
  forallb shape_ok l2 = true ->
  forallb (fun bs : nat * Shape F => shape_ok bs.2) (zip l1 l2) = true.
Proof.
  revert l1. induction l2 as [|sh l2 IH]; intros [|b l1] H; simpl in *; try reflexivity.
  apply andb_true_iff in H as [H1 H2]. rewrite H1. simpl. apply IH, H2.
Qed.

Section Calls.
Context {F : Type} {NF : Num F}.
Context (P : call -> bool) (HP : forall c, is_plain c = true -> P c = true).

Lemma sc_emits_SandGrain_init center radius mass color_type :
  emits (@calls F) P (fun g => geom (SandGrain.shape g) = Circle radius)
        (SandGrain.init center radius mass color_type).
Proof.
  unfold SandGrain.init.
  eapply emits_bind; [emits_go|]. intros col _. emits_go. assumption.
Qed.

Lemma sc_emits_SandClockStructure_init center width height neck_width line_width line_color :
  emits (@calls F) P (fun st => forallb shape_ok (SandClockStructure.shape st) = true)
        (SandClockStructure.init center width height neck_width line_width line_color).
Proof.
  unfold SandClockStructure.init, SandClockStructure.static_body, SandClockStructure.segment.
  do 6 (eapply emits_bind; [emits_go|]; intros ? _).
  do 6 (eapply emits_bind; [apply emits_Shape_new|]; intros ? ?).
  apply emits_ret. cbv beta in *. unfold shape_ok. cbn.
  repeat match goal with H : geom _ = _ |- _ => rewrite H; clear H end.
  reflexivity.
Qed.

Lemma sc_emits_init_grain_random_position (st : SandClockStructure.t F) :
  emits (@calls F) P (fun _ => True) (SandClockStructure.init_grain_random_position st).
Proof. unfold SandClockStructure.init_grain_random_position. emits_go. Qed.

Lemma sc_emits_add_structure (l : list (nat * Shape F)) (sp : Space F) :
  forallb (fun bs : nat * Shape F => shape_ok bs.2) l = true ->
  emits (@calls F) P (fun _ => True) (SandClock.add_structure l sp).
Proof.
  revert sp. induction l as [|[b sh] l IH]; intros sp H; simpl in *.
  - emits_go.
  - apply andb_true_iff in H as [H1 H2].
    eapply emits_bind; [|intros sp' _; apply IH, H2].
    apply emits_Space_add_to, HP. cbn. unfold shape_ok in H1. rewrite H1. reflexivity.
Qed.

Lemma sc_emits_create_grains (n : nat) cfg (st : SandClockStructure.t F) acc :
  forallb (fun g => shape_ok (SandGrain.shape g)) acc = true ->
  emits (@calls F) P (fun l => forallb (fun g => shape_ok (SandGrain.shape g)) l = true)
        (SandClock.create_grains n cfg st acc).
Proof.
  revert acc. induction n as [|n IH]; intros acc Hacc; simpl.
  - apply emits_ret, Hacc.
  - eapply emits_bind; [apply sc_emits_init_grain_random_position|]. intros center _.
    eapply emits_bind; [apply sc_emits_SandGrain_init|]. intros g Hg. cbv beta in Hg.
    apply IH. rewrite forallb_app, Hacc. cbn. unfold shape_ok. rewrite Hg. reflexivity.
Qed.

Lemma sc_emits_add_grains (l : list (SandGrain.t F)) (sp : Space F) :
  forallb (fun g => shape_ok (SandGrain.shape g)) l = true ->
  emits (@calls F) P (fun _ => True) (SandClock.add_grains l sp).
Proof.
  revert sp. induction l as [|g l IH]; intros sp H; simpl in *.
  - emits_go.
  - apply andb_true_iff in H as [H1 H2].
    eapply emits_bind; [|intros sp' _; apply IH, H2].
    apply emits_Space_add_to, HP. cbn. unfold shape_ok in H1. rewrite H1. reflexivity.
Qed.

(** What [__init__] does once the window and the space exist. *)
Lemma sc_emits_furnish cfg (sp : Space F) :
  emits (@calls F) P (fun _ => True)
        (structure ← SandClockStructure.init
                      (SandClock.screen_width cfg / 2, SandClock.screen_height cfg / 2)
                      (SandClock.structure_width cfg) (SandClock.structure_height cfg)
                      (SandClock.neck_width cfg) (SandClock.line_width cfg)
                      (SandClock.line_color cfg);
         space ← SandClock.add_structure (zip (SandClockStructure.body structure)
                                              (SandClockStructure.shape structure)) sp;
         sand_grains_list ← SandClock.create_grains
                               (Z.to_nat (SandClock.n_sand_grains cfg)) cfg structure [];
         space ← SandClock.add_grains sand_grains_list space;
         mret (SandClock.mk cfg space structure sand_grains_list false false)).
Proof.
  eapply emits_bind; [apply sc_emits_SandClockStructure_init|]. intros st Hst. cbv beta in Hst.
  eapply emits_bind; [apply sc_emits_add_structure, sc_zip_shapes_ok, Hst|]. intros sp1 _.
  eapply emits_bind; [apply sc_emits_create_grains; reflexivity|]. intros grains Hg.
  eapply emits_bind; [apply sc_emits_add_grains, Hg|]. intros sp2 _.
  emits_go.
Qed.

Lemma sc_emits_flip_vertically :
  emits (fun s : SandClock.St F => calls s.2) P (fun _ => True) SandClock._flip_vertically.
Proof. unfold SandClock._flip_vertically, SandClock.flip_grain. emits_go. Qed.

End Calls.

Section Methods.
Context {F : Type} {NF : Num F}.

Lemma sc_init_counts (cfg : SandClock.Config) (w0 : World F) :
  let w1 := (SandClock.init cfg w0).2 in
  n_calls (lib_display_set_mode (SandClock.screen_width cfg) (SandClock.screen_height cfg)) w1
  = S (n_calls (lib_display_set_mode (SandClock.screen_width cfg)
                                     (SandClock.screen_height cfg)) w0)
  /\ n_calls lib_space_new w1 = S (n_calls lib_space_new w0).
Proof.
  unfold SandClock.init. apply window_then_space. intros sp.
  apply sc_emits_furnish. auto.
Qed.

(** The whole constructor logs benign calls only. *)
Lemma sc_init_emits (P : call -> bool) (HB : forall c, is_benign c = true -> P c = true)
      (cfg : SandClock.Config) :
  emits (@calls F) P (fun _ => True) (SandClock.init cfg).
Proof.
  unfold SandClock.init.
  eapply emits_bind; [apply emits_open_window; apply HB; reflexivity|]. intros _ _.
  eapply emits_bind; [apply emits_Space_new; apply HB; reflexivity|]. intros sp _.
  apply sc_emits_furnish. intros c Hc. apply HB, plain_benign, Hc.
Qed.

Lemma sc_init_adds_ok (cfg : SandClock.Config) :
  emits (@calls F) call_ok (fun _ => True) (SandClock.init cfg).
Proof. apply sc_init_emits. apply benign_ok. Qed.

(** What [run_logic] does after [self.space.step]. *)
Ltac run_logic_rest HB :=
  eapply emits_bind; [emits_go|]; intros self _;
  eapply emits_bind;
    [destruct (SandClock._tip_over self);
     [eapply emits_bind; [emits_go | intros _ _; apply sc_emits_flip_vertically;
                                     intros c Hc; apply HB, plain_benign, Hc]
     | emits_go]|];
  intros _ _;
  eapply emits_bind; [emits_go|]; intros self' _;
  destruct (SandClock._reset self'); [|emits_go];
  eapply emits_bind; [emits_go|]; intros _ _;
  eapply emits_bind; [apply emits_on_world, sc_init_emits, HB|]; intros new _;
  emits_go.

Lemma sc_run_logic_steps_once (s : SandClock.St F) :
  n_calls lib_space_step (SandClock.run_logic s).2.2 = S (n_calls lib_space_step s.2).
Proof.
  unfold SandClock.run_logic.
  apply (step_first SandClock.space). intros _. run_logic_rest benign_benign.
Qed.

Lemma sc_run_logic_adds_ok :
  emits (fun s : SandClock.St F => calls s.2) call_ok (fun _ => True) SandClock.run_logic.
Proof.
  unfold SandClock.run_logic.
  eapply emits_bind; [emits_go|]. intros self0 _.
  eapply emits_bind; [apply emits_on_world, emits_Space_step; reflexivity|]. intros _ _.
  run_logic_rest benign_ok.
Qed.

End Methods.
End SandClockCalls.

(** ** shooting_star: what the methods log *)

Module ShootingStarCalls.
Section Calls.
Context {F : Type} {NF : Num F}.
Context (P : call -> bool) (HP : forall c, is_plain c = true -> P c = true).

Lemma ss_emits_Spark_init mouse_pos col radius lifespan :
  emits (@calls F) P (fun sp => geom (Spark.shape sp) = Circle radius)
        (Spark.init mouse_pos col radius lifespan).
Proof. unfold Spark.init. emits_go. assumption. Qed.

Lemma ss_emits_create_and_add_a_new_spark mouse_pos :
  emits (fun s : ShootingStar.St F => calls s.2) P (fun _ => True)
        (ShootingStar._create_and_add_a_new_spark mouse_pos).
Proof.
  unfold ShootingStar._create_and_add_a_new_spark, ShootingStar.space_add.
  do 5 (eapply emits_bind; [emits_go|]; intros ? _).
  eapply emits_bind; [apply emits_on_world, ss_emits_Spark_init|]. intros sp Hsp.
  emits_go.
Qed.

(** The loop over the sparks leaves the world alone. *)
Lemma ss_emits_shrink_spark spark :
  emits (fun s : ShootingStar.St F => calls s.2) P (fun _ => True)
        (ShootingStar.shrink_spark spark).
Proof.
  intros [self w]. split; [|auto]. exists []. rewrite app_nil_r. split; [|reflexivity].
  unfold ShootingStar.shrink_spark.
  destruct (Spark.zero_radius spark) as [[[|]|e] spark']; cbn [fst snd]; try reflexivity.
  unfold list_remove. destruct (remove_first _ _); reflexivity.
Qed.

End Calls.

#[global] Hint Resolve ss_emits_Spark_init ss_emits_create_and_add_a_new_spark
  ss_emits_shrink_spark : emits.

Section Methods.
Context {F : Type} {NF : Num F}.

Lemma ss_init_counts (cfg : ShootingStar.Config) (w0 : World F) :
  let w1 := (ShootingStar.init cfg w0).2 in
  n_calls (lib_display_set_mode (ShootingStar.screen_width cfg)
                                (ShootingStar.screen_height cfg)) w1
  = S (n_calls (lib_display_set_mode (ShootingStar.screen_width cfg)
                                     (ShootingStar.screen_height cfg)) w0)
  /\ n_calls lib_space_new w1 = S (n_calls lib_space_new w0).
Proof.
  unfold ShootingStar.init. apply window_then_space. intros sp. emits_go.
Qed.

Lemma ss_init_adds_ok (cfg : ShootingStar.Config) :
  emits (@calls F) call_ok (fun _ => True) (ShootingStar.init cfg).
Proof.
  unfold ShootingStar.init.
  eapply emits_bind; [apply emits_open_window; reflexivity|]. intros _ _.
  eapply emits_bind; [apply emits_Space_new; reflexivity|]. intros sp _.
  emits_go.
Qed.

Lemma ss_run_logic_steps_once (s : ShootingStar.St F) :
  n_calls lib_space_step (ShootingStar.run_logic s).2.2 = S (n_calls lib_space_step s.2).
Proof.
  unfold ShootingStar.run_logic.
  apply (step_first ShootingStar.space). intros self. emits_go.
Qed.

Lemma ss_run_logic_adds_ok :
  emits (fun s : ShootingStar.St F => calls s.2) call_ok (fun _ => True)
        ShootingStar.run_logic.
Proof.
  unfold ShootingStar.run_logic.
  eapply emits_bind; [emits_go|]. intros self _.
  eapply emits_bind; [apply emits_on_world, emits_Space_step; reflexivity|]. intros _ _.
  emits_go.
Qed.

End Methods.
End ShootingStarCalls.

(** ** rebound_collisions: what the methods log *)

Module ReboundCollisionsCalls.
Section Calls.
Context {F : Type} {NF : Num F}.
Context (P : call -> bool) (HP : forall c, is_plain c = true -> P c = true).

Lemma rc_emits_Circle_init mass moment init_center radius velocity col :
  emits (@calls F) P (fun c => geom (ReboundCircle.shape c) = Circle radius)
        (ReboundCircle.init mass moment init_center radius velocity col).
Proof. unfold ReboundCircle.init. emits_go. assumption. Qed.

Lemma rc_emits_Circle_update circle w h :
  emits (@calls F) P (fun _ => True) (ReboundCircle.update circle w h).
Proof. unfold ReboundCircle.update. emits_go. Qed.

Lemma rc_emits_create_and_add_a_new_circle center :
  emits (fun s : ReboundCollisions.St F => calls s.2) P (fun _ => True)
        (ReboundCollisions._create_and_add_a_new_circle center).
Proof.
  unfold ReboundCollisions._create_and_add_a_new_circle, ReboundCollisions.space_add.
  do 9 (eapply emits_bind; [emits_go|]; intros ? _).
  eapply emits_bind; [apply emits_on_world, rc_emits_Circle_init|]. intros c Hc.
  emits_go.
Qed.

End Calls.

#[global] Hint Resolve rc_emits_Circle_init rc_emits_Circle_update
  rc_emits_create_and_add_a_new_circle : emits.

Section Methods.
Context {F : Type} {NF : Num F}.

(** The window is opened without a caption here. *)
Lemma rc_bare_window_then_space {X} (w h : Z) (rest : Space F -> M (World F) X) (w0 : World F) :
  (forall sp, emits calls is_plain (fun _ => True) (rest sp)) ->
  let w1 := ((log lib_pygame_init;; log (lib_display_set_mode w h);; log lib_Clock_new;;
              Space_new ≫= rest) w0).2 in
  n_calls (lib_display_set_mode w h) w1 = S (n_calls (lib_display_set_mode w h) w0)
  /\ n_calls lib_space_new w1 = S (n_calls lib_space_new w0).
Proof.
  intros Hrest. unfold Space_new, log. mrun.
  set (w2 := set_calls _ _).
  destruct (Hrest Space_empty w2) as [(l & E & Hl) _].
  split.
  - rewrite (n_calls_app (lib_display_set_mode w h) w2 _ l E),
      (count_occ_rejected is_plain l (lib_display_set_mode w h) Hl eq_refl).
    unfold w2. count_calls.
  - rewrite (n_calls_app lib_space_new w2 _ l E),
      (count_occ_rejected is_plain l lib_space_new Hl eq_refl).
    unfold w2. count_calls.
Qed.

Lemma rc_init_counts (cfg : ReboundCollisions.Config) (w0 : World F) :
  let w1 := (ReboundCollisions.init cfg w0).2 in
  n_calls (lib_display_set_mode (ReboundCollisions.screen_width cfg)
                                (ReboundCollisions.screen_height cfg)) w1
  = S (n_calls (lib_display_set_mode (ReboundCollisions.screen_width cfg)
                                     (ReboundCollisions.screen_height cfg)) w0)
  /\ n_calls lib_space_new w1 = S (n_calls lib_space_new w0).
Proof.
  unfold ReboundCollisions.init. apply rc_bare_window_then_space. intros sp. emits_go.
Qed.

Lemma rc_init_adds_ok (cfg : ReboundCollisions.Config) :
  emits (@calls F) call_ok (fun _ => True) (ReboundCollisions.init cfg).
Proof.
  unfold ReboundCollisions.init.
  do 3 (eapply emits_bind; [emits_go|]; intros _ _).
  eapply emits_bind; [apply emits_Space_new; reflexivity|]. intros sp _.
  emits_go.
Qed.

Lemma rc_run_logic_steps_once (s : ReboundCollisions.St F) :
  n_calls lib_space_step (ReboundCollisions.run_logic s).2.2
  = S (n_calls lib_space_step s.2).
Proof.
  unfold ReboundCollisions.run_logic.
  apply (step_first ReboundCollisions.space). intros self. emits_go.
Qed.

Lemma rc_run_logic_adds_ok :
  emits (fun s : ReboundCollisions.St F => calls s.2) call_ok (fun _ => True)
        ReboundCollisions.run_logic.
Proof.
  unfold ReboundCollisions.run_logic.
  eapply emits_bind; [emits_go|]. intros self _.
  eapply emits_bind; [apply emits_on_world, emits_Space_step; reflexivity|]. intros _ _.
  emits_go.
Qed.

End Methods.
End ReboundCollisionsCalls.

(** ** pizza_rain and solar_system: what the methods log *)

Module PizzaRainCalls.
Section Calls.
Context {F : Type}.
Context (P : call -> bool) (HP : forall c, is_plain c = true -> P c = true).

Lemma pr_emits_Pizza_init path vs re d sh :
  emits (@calls F) P (fun _ => True) (Pizza.init path vs re d sh).
Proof. unfold Pizza.init. emits_go. Qed.

Lemma pr_emits_place fuel cfg group pizza :
  emits (@calls F) P (fun _ => True) (PizzaRain.place fuel cfg group pizza).
Proof.
  revert pizza. induction fuel as [|fuel IH]; intros pizza; simpl.
  - emits_go.
  - destruct (PizzaRain.spritecollide pizza group); [|emits_go].
    eapply emits_bind; [emits_go|]. intros x _.
    eapply emits_bind; [emits_go|]. intros y _. apply IH.
Qed.

Lemma pr_emits_create_pizzas fuel n cfg group :
  emits (@calls F) P (fun _ => True) (PizzaRain.create_pizzas fuel n cfg group).
Proof.
  revert group. induction n as [|n IH]; intros group; simpl.
  - emits_go.
  - eapply emits_bind; [emits_go|]. intros img _.
    eapply emits_bind; [apply pr_emits_Pizza_init|]. intros pizza _.
    eapply emits_bind; [apply pr_emits_place|]. intros [placed|] _; [apply IH | emits_go].
Qed.

End Calls.

Section Methods.
Context {F : Type}.

Lemma pr_init_counts (fuel : nat) (cfg : PizzaRain.Config) (w0 : World F) :
  let w1 := (PizzaRain.init fuel cfg w0).2 in
  n_calls (lib_display_set_mode (PizzaRain.screen_width cfg) (PizzaRain.screen_height cfg)) w1
  = S (n_calls (lib_display_set_mode (PizzaRain.screen_width cfg)
                                     (PizzaRain.screen_height cfg)) w0)
  /\ n_calls lib_space_new w1 = n_calls lib_space_new w0.
Proof.
  unfold PizzaRain.init. apply window_only.
  eapply emits_bind; [apply pr_emits_create_pizzas; auto|]. intros pizzas _. emits_go.
Qed.

Lemma pr_run_logic_emits :
  emits (fun s : PizzaRain.St F => calls s.2) is_benign (fun _ => True) PizzaRain.run_logic.
Proof. unfold PizzaRain.run_logic, PizzaRain.group_update. emits_go. Qed.

Lemma pr_run_logic_never_steps (s : PizzaRain.St F) :
  n_calls lib_space_step (PizzaRain.run_logic s).2.2 = n_calls lib_space_step s.2.
Proof. apply (no_step (fun s : PizzaRain.St F => calls s.2)), pr_run_logic_emits. Qed.

End Methods.
End PizzaRainCalls.

Module SolarSystemCalls.
Section Calls.
Context {F : Type}.
Context (P : call -> bool) (HP : forall c, is_plain c = true -> P c = true).

Lemma sol_emits_index {A} (l : list A) (i : nat) :
  emits (@calls F) P (fun _ => True) (SolarSystem.index l i).
Proof. unfold SolarSystem.index. emits_go. Qed.

Lemma sol_emits_create_planets n i cfg sc next_y acc :
  emits (@calls F) P (fun _ => True) (SolarSystem.create_planets n i cfg sc next_y acc).
Proof.
  revert i next_y acc. induction n as [|n IH]; intros i next_y acc; simpl.
  - emits_go.
  - do 3 (eapply emits_bind; [apply sol_emits_index|]; intros ? _).
    eapply emits_bind; [emits_go|]. intros cw _.
    eapply emits_bind; [apply sol_emits_index|]. intros col _. apply IH.
Qed.

End Calls.

Section Methods.
Context {F : Type}.

Lemma sol_init_counts (cfg : SolarSystem.Config) (w0 : World F) :
  let w1 := (SolarSystem.init cfg w0).2 in
  n_calls (lib_display_set_mode (SolarSystem.screen_width cfg)
                                (SolarSystem.screen_height cfg)) w1
  = S (n_calls (lib_display_set_mode (SolarSystem.screen_width cfg)
                                     (SolarSystem.screen_height cfg)) w0)
  /\ n_calls lib_space_new w1 = n_calls lib_space_new w0.
Proof.
  unfold SolarSystem.init.
  set (inner := open_window _ _ ≫= _).
  assert (Hinner : forall w,
             n_calls (lib_display_set_mode (SolarSystem.screen_width cfg)
                                           (SolarSystem.screen_height cfg)) (inner w).2
             = S (n_calls (lib_display_set_mode (SolarSystem.screen_width cfg)
                                                (SolarSystem.screen_height cfg)) w)
             /\ n_calls lib_space_new (inner w).2 = n_calls lib_space_new w).
  { intros w. unfold inner. apply window_only.
    eapply emits_bind; [apply sol_emits_create_planets; auto|]. intros planets _. emits_go. }
  unfold log. mrun. set (w2 := set_calls _ _).
  destruct (Hinner w2) as [-> ->]. unfold w2. split; count_calls.
Qed.

Lemma sol_run_logic_emits :
  emits (fun s : SolarSystem.St F => calls s.2) is_benign (fun _ => True)
        SolarSystem.run_logic.
Proof. unfold SolarSystem.run_logic. emits_go. Qed.

Lemma sol_run_logic_never_steps (s : SolarSystem.St F) :
  n_calls lib_space_step (SolarSystem.run_logic s).2.2 = n_calls lib_space_step s.2.
Proof. apply (no_step (fun s : SolarSystem.St F => calls s.2)), sol_run_logic_emits. Qed.

End Methods.
End SolarSystemCalls.

(** ** The other methods log plain calls only *)

Module MethodCalls.
Section Calls.
Context {F : Type} {NF : Num F}.
Context (P : call -> bool) (HP : forall c, is_plain c = true -> P c = true).

Local Abbreviation semits X := (emits (fun s : X * World F => calls s.2) P (fun _ => True)).

(** colorful_flooding *)
Lemma cf_process_events : semits _ (@ColorfulFlooding.process_events F).
Proof.
  unfold ColorfulFlooding.process_events.
  eapply emits_bind; [emits_go|]. intros evs _.
  eapply emits_bind; [|intros [v|] _; emits_go].
  induction evs as [|ev evs IH]; simpl; [emits_go|].
  destruct ev as [|[]| | |]; emits_go.
Qed.

Lemma cf_draw : semits _ (@ColorfulFlooding.draw F).
Proof. unfold ColorfulFlooding.draw, Ball.draw. emits_go. Qed.

Lemma cf_clock_tick : semits _ (@ColorfulFlooding.clock_tick F).
Proof. unfold ColorfulFlooding.clock_tick. emits_go. Qed.

(** wrecking_ball *)
Lemma wb_process_events : semits _ (@WreckingBall.process_events F).
Proof. unfold WreckingBall.process_events. emits_go. Qed.

Lemma wb_draw : semits _ (@WreckingBall.draw F).
Proof. unfold WreckingBall.draw, SmallBall.draw. emits_go. Qed.

Lemma wb_clock_tick : semits _ (@WreckingBall.clock_tick F).
Proof. unfold WreckingBall.clock_tick. emits_go. Qed.

(** sand_clock *)
Lemma sc_process_events : semits _ (@SandClock.process_events F).
Proof.
  unfold SandClock.process_events.
  eapply emits_bind; [emits_go|]. intros evs _.
  eapply emits_bind; [|intros [v|] _; emits_go].
  induction evs as [|ev evs IH]; simpl; [emits_go|].
  destruct ev as [|[]| | |]; emits_go.
Qed.

Lemma sc_draw : semits _ (@SandClock.draw F).
Proof. unfold SandClock.draw, SandClockStructure.draw, SandGrain.draw. emits_go. Qed.

Lemma sc_clock_tick : semits _ (@SandClock.clock_tick F).
Proof. unfold SandClock.clock_tick. emits_go. Qed.

(** shooting_star *)
Lemma ss_process_events : semits _ (@ShootingStar.process_events F).
Proof.
  unfold ShootingStar.process_events.
  eapply emits_bind; [emits_go|]. intros evs _.
  eapply emits_bind; [|intros [v|] _; emits_go].
  induction evs as [|ev evs IH]; simpl; [emits_go|].
  destruct ev; emits_go.
Qed.

Lemma ss_draw : semits _ (@ShootingStar.draw F).
Proof. unfold ShootingStar.draw, Spark.draw. emits_go. Qed.

Lemma ss_clock_tick : semits _ (@ShootingStar.clock_tick F).
Proof. unfold ShootingStar.clock_tick. emits_go. Qed.

(** rebound_collisions *)
Lemma rc_process_events : semits _ (@ReboundCollisions.process_events F).
Proof.
  unfold ReboundCollisions.process_events.
  eapply emits_bind; [emits_go|]. intros evs _.
  eapply emits_bind; [|intros [v|] _; emits_go].
  induction evs as [|ev evs IH]; simpl; [emits_go|].
  destruct ev; emits_go.
Qed.

Lemma rc_draw : semits _ (@ReboundCollisions.draw F).
Proof. unfold ReboundCollisions.draw, ReboundCircle.draw. emits_go. Qed.

Lemma rc_clock_tick : semits _ (@ReboundCollisions.clock_tick F).
Proof. unfold ReboundCollisions.clock_tick. emits_go. Qed.

(** pizza_rain *)
Lemma pr_process_events : semits _ (@PizzaRain.process_events F).
Proof.
  unfold PizzaRain.process_events.
  eapply emits_bind; [emits_go|]. intros evs _.
  eapply emits_bind; [|intros [v|] _; emits_go].
  induction evs as [|ev evs IH]; simpl; [emits_go|].
  unfold PizzaRain.group_update. destruct ev as [|k| | |]; emits_go.
Qed.

Lemma pr_run_logic : semits _ (@PizzaRain.run_logic F).
Proof. unfold PizzaRain.run_logic, PizzaRain.group_update. emits_go. Qed.

Lemma pr_draw : semits _ (@PizzaRain.draw F).
Proof. unfold PizzaRain.draw. emits_go. Qed.

Lemma pr_clock_tick : semits _ (@PizzaRain.clock_tick F).
Proof. unfold PizzaRain.clock_tick. emits_go. Qed.

(** solar_system *)
Lemma sol_process_events : semits _ (@SolarSystem.process_events F).
Proof. unfold SolarSystem.process_events. emits_go. Qed.

Lemma sol_run_logic : semits _ (@SolarSystem.run_logic F).
Proof. unfold SolarSystem.run_logic. emits_go. Qed.

Lemma sol_draw : semits _ (@SolarSystem.draw F).
Proof. unfold SolarSystem.draw, Sun.draw, Planet.draw. emits_go. Qed.

Lemma sol_clock_tick : semits _ (@SolarSystem.clock_tick F).
Proof. unfold SolarSystem.clock_tick. emits_go. Qed.

End Calls.
End MethodCalls.

(** ** What a whole run logs *)

Section MainLoopCalls.
Context {X F A : Type} (P : call -> bool) (sim : Simulation (X * World F) A).

Local Abbreviation semits := (emits (fun s : X * World F => calls s.2) P (fun _ => True)).

Hypothesis Hpe : emits (fun s : X * World F => calls s.2) P (fun _ => True)
                       (sim_process_events sim).
Hypothesis Hrl : semits (sim_run_logic sim).
Hypothesis Hdr : semits (sim_draw sim).
Hypothesis Hct : semits (sim_clock_tick sim).

Lemma iteration_calls (s : X * World F) :
  exists l, calls (final (iteration sim s).1).2 = calls s.2 ++ l /\ forallb P l = true.
Proof.
  unfold iteration.
  destruct (Hpe s) as [(l1 & E1 & F1) _].
  destruct (sim_process_events sim s) as [[running|e] s1]; simpl in *; [|eauto].
  destruct (Hrl s1) as [(l2 & E2 & F2) _].
  destruct (sim_run_logic sim s1) as [[[]|e] s2]; simpl in *.
  2: { exists (l1 ++ l2). rewrite E2, E1, app_assoc, forallb_app, F1, F2. auto. }
  destruct (Hdr s2) as [(l3 & E3 & F3) _].
  destruct (sim_draw sim s2) as [[[]|e] s3]; simpl in *.
  2: { exists (l1 ++ l2 ++ l3).
       rewrite E3, E2, E1, <- !app_assoc, !forallb_app, F1, F2, F3. auto. }
  destruct (Hct s3) as [(l4 & E4 & F4) _].
  destruct (sim_clock_tick sim s3) as [[[]|e] s4]; simpl in *;
    exists (l1 ++ l2 ++ l3 ++ l4);
    rewrite E4, E3, E2, E1, <- !app_assoc, !forallb_app, F1, F2, F3, F4; auto.
Qed.

Lemma main_loop_calls (frames : list Frame) (s : X * World F) :
  exists l, calls (final (main_loop sim frames s)).2 = calls s.2 ++ l /\ forallb P l = true.
Proof.
  revert s. induction frames as [|f frames IH]; intros s; simpl.
  - exists []. rewrite app_nil_r. auto.
  - destruct (iteration_calls (s.1, arrive f s.2)) as (l1 & E1 & F1).
    simpl in E1.
    destruct (iteration sim (s.1, arrive f s.2)) as [r [running|]]; simpl in *; [|eauto].
    destruct (truthy running); simpl; [|eauto].
    destruct (IH (final r)) as (l2 & E2 & F2).
    exists (l1 ++ l2). rewrite E2, E1, app_assoc, forallb_app, F1, F2. auto.
Qed.

Lemma main_calls (init : M (World F) (option X)) (frames : list Frame) (w : World F) :
  emits calls P (fun _ => True) init ->
  forallb P (new_calls w (main init sim frames w).2) = true.
Proof.
  intros Hinit. destruct (Hinit w) as [(l1 & E1 & F1) _]. unfold main, new_calls.
  destruct (init w) as [[[self|]|e] w']; simpl in *;
    try (rewrite E1, drop_app_length; exact F1).
  destruct (main_loop_calls frames (self, w')) as (l2 & E2 & F2). simpl in E2.
  rewrite E2, E1, <- app_assoc, drop_app_length, forallb_app, F1, F2. reflexivity.
Qed.

End MainLoopCalls.

Lemma emits_returning {F A} (P : call -> bool) (m : M (World F) A) :
  emits calls P (fun _ => True) m -> emits calls P (fun _ => True) (returning m).
Proof. intros H. unfold returning. eapply emits_bind; [exact H|]. intros a _. emits_go. Qed.

Lemma returning_world {W A} (m : M W A) (w : W) : (returning m w).2 = (m w).2.
Proof. unfold returning. mrun. destruct (m w) as [[a|e] w']; reflexivity. Qed.

Module AllPrograms.
Section AllPrograms.
Context {F : Type} {NF : Num F}.

Lemma pr_init_adds_ok fuel cfg :
  emits (@calls F) call_ok (fun _ => True) (PizzaRain.init fuel cfg).
Proof.
  unfold PizzaRain.init.
  eapply emits_bind; [apply emits_open_window; reflexivity|]. intros _ _.
  eapply emits_bind; [apply PizzaRainCalls.pr_emits_create_pizzas, plain_ok|].
  intros pizzas _. emits_go.
Qed.

Lemma sol_init_adds_ok cfg :
  emits (@calls F) call_ok (fun _ => True) (SolarSystem.init cfg).
Proof.
  unfold SolarSystem.init.
  do 2 (eapply emits_bind; [emits_go|]; intros _ _).
  eapply emits_bind; [apply emits_open_window; reflexivity|]. intros _ _.
  eapply emits_bind; [apply SolarSystemCalls.sol_emits_create_planets|].
  intros planets _. emits_go.
Qed.

Lemma init_adds_ok (p : program) (cfg : p_config (the_program p)) :
  emits (@calls F) call_ok (fun _ => True) (p_init (the_program p) cfg).
Proof.
  destruct p; simpl in *; try apply emits_returning.
  - apply ColorfulFloodingCalls.cf_init_adds_ok.
  - apply pr_init_adds_ok.
  - apply ReboundCollisionsCalls.rc_init_adds_ok.
  - apply SandClockCalls.sc_init_adds_ok.
  - apply ShootingStarCalls.ss_init_adds_ok.
  - apply sol_init_adds_ok.
  - apply WreckingBallCalls.wb_init_adds_ok.
Qed.

Lemma methods_add_ok (p : program) :
  let sim := p_simulation (the_program (F:=F) p) in
  emits (fun s => calls s.2) call_ok (fun _ => True) (sim_process_events sim)
  /\ emits (fun s => calls s.2) call_ok (fun _ => True) (sim_run_logic sim)
  /\ emits (fun s => calls s.2) call_ok (fun _ => True) (sim_draw sim)
  /\ emits (fun s => calls s.2) call_ok (fun _ => True) (sim_clock_tick sim).
Proof.
  destruct p; simpl; repeat split.
  - apply MethodCalls.cf_process_events; try apply plain_ok.
  - apply ColorfulFloodingCalls.cf_run_logic_adds_ok.
  - apply MethodCalls.cf_draw; try apply plain_ok.
  - apply MethodCalls.cf_clock_tick; try apply plain_ok.
  - apply MethodCalls.pr_process_events; try apply plain_ok.
  - apply MethodCalls.pr_run_logic; try apply plain_ok.
  - apply MethodCalls.pr_draw; try apply plain_ok.
  - apply MethodCalls.pr_clock_tick; try apply plain_ok.
  - apply MethodCalls.rc_process_events; try apply plain_ok.
  - apply ReboundCollisionsCalls.rc_run_logic_adds_ok.
  - apply MethodCalls.rc_draw; try apply plain_ok.
  - apply MethodCalls.rc_clock_tick; try apply plain_ok.
  - apply MethodCalls.sc_process_events; try apply plain_ok.
  - apply SandClockCalls.sc_run_logic_adds_ok.
  - apply MethodCalls.sc_draw; try apply plain_ok.
  - apply MethodCalls.sc_clock_tick; try apply plain_ok.
  - apply MethodCalls.ss_process_events; try apply plain_ok.
  - apply ShootingStarCalls.ss_run_logic_adds_ok.
  - apply MethodCalls.ss_draw; try apply plain_ok.
  - apply MethodCalls.ss_clock_tick; try apply plain_ok.
  - apply MethodCalls.sol_process_events; try apply plain_ok.
  - apply MethodCalls.sol_run_logic; try apply plain_ok.
  - apply MethodCalls.sol_draw; try apply plain_ok.
  - apply MethodCalls.sol_clock_tick; try apply plain_ok.
  - apply MethodCalls.wb_process_events; try apply plain_ok.
  - apply WreckingBallCalls.wb_run_logic_adds_ok.
  - apply MethodCalls.wb_draw; try apply plain_ok.
  - apply MethodCalls.wb_clock_tick; try apply plain_ok.
Qed.

(** C5.  In every program, whatever the configuration, the random draws
    and the input of the user, every shape that the constructor or a frame
    of the main loop hands to [Space.add] is a [Circle] or a [Segment]: each
    [Space.add] call that a run of [__main__] appends to the log carries
    shapes of these two classes only. *)
Theorem only_circles_and_segments_added (p : program) (cfg : p_config (the_program p))
        (frames : list Frame) (w0 : World F) :
  forallb call_ok (new_calls w0 (world_after_main p cfg frames w0)) = true.
Proof.
  unfold world_after_main.
  destruct (methods_add_ok p) as (Hpe & Hrl & Hdr & Hct).
  apply main_calls; auto. apply init_adds_ok.
Qed.

(** C2, amended.  Every constructor opens the display surface: it calls
    [pygame.display.set_mode] once, with the size of the configuration.  The
    five programs that use Pymunk (colorful_flooding, rebound_collisions,
    sand_clock, shooting_star, wrecking_ball) also build exactly one
    [pymunk.Space]; pizza_rain and solar_system build none.  This holds
    whether the constructor returns or raises afterwards. *)
Theorem constructors_window_and_space (p : program) (cfg : p_config (the_program p))
        (w0 : World F) :
  let w1 := (p_init (the_program p) cfg w0).2 in
  let size := p_screen (the_program p) cfg in
  n_calls (lib_display_set_mode size.1 size.2) w1
  = S (n_calls (lib_display_set_mode size.1 size.2) w0)
  /\ n_calls lib_space_new w1
     = (n_calls lib_space_new w0 + if uses_pymunk p then 1 else 0)%nat.
Proof.
  destruct p; cbv zeta; cbn [the_program p_init p_screen uses_pymunk fst snd] in *;
    rewrite ?returning_world.
  - pose proof (ColorfulFloodingCalls.cf_init_counts cfg w0) as H; cbv zeta in H. destruct H as [H1 H2].
    split; [exact H1 | etransitivity; [exact H2 | lia]].
  - pose proof (PizzaRainCalls.pr_init_counts cfg.1 cfg.2 w0) as H; cbv zeta in H. destruct H as [H1 H2].
    split; [exact H1 | etransitivity; [exact H2 | lia]].
  - pose proof (ReboundCollisionsCalls.rc_init_counts cfg w0) as H; cbv zeta in H. destruct H as [H1 H2].
    split; [exact H1 | etransitivity; [exact H2 | lia]].
  - pose proof (SandClockCalls.sc_init_counts cfg w0) as H; cbv zeta in H. destruct H as [H1 H2].
    split; [exact H1 | etransitivity; [exact H2 | lia]].
  - pose proof (ShootingStarCalls.ss_init_counts cfg w0) as H; cbv zeta in H. destruct H as [H1 H2].
    split; [exact H1 | etransitivity; [exact H2 | lia]].
  - pose proof (SolarSystemCalls.sol_init_counts cfg w0) as H; cbv zeta in H. destruct H as [H1 H2].
    split; [exact H1 | etransitivity; [exact H2 | lia]].
  - pose proof (WreckingBallCalls.wb_init_counts cfg w0) as H; cbv zeta in H. destruct H as [H1 H2].
    split; [exact H1 | etransitivity; [exact H2 | lia]].
Qed.

(** C3, amended.  In the five programs that use Pymunk, every call of
    [run_logic] steps the space exactly once (its first statement), whether
    it returns or raises afterwards; in pizza_rain and solar_system
    [run_logic] never steps a physics engine. *)
Theorem run_logic_steps (p : program) (s : p_self (the_program p) * World F) :
  n_calls lib_space_step (sim_run_logic (p_simulation (the_program p)) s).2.2
  = (n_calls lib_space_step s.2 + if uses_pymunk p then 1 else 0)%nat.
Proof.
  destruct p; cbn [the_program p_simulation p_self uses_pymunk sim_run_logic] in *.
  - etransitivity; [apply ColorfulFloodingCalls.cf_run_logic_steps_once | lia].
  - etransitivity; [apply PizzaRainCalls.pr_run_logic_never_steps | lia].
  - etransitivity; [apply ReboundCollisionsCalls.rc_run_logic_steps_once | lia].
  - etransitivity; [apply SandClockCalls.sc_run_logic_steps_once | lia].
  - etransitivity; [apply ShootingStarCalls.ss_run_logic_steps_once | lia].
  - etransitivity; [apply SolarSystemCalls.sol_run_logic_never_steps | lia].
  - etransitivity; [apply WreckingBallCalls.wb_run_logic_steps_once | lia].
Qed.

End AllPrograms.
End AllPrograms.

(** ** The main loop: order of the calls, and when it is left *)

Module MainLoop.
Section MainLoop.
Context {X F A : Type} (sim : Simulation (X * World F) A).

(** The four calls of one full pass, [process_events] having returned [v]. *)
Definition pass (v : pyval A) : list (method_call A) :=
  [called_process_events v; called_run_logic; called_draw; called_clock_tick].

(** A pass that a raising method cut short. *)
Definition cut_pass (l : list (method_call A)) : Prop :=
  exists v rest, rest <> [] /\ l ++ rest = pass v.

(** What a run looks like: full passes whose [process_events] returned a
    true value, then
    - when the loop was left: one more full pass, whose [process_events]
      returned a false value;
    - when the frames ran out: nothing more, and there is one pass per frame;
    - when a method raised: the calls of the pass that was cut. *)
Definition well_formed_run (n_frames : nat) (r : Run (X * World F) A) : Prop :=
  exists vs : list (pyval A),
    Forall (fun v => truthy v = true) vs
    /\ match ended r with
       | Exited => exists v, truthy v = false /\ trace r = flat_map pass (vs ++ [v])
       | StillRunning => trace r = flat_map pass vs /\ length vs = n_frames
       | Crashed _ => exists l, cut_pass l /\ trace r = flat_map pass vs ++ l
       end.

Lemma iteration_shape (s : X * World F) :
  match iteration sim s with
  | (r, Some v) => trace r = pass v
  | (r, None) => exists e, ended r = Crashed e /\ cut_pass (trace r)
  end.
Proof.
  unfold iteration.
  destruct (sim_process_events sim s) as [[v|e] s1].
  2: { exists e. split; [reflexivity|]. exists (PyBool true), (pass (PyBool true)).
       split; [discriminate | reflexivity]. }
  destruct (sim_run_logic sim s1) as [[[]|e] s2].
  2: { exists e. split; [reflexivity|].
       exists v, [called_run_logic; called_draw; called_clock_tick].
       split; [discriminate | reflexivity]. }
  destruct (sim_draw sim s2) as [[[]|e] s3].
  2: { exists e. split; [reflexivity|]. exists v, [called_draw; called_clock_tick].
       split; [discriminate | reflexivity]. }
  destruct (sim_clock_tick sim s3) as [[[]|e] s4].
  2: { exists e. split; [reflexivity|]. exists v, [called_clock_tick].
       split; [discriminate | reflexivity]. }
  reflexivity.
Qed.


End MainLoop.
End MainLoop.

(** ** colorful_flooding: the second removal of the bottom segment *)

Module ColorfulFloodingFacts.
Section Facts.
Context {F : Type} {NF : Num F}.

Import ColorfulFlooding.

(** The body and the segment of the bottom of the screen, as they are
    handed to [self.space.remove]. *)
Definition bottom_objs (self : t F) : list (obj F) :=
  [OBody (_screen_bottom self).1; OShape (_screen_bottom self).2].

(** The bottom segment has been removed from the space. *)
Definition bottom_removed (self : t F) : Prop :=
  ((_screen_bottom self).1 ∉ sp_bodies (space self))
  /\ sp_shapes (space self) !! shape_id (_screen_bottom self).2 = None.

(** Every ball of [balls_list] is in the space, and the balls are distinct
    objects with bodies and shapes of their own. *)
Definition ball_in_space (sp : Space F) (b : Ball.t F) : Prop :=
  Ball.body b ∈ sp_bodies sp /\ is_Some (sp_shapes sp !! shape_id (Ball.shape b)).
Definition balls_in_space (self : t F) : Prop :=
  Forall (ball_in_space (space self)) (balls_list self)
  /\ NoDup (Ball.body <$> balls_list self)
  /\ NoDup ((fun b => shape_id (Ball.shape b)) <$> balls_list self).

(** The state of the object once the space bar was pressed and the bottom
    segment is gone. *)
Definition draining (self : t F) : Prop :=
  _remove_screen_bottom self = true /\ bottom_removed self /\ balls_in_space self.

Lemma set_space_same (self : t F) : set_space (space self) self = self.
Proof. destruct self. reflexivity. Qed.

(** Removing the bottom objects from a space that no longer holds them
    fails on the first one, before anything is changed. *)
Lemma Space_remove_bottom_again (self : t F) :
  bottom_removed self ->
  Space_remove (bottom_objs self) (space self) = (Raise AssertionError, space self).
Proof.
  intros [Hb _]. unfold bottom_objs, Space_remove. simpl. unfold Space_remove1. mrun.
  destruct (decide _) as [Hin|_]; [contradiction | reflexivity].
Qed.

Lemma space_remove_bottom_again (self : t F) (w : World F) :
  bottom_removed self ->
  space_remove (bottom_objs self) (self, w)
  = (Raise AssertionError,
     (self, set_calls (fun l => l ++ [lib_space_remove (describe <$> bottom_objs self)]) w)).
Proof.
  intros H. unfold space_remove, attr_space_remove, log. mrun.
  rewrite (Space_remove_bottom_again self H), set_space_same. reflexivity.
Qed.

Lemma remove_bottom_again (self : t F) (w : World F) :
  bottom_removed self ->
  remove_bottom (self, w)
  = (Ok tt,
     (self, set_calls (fun l => l ++ [lib_space_remove (describe <$> bottom_objs self)]) w)).
Proof.
  intros H. unfold remove_bottom. mrun.
  change [OBody (_screen_bottom self).1; OShape (_screen_bottom self).2]
    with (bottom_objs self).
  rewrite (space_remove_bottom_again self w H). reflexivity.
Qed.

(** *** The loop that removes the balls that left the screen *)

Lemma remove_first_same (ball : Ball.t F) (l : list (Ball.t F)) :
  ball ∈ l ->
  NoDup (Ball.body <$> l) ->
  exists l1 l2, l = l1 ++ ball :: l2 /\ remove_first (Ball.same ball) l = Some (l1 ++ l2).
Proof.
  induction l as [|x l IH]; intros Hin Hnd; [inversion Hin|].
  simpl in Hnd. apply list.NoDup_cons in Hnd as [Hx Hnd]. simpl. unfold Ball.same at 1.
  destruct (bool_decide (Ball.body ball = Ball.body x)) eqn:E.
  - apply bool_decide_eq_true in E.
    assert (x = ball) as ->.
    { apply elem_of_cons in Hin as [->|Hin]; [reflexivity|].
      exfalso. apply Hx. rewrite <- E. apply list_elem_of_fmap. eauto. }
    exists [], l. auto.
  - apply bool_decide_eq_false in E.
    apply elem_of_cons in Hin as [->|Hin]; [contradiction|].
    destruct (IH Hin Hnd) as (l1 & l2 & -> & ->). exists (x :: l1), l2. auto.
Qed.

Lemma remove_if_out_draining (ball : Ball.t F) (s : St F) :
  draining s.1 -> ball ∈ balls_list s.1 ->
  (remove_if_out ball s).1 = Ok tt
  /\ draining (remove_if_out ball s).2.1.
Proof.
  destruct s as [self w]. cbn [fst snd]. intros (Hflag & [Hb Hs] & Hall & Hnd & Hnds) Hin.
  unfold remove_if_out. mrun.
  destruct (Ball.is_out_of_the_screen _ _ _).
  2: { repeat split; auto. }
  destruct (remove_first_same ball _ Hin Hnd) as (l1 & l2 & El & Er).
  unfold list_remove. rewrite Er. unfold space_remove, attr_space_remove, log. mrun.
  assert (Hball : ball_in_space (space self) ball).
  { rewrite list.Forall_forall in Hall. apply Hall, Hin. }
  destruct Hball as [Hbody [sh Hshape]].
  unfold Space_remove. simpl. unfold Space_remove1. mrun.
  cbn [space set_balls_list set_space sp_bodies sp_shapes].
  destruct (decide _) as [_|N]; [|contradiction].
  cbn [sp_shapes]. rewrite Hshape. cbn [fst snd].
  split; [reflexivity|].
  unfold draining, bottom_removed, balls_in_space.
  cbn [set_space set_balls_list _remove_screen_bottom _screen_bottom space balls_list
       sp_bodies sp_shapes gravity].
  rewrite El in Hall, Hnd, Hnds.
  rewrite fmap_app, fmap_cons in Hnd, Hnds.
  apply list.NoDup_app in Hnd as (Hnd1 & Hnd12 & Hnd2).
  apply list.NoDup_cons in Hnd2 as [Hnd2a Hnd2].
  apply list.NoDup_app in Hnds as (Hnds1 & Hnds12 & Hnds2).
  apply list.NoDup_cons in Hnds2 as [Hnds2a Hnds2].
  apply list.Forall_app in Hall as [Hall1 Hall2].
  apply list.Forall_cons in Hall2 as [_ Hall2].
  split; [exact Hflag|]. split; [split|split; [|split]].
  - intros [Hin' _]%elem_of_difference. contradiction.
  - rewrite lookup_delete_ne; [exact Hs|]. intros E. rewrite <- E, Hshape in Hs.
    discriminate.
  - apply list.Forall_app. split.
    + rewrite list.Forall_forall in Hall1 |- *. intros y Hy.
      destruct (Hall1 y Hy) as [Hy1 Hy2]. split; cbn [sp_bodies sp_shapes].
      * apply elem_of_difference. split; [exact Hy1|].
        intros E%elem_of_singleton. apply (Hnd12 (Ball.body y)).
        -- apply list_elem_of_fmap. eauto.
        -- rewrite E. left.
      * rewrite lookup_delete_ne; [exact Hy2|]. intros E.
        apply (Hnds12 (shape_id (Ball.shape y))).
        -- apply list_elem_of_fmap. eauto.
        -- rewrite <- E. left.
    + rewrite list.Forall_forall in Hall2 |- *. intros y Hy.
      destruct (Hall2 y Hy) as [Hy1 Hy2]. split; cbn [sp_bodies sp_shapes].
      * apply elem_of_difference. split; [exact Hy1|].
        intros E%elem_of_singleton. apply Hnd2a. rewrite <- E.
        apply list_elem_of_fmap. eauto.
      * rewrite lookup_delete_ne; [exact Hy2|]. intros E.
        apply Hnds2a. rewrite E. apply list_elem_of_fmap. eauto.
  - rewrite fmap_app. apply list.NoDup_app. split; [exact Hnd1|]. split; [|exact Hnd2].
    intros x Hx1 Hx2. apply (Hnd12 x Hx1). now right.
  - rewrite fmap_app. apply list.NoDup_app. split; [exact Hnds1|]. split; [|exact Hnds2].
    intros x Hx1 Hx2. apply (Hnds12 x Hx1). now right.
Qed.

Lemma sweep_draining (fuel i : nat) (s : St F) :
  draining s.1 ->
  let r := for_from fuel i (fun s : St F => balls_list s.1) remove_if_out s in
  r.1 = Ok tt /\ draining r.2.1.
Proof.
  revert i s. induction fuel as [|fuel IH]; intros i s Hs; simpl.
  - split; [reflexivity | exact Hs].
  - mrun. destruct (balls_list s.1 !! i) as [ball|] eqn:E; [|split; [reflexivity | exact Hs]].
    assert (Hin : ball ∈ balls_list s.1) by (apply list_elem_of_lookup; eauto).
    destruct (remove_if_out_draining ball s Hs Hin) as (Hok & Hd).
    destruct (remove_if_out ball s) as [[[]|e] s1]; [|discriminate].
    apply (IH (S i) s1 Hd).
Qed.

(** The state in which [run_logic] reaches its [try] statement. *)
Definition at_try (self : t F) (w : World F) : St F :=
  (set_counter (counter self + 1) self, (Space_step (space self) w).2).

Lemma run_logic_draining (self : t F) (w : World F) :
  _remove_screen_bottom self = true ->
  run_logic (self, w)
  = (remove_bottom;; for_in (fun s : St F => balls_list s.1) remove_if_out) (at_try self w).
Proof.
  intros Hflag. unfold run_logic, at_try, Space_step, log. mrun.
  cbn [_remove_screen_bottom set_counter]. rewrite Hflag. cbn [negb andb]. mrun.
  cbn [_remove_screen_bottom set_counter]. rewrite Hflag. reflexivity.
Qed.

Lemma draining_at_try (self : t F) (w : World F) :
  draining self -> draining (at_try self w).1.
Proof. intros H. destruct self. exact H. Qed.

Lemma process_events_loop_draining (evs : list event) (s : St F) :
  draining s.1 -> draining (process_events_loop evs s).2.1.
Proof.
  revert s. induction evs as [|ev evs IH]; intros [self w] H; simpl; [exact H|].
  destruct ev as [|[]| | |]; try exact H; try (apply IH; exact H).
  mrun. apply IH. destruct self, H as (H1 & H2 & H3). repeat split; try assumption.
  - apply H2.
  - apply H2.
  - apply H3.
  - apply H3.
  - apply H3.
Qed.

(** [process_events] keeps the object in that state: nothing resets
    [_remove_screen_bottom], and the space is not touched. *)
Lemma process_events_draining (s : St F) :
  draining s.1 -> draining (process_events s).2.1.
Proof.
  destruct s as [self w]. intros H. unfold process_events, pygame_event_get, log. mrun.
  set (s1 := (self, _)). set (evs := event_queue _).
  pose proof (process_events_loop_draining evs s1 H) as H1.
  destruct (process_events_loop evs s1) as [[[v|]|e] s2]; exact H1.
Qed.

(** *** The object along a run *)

(** The bottom segment is in the space. *)
Definition bottom_present (self : t F) : Prop :=
  (_screen_bottom self).1 ∈ sp_bodies (space self)
  /\ is_Some (sp_shapes (space self) !! shape_id (_screen_bottom self).2).

(** No ball is made of the body or the segment of the bottom. *)
Definition apart (self : t F) : Prop :=
  Forall (fun b => Ball.body b <> (_screen_bottom self).1
                   /\ shape_id (Ball.shape b) <> shape_id (_screen_bottom self).2)
         (balls_list self).

(** The objects of the space, and those of the bottom, were made before
    the [n]-th object. *)
Definition ids_below (n : nat) (self : t F) : Prop :=
  (forall i, i ∈ sp_bodies (space self) -> (i < n)%nat)
  /\ (forall k, is_Some (sp_shapes (space self) !! k) -> (k < n)%nat)
  /\ ((_screen_bottom self).1 < n)%nat
  /\ (shape_id (_screen_bottom self).2 < n)%nat.

(** What holds of the object and the world all along a run. *)
Definition sound (s : St F) : Prop :=
  balls_in_space s.1 /\ apart s.1 /\ ids_below (next_id s.2) s.1
  /\ (bottom_present s.1 \/ bottom_removed s.1).

(** A ball made of two new objects joins the list and the space. *)
Lemma sound_add_ball (self : t F) (w w' : World F) (ball : Ball.t F) (g : Z * Z) :
  sound (self, w) ->
  Ball.body ball = next_id w ->
  shape_id (Ball.shape ball) = S (next_id w) ->
  next_id w' = S (S (next_id w)) ->
  sound (set_space (mkSpace ({[next_id w]} ∪ sp_bodies (space self))
                            (<[S (next_id w) := Ball.shape ball]> (sp_shapes (space self))) g)
                   (set_balls_list (balls_list self ++ [ball]) self), w').
Proof.
  intros ((Hall & Hnd & Hnds) & Hapart & (Hb1 & Hb2 & Hb3 & Hb4) & Hbottom) Eb Es Ew.
  cbn [fst snd] in *.
  assert (Hold : forall b, b ∈ balls_list self ->
                           (Ball.body b < next_id w)%nat
                           /\ (shape_id (Ball.shape b) < next_id w)%nat).
  { intros b Hb. rewrite list.Forall_forall in Hall. destruct (Hall b Hb) as [H1 H2].
    split; [apply Hb1, H1 | apply Hb2, H2]. }
  unfold sound, balls_in_space, apart, ids_below, bottom_present, bottom_removed.
  cbn [fst snd set_space set_balls_list space balls_list _screen_bottom sp_bodies sp_shapes].
  split; [split; [|split]|split; [|split]].
  - apply list.Forall_app. split.
    + rewrite list.Forall_forall in Hall |- *. intros b Hb. destruct (Hall b Hb) as [H1 H2].
      split; cbn [sp_bodies sp_shapes].
      * apply elem_of_union. right. exact H1.
      * rewrite lookup_insert_ne; [exact H2|]. apply Hb2 in H2. lia.
    + apply list.Forall_cons. split; [|constructor]. split; cbn [sp_bodies sp_shapes].
      * rewrite Eb. apply elem_of_union. left. apply elem_of_singleton. reflexivity.
      * rewrite Es, lookup_insert_eq. eauto.
  - rewrite fmap_app. apply list.NoDup_app. split; [exact Hnd|]. split; [|apply NoDup_singleton].
    intros i Hi Hi'. apply list_elem_of_singleton in Hi'. cbn in Hi'. subst i.
    apply list_elem_of_fmap in Hi as (b & E & Hb). apply Hold in Hb. lia.
  - rewrite fmap_app. apply list.NoDup_app. split; [exact Hnds|]. split; [|apply NoDup_singleton].
    intros i Hi Hi'. apply list_elem_of_singleton in Hi'. cbn in Hi'. subst i.
    apply list_elem_of_fmap in Hi as (b & E & Hb). apply Hold in Hb. lia.
  - apply list.Forall_app. split; [exact Hapart|].
    apply list.Forall_cons. split; [|constructor]. split; lia.
  - rewrite Ew. repeat split.
    + intros i [Hi|Hi]%elem_of_union; [apply elem_of_singleton in Hi; lia|].
      apply Hb1 in Hi. lia.
    + intros k Hk. destruct (decide (k = S (next_id w))) as [->|Hne]; [lia|].
      rewrite lookup_insert_ne in Hk by congruence. apply Hb2 in Hk. lia.
    + lia.
    + lia.
  - destruct Hbottom as [[H1 H2]|[H1 H2]]; [left|right]; split.
    + apply elem_of_union. right. exact H1.
    + rewrite lookup_insert_ne by lia. exact H2.
    + intros [Hi|Hi]%elem_of_union; [apply elem_of_singleton in Hi; lia | contradiction].
    + rewrite lookup_insert_ne by lia. exact H2.
Qed.

Lemma create_ball_sound (source : Z * Z) (s : St F) :
  sound s ->
  exists s', create_ball source s = (Ok tt, s')
             /\ sound s'
             /\ _remove_screen_bottom s'.1 = _remove_screen_bottom s.1
             /\ sources_positions s'.1 = sources_positions s.1
             /\ _config s'.1 = _config s.1
             /\ (bottom_removed s.1 -> bottom_removed s'.1).
Proof.
  destruct s as [self w]. intros Hs.
  pose proof Hs as (Hballs & Hapart & (Hb1 & Hb2 & Hb3 & Hb4) & Hbottom). cbn [fst snd] in *.
  unfold create_ball, choice_sign, random_color, rng_draw, Ball.init, Body_new,
    Body_set_position, Shape_new, space_add, attr_space_add, log, Space_add, fresh_id.
  mrun. cbn [for_each]. unfold Space_add1. mrun.
  cbn [space set_balls_list sp_bodies sp_shapes next_id set_bodies set_next_id set_rng_pos
       Ball.body Ball.shape shape_id set_calls].
  destruct (decide (next_id w ∈ sp_bodies (space self))) as [Hin|Hnb];
    [apply Hb1 in Hin; lia|].
  mrun. cbn [sp_shapes].
  destruct (sp_shapes (space self) !! S (next_id w)) as [sh|] eqn:Hns.
  { assert (is_Some (sp_shapes (space self) !! S (next_id w))) as Hs2%Hb2 by eauto. lia. }
  mrun. eexists. split; [reflexivity|]. cbn [fst snd].
  split; [apply sound_add_ball; [exact Hs | reflexivity..]|].
  split; [reflexivity|]. split; [reflexivity|]. split; [reflexivity|].
  intros [H1 H2]. split; cbn [set_space set_balls_list space _screen_bottom sp_bodies sp_shapes].
  - intros [Hi|Hi]%elem_of_union; [apply elem_of_singleton in Hi; lia | contradiction].
  - rewrite lookup_insert_ne by lia. exact H2.
Qed.

(** A ball leaves the list and the space. *)
Lemma sound_remove_ball (self : t F) (w w' : World F) (ball : Ball.t F) l1 l2 (g : Z * Z) :
  sound (self, w) ->
  balls_list self = l1 ++ ball :: l2 ->
  next_id w' = next_id w ->
  sound (set_space (mkSpace (sp_bodies (space self) ∖ {[Ball.body ball]})
                            (delete (shape_id (Ball.shape ball)) (sp_shapes (space self))) g)
                   (set_balls_list (l1 ++ l2) self), w').
Proof.
  intros ((Hall & Hnd & Hnds) & Hapart & (Hb1 & Hb2 & Hb3 & Hb4) & Hbottom) El Ew.
  cbn [fst snd] in *. unfold apart in Hapart.
  rewrite El in Hall, Hnd, Hnds, Hapart.
  rewrite fmap_app, fmap_cons in Hnd, Hnds.
  apply list.NoDup_app in Hnd as (Hnd1 & Hnd12 & Hnd2).
  apply list.NoDup_cons in Hnd2 as [Hnd2a Hnd2].
  apply list.NoDup_app in Hnds as (Hnds1 & Hnds12 & Hnds2).
  apply list.NoDup_cons in Hnds2 as [Hnds2a Hnds2].
  apply list.Forall_app in Hall as [Hall1 Hall2].
  apply list.Forall_cons in Hall2 as [_ Hall2].
  apply list.Forall_app in Hapart as [Hap1 Hap2].
  apply list.Forall_cons in Hap2 as [[Hapb Haps] Hap2].
  unfold sound, balls_in_space, apart, ids_below, bottom_present, bottom_removed.
  cbn [fst snd set_space set_balls_list space balls_list _screen_bottom sp_bodies sp_shapes].
  split; [split; [|split]|split; [|split]].
  - apply list.Forall_app. split.
    + rewrite list.Forall_forall in Hall1 |- *. intros y Hy.
      destruct (Hall1 y Hy) as [Hy1 Hy2]. split; cbn [sp_bodies sp_shapes].
      * apply elem_of_difference. split; [exact Hy1|].
        intros E%elem_of_singleton. apply (Hnd12 (Ball.body y)).
        -- apply list_elem_of_fmap. eauto.
        -- rewrite E. left.
      * rewrite lookup_delete_ne; [exact Hy2|]. intros E.
        apply (Hnds12 (shape_id (Ball.shape y))).
        -- apply list_elem_of_fmap. eauto.
        -- rewrite <- E. left.
    + rewrite list.Forall_forall in Hall2 |- *. intros y Hy.
      destruct (Hall2 y Hy) as [Hy1 Hy2]. split; cbn [sp_bodies sp_shapes].
      * apply elem_of_difference. split; [exact Hy1|].
        intros E%elem_of_singleton. apply Hnd2a. rewrite <- E.
        apply list_elem_of_fmap. eauto.
      * rewrite lookup_delete_ne; [exact Hy2|]. intros E.
        apply Hnds2a. rewrite E. apply list_elem_of_fmap. eauto.
  - rewrite fmap_app. apply list.NoDup_app. split; [exact Hnd1|]. split; [|exact Hnd2].
    intros x Hx1 Hx2. apply (Hnd12 x Hx1). now right.
  - rewrite fmap_app. apply list.NoDup_app. split; [exact Hnds1|]. split; [|exact Hnds2].
    intros x Hx1 Hx2. apply (Hnds12 x Hx1). now right.
  - apply list.Forall_app. split; assumption.
  - rewrite Ew. repeat split; try assumption.
    + intros i [Hi _]%elem_of_difference. apply Hb1, Hi.
    + intros k Hk. apply Hb2. destruct (decide (k = shape_id (Ball.shape ball))) as [->|Hne].
      * rewrite lookup_delete_eq in Hk. destruct Hk as [? Hk]. discriminate Hk.
      * rewrite lookup_delete_ne in Hk by congruence. exact Hk.
  - destruct Hbottom as [[H1 H2]|[H1 H2]]; [left|right]; split.
    + apply elem_of_difference. split; [exact H1|]. intros E%elem_of_singleton. congruence.
    + rewrite lookup_delete_ne by congruence. exact H2.
    + intros [Hi _]%elem_of_difference. contradiction.
    + apply lookup_delete_None. right. exact H2.
Qed.

Lemma remove_if_out_sound (ball : Ball.t F) (s : St F) :
  sound s -> ball ∈ balls_list s.1 ->
  exists s', remove_if_out ball s = (Ok tt, s')
             /\ sound s'
             /\ _remove_screen_bottom s'.1 = _remove_screen_bottom s.1
             /\ (bottom_removed s.1 -> bottom_removed s'.1).
Proof.
  destruct s as [self w]. cbn [fst snd]. intros Hs Hin.
  pose proof Hs as ((Hall & Hnd & Hnds) & _). cbn [fst snd] in *.
  unfold remove_if_out. mrun.
  destruct (Ball.is_out_of_the_screen _ _ _).
  2: { exists (self, w). split; [reflexivity|]. split; [exact Hs|]. split; [reflexivity|].
       auto. }
  destruct (remove_first_same ball _ Hin Hnd) as (l1 & l2 & El & Er).
  unfold list_remove. rewrite Er. unfold space_remove, attr_space_remove, log. mrun.
  assert (Hball : ball_in_space (space self) ball).
  { rewrite list.Forall_forall in Hall. apply Hall, Hin. }
  destruct Hball as [Hbody [sh Hshape]].
  unfold Space_remove. simpl. unfold Space_remove1. mrun.
  cbn [space set_balls_list set_space sp_bodies sp_shapes].
  destruct (decide _) as [_|N]; [|contradiction].
  cbn [sp_shapes]. rewrite Hshape. cbn [fst snd].
  eexists. split; [reflexivity|]. cbn [fst snd].
  split; [apply (sound_remove_ball self w); [exact Hs | exact El | reflexivity]|].
  split; [reflexivity|].
  intros [H1 H2]. split; cbn [set_space set_balls_list space _screen_bottom sp_bodies sp_shapes].
  - intros [Hi _]%elem_of_difference. contradiction.
  - apply lookup_delete_None. right. exact H2.
Qed.

Lemma sweep_sound (fuel i : nat) (s : St F) :
  sound s ->
  exists s', for_from fuel i (fun s : St F => balls_list s.1) remove_if_out s = (Ok tt, s')
             /\ sound s'
             /\ _remove_screen_bottom s'.1 = _remove_screen_bottom s.1
             /\ (bottom_removed s.1 -> bottom_removed s'.1).
Proof.
  revert i s. induction fuel as [|fuel IH]; intros i s Hs; simpl.
  - exists s. auto.
  - mrun. destruct (balls_list s.1 !! i) as [ball|] eqn:E; [|exists s; auto].
    assert (Hin : ball ∈ balls_list s.1) by (apply list_elem_of_lookup; eauto).
    destruct (remove_if_out_sound ball s Hs Hin) as (s1 & E1 & Hs1 & Hf1 & Hr1).
    rewrite E1. destruct (IH (S i) s1 Hs1) as (s2 & E2 & Hs2 & Hf2 & Hr2).
    exists s2. split; [exact E2|]. split; [exact Hs2|]. split; [congruence | auto].
Qed.

(** The first removal of the bottom segment. *)
Lemma remove_bottom_first (s : St F) :
  sound s -> bottom_present s.1 ->
  exists s', remove_bottom s = (Ok tt, s')
             /\ sound s' /\ bottom_removed s'.1
             /\ _remove_screen_bottom s'.1 = _remove_screen_bottom s.1.
Proof.
  destruct s as [self w]. cbn [fst snd]. intros Hs [Hp1 [sh Hp2]].
  pose proof Hs as ((Hall & Hnd & Hnds) & Hapart & (Hb1 & Hb2 & Hb3 & Hb4) & _).
  cbn [fst snd] in *.
  unfold remove_bottom, space_remove, attr_space_remove, log, Space_remove. mrun.
  cbn [for_each]. unfold Space_remove1. mrun.
  destruct (decide _) as [_|N]; [|contradiction]. mrun. cbn [sp_shapes].
  rewrite Hp2. mrun. eexists. split; [reflexivity|]. cbn [fst snd].
  unfold sound, balls_in_space, apart, ids_below, bottom_present, bottom_removed.
  cbn [fst snd set_space space balls_list _screen_bottom sp_bodies sp_shapes next_id
       set_calls _remove_screen_bottom].
  unfold apart in Hapart. rewrite list.Forall_forall in Hall, Hapart.
  assert (Hgone : ((_screen_bottom self).1 ∉ sp_bodies (space self) ∖ {[(_screen_bottom self).1]})
                  /\ delete (shape_id (_screen_bottom self).2) (sp_shapes (space self))
                       !! shape_id (_screen_bottom self).2 = None).
  { split.
    - intros [_ Hi]%elem_of_difference. apply Hi, elem_of_singleton. reflexivity.
    - apply lookup_delete_eq. }
  split; [|split; [exact Hgone | reflexivity]].
  split; [split; [|split; assumption]|split; [|split]].
  - apply list.Forall_forall. intros b Hb. destruct (Hall b Hb) as [H1 H2].
    destruct (Hapart b Hb) as [H3 H4]. split; cbn [sp_bodies sp_shapes].
    + apply elem_of_difference. split; [exact H1|]. intros E%elem_of_singleton. congruence.
    + rewrite lookup_delete_ne by congruence. exact H2.
  - apply list.Forall_forall. exact Hapart.
  - repeat split; try assumption.
    + intros i [Hi _]%elem_of_difference. apply Hb1, Hi.
    + intros k Hk. apply Hb2.
      destruct (decide (k = shape_id (_screen_bottom self).2)) as [->|Hne].
      * rewrite lookup_delete_eq in Hk. destruct Hk as [? Hk]. discriminate Hk.
      * rewrite lookup_delete_ne in Hk by congruence. exact Hk.
  - right. exact Hgone.
Qed.

(** [runs P m Q]: from a state in [P], [m] returns, with a value and a
    state in [Q]. *)
Definition runs {St A} (P : St -> Prop) (m : M St A) (Q : A -> St -> Prop) : Prop :=
  forall s, P s -> exists a s', m s = (Ok a, s') /\ Q a s'.

Lemma runs_ret {St A} (P : St -> Prop) (a : A) (Q : A -> St -> Prop) :
  (forall s, P s -> Q a s) -> runs P (mret a) Q.
Proof. intros H s Hs. exists a, s. split; [reflexivity | apply H, Hs]. Qed.

Lemma runs_bind {St A B} (P : St -> Prop) (R : A -> St -> Prop) (Q : B -> St -> Prop)
      (m : M St A) (f : A -> M St B) :
  runs P m R -> (forall a, runs (R a) (f a) Q) -> runs P (m ≫= f) Q.
Proof.
  intros Hm Hf s Hs. destruct (Hm s Hs) as (a & s1 & E1 & H1).
  destruct (Hf a s1 H1) as (b & s2 & E2 & H2). exists b, s2. split; [|exact H2].
  unfold mbind, M_bind. rewrite E1. exact E2.
Qed.

Lemma runs_gets {St A} (P : St -> Prop) (f : St -> A) (Q : A -> St -> Prop) :
  (forall s, P s -> Q (f s) s) -> runs P (gets f) Q.
Proof. intros H s Hs. exists (f s), s. split; [reflexivity | apply H, Hs]. Qed.

Lemma runs_on_self_modify {X W} (P : X * W -> Prop) (f : X -> X) (Q : unit -> X * W -> Prop) :
  (forall s, P s -> Q tt (f s.1, s.2)) -> runs P (on_self (modify f)) Q.
Proof. intros H s Hs. exists tt, (f s.1, s.2). split; [reflexivity | apply H, Hs]. Qed.

Lemma runs_on_world_log {X} (P : X * World F -> Prop) (c : call)
      (Q : unit -> X * World F -> Prop) :
  (forall s, P s -> Q tt (s.1, set_calls (fun l => l ++ [c]) s.2)) ->
  runs P (on_world (log c)) Q.
Proof. intros H s Hs. eexists tt, _. split; [reflexivity | apply H, Hs]. Qed.

Lemma runs_for_each {St A} (I : St -> Prop) (l : list A) (body : A -> M St unit) :
  (forall x, runs I (body x) (fun _ => I)) -> runs I (for_each l body) (fun _ => I).
Proof.
  intros Hb. induction l as [|x l IH]; cbn [for_each].
  - apply runs_ret. auto.
  - eapply runs_bind; [apply Hb | intros []; exact IH].
Qed.

(** The state of the object along a run: [b] is [_remove_screen_bottom],
    and [r] says that the bottom segment is known to be gone. *)
Definition kept (b r : bool) (s : St F) : Prop :=
  sound s /\ _remove_screen_bottom s.1 = b /\ (r = true -> bottom_removed s.1).

Lemma sound_same (self self' : t F) (w w' : World F) :
  space self' = space self -> balls_list self' = balls_list self ->
  _screen_bottom self' = _screen_bottom self -> next_id w' = next_id w ->
  sound (self, w) -> sound (self', w').
Proof.
  unfold sound, balls_in_space, apart, ids_below, bottom_present, bottom_removed.
  cbn [fst snd]. intros -> -> -> ->. auto.
Qed.

Lemma kept_same b r (self self' : t F) (w w' : World F) :
  space self' = space self -> balls_list self' = balls_list self ->
  _screen_bottom self' = _screen_bottom self -> next_id w' = next_id w ->
  _remove_screen_bottom self' = _remove_screen_bottom self ->
  kept b r (self, w) -> kept b r (self', w').
Proof.
  intros E1 E2 E3 E4 E5 (Hs & Hb & Hr). split; [|split].
  - eapply sound_same; eauto.
  - cbn [fst] in *. congruence.
  - intros Er. specialize (Hr Er). unfold bottom_removed in *. cbn [fst] in *.
    rewrite E1, E3. exact Hr.
Qed.

Lemma runs_create_ball b r source :
  runs (kept b r) (create_ball source) (fun _ => kept b r).
Proof.
  intros s (Hs & Hb & Hr).
  destruct (create_ball_sound source s Hs) as (s' & E & Hs' & Hf & _ & _ & Hrem).
  exists tt, s'. split; [exact E|]. split; [exact Hs'|]. split; [congruence | auto].
Qed.

Lemma runs_sweep b r :
  runs (kept b r) (for_in (fun s : St F => balls_list s.1) remove_if_out) (fun _ => kept b r).
Proof.
  intros s (Hs & Hb & Hr). unfold for_in. mrun.
  destruct (sweep_sound (length (balls_list s.1)) 0 s Hs) as (s' & E & Hs' & Hf & Hrem).
  exists tt, s'. split; [exact E|]. split; [exact Hs'|]. split; [congruence | auto].
Qed.

Lemma runs_remove_bottom r :
  runs (kept true r) remove_bottom (fun _ => kept true true).
Proof.
  intros s (Hs & Hb & Hr). pose proof Hs as (_ & _ & _ & [Hp|Hrem]).
  - destruct (remove_bottom_first s Hs Hp) as (s' & E & Hs' & Hrem & Hf).
    exists tt, s'. split; [exact E|]. split; [exact Hs'|]. split; [congruence | auto].
  - destruct s as [self w]. rewrite (remove_bottom_again self w Hrem).
    eexists tt, _. split; [reflexivity|].
    eapply kept_same; [..|split; [exact Hs|split; [exact Hb | intros _; exact Hrem]]];
      reflexivity.
Qed.

(** [run_logic] returns and keeps the object sound; when
    [_remove_screen_bottom] is set, the bottom segment is gone afterwards. *)
Lemma runs_run_logic b r : runs (kept b r) run_logic (fun _ => kept b (b || r)).
Proof.
  unfold run_logic.
  eapply runs_bind with (R := fun _ => kept b r); [apply runs_gets; auto|]. intros self0.
  eapply runs_bind with (R := fun _ => kept b r).
  { intros s Hs. unfold on_world, Space_step, log. mrun. eexists tt, _.
    split; [reflexivity|]. destruct s as [self w].
    eapply kept_same; [..|exact Hs]; reflexivity. }
  intros _. eapply runs_bind with (R := fun _ => kept b r).
  { apply runs_on_self_modify. intros [self w] Hs.
    eapply kept_same; [..|exact Hs]; reflexivity. }
  intros _.
  eapply runs_bind with (R := fun _ => kept b r); [apply runs_gets; auto|]. intros self1.
  eapply runs_bind with (R := fun _ => kept b r).
  { destruct (_ && _).
    - eapply runs_bind with (R := fun _ => kept b r).
      + apply runs_on_self_modify. intros [self w] Hs.
        eapply kept_same; [..|exact Hs]; reflexivity.
      + intros _. apply runs_for_each. intros src. apply runs_create_ball.
    - apply runs_ret. auto. }
  intros _.
  eapply runs_bind with (R := fun a s => kept b r s /\ a = s.1);
    [apply runs_gets; auto|]. intros self2.
  eapply runs_bind with (R := fun _ => kept b (b || r)).
  { intros s [Hs ->]. pose proof Hs as (_ & Hb & _). rewrite Hb. destruct b.
    - apply (runs_remove_bottom r s Hs).
    - exists tt, s. split; [reflexivity | exact Hs]. }
  intros _. apply runs_sweep.
Qed.

Lemma runs_process_events_loop b r (evs : list event) :
  runs (kept b r) (process_events_loop evs)
       (fun _ s => exists b', (b = true -> b' = true) /\ kept b' r s).
Proof.
  revert b. induction evs as [|ev evs IH]; intros b; cbn [process_events_loop].
  - apply runs_ret. intros s Hs. exists b. auto.
  - assert (Hskip : runs (kept b r) (process_events_loop evs)
                         (fun _ s => exists b', (b = true -> b' = true) /\ kept b' r s))
      by apply IH.
    destruct ev as [|[]| | |]; try exact Hskip.
    + apply runs_ret. intros s Hs. exists b. auto.
    + eapply runs_bind with (R := fun _ => kept true r).
      * apply runs_on_self_modify. intros [self w] (Hs & Hb & Hr). split; [|split].
        -- eapply sound_same; [..|exact Hs]; reflexivity.
        -- reflexivity.
        -- exact Hr.
      * intros ? s Hs. destruct (IH true s Hs) as (v & s' & E & b' & Hb' & Hk).
        exists v, s'. split; [exact E|]. exists b'. split; [|exact Hk].
        intros ?. apply Hb'. reflexivity.
Qed.

Lemma runs_process_events b r :
  runs (kept b r) process_events
       (fun _ s => exists b', (b = true -> b' = true) /\ kept b' r s).
Proof.
  unfold process_events.
  eapply runs_bind with (R := fun _ => kept b r).
  { intros [self w] Hs. unfold on_world, pygame_event_get, log. mrun. eexists _, _.
    split; [reflexivity|]. eapply kept_same; [..|exact Hs]; reflexivity. }
  intros evs. eapply runs_bind; [apply runs_process_events_loop|].
  intros [v|]; cbn beta.
  - apply runs_ret. auto.
  - eapply runs_bind with (R := fun _ s => exists b', (b = true -> b' = true) /\ kept b' r s);
      [apply runs_gets; auto|].
    intros self. apply runs_ret. auto.
Qed.

Lemma runs_draw b r : runs (kept b r) draw (fun _ => kept b r).
Proof.
  assert (Hlog : forall c, runs (kept b r) (on_world (log c)) (fun _ => kept b r)).
  { intros c. apply runs_on_world_log. intros [self w] Hs.
    eapply kept_same; [..|exact Hs]; reflexivity. }
  unfold draw. eapply runs_bind; [apply Hlog|]. intros ?.
  eapply runs_bind with (R := fun _ => kept b r); [apply runs_gets; auto|]. intros self.
  eapply runs_bind; [|intros ?; apply Hlog].
  apply runs_for_each. intros ball. apply Hlog.
Qed.

Lemma runs_clock_tick b r : runs (kept b r) clock_tick (fun _ => kept b r).
Proof.
  unfold clock_tick.
  eapply runs_bind with (R := fun _ => kept b r); [apply runs_gets; auto|]. intros cfg.
  apply runs_on_world_log. intros [self w] Hs. eapply kept_same; [..|exact Hs]; reflexivity.
Qed.

(** What [Space.add] leaves in the space when it returns. *)
Lemma Space_add_returned (objs : list (obj F)) (sp sp' : Space F) :
  Space_add objs sp = (Ok tt, sp') ->
  (forall i, i ∈ sp_bodies sp' <-> i ∈ sp_bodies sp \/ OBody i ∈ objs)
  /\ (forall k, is_Some (sp_shapes sp' !! k)
                <-> is_Some (sp_shapes sp !! k)
                    \/ exists sh, OShape sh ∈ objs /\ shape_id sh = k).
Proof.
  revert sp. induction objs as [|o objs IH]; intros sp; unfold Space_add; cbn [for_each].
  - intros [= <-]. split.
    + intros i. split; [auto|]. intros [H|H]; [exact H | inversion H].
    + intros k. split; [auto|]. intros [H|(sh & H & _)]; [exact H | inversion H].
  - unfold mbind at 1, M_bind at 1.
    destruct (Space_add1 o sp) as [[[]|e] sp1] eqn:E1; [|discriminate].
    intros E2. apply IH in E2 as [Hb Hs].
    unfold Space_add1 in E1. revert E1. mrun. destruct o as [j|sh1].
    + destruct (decide (j ∈ sp_bodies sp)); [discriminate|]. intros [= <-]. split.
      * intros i. rewrite Hb. cbn [sp_bodies]. rewrite elem_of_union, elem_of_singleton.
        rewrite elem_of_cons. split.
        -- intros [[->|H]|H]; auto.
        -- intros [H|[[= ->]|H]]; auto.
      * intros k. rewrite Hs. cbn [sp_shapes]. split.
        -- intros [H|(sh & H & E)]; [auto|]. right. exists sh. split; [now right | exact E].
        -- intros [H|(sh & H & E)]; [auto|]. right. exists sh. split; [|exact E].
           apply elem_of_cons in H as [H|H]; [discriminate H | exact H].
    + destruct (sp_shapes sp !! shape_id sh1) eqn:El; [discriminate|]. intros [= <-]. split.
      * intros i. rewrite Hb. cbn [sp_bodies]. rewrite elem_of_cons. split.
        -- intros [H|H]; auto.
        -- intros [H|[H|H]]; [auto | discriminate H | auto].
      * intros k. rewrite Hs. cbn [sp_shapes]. split.
        -- intros [H|(sh & H & E)].
           ++ destruct (decide (k = shape_id sh1)) as [->|Hne].
              ** right. exists sh1. split; [left | reflexivity].
              ** rewrite lookup_insert_ne in H by congruence. auto.
           ++ right. exists sh. split; [now right | exact E].
        -- intros [H|(sh & H & E)].
           ++ left. destruct (decide (k = shape_id sh1)) as [->|Hne].
              ** rewrite lookup_insert_eq. eauto.
              ** rewrite lookup_insert_ne by congruence. exact H.
           ++ apply elem_of_cons in H as [[= ->]|H].
              ** left. rewrite <- E, lookup_insert_eq. eauto.
              ** right. eauto.
Qed.

(** What holds when a computation in the world returns. *)
Definition ensures {A} (P : World F -> Prop) (m : M (World F) A)
           (Q : A -> World F -> Prop) : Prop :=
  forall w, P w -> match m w with (Ok a, w') => Q a w' | (Raise _, _) => True end.

Lemma ensures_bind {A B} (P : World F -> Prop) (R : A -> World F -> Prop)
      (Q : B -> World F -> Prop) (m : M (World F) A) (f : A -> M (World F) B) :
  ensures P m R -> (forall a, ensures (R a) (f a) Q) -> ensures P (m ≫= f) Q.
Proof.
  intros Hm Hf w Hw. specialize (Hm w Hw). unfold mbind, M_bind.
  destruct (m w) as [[a|e] w1]; [|exact I]. apply Hf, Hm.
Qed.

Lemma ensures_pure {A} (H : Prop) (P : World F -> Prop) (m : M (World F) A)
      (Q : A -> World F -> Prop) :
  (H -> ensures P m Q) -> ensures (fun w => H /\ P w) m Q.
Proof. intros Hm w [HH Hw]. apply Hm; assumption. Qed.

Lemma ensures_new_border n a b :
  ensures (fun w => next_id w = n) (new_border a b)
          (fun r w => (r.1 = n /\ shape_id r.2 = S n) /\ next_id w = S (S n)).
Proof. intros w <-. repeat split. Qed.

Lemma ensures_Space_add_to n (sp : Space F) (objs : list (obj F)) :
  ensures (fun w => next_id w = n) (Space_add_to sp objs)
          (fun sp' w => Space_add objs sp = (Ok tt, sp') /\ next_id w = n).
Proof.
  intros w <-. unfold Space_add_to, log. mrun.
  destruct (Space_add objs sp) as [[[]|e] sp']; [|exact I]. split; reflexivity.
Qed.

(** After the constructor the bottom segment is in the space and there is
    no ball. *)
Lemma init_kept cfg (w : World F) :
  match init cfg w with
  | (Ok self, w') => kept false false (self, w')
  | (Raise _, _) => True
  end.
Proof.
  apply (ensures_bind (fun w0 => next_id w0 = next_id w) (fun _ w0 => next_id w0 = next_id w));
    [intros w0 Hw0; exact Hw0| |reflexivity].
  intros _.
  apply (ensures_bind _ (fun sp w0 => sp = Space_empty /\ next_id w0 = next_id w)).
  { intros w0 Hw0. split; [reflexivity | exact Hw0]. }
  intros sp0. cbv zeta. apply ensures_pure. intros ->.
  apply (ensures_bind _ (fun _ w0 => next_id w0 = next_id w)).
  { intros w0 Hw0. unfold floordiv. destruct (_ =? 0); [exact I | exact Hw0]. }
  intros d.
  eapply ensures_bind; [apply ensures_new_border|]. intros [b0 s0].
  apply ensures_pure. cbn [fst snd]. intros [-> Es0].
  eapply ensures_bind; [apply ensures_new_border|]. intros [b1 s1].
  apply ensures_pure. cbn [fst snd]. intros [-> Es1].
  eapply ensures_bind; [apply ensures_new_border|]. intros [b2 s2].
  apply ensures_pure. cbn [fst snd]. intros [-> Es2].
  eapply ensures_bind; [apply ensures_new_border|]. intros [b3 s3].
  apply ensures_pure. cbn [fst snd]. intros [-> Es3].
  eapply ensures_bind; [apply ensures_Space_add_to|]. intros sp.
  apply ensures_pure. intros [Hbodies Hshapes]%Space_add_returned.
  intros w1 Hw1. cbn [mret M_ret].
  split; [|split; [reflexivity | discriminate]].
  unfold sound, balls_in_space, apart, ids_below, bottom_present.
  cbn [fst snd space balls_list _screen_bottom]. rewrite Hw1, Es0.
  split; [split; [constructor | split; constructor]|].
  split; [constructor|]. split; [|left; split].
  - split; [|split; [|lia]].
    + intros i [Hi|Hi]%Hbodies; [apply elem_of_empty in Hi; contradiction|].
      rewrite !elem_of_cons in Hi.
      destruct Hi as [Hi|[Hi|[Hi|[Hi|[Hi|[Hi|[Hi|[Hi|Hi]]]]]]]];
        try discriminate Hi; try (injection Hi as ->; lia). inversion Hi.
    + intros k [Hk|(sh & Hk & <-)]%Hshapes.
      { cbn in Hk. rewrite lookup_empty in Hk. destruct Hk as [? Hk]. discriminate Hk. }
      rewrite !elem_of_cons in Hk.
      destruct Hk as [Hk|[Hk|[Hk|[Hk|[Hk|[Hk|[Hk|[Hk|Hk]]]]]]]];
        try discriminate Hk; try (injection Hk as ->; lia). inversion Hk.
  - apply Hbodies. right. left.
  - rewrite <- Es0. apply Hshapes. right. exists s0. split; [|reflexivity].
    right. left.
Qed.

(** The main loop never raises, and after every pass the object is sound;
    when [_remove_screen_bottom] is set, the bottom segment is gone. *)
Lemma main_loop_kept (frames : list Frame) (s : St F) b :
  kept b b s ->
  let r := main_loop simulation frames s in
  (forall e, ended r <> Crashed e) /\ exists b', kept b' b' (final r).
Proof.
  revert s b. induction frames as [|f frames IH]; intros s b Hs; cbn zeta.
  - split; [discriminate | eauto].
  - cbn [main_loop]. unfold iteration.
    cbn [simulation sim_process_events sim_run_logic sim_draw sim_clock_tick].
    assert (Ha : kept b b (s.1, arrive f s.2)).
    { destruct s as [self w]. eapply kept_same; [..|exact Hs]; reflexivity. }
    destruct (runs_process_events b b _ Ha) as (v & s1 & E1 & b' & Hb' & H1). rewrite E1.
    destruct (runs_run_logic b' b s1 H1) as ([] & s2 & E2 & H2). rewrite E2.
    assert (H2' : kept b' b' s2).
    { destruct b'; [exact H2|]. destruct b; [discriminate (Hb' eq_refl) | exact H2]. }
    destruct (runs_draw b' b' s2 H2') as ([] & s3 & E3 & H3). rewrite E3.
    destruct (runs_clock_tick b' b' s3 H3) as ([] & s4 & E4 & H4). rewrite E4.
    destruct (truthy v).
    + cbn [trace ended final]. apply (IH s4 b' H4).
    + cbn [ended final]. split; [discriminate | eauto].
Qed.

(** In every run of the program, a pass that ends with
    [_remove_screen_bottom] set leaves the object in the state [draining]. *)
Lemma runs_reach_draining cfg (w0 : World F) (frames : list Frame) :
  match init cfg w0 with
  | (Ok self, w) =>
      let r := main_loop simulation frames (self, w) in
      (forall e, ended r <> Crashed e)
      /\ (_remove_screen_bottom (final r).1 = true -> draining (final r).1)
  | (Raise _, _) => True
  end.
Proof.
  pose proof (init_kept cfg w0) as Hi. destruct (init cfg w0) as [[self|e] w]; [|exact I].
  destruct (main_loop_kept frames (self, w) false Hi) as [Hne (b' & Hs & Hb & Hr)].
  cbv zeta. split; [exact Hne|]. intros Hflag. rewrite Hflag in Hb. subst b'.
  split; [exact Hflag|]. split; [apply Hr; reflexivity | apply Hs].
Qed.

(** [draining], as a test that can be run. *)
Definition drainingb (self : t F) : bool :=
  _remove_screen_bottom self
  && bool_decide ((_screen_bottom self).1 ∉ sp_bodies (space self))
  && bool_decide (¬ is_Some (sp_shapes (space self) !! shape_id (_screen_bottom self).2))
  && forallb (fun b => bool_decide (Ball.body b ∈ sp_bodies (space self))
                       && bool_decide (is_Some (sp_shapes (space self)
                                                  !! shape_id (Ball.shape b))))
             (balls_list self)
  && bool_decide (NoDup (Ball.body <$> balls_list self))
  && bool_decide (NoDup ((fun b => shape_id (Ball.shape b)) <$> balls_list self)).

Lemma drainingb_draining (self : t F) : drainingb self = true -> draining self.
Proof.
  unfold drainingb. rewrite !andb_true_iff, !bool_decide_eq_true, forallb_forall.
  intros [[[[[H1 H2] H3] H4] H5] H6]. split; [exact H1|]. split; [split|split; [|split]].
  - exact H2.
  - apply eq_None_not_Some, H3.
  - apply list.Forall_forall. intros b Hb. apply list_elem_of_In, H4 in Hb.
    apply andb_true_iff in Hb as [Hb1 Hb2]. apply bool_decide_eq_true in Hb1, Hb2.
    split; assumption.
  - exact H5.
  - exact H6.
Qed.

(** C1.  Once the bottom segment has been removed from the space (and
    [_remove_screen_bottom] is set; the balls of the list are in the space,
    as they are all along a run by [runs_reach_draining]), a call of
    [run_logic]
    - attempts the removal again: [Space.remove] of the bottom body and
      segment raises [AssertionError] and gives back the space as it was;
    - catches the error: the [try] statement completes normally, having
      changed nothing but the log of the calls;
    - completes normally itself, the attempt being among the calls it made;
    - and leaves the object in the same situation, so that the same holds
      for every later call. *)
Theorem run_logic_after_bottom_removed (self : t F) (w : World F) :
  draining self ->
  Space_remove (bottom_objs self) (space self) = (Raise AssertionError, space self)
  /\ (let s := at_try self w in
      remove_bottom s
      = (Ok tt, (s.1, set_calls (fun l => l ++ [lib_space_remove (describe <$> bottom_objs self)])
                                s.2)))
  /\ (run_logic (self, w)).1 = Ok tt
  /\ lib_space_remove (describe <$> bottom_objs self)
       ∈ new_calls w (run_logic (self, w)).2.2
  /\ draining (run_logic (self, w)).2.1.
Proof.
  intros H. pose proof H as (Hflag & Hbottom & Hballs).
  pose proof (draining_at_try self w H) as Htry.
  assert (Hrm : remove_bottom (at_try self w)
                = (Ok tt, ((at_try self w).1,
                           set_calls (fun l => l ++ [lib_space_remove
                                                       (describe <$> bottom_objs self)])
                                     (at_try self w).2))).
  { rewrite (surjective_pairing (at_try self w)) at 1.
    rewrite remove_bottom_again by apply Htry. destruct self. reflexivity. }
  split; [apply Space_remove_bottom_again, Hbottom|]. split; [exact Hrm|].
  set (s1 := ((at_try self w).1,
              set_calls (fun l => l ++ [lib_space_remove (describe <$> bottom_objs self)])
                        (at_try self w).2)) in *.
  assert (Erun : run_logic (self, w)
                 = for_from (length (balls_list s1.1)) 0
                            (fun s : St F => balls_list s.1) remove_if_out s1).
  { rewrite (run_logic_draining self w Hflag). unfold mbind, M_bind. rewrite Hrm.
    reflexivity. }
  rewrite Erun.
  pose proof (sweep_draining (length (balls_list s1.1)) 0 s1 Htry) as [Hok Hd].
  cbv zeta in Hok, Hd. split; [exact Hok|]. split; [|exact Hd].
  assert (Hsweep : emits (fun s : St F => calls s.2) is_benign (fun _ => True)
                         (for_from (length (balls_list s1.1)) 0
                                   (fun s : St F => balls_list s.1) remove_if_out)).
  { apply emits_for_from. intros x.
    apply ColorfulFloodingCalls.cf_emits_remove_if_out, plain_benign. }
  destruct (Hsweep s1) as [(l & E & _) _]. unfold new_calls. rewrite E.
  unfold s1, at_try, Space_step, log. mrun. cbn [calls set_calls set_bodies].
  rewrite <- !app_assoc, drop_app_length. cbn. apply elem_of_cons. right.
  apply elem_of_cons. left. reflexivity.
Qed.

End Facts.
End ColorfulFloodingFacts.

(** ** Which errors a constructor can raise *)

#[global] Instance exn_eq_dec : EqDecision exn.
Proof. solve_decision. Defined.

(** [fails E m]: an exception that leaves [m] satisfies [E]. *)
Definition fails {St A} (E : exn -> bool) (m : M St A) : Prop :=
  forall s e, (m s).1 = Raise e -> E e = true.

Section Fails.
Context {St : Type} (E : exn -> bool).

Lemma fails_total {A} (m : M St A) : (forall s, is_ok (m s).1 = true) -> fails E m.
Proof. intros H s e He. specialize (H s). rewrite He in H. discriminate. Qed.

Lemma fails_ret {A} (a : A) : fails E (mret a : M St A).
Proof. intros s e [=]. Qed.

Lemma fails_raise {A} (e : exn) : E e = true -> fails E (raise e : M St A).
Proof. intros H s e' [= <-]. exact H. Qed.

Lemma fails_bind {A B} (m : M St A) (f : A -> M St B) :
  fails E m -> (forall a, fails E (f a)) -> fails E (m ≫= f).
Proof.
  intros Hm Hf s e. unfold mbind, M_bind.
  destruct (m s) as [[a|e'] s1] eqn:Em; simpl.
  - apply Hf.
  - intros [= <-]. apply (Hm s). rewrite Em. reflexivity.
Qed.

Lemma fails_for_each {A} (l : list A) (body : A -> M St unit) :
  (forall x, fails E (body x)) -> fails E (for_each l body).
Proof.
  intros Hb. induction l as [|x l IH]; simpl.
  - apply fails_ret.
  - apply fails_bind; [apply Hb | intros _; exact IH].
Qed.

End Fails.

Lemma fails_on_world {X W A} (E : exn -> bool) (m : M W A) :
  fails E m -> fails E (on_world m : M (X * W) A).
Proof.
  intros H [x w] e. unfold on_world. simpl. destruct (m w) as [r w'] eqn:Em. simpl.
  intros ->. apply (H w). rewrite Em. reflexivity.
Qed.

Lemma fails_on_attr {X W A B} (E : exn -> bool) (getter : X -> A) (setter : A -> X -> X)
      (m : M A B) :
  fails E m -> fails E (on_attr getter setter m : M (X * W) B).
Proof.
  intros H [x w] e. unfold on_attr. simpl. destruct (m (getter x)) as [r a'] eqn:Em. simpl.
  intros ->. apply (H (getter x)). rewrite Em. reflexivity.
Qed.

Lemma fails_under_construction {X W} (E : exn -> bool) (self : X) (m : M (X * W) unit) :
  fails E m -> fails E (under_construction self m).
Proof.
  intros H w e. unfold under_construction.
  destruct (m (self, w)) as [[[]|e'] [self' w']] eqn:Em; simpl; [discriminate|].
  intros [= <-]. apply (H (self, w)). rewrite Em. reflexivity.
Qed.

Lemma fails_returning {W A} (E : exn -> bool) (m : M W A) :
  fails E m -> fails E (returning m).
Proof. intros H. unfold returning. apply fails_bind; [exact H | intros a; apply fails_ret]. Qed.

(** The errors that come out of Python and the libraries: every exception
    but a [ValueError] with a message written in the repository. *)
Definition library_error (e : exn) : bool :=
  match e with
  | ValueError msg =>
      String.eqb msg "empty range for randrange()"
      || String.eqb msg "list.remove(x): x not in list"
  | _ => true
  end.

Section WorldFails.
Context {F : Type} {NF : Num F} (E : exn -> bool).
Context (HE : forall e, library_error e = true -> E e = true).

Lemma fails_log c : fails E (@log F c).
Proof. apply fails_total. reflexivity. Qed.

Lemma fails_open_window w h : fails E (@open_window F w h).
Proof. apply fails_total. reflexivity. Qed.

Lemma fails_Space_new : fails E (@Space_new F).
Proof. apply fails_total. reflexivity. Qed.

Lemma fails_Body_new ty mass moment : fails E (@Body_new F NF ty mass moment).
Proof. apply fails_total. reflexivity. Qed.

Lemma fails_Body_set_position i p : fails E (@Body_set_position F NF i p).
Proof. apply fails_total. reflexivity. Qed.

Lemma fails_Body_set_velocity i v : fails E (@Body_set_velocity F NF i v).
Proof. apply fails_total. reflexivity. Qed.

Lemma fails_Shape_new body g e f : fails E (@Shape_new F body g e f).
Proof. apply fails_total. reflexivity. Qed.

Lemma fails_choice_sign : fails E (@choice_sign F).
Proof. apply fails_total. reflexivity. Qed.

Lemma fails_choice_bool : fails E (@choice_bool F).
Proof. apply fails_total. reflexivity. Qed.

Lemma fails_random_color : fails E (@random_color F).
Proof. apply fails_total. reflexivity. Qed.

Lemma fails_random_gt_half : fails E (@random_gt_half F).
Proof. apply fails_total. reflexivity. Qed.

Lemma fails_randrange a b : fails E (@randrange F a b).
Proof.
  unfold randrange. destruct (a <? b).
  - apply fails_total. reflexivity.
  - apply fails_raise, HE. reflexivity.
Qed.

Lemma fails_choice {A} (l : list A) : fails E (@choice F A l).
Proof.
  destruct l; simpl.
  - apply fails_raise, HE. reflexivity.
  - apply fails_total. reflexivity.
Qed.

Lemma fails_floordiv {St} a b : fails E (@floordiv St a b).
Proof.
  unfold floordiv. destruct (b =? 0).
  - apply fails_raise, HE. reflexivity.
  - apply fails_ret.
Qed.

Lemma fails_Space_add1 (o : obj F) : fails E (Space_add1 o).
Proof.
  intros sp e. unfold Space_add1. mrun. destruct o as [i|sh].
  - destruct (decide _); [|discriminate]. intros [= <-]. apply HE. reflexivity.
  - destruct (sp_shapes sp !! shape_id sh); [|discriminate].
    intros [= <-]. apply HE. reflexivity.
Qed.

Lemma fails_Space_add (objs : list (obj F)) : fails E (Space_add objs).
Proof. apply fails_for_each. intros o. apply fails_Space_add1. Qed.

Lemma fails_Space_add_to (sp : Space F) (objs : list (obj F)) :
  fails E (Space_add_to sp objs).
Proof.
  unfold Space_add_to. apply fails_bind; [apply fails_log|]. intros _.
  destruct (Space_add objs sp) as [[[]|e] sp'] eqn:Ea; [apply fails_ret|].
  apply fails_raise. apply (fails_Space_add objs sp). rewrite Ea. reflexivity.
Qed.

Lemma fails_attr_space_add {X} (getter : X -> Space F) (setter : Space F -> X -> X)
      (objs : list (obj F)) :
  fails E (attr_space_add getter setter objs).
Proof.
  unfold attr_space_add. apply fails_bind; [apply fails_on_world, fails_log|]. intros _.
  apply fails_on_attr, fails_Space_add.
Qed.

End WorldFails.

Create HintDb fails.

#[global] Hint Resolve fails_ret fails_log fails_open_window fails_Space_new fails_Body_new
  fails_Body_set_position fails_Body_set_velocity fails_Shape_new fails_choice_sign
  fails_choice_bool fails_random_color fails_random_gt_half fails_randrange fails_choice
  fails_floordiv fails_Space_add_to fails_attr_space_add : fails.

Ltac fails_go :=
  lazymatch goal with
  | |- fails _ (mbind _ _) => apply fails_bind; [fails_go | intros ?; fails_go]
  | |- fails _ (if ?b then _ else _) => destruct b; fails_go
  | |- fails _ (match ?x with _ => _ end) => destruct x; fails_go
  | |- fails _ (on_world _) => apply fails_on_world; fails_go
  | |- fails _ (on_self _) => apply fails_total; intros [? ?]; reflexivity
  | |- fails _ (gets _) => apply fails_total; intros ?; reflexivity
  | |- fails _ get => apply fails_total; intros ?; reflexivity
  | |- fails _ (under_construction _ _) => apply fails_under_construction; fails_go
  | |- fails _ (returning _) => apply fails_returning; fails_go
  | |- fails _ (raise _) => apply fails_raise; first [reflexivity | auto]
  | |- _ => solve [eauto with fails]
  end.

(** ** The validation errors of the constructors *)

Module Constructors.
Section Constructors.
Context {F : Type} {NF : Num F}.

(** The [ValueError]s that the repository raises itself. *)
Definition own_error (p : program) : p_config (the_program p) -> exn -> bool :=
  match p return p_config (the_program p) -> exn -> bool with
  | pizza_rain => fun _ e => bool_decide (e = ValueError Pizza.path_error)
  | sand_clock => fun cfg e =>
      bool_decide (e = ValueError (SandGrain.color_type_error
                                     (SandClock.sand_grain_color_type cfg)))
  | _ => fun _ _ => false
  end.

Definition may_raise (p : program) (cfg : p_config (the_program p)) (e : exn) : bool :=
  library_error e || own_error p cfg e.

Lemma Pizza_init_result path vs re d sh (w : World F) :
  match (Pizza.init path vs re d sh w).1 with
  | Ok _ => path_exists w path = true
  | Raise e => path_exists w path = false /\ e = ValueError Pizza.path_error
  end.
Proof.
  unfold Pizza.init, log. mrun.
  destruct (path_exists w path) eqn:Hp; mrun; rewrite ?Hp; auto.
Qed.

Lemma SandGrain_init_result center radius mass color_type (w : World F) :
  match (SandGrain.init center radius mass color_type w).1 with
  | Ok _ => color_type = "random" \/ color_type = "yellow"
  | Raise e => color_type <> "random" /\ color_type <> "yellow"
               /\ e = ValueError (SandGrain.color_type_error color_type)
  end.
Proof.
  unfold SandGrain.init.
  destruct (String.eqb color_type "random") eqn:E1.
  - apply String.eqb_eq in E1.
    match goal with |- match ?r with _ => _ end =>
      assert (Hr : exists g, r = Ok g) by (eexists; reflexivity) end.
    destruct Hr as [g ->]. left. exact E1.
  - destruct (String.eqb color_type "yellow") eqn:E2.
    + apply String.eqb_eq in E2.
      match goal with |- match ?r with _ => _ end =>
        assert (Hr : exists g, r = Ok g) by (eexists; reflexivity) end.
      destruct Hr as [g ->]. right. exact E2.
    + apply String.eqb_neq in E1, E2.
      match goal with |- match ?r with _ => _ end =>
        change r with (Raise (A:=SandGrain.t F)
                         (ValueError (SandGrain.color_type_error color_type))) end.
      cbv beta iota. auto.
Qed.

Lemma fails_Pizza_init (E : exn -> bool) path vs re d sh :
  E (ValueError Pizza.path_error) = true -> fails E (Pizza.init path vs re d sh : M (World F) _).
Proof.
  intros HE w e He. pose proof (Pizza_init_result path vs re d sh w) as H.
  rewrite He in H. destruct H as [_ ->]. exact HE.
Qed.

Lemma fails_SandGrain_init (E : exn -> bool) center radius mass color_type :
  E (ValueError (SandGrain.color_type_error color_type)) = true ->
  fails E (SandGrain.init center radius mass color_type : M (World F) _).
Proof.
  intros HE w e He. pose proof (SandGrain_init_result center radius mass color_type w) as H.
  rewrite He in H. destruct H as (_ & _ & ->). exact HE.
Qed.

Section Programs.
Context (E : exn -> bool) (HE : forall e, library_error e = true -> E e = true).

Lemma fails_cf_init cfg : fails E (ColorfulFlooding.init cfg : M (World F) _).
Proof. unfold ColorfulFlooding.init, ColorfulFlooding.new_border. fails_go. Qed.

Lemma fails_wb_init cfg : fails E (WreckingBall.init cfg : M (World F) _).
Proof. unfold WreckingBall.init. fails_go. Qed.

Lemma fails_ss_init cfg : fails E (ShootingStar.init cfg : M (World F) _).
Proof. unfold ShootingStar.init. fails_go. Qed.

Lemma fails_rc_init cfg : fails E (ReboundCollisions.init cfg : M (World F) _).
Proof.
  unfold ReboundCollisions.init, ReboundCollisions._create_and_add_a_new_circle,
    ReboundCollisions.space_add, ReboundCircle.init.
  fails_go.
Qed.

Lemma fails_sol_init cfg : fails E (SolarSystem.init cfg : M (World F) _).
Proof.
  unfold SolarSystem.init.
  do 3 (apply fails_bind; [fails_go|]; intros _).
  apply fails_bind; [|intros ?; fails_go].
  generalize (Z.to_nat (SolarSystem.n_planets cfg)) as n.
  generalize (@nil Planet.t) as acc.
  generalize (((SolarSystem.screen_width cfg / 2, SolarSystem.screen_height cfg / 2)).2
              - (Sun.radius (Sun.init (SolarSystem.screen_width cfg / 2,
                                       SolarSystem.screen_height cfg / 2)
                                      (SolarSystem.sun_radius cfg)
                                      (SolarSystem.sun_color cfg))
                 + SolarSystem.intra_planets_distance cfg)) as y.
  generalize 0%nat as i.
  intros i y acc n. revert i y acc.
  induction n as [|n IH]; intros i y acc; simpl; [fails_go|].
  assert (Hidx : forall A (l : list A) j, fails E (@SolarSystem.index F A l j)).
  { intros A l j. unfold SolarSystem.index. destruct (l !! j); [apply fails_ret|].
    apply fails_raise, HE. reflexivity. }
  do 3 (apply fails_bind; [apply Hidx|]; intros ?).
  apply fails_bind; [fails_go|]. intros cw.
  apply fails_bind; [apply Hidx|]. intros col. apply IH.
Qed.

Lemma fails_pr_place fuel cfg group pizza :
  fails E (PizzaRain.place fuel cfg group pizza : M (World F) _).
Proof.
  revert pizza. induction fuel as [|fuel IHf]; intros pizza; simpl.
  - destruct (PizzaRain.spritecollide pizza group); apply fails_ret.
  - destruct (PizzaRain.spritecollide pizza group); [|apply fails_ret].
    do 2 (apply fails_bind; [fails_go|]; intros ?). apply IHf.
Qed.

Lemma fails_pr_init fuel cfg :
  E (ValueError Pizza.path_error) = true -> fails E (PizzaRain.init fuel cfg : M (World F) _).
Proof.
  intros Hown. unfold PizzaRain.init.
  apply fails_bind; [fails_go|]. intros _.
  apply fails_bind; [|intros ?; fails_go].
  generalize (@nil Pizza.t) as group.
  induction (Z.to_nat (PizzaRain.number_of_pizzas cfg)) as [|n IH]; intros group; simpl;
    [fails_go|].
  apply fails_bind; [fails_go|]. intros img.
  apply fails_bind; [apply fails_Pizza_init, Hown|]. intros pizza.
  apply fails_bind; [apply fails_pr_place|].
  intros [placed|]; [apply IH | apply fails_ret].
Qed.

Lemma fails_scs_init center width height neck_width line_width line_color :
  fails E (SandClockStructure.init center width height neck_width line_width line_color
           : M (World F) _).
Proof.
  apply fails_total. intros w. reflexivity.
Qed.

Lemma fails_init_grain_random_position (st : SandClockStructure.t F) :
  fails E (SandClockStructure.init_grain_random_position st).
Proof.
  unfold SandClockStructure.init_grain_random_position. cbv zeta.
  apply fails_bind.
  { destruct (_ =? 0); [apply fails_raise, HE; reflexivity | apply fails_ret]. }
  intros m. apply fails_bind; [apply fails_randrange, HE|]. intros x.
  apply fails_bind; [apply fails_randrange, HE|]. intros y.
  apply fails_bind; [apply fails_random_gt_half|]. intros heads. apply fails_ret.
Qed.

Lemma fails_add_structure (l : list (nat * Shape F)) (sp : Space F) :
  fails E (SandClock.add_structure l sp).
Proof.
  revert sp. induction l as [|[b sh] l IH]; intros sp; simpl; [apply fails_ret|].
  apply fails_bind; [apply fails_Space_add_to, HE | intros ?; apply IH].
Qed.

Lemma fails_create_grains n cfg (st : SandClockStructure.t F) acc :
  E (ValueError (SandGrain.color_type_error (SandClock.sand_grain_color_type cfg))) = true ->
  fails E (SandClock.create_grains n cfg st acc).
Proof.
  intros Hown. revert acc. induction n as [|n IH]; intros acc; simpl; [apply fails_ret|].
  apply fails_bind; [apply fails_init_grain_random_position|]. intros center.
  apply fails_bind; [apply fails_SandGrain_init, Hown|]. intros g. apply IH.
Qed.

Lemma fails_add_grains (l : list (SandGrain.t F)) (sp : Space F) :
  fails E (SandClock.add_grains l sp).
Proof.
  revert sp. induction l as [|g l IH]; intros sp; simpl; [apply fails_ret|].
  apply fails_bind; [apply fails_Space_add_to, HE | intros ?; apply IH].
Qed.

Lemma fails_sc_init cfg :
  E (ValueError (SandGrain.color_type_error (SandClock.sand_grain_color_type cfg))) = true ->
  fails E (SandClock.init cfg : M (World F) _).
Proof.
  intros Hown. unfold SandClock.init.
  apply fails_bind; [apply fails_open_window|]. intros _.
  apply fails_bind; [apply fails_Space_new|]. intros sp0. cbv zeta.
  apply fails_bind; [apply fails_scs_init|]. intros st.
  apply fails_bind; [apply fails_add_structure|]. intros sp.
  apply fails_bind; [apply fails_create_grains, Hown|]. intros grains.
  apply fails_bind; [apply fails_add_grains|]. intros sp'. apply fails_ret.
Qed.

End Programs.

Lemma library_may_raise p cfg e : library_error e = true -> may_raise p cfg e = true.
Proof. intros H. unfold may_raise. rewrite H. reflexivity. Qed.

Lemma program_init_fails (p : program) (cfg : p_config (the_program p)) :
  fails (may_raise p cfg) (p_init (the_program (F:=F) p) cfg).
Proof.
  destruct p; cbn [the_program p_init]; try apply fails_returning.
  - apply fails_cf_init; try apply library_may_raise.
  - apply fails_pr_init; [apply library_may_raise|].
    unfold may_raise. cbn. rewrite bool_decide_eq_true_2 by reflexivity. reflexivity.
  - apply fails_rc_init; try apply library_may_raise.
  - apply fails_sc_init; [apply library_may_raise|].
    unfold may_raise, own_error. rewrite bool_decide_eq_true_2 by reflexivity.
    apply orb_true_r.
  - apply fails_ss_init; try apply library_may_raise.
  - apply fails_sol_init; try apply library_may_raise.
  - apply fails_wb_init; try apply library_may_raise.
Qed.

(** C7, amended.  Two constructors validate their input and raise a
    [ValueError] of their own: [Pizza.__init__] exactly when the image path
    does not exist, and [SandGrain.__init__] exactly when [color_type] is
    neither ['random'] nor ['yellow'].  The constructors of the other
    classes with a body ([Ball], [SmallBall], [Spark], [Circle],
    [SandClockStructure]) always return.  The constructor of a program lets
    through only errors of Python and the libraries, and besides them, in
    pizza_rain the error of [Pizza.__init__], and in sand_clock the error of
    [SandGrain.__init__] for the configured colour type. *)
Theorem constructors_validation :
  (forall path vs re d sh (w : World F),
      match (Pizza.init path vs re d sh w).1 with
      | Ok _ => path_exists w path = true
      | Raise e => path_exists w path = false /\ e = ValueError Pizza.path_error
      end)
  /\ (forall center radius mass color_type (w : World F),
         match (SandGrain.init center radius mass color_type w).1 with
         | Ok _ => color_type = "random" \/ color_type = "yellow"
         | Raise e => color_type <> "random" /\ color_type <> "yellow"
                      /\ e = ValueError (SandGrain.color_type_error color_type)
         end)
  /\ (forall center mass radius e f col (w : World F),
         is_ok (Ball.init center mass radius e f col w).1 = true)
  /\ (forall center radius mass e f col (w : World F),
         is_ok (SmallBall.init center radius mass e f col w).1 = true)
  /\ (forall mouse_pos col radius lifespan (w : World F),
         is_ok (Spark.init mouse_pos col radius lifespan w).1 = true)
  /\ (forall mass moment center radius velocity col (w : World F),
         is_ok (ReboundCircle.init mass moment center radius velocity col w).1 = true)
  /\ (forall center width height neck_width line_width line_color (w : World F),
         is_ok (SandClockStructure.init center width height neck_width line_width
                                        line_color w).1 = true)
  /\ (forall (p : program) (cfg : p_config (the_program p)),
         fails (may_raise p cfg) (p_init (the_program (F:=F) p) cfg)).
Proof.
  split; [exact Pizza_init_result|]. split; [exact SandGrain_init_result|].
  repeat split; try reflexivity. apply program_init_fails.
Qed.

End Constructors.
End Constructors.

(** ** The vertical flip of the sand clock *)

Module SandClockFacts.
Section SandClockFacts.
Context {F : Type} {NF : Num F}.
Import SandClock.

(** [(x, 2 * structure_center_y - y)], in the arithmetic of the program. *)
Definition mirrored (c : Z) (p : vec F) : vec F := (p.1, nsub (of_int (2 * c)) p.2).

Lemma set_position_twice (p q : vec F) (b : Body F) :
  set_position p (set_position q b) = set_position p b.
Proof. destruct b. reflexivity. Qed.

Lemma set_position_same (b : Body F) : set_position (position b) b = b.
Proof. destruct b. reflexivity. Qed.

Lemma position_set_position (p : vec F) (b : Body F) : position (set_position p b) = p.
Proof. destruct b. reflexivity. Qed.

Lemma flip_grain_eq c (g : SandGrain.t F) (w : World F) :
  flip_grain c g w
  = (Ok tt, set_bodies (fun h => <[SandGrain.body g :=
                          set_position (mirrored c (position (h !!! SandGrain.body g)))
                                       (h !!! SandGrain.body g)]> h) w).
Proof. reflexivity. Qed.

(** The loop of [_flip_vertically] over grains with distinct bodies. *)
Lemma flip_each c (l : list (SandGrain.t F)) (self : t F) (w : World F) :
  NoDup (SandGrain.body <$> l) ->
  exists w',
    for_each l (fun g => on_world (flip_grain c g)) (self, w) = (Ok tt, (self, w'))
    /\ calls w' = calls w
    /\ forall i, body_of w' i
                 = if decide (i ∈ SandGrain.body <$> l)
                   then set_position (mirrored c (position (body_of w i))) (body_of w i)
                   else body_of w i.
Proof.
  revert w. induction l as [|g l IH]; intros w Hnd.
  - exists w. repeat split.
  - rewrite fmap_cons in Hnd. apply list.NoDup_cons in Hnd as [Hg Hnd].
    set (w1 := set_bodies (fun h => <[SandGrain.body g :=
                 set_position (mirrored c (position (h !!! SandGrain.body g)))
                              (h !!! SandGrain.body g)]> h) w).
    destruct (IH w1 Hnd) as (w' & Hrun & Hcalls & Hpos).
    exists w'. split; [|split].
    + cbn [for_each]. unfold on_world at 1. mrun. rewrite flip_grain_eq. cbn [fst snd].
      exact Hrun.
    + rewrite Hcalls. reflexivity.
    + intros i. rewrite Hpos, fmap_cons.
      assert (Hw1 : forall j, body_of w1 j
                = if decide (j = SandGrain.body g)
                  then set_position (mirrored c (position (body_of w j))) (body_of w j)
                  else body_of w j).
      { intros j. unfold body_of, w1. cbn. destruct (decide (j = SandGrain.body g)) as [->|Hj].
        - rewrite lookup_total_insert_eq. reflexivity.
        - rewrite lookup_total_insert_ne by congruence. reflexivity. }
      rewrite Hw1.
      destruct (decide (i ∈ SandGrain.body <$> l)) as [Hin|Hin].
      * rewrite decide_False by (intros ->; contradiction).
        rewrite decide_True by (apply elem_of_cons; right; exact Hin). reflexivity.
      * destruct (decide (i = SandGrain.body g)) as [->|Hi].
        -- rewrite decide_True by (apply elem_of_cons; left; reflexivity). reflexivity.
        -- rewrite decide_False; [reflexivity|].
           intros [?|?]%elem_of_cons; contradiction.
Qed.

Lemma flip_vertically_eq (self : t F) (w : World F) :
  _flip_vertically (self, w)
  = for_each (sand_grains_list self)
      (fun g => on_world (flip_grain (SandClockStructure.center (sand_clock_structure self)).2 g))
      (self, w).
Proof. reflexivity. Qed.

(** *** The grains have bodies of their own *)

(** A computation that builds no Pymunk object. *)
Definition builds_nothing {A} (m : M (World F) A) : Prop :=
  forall w, next_id (m w).2 = next_id w.

Lemma builds_nothing_bind {A B} (m : M (World F) A) (f : A -> M (World F) B) :
  builds_nothing m -> (forall a, builds_nothing (f a)) -> builds_nothing (m ≫= f).
Proof.
  intros Hm Hf w. unfold mbind, M_bind. specialize (Hm w).
  destruct (m w) as [[a|e] w1]; cbn [fst snd] in *; [|exact Hm].
  rewrite Hf. exact Hm.
Qed.

Lemma builds_nothing_randrange a b : builds_nothing (randrange (F:=F) a b).
Proof. intros w. unfold randrange. destruct (a <? b); reflexivity. Qed.

Lemma init_grain_random_position_builds_nothing (st : SandClockStructure.t F) :
  builds_nothing (SandClockStructure.init_grain_random_position st).
Proof.
  unfold SandClockStructure.init_grain_random_position. cbv zeta.
  apply builds_nothing_bind.
  { intros w. destruct (_ =? 0); reflexivity. }
  intros m. apply builds_nothing_bind; [apply builds_nothing_randrange|]. intros x.
  apply builds_nothing_bind; [apply builds_nothing_randrange|]. intros y.
  intros w. reflexivity.
Qed.

(** The body of a new grain is a new object. *)
Lemma SandGrain_init_body center radius mass color_type (w : World F) :
  match SandGrain.init center radius mass color_type w with
  | (Ok g, w') => SandGrain.body g = next_id w /\ next_id w' = S (S (next_id w))
  | (Raise _, _) => True
  end.
Proof.
  unfold SandGrain.init.
  destruct (String.eqb color_type "random"); [split; reflexivity|].
  destruct (String.eqb color_type "yellow"); [split; reflexivity | exact I].
Qed.

Lemma create_grains_distinct n cfg (st : SandClockStructure.t F) acc (w : World F) :
  NoDup (SandGrain.body <$> acc) ->
  (forall g, g ∈ acc -> (SandGrain.body g < next_id w)%nat) ->
  match create_grains n cfg st acc w with
  | (Ok l, _) => NoDup (SandGrain.body <$> l)
  | (Raise _, _) => True
  end.
Proof.
  revert acc w. induction n as [|n IH]; intros acc w Hnd Hlt; cbn [create_grains].
  - exact Hnd.
  - unfold mbind at 1, M_bind at 1.
    pose proof (init_grain_random_position_builds_nothing st w) as H1.
    destruct (SandClockStructure.init_grain_random_position st w) as [[center|e] w1];
      cbn [fst snd] in *; [|exact I].
    unfold mbind at 1, M_bind at 1.
    pose proof (SandGrain_init_body center (sand_grain_radius cfg) (sand_grain_mass cfg)
                  (sand_grain_color_type cfg) w1) as H2.
    destruct (SandGrain.init center (sand_grain_radius cfg) (sand_grain_mass cfg)
                (sand_grain_color_type cfg) w1) as [[g|e] w2]; [|exact I].
    destruct H2 as [Hg Hw2]. apply IH.
    + rewrite fmap_app. apply list.NoDup_app. split; [exact Hnd|]. split.
      * intros i Hi ->%list_elem_of_singleton.
        apply list_elem_of_fmap in Hi as (g' & E & Hg'). apply Hlt in Hg'. lia.
      * apply NoDup_singleton.
    + intros g' [Hg'|Hg']%elem_of_app.
      * apply Hlt in Hg'. lia.
      * apply list_elem_of_singleton in Hg'. subst g'. lia.
Qed.

(** What holds of the value that a computation returns. *)
Definition returns {A} (Q : A -> Prop) (m : M (World F) A) : Prop :=
  forall w, match (m w).1 with Ok a => Q a | Raise _ => True end.

Lemma returns_bind {A B} (P : A -> Prop) (Q : B -> Prop) (m : M (World F) A)
      (f : A -> M (World F) B) :
  returns P m -> (forall a, P a -> returns Q (f a)) -> returns Q (m ≫= f).
Proof.
  intros Hm Hf w. unfold mbind, M_bind. specialize (Hm w).
  destruct (m w) as [[a|e] w1]; cbn [fst snd] in *; [|exact I]. apply Hf, Hm.
Qed.

Lemma returns_any {A} (m : M (World F) A) : returns (fun _ => True) m.
Proof. intros w. destruct (m w).1; exact I. Qed.

(** The grains of a sand clock that the constructor built have bodies of
    their own. *)
Lemma init_grains_distinct cfg :
  returns (fun self => NoDup (SandGrain.body <$> sand_grains_list self)) (SandClock.init cfg).
Proof.
  unfold SandClock.init.
  do 4 (eapply returns_bind; [apply returns_any|]; intros ? _). cbv zeta.
  eapply returns_bind.
  { intros w1.
    pose proof (create_grains_distinct (Z.to_nat (n_sand_grains cfg)) cfg a1 [] w1
                  (NoDup_nil_2 (A:=nat))) as H.
    destruct (create_grains _ _ _ _ _) as [[l|e] w2]; [|exact I].
    apply H. intros g Hg. inversion Hg. }
  intros l Hl. eapply returns_bind; [apply returns_any|]. intros sp _ w1. exact Hl.
Qed.

(** [run_logic] keeps them so: the list changes on a reset only, where the
    constructor runs again. *)
Lemma run_logic_grains_distinct (s : St F) :
  NoDup (SandGrain.body <$> sand_grains_list s.1) ->
  NoDup (SandGrain.body <$> sand_grains_list (run_logic s).2.1).
Proof.
  destruct s as [self w]. intros H. unfold run_logic, Space_step, log. mrun.
  set (w1 := set_bodies _ _).
  assert (Hreset : forall (self1 : t F) (w2 : World F),
             NoDup (SandGrain.body <$> sand_grains_list self1) ->
             NoDup (SandGrain.body <$> sand_grains_list
                      ((if _reset self1
                        then fun s : t F * World F =>
                               let (r0, s'0) :=
                                 let '(r0, w') := init (_config self1) s.2 in
                                 (r0, (set_reset false s.1, w')) in
                               match r0 with
                               | Ok a0 => (Ok tt, (a0, s'0.2))
                               | Raise e => (Raise e, s'0)
                               end
                        else fun s : t F * World F => (Ok tt, s)) (self1, w2)).2.1)).
  { intros self1 w2 H1. destruct (_reset self1); [|exact H1]. cbn [fst snd].
    pose proof (init_grains_distinct (_config self1) w2) as Hi.
    destruct (init (_config self1) w2) as [[self2|e] w3]; cbn [fst snd] in *.
    - exact Hi.
    - exact H1. }
  destruct (_tip_over self).
  - cbn [fst snd].
    destruct (flip_each
                (SandClockStructure.center (sand_clock_structure self)).2
                (sand_grains_list self) (set_tip_over false self) w1 H)
      as (w2 & E & _).
    rewrite flip_vertically_eq. cbn [sand_clock_structure sand_grains_list set_tip_over].
    cbn [sand_clock_structure sand_grains_list set_tip_over] in E. rewrite E.
    apply (Hreset (set_tip_over false self) w2). exact H.
  - apply (Hreset self w1). exact H.
Qed.

(** So do the other methods, which leave the list alone. *)
Lemma process_events_grains (s : St F) :
  sand_grains_list (process_events s).2.1 = sand_grains_list s.1.
Proof.
  destruct s as [self w]. unfold process_events, pygame_event_get, log. mrun.
  set (evs := event_queue _). set (w1 := set_event_queue _ _).
  assert (H : forall s : St F,
             sand_grains_list (process_events_loop evs s).2.1 = sand_grains_list s.1).
  { induction evs as [|ev evs IH]; intros s; [reflexivity|].
    destruct ev as [|[]| | |]; cbn [process_events_loop]; try apply IH; try reflexivity.
    - mrun. rewrite IH. reflexivity.
    - mrun. rewrite IH. reflexivity. }
  specialize (H (self, w1)).
  destruct (process_events_loop evs (self, w1)) as [[[b|]|e] s2]; exact H.
Qed.

(** A method that assigns no attribute of [self]. *)
Definition same_self {X A} (m : M (X * World F) A) : Prop := forall s, (m s).2.1 = s.1.

Lemma same_self_bind {X A B} (m : M (X * World F) A) (f : A -> M (X * World F) B) :
  same_self m -> (forall a, same_self (f a)) -> same_self (m ≫= f).
Proof.
  intros Hm Hf s. unfold mbind, M_bind. specialize (Hm s).
  destruct (m s) as [[a|e] s1]; cbn [fst snd] in *; [|exact Hm]. rewrite Hf. exact Hm.
Qed.

Lemma same_self_on_world {X A} (m : M (World F) A) :
  same_self (on_world m : M (X * World F) A).
Proof. intros s. unfold on_world. destruct (m s.2). reflexivity. Qed.

Lemma same_self_for_each {X A} (l : list A) (body : A -> M (X * World F) unit) :
  (forall x, same_self (body x)) -> same_self (for_each l body).
Proof.
  intros Hb. induction l as [|x l IH]; [intros s; reflexivity|].
  cbn [for_each]. apply same_self_bind; [apply Hb | intros _; exact IH].
Qed.

Lemma draw_same_self : same_self (draw (F:=F)).
Proof.
  unfold draw. apply same_self_bind; [apply same_self_on_world|]. intros _.
  apply same_self_bind; [intros s; reflexivity|]. intros self.
  apply same_self_bind; [apply same_self_on_world|]. intros _.
  apply same_self_bind; [|intros _; apply same_self_on_world].
  apply same_self_for_each. intros g. apply same_self_on_world.
Qed.

Lemma clock_tick_same_self : same_self (clock_tick (F:=F)).
Proof.
  unfold clock_tick. apply same_self_bind; [intros s; reflexivity|]. intros cfg.
  apply same_self_on_world.
Qed.

(** Hence every state of a run has grains with bodies of their own. *)
Lemma main_loop_grains_distinct (frames : list Frame) (s : St F) :
  NoDup (SandGrain.body <$> sand_grains_list s.1) ->
  NoDup (SandGrain.body <$> sand_grains_list (final (main_loop simulation frames s)).1).
Proof.
  revert s. induction frames as [|f frames IH]; intros s H; [exact H|].
  cbn [main_loop].
  match goal with
  | |- context [let (_, _) := ?it in _] => set (x := it)
  end.
  assert (Hi : NoDup (SandGrain.body <$> sand_grains_list (final x.1).1)).
  { unfold x, iteration.
    cbn [simulation sim_process_events sim_run_logic sim_draw sim_clock_tick].
    pose proof (process_events_grains (s.1, arrive f s.2)) as H1.
    destruct (process_events (s.1, arrive f s.2)) as [[v|e] s1]; cbn [fst snd] in H1;
      [|cbn; rewrite H1; exact H].
    pose proof (run_logic_grains_distinct s1) as H2. rewrite H1 in H2. specialize (H2 H).
    destruct (run_logic s1) as [[[]|e] s2]; cbn [fst snd] in H2; [|exact H2].
    pose proof (draw_same_self s2) as H3.
    destruct (draw s2) as [[[]|e] s3]; cbn [fst snd] in H3; [|cbn; rewrite H3; exact H2].
    pose proof (clock_tick_same_self s3) as H4.
    destruct (clock_tick s3) as [[[]|e] s4]; cbn [fst snd] in H4; cbn; rewrite H4, H3;
      exact H2. }
  clearbody x. destruct x as [r [v|]]; cbn [fst] in Hi; [|exact Hi].
  destruct (truthy v); [|exact Hi]. cbn [final]. apply IH, Hi.
Qed.

(** The [y] coordinate of a body survives being mirrored twice. *)
Definition round_trips (c : Z) (w : World F) (i : nat) : Prop :=
  let y := (position (body_of w i)).2 in
  nsub (of_int (2 * c)) (nsub (of_int (2 * c)) y) = y.

(** C9, amended.  When the grains of the list have distinct bodies (as
    they have in every state of a run, by [init_grains_distinct] and
    [main_loop_grains_distinct]), one call of
    [_flip_vertically] returns, leaves the simulation object and the library
    calls as they are, moves the body of every grain from [(x, y)] to
    [(x, 2 * structure_center_y - y)], where the subtraction is the one of
    the program's numbers, and leaves every other body alone.  A second call
    brings every body back to where it was provided that
    [2c - (2c - y) = y] holds in that arithmetic for the [y] of every grain;
    this is the case over exact numbers, and fails for some binary64
    values. *)
Theorem flip_vertically_twice (self : t F) (w : World F) :
  NoDup (SandGrain.body <$> sand_grains_list self) ->
  let c := (SandClockStructure.center (sand_clock_structure self)).2 in
  let once := _flip_vertically (self, w) in
  let twice := _flip_vertically once.2 in
  once.1 = Ok tt /\ once.2.1 = self /\ calls once.2.2 = calls w
  /\ (forall g, g ∈ sand_grains_list self ->
        body_of once.2.2 (SandGrain.body g)
        = set_position (mirrored c (position (body_of w (SandGrain.body g))))
                       (body_of w (SandGrain.body g)))
  /\ (forall i, i ∉ SandGrain.body <$> sand_grains_list self ->
        body_of once.2.2 i = body_of w i)
  /\ twice.1 = Ok tt /\ twice.2.1 = self /\ calls twice.2.2 = calls w
  /\ ((forall g, g ∈ sand_grains_list self -> round_trips c w (SandGrain.body g)) ->
      forall i, body_of twice.2.2 i = body_of w i).
Proof.
  intros Hnd c once twice.
  destruct (flip_each c (sand_grains_list self) self w Hnd) as (w1 & H1 & Hc1 & Hp1).
  destruct (flip_each c (sand_grains_list self) self w1 Hnd) as (w2 & H2 & Hc2 & Hp2).
  assert (E1 : once = (Ok tt, (self, w1))).
  { unfold once. rewrite flip_vertically_eq. exact H1. }
  assert (E2 : twice = (Ok tt, (self, w2))).
  { unfold twice. rewrite E1. cbn [snd]. rewrite flip_vertically_eq. exact H2. }
  rewrite E1, E2. cbn [fst snd].
  split; [reflexivity|]. split; [reflexivity|]. split; [exact Hc1|].
  split.
  { intros g Hg. rewrite Hp1, decide_True; [reflexivity|].
    apply list_elem_of_fmap. exists g. split; [reflexivity | exact Hg]. }
  split.
  { intros i Hi. rewrite Hp1, decide_False by exact Hi. reflexivity. }
  split; [reflexivity|]. split; [reflexivity|]. split; [congruence|].
  intros Hrt i. rewrite Hp2, Hp1.
  destruct (decide (i ∈ SandGrain.body <$> sand_grains_list self)) as [Hin|Hin];
    [|reflexivity].
  apply list_elem_of_fmap in Hin as (g & -> & Hg). specialize (Hrt g Hg).
  unfold round_trips in Hrt. cbv zeta in Hrt.
  rewrite set_position_twice, position_set_position.
  unfold mirrored at 1. cbn [fst snd]. unfold mirrored. cbn [fst snd]. rewrite Hrt.
  rewrite <- surjective_pairing. apply set_position_same.
Qed.

End SandClockFacts.
End SandClockFacts.

(** ** Chance and the update operations *)

Module Chance.

(** Two worlds that differ at most in what chance and the user bring: the
    stream of random draws, the queued events and the position of the
    mouse. *)
Definition same_but_chance {F} (w1 w2 : World F) : Prop :=
  bodies w1 = bodies w2 /\ next_id w1 = next_id w2 /\ physics w1 = physics w2
  /\ path_exists w1 = path_exists w2 /\ calls w1 = calls w2.

(** Two runs of a method agree: same outcome, same attributes of [self],
    and worlds that again differ in chance only. *)
Definition agree {F X A} (r1 r2 : result A * (X * World F)) : Prop :=
  r1.1 = r2.1 /\ r1.2.1 = r2.2.1 /\ same_but_chance r1.2.2 r2.2.2.

(** An update operation: its explicit arguments, the class of [self], and
    the method as it runs on (attributes of self, world). *)
Record Op (F : Type) := mkOp {
  op_args : Type;
  op_self : Type;
  op_result : Type;
  op_run : op_args -> M (op_self * World F) op_result;
}.
Arguments mkOp {F}.
Arguments op_args {F}.
Arguments op_self {F}.
Arguments op_result {F}.
Arguments op_run {F}.

(** The operation is a function of its explicit inputs (the arguments, the
    attributes of [self], and the world but for chance). *)
Definition deterministic {F} (o : Op F) : Prop :=
  forall a x w1 w2, same_but_chance w1 w2 -> agree (op_run o a (x, w1)) (op_run o a (x, w2)).

(** Two runs from equal explicit inputs differ. *)
Definition depends_on_chance {F} (o : Op F) : Prop :=
  exists a x w1 w2, same_but_chance w1 w2 /\ ~ agree (op_run o a (x, w1)) (op_run o a (x, w2)).

(** The operations of the repository that update the state of an object:
    the [update] methods, [Spark.zero_radius], the flip of the sand clock,
    the methods and loop bodies that create an object, and the [run_logic]
    of each program. *)
Inductive update_op :=
| Pizza_update
| Planet_update
| Circle_update
| Spark_zero_radius
| SandClock_flip_vertically
| ShootingStar_create_and_add_a_new_spark
| ReboundCollisions_create_and_add_a_new_circle
| ColorfulFlooding_create_ball
| WreckingBall_create_small_ball
| run_logic_of (p : program).

Definition the_op {F} {NF : Num F} (o : update_op) : Op F :=
  match o with
  | Pizza_update =>
      mkOp (option Z * option Z) Pizza.t unit
           (fun a => on_self (modify (Pizza.update a.1 a.2)))
  | Planet_update => mkOp unit Planet.t unit (fun _ => on_self Planet.update)
  | Circle_update =>
      mkOp (Z * Z) (ReboundCircle.t F) unit
           (fun a => self ← gets fst; on_world (ReboundCircle.update self a.1 a.2))
  | Spark_zero_radius => mkOp unit (Spark.t F) bool (fun _ => on_self Spark.zero_radius)
  | SandClock_flip_vertically =>
      mkOp unit (SandClock.t F) unit (fun _ => SandClock._flip_vertically)
  | ShootingStar_create_and_add_a_new_spark =>
      mkOp (Z * Z) (ShootingStar.t F) unit ShootingStar._create_and_add_a_new_spark
  | ReboundCollisions_create_and_add_a_new_circle =>
      mkOp (Z * Z) (ReboundCollisions.t F) unit
           ReboundCollisions._create_and_add_a_new_circle
  | ColorfulFlooding_create_ball =>
      mkOp (Z * Z) (ColorfulFlooding.t F) unit ColorfulFlooding.create_ball
  | WreckingBall_create_small_ball =>
      mkOp unit (WreckingBall.t F) unit (fun _ => WreckingBall.create_small_ball)
  | run_logic_of p =>
      mkOp unit (p_self (the_program p)) unit
           (fun _ => sim_run_logic (p_simulation (the_program p)))
  end.

(** The operations in which a call of [random] can be reached. *)
Definition draws (o : update_op) : bool :=
  match o with
  | Pizza_update | Planet_update | Circle_update | Spark_zero_radius
  | SandClock_flip_vertically => false
  | run_logic_of pizza_rain | run_logic_of solar_system => false
  | _ => true
  end.

(** *** Operations that do not look at chance *)

Section Deterministic.
Context {F : Type} {NF : Num F}.

(** The same for a method body, and for a call into the world. *)
Definition det {X A} (m : M (X * World F) A) : Prop :=
  forall x w1 w2, same_but_chance w1 w2 -> agree (m (x, w1)) (m (x, w2)).
Definition det_world {A} (m : M (World F) A) : Prop :=
  forall w1 w2, same_but_chance w1 w2 ->
                (m w1).1 = (m w2).1 /\ same_but_chance (m w1).2 (m w2).2.

Lemma det_ret {X A} (a : A) : det (mret a : M (X * World F) A).
Proof. intros x w1 w2 H. repeat split; apply H. Qed.

Lemma det_bind {X A B} (m : M (X * World F) A) (f : A -> M (X * World F) B) :
  det m -> (forall a, det (f a)) -> det (m ≫= f).
Proof.
  intros Hm Hf x w1 w2 H. destruct (Hm x w1 w2 H) as (E1 & E2 & E3).
  unfold mbind, M_bind.
  destruct (m (x, w1)) as [r1 [x1 w1']], (m (x, w2)) as [r2 [x2 w2']].
  cbn [fst snd] in *. subst r2 x2. destruct r1 as [a|e].
  - apply Hf, E3.
  - repeat split; apply E3.
Qed.

Lemma det_on_self {X A} (m : M X A) : det (on_self m : M (X * World F) A).
Proof.
  intros x w1 w2 H. unfold on_self, agree. cbn [fst snd]. destruct (m x) as [r x'].
  cbn [fst snd]. repeat split; apply H.
Qed.

Lemma det_on_world {X A} (m : M (World F) A) :
  det_world m -> det (on_world m : M (X * World F) A).
Proof.
  intros Hm x w1 w2 H. destruct (Hm w1 w2 H) as [E1 E2]. unfold on_world, agree.
  cbn [fst snd]. destruct (m w1) as [r1 w1'], (m w2) as [r2 w2']. cbn [fst snd] in *.
  repeat split; first [exact E1 | apply E2].
Qed.

Lemma det_gets_fst {X} : det (gets fst : M (X * World F) X).
Proof. intros x w1 w2 H. repeat split; apply H. Qed.

Lemma det_for_each {X A} (l : list A) (body : A -> M (X * World F) unit) :
  (forall a, det (body a)) -> det (for_each l body).
Proof.
  intros Hb. induction l as [|a l IH]; cbn [for_each].
  - apply det_ret.
  - apply det_bind; [apply Hb | intros _; exact IH].
Qed.

Lemma det_world_log c : det_world (log c : M (World F) unit).
Proof.
  intros w1 w2 (Hb & Hn & Hp & He & Hc). split; [reflexivity|].
  repeat split; try assumption.
  change (calls w1 ++ [c] = calls w2 ++ [c]). rewrite Hc. reflexivity.
Qed.

Lemma same_but_chance_set_bodies (f : gmap nat (Body F) -> gmap nat (Body F)) w1 w2 :
  same_but_chance w1 w2 -> same_but_chance (set_bodies f w1) (set_bodies f w2).
Proof. intros (Hb & Hn & Hp & He & Hc). repeat split; cbn; congruence. Qed.

Lemma det_world_flip_grain c (g : SandGrain.t F) : det_world (SandClock.flip_grain c g).
Proof.
  intros w1 w2 H. split; [reflexivity|].
  change (same_but_chance
            (set_bodies (fun h => <[SandGrain.body g :=
               set_position ((position (bodies w1 !!! SandGrain.body g)).1,
                             nsub (of_int (2 * c)) (position (bodies w1 !!! SandGrain.body g)).2)
                            (h !!! SandGrain.body g)]> h) w1)
            (set_bodies (fun h => <[SandGrain.body g :=
               set_position ((position (bodies w2 !!! SandGrain.body g)).1,
                             nsub (of_int (2 * c)) (position (bodies w2 !!! SandGrain.body g)).2)
                            (h !!! SandGrain.body g)]> h) w2)).
  destruct H as (Hb & Hn & Hp & He & Hc). rewrite Hb.
  apply same_but_chance_set_bodies. repeat split; assumption.
Qed.

Lemma det_world_Circle_update (self : ReboundCircle.t F) sw sh :
  det_world (ReboundCircle.update self sw sh).
Proof.
  intros w1 w2 H. unfold ReboundCircle.update. mrun. unfold body_of.
  destruct H as (Hb & Hn & Hp & He & Hc). rewrite Hb.
  destruct (velocity _) as [vx vy], (position _) as [x y]. cbn.
  repeat split; cbn; congruence.
Qed.

Lemma deterministic_Pizza_update : deterministic (the_op (F:=F) Pizza_update).
Proof. intros a. apply det_on_self. Qed.

Lemma deterministic_Planet_update : deterministic (the_op (F:=F) Planet_update).
Proof. intros a. apply det_on_self. Qed.

Lemma deterministic_Circle_update : deterministic (the_op (F:=F) Circle_update).
Proof.
  intros a. apply det_bind; [apply det_gets_fst|]. intros self.
  apply det_on_world, det_world_Circle_update.
Qed.

Lemma deterministic_Spark_zero_radius : deterministic (the_op (F:=F) Spark_zero_radius).
Proof. intros a. apply det_on_self. Qed.

Lemma deterministic_flip_vertically :
  deterministic (the_op (F:=F) SandClock_flip_vertically).
Proof.
  intros a. cbn [the_op op_run]. unfold SandClock._flip_vertically.
  apply det_bind; [apply det_gets_fst|]. intros self. cbv zeta.
  apply det_for_each. intros g. apply det_on_world, det_world_flip_grain.
Qed.

Lemma deterministic_PizzaRain_run_logic :
  deterministic (the_op (F:=F) (run_logic_of pizza_rain)).
Proof.
  intros a. cbn [the_op op_run the_program p_simulation sim_run_logic PizzaRain.simulation].
  unfold PizzaRain.run_logic.
  apply det_bind; [apply det_gets_fst|]. intros self.
  apply det_bind; [|intros _; apply det_on_world, det_world_log].
  destruct (PizzaRain._is_running self); [apply det_on_self | apply det_ret].
Qed.

Lemma deterministic_SolarSystem_run_logic :
  deterministic (the_op (F:=F) (run_logic_of solar_system)).
Proof.
  intros a. cbn [the_op op_run the_program p_simulation sim_run_logic SolarSystem.simulation].
  unfold SolarSystem.run_logic.
  apply det_bind; [apply det_gets_fst|]. intros self. apply det_on_self.
Qed.

End Deterministic.

(** *** Operations that draw from the random generator

    Each of them is run twice from the same attributes of [self] and worlds
    that differ in the stream of random draws only (all draws 0, all draws
    1), over binary64 numbers; the objects created get different colours. *)

Definition world_of (tape : nat -> nat) : World PrimFloat.float :=
  mkWorld ∅ 0 (fun _ h i => (position (h !!! i), velocity (h !!! i))) tape 0 [] (0, 0)
          (fun _ => true) [].
Definition draws_0 : World PrimFloat.float := world_of (fun _ => 0%nat).
Definition draws_1 : World PrimFloat.float := world_of (fun _ => 1%nat).

Lemma draws_0_1_same : same_but_chance draws_0 draws_1.
Proof. repeat split. Qed.

Definition ss_self : ShootingStar.t PrimFloat.float :=
  ShootingStar.mk (ShootingStar.mkConfig 600 600 100 1 5 10 20 1 60) None true []
                  Space_empty.

Definition rc_self : ReboundCollisions.t PrimFloat.float :=
  ReboundCollisions.mk (ReboundCollisions.mkConfig 600 600 1 10 1 10 5 20 1 5 1 5 60)
                       (Some (100, 100)) Space_empty [].

Definition cf_self : ColorfulFlooding.t PrimFloat.float :=
  ColorfulFlooding.mk
    (ColorfulFlooding.mkConfig 600 600 100 1 1 1 5 (float_of_Z 1) (float_of_Z 0) 60)
    Space_empty [(300, 120)]
    (0%nat, mkShape 1%nat 0%nat (Segment (0, 600) (600, 600) 4) (float_of_Z 0) (float_of_Z 0))
    [] 0 false.

Definition wb_self : WreckingBall.t PrimFloat.float :=
  WreckingBall.mk
    (WreckingBall.mkConfig 600 600 100 1 5 1 5 50 5 1 (float_of_Z 1) (float_of_Z 0) 60)
    Space_empty 0%nat
    (mkShape 1%nat 0%nat (Circle 50) (float_of_Z 0) (float_of_Z 0)) [].

Definition sc_self : SandClock.t PrimFloat.float :=
  SandClock.mk
    (SandClock.mkConfig 600 600 100 300 400 20 4 [0; 0; 0] 1 2 1 "random" 60)
    Space_empty (SandClockStructure.mk (300, 300) 300 400 4 [0; 0; 0] [] []) [] false true.

Ltac differ obs :=
  split; [exact draws_0_1_same|];
  intros (_ & H & _); apply (f_equal obs) in H; vm_compute in H; discriminate H.

Lemma create_spark_depends :
  depends_on_chance (the_op (F:=PrimFloat.float) ShootingStar_create_and_add_a_new_spark).
Proof.
  exists (0, 0), ss_self, draws_0, draws_1.
  differ (fun s : ShootingStar.t PrimFloat.float => Spark.color <$> ShootingStar.spark_list s).
Qed.

Lemma create_circle_depends :
  depends_on_chance
    (the_op (F:=PrimFloat.float) ReboundCollisions_create_and_add_a_new_circle).
Proof.
  exists (0, 0), rc_self, draws_0, draws_1.
  differ (fun s : ReboundCollisions.t PrimFloat.float =>
            ReboundCircle.color <$> ReboundCollisions.circle_list s).
Qed.

Lemma create_ball_depends :
  depends_on_chance (the_op (F:=PrimFloat.float) ColorfulFlooding_create_ball).
Proof.
  exists (0, 0), cf_self, draws_0, draws_1.
  differ (fun s : ColorfulFlooding.t PrimFloat.float =>
            Ball.color <$> ColorfulFlooding.balls_list s).
Qed.

Lemma create_small_ball_depends :
  depends_on_chance (the_op (F:=PrimFloat.float) WreckingBall_create_small_ball).
Proof.
  exists tt, wb_self, draws_0, draws_1.
  differ (fun s : WreckingBall.t PrimFloat.float =>
            SmallBall.color <$> WreckingBall.small_balls_list s).
Qed.

Lemma run_logic_depends (p : program) :
  uses_pymunk p = true -> depends_on_chance (the_op (F:=PrimFloat.float) (run_logic_of p)).
Proof.
  destruct p; intros Hp; try discriminate Hp.
  - exists tt, cf_self, draws_0, draws_1.
    differ (fun s : ColorfulFlooding.t PrimFloat.float =>
              Ball.color <$> ColorfulFlooding.balls_list s).
  - exists tt, rc_self, draws_0, draws_1.
    differ (fun s : ReboundCollisions.t PrimFloat.float =>
              ReboundCircle.color <$> ReboundCollisions.circle_list s).
  - exists tt, sc_self, draws_0, draws_1.
    differ (fun s : SandClock.t PrimFloat.float =>
              SandGrain.color <$> SandClock.sand_grains_list s).
  - exists tt, ss_self, draws_0, draws_1.
    differ (fun s : ShootingStar.t PrimFloat.float =>
              Spark.color <$> ShootingStar.spark_list s).
  - exists tt, wb_self, draws_0, draws_1.
    differ (fun s : WreckingBall.t PrimFloat.float =>
              SmallBall.color <$> WreckingBall.small_balls_list s).
Qed.

Lemma deterministic_agree {F} (o : Op F) : deterministic o -> ~ depends_on_chance o.
Proof. intros Hd (a & x & w1 & w2 & Hw & Hn). apply Hn, Hd, Hw. Qed.


End Chance.

(** * The programs on concrete inputs *)

Module Examples.

Local Abbreviation float := PrimFloat.float.

(** A world in which the [k]-th random draw is [137 * k], over binary64 numbers
    and over the rationals; the engine leaves the bodies where they are. *)
Definition world_float : World float :=
  mkWorld ∅ 0 (fun _ h i => (position (h !!! i), velocity (h !!! i))) (fun k => 137 * k)%nat 0 [] (0, 0)
          (fun _ => true) [].
Definition world_Qc : World Qc :=
  mkWorld ∅ 0 (fun _ h i => (position (h !!! i), velocity (h !!! i))) (fun k => 137 * k)%nat 0 [] (0, 0)
          (fun _ => true) [].

(** ** pizza_rain *)

Definition pizza_calls : list (option Z * option Z) :=
  [(Some (-10), None); (None, Some (-10)); (None, None); (Some 2, Some (-3))].

Lemma update_keeps_speeds_positive_witness :
  exists p w',
    Pizza.init "pizza.png" 3 5 40 600 world_float = (Ok p, w')
    /\ 1 <= Pizza.vertical_speed (PizzaFacts.updates pizza_calls p)
    /\ 1 <= Pizza.rotation_every (PizzaFacts.updates pizza_calls p).
Proof.
  eexists _, _. split; [reflexivity|].
  eapply (PizzaFacts.update_keeps_speeds_positive "pizza.png" 3 5 40 600 world_float);
    [reflexivity | lia | lia].
Defined.

Definition pr_cfg : nat * PizzaRain.Config :=
  (10%nat, PizzaRain.mkConfig "." 600 600 2 ["a.png"; "b.png"] 3 5 40 1 1 60).

(** The constructor of pizza_rain returns, having opened the window and
    built no [pymunk.Space]. *)
Lemma PizzaRain_builds_no_space :
  exists self w1,
    p_init (the_program pizza_rain) pr_cfg world_float = (Ok (Some self), w1)
    /\ n_calls (lib_display_set_mode 600 600) w1 = 1%nat
    /\ n_calls lib_space_new w1 = 0%nat.
Proof. eexists _, _. split; [vm_compute; reflexivity|]. split; vm_compute; reflexivity. Qed.

(** [run_logic] of pizza_rain, on the object that the constructor built,
    returns without a [Space.step]. *)
Lemma PizzaRain_run_logic_steps_nothing :
  exists self w1 s2,
    p_init (the_program pizza_rain) pr_cfg world_float = (Ok (Some self), w1)
    /\ sim_run_logic (p_simulation (the_program pizza_rain)) (self, w1) = (Ok tt, s2)
    /\ n_calls lib_space_step s2.2 = 0%nat.
Proof.
  eexists _, _, _. split; [vm_compute; reflexivity|].
  split; [vm_compute; reflexivity|]. vm_compute. reflexivity.
Qed.

(** ** colorful_flooding *)

Definition cf_cfg : ColorfulFlooding.Config float :=
  ColorfulFlooding.mkConfig 600 600 100 1 1 1 5 (float_of_Z 1) (float_of_Z 0) 60.

(** The object and the world after the constructor. *)
Definition cf_built : result (ColorfulFlooding.t float) * World float :=
  ColorfulFlooding.init cf_cfg world_float.

(** A first frame without events, in which a ball is created; then the
    space bar is pressed, and [run_logic] removes the bottom segment. *)
Definition cf_frames : list Frame := [mkFrame [] (0, 0); mkFrame [KEYDOWN K_SPACE] (0, 0)].

Definition cf_draining : ColorfulFlooding.St float :=
  match cf_built with
  | (Ok self, w) => final (main_loop ColorfulFlooding.simulation cf_frames (self, w))
  | (Raise _, w) => (ColorfulFlooding.mk cf_cfg Space_empty []
                       (0%nat, mkShape 0%nat 0%nat (Circle 0) (float_of_Z 0) (float_of_Z 0))
                       [] 0 false, w)
  end.

Lemma cf_draining_is_draining : ColorfulFloodingFacts.draining cf_draining.1.
Proof. apply ColorfulFloodingFacts.drainingb_draining. vm_compute. reflexivity. Defined.

(** [run_logic] in the third frame, with one ball in the list. *)
Lemma run_logic_after_bottom_removed_witness :
  length (ColorfulFlooding.balls_list cf_draining.1) = 1%nat
  /\ ColorfulFloodingFacts.draining cf_draining.1
  /\ (ColorfulFlooding.run_logic (cf_draining.1, cf_draining.2)).1 = Ok tt
  /\ ColorfulFloodingFacts.draining
       (ColorfulFlooding.run_logic (cf_draining.1, cf_draining.2)).2.1.
Proof.
  split; [vm_compute; reflexivity|]. split; [exact cf_draining_is_draining|].
  destruct (ColorfulFloodingFacts.run_logic_after_bottom_removed
              cf_draining.1 cf_draining.2 cf_draining_is_draining)
    as (_ & _ & Hok & _ & Hd).
  split; [exact Hok | exact Hd].
Defined.


(** ** sand_clock *)

(** [SandGrain.__init__] with a colour type that it does not know, and
    [Pizza.__init__] with a path that does not exist, raise a [ValueError]
    with a message of the repository. *)
Lemma constructors_raise_their_own_errors :
  (SandGrain.init (0, 0) 2 1 "blue" world_float).1
  = Raise (ValueError "'color_type' must be either 'random' or 'yellow',but blue was given.")
  /\ (Pizza.init "missing.png" 3 5 40 600
        (mkWorld ∅ 0 (physics world_float) (fun k => k) 0 [] (0, 0) (fun _ => false) [])).1
     = Raise (ValueError "The given pizza_img_path does not exists")
  /\ library_error
       (ValueError "'color_type' must be either 'random' or 'yellow',but blue was given.")
     = false
  /\ library_error (ValueError "The given pizza_img_path does not exists") = false.
Proof. repeat split; vm_compute; reflexivity. Qed.

(** A sand clock with two grains, at [(200, 1/10)] and [(250, 450)], the
    centre of the structure at height 300. *)
Definition grain {F} {NF : Num F} (body : nat) : SandGrain.t F :=
  SandGrain.mk [255; 200; 0] 2 body
               (mkShape (S body) body (Circle 2) (of_int 0) (of_int 0)).

Definition sc_cfg : SandClock.Config :=
  SandClock.mkConfig 600 600 100 300 400 20 4 [0; 0; 0] 2 2 1 "yellow" 60.

Definition sc_self {F} {NF : Num F} : SandClock.t F :=
  SandClock.mk sc_cfg Space_empty
               (SandClockStructure.mk (300, 300) 300 400 4 [0; 0; 0] [] [])
               [grain 0; grain 2] false false.

Definition sc_world {F} {NF : Num F} (w : World F) : World F :=
  set_bodies (fun _ => {[ 0%nat := mkBody DYNAMIC 1 1 (of_int 200, ndiv (of_int 1) (of_int 10))
                                          (of_int 0, of_int 0);
                          2%nat := mkBody DYNAMIC 1 1 (of_int 250, of_int 450)
                                          (of_int 0, of_int 0) ]}) w.

Lemma sc_grains_distinct {F} {NF : Num F} :
  NoDup (SandGrain.body <$> SandClock.sand_grains_list (sc_self (F:=F))).
Proof. apply (bool_decide_unpack _). vm_compute. exact I. Defined.

(** Over the rationals the second flip brings every body back. *)
Lemma flip_vertically_twice_witness :
  let once := SandClock._flip_vertically (sc_self, sc_world world_Qc) in
  let twice := SandClock._flip_vertically once.2 in
  NoDup (SandGrain.body <$> SandClock.sand_grains_list (sc_self (F:=Qc)))
  /\ once.1 = Ok tt /\ twice.1 = Ok tt
  /\ forall i, body_of twice.2.2 i = body_of (sc_world world_Qc) i.
Proof.
  cbv zeta.
  destruct (SandClockFacts.flip_vertically_twice sc_self (sc_world world_Qc)
              sc_grains_distinct) as (H1 & _ & _ & _ & _ & H2 & _ & _ & Hback).
  split; [exact sc_grains_distinct|]. split; [exact H1|]. split; [exact H2|].
  apply Hback. intros g _. unfold SandClockFacts.round_trips. cbv zeta.
  cbn [nsub Num_Qc]. ring.
Defined.

(** Over binary64 numbers it does not: [600 - (600 - 0.1)] is not [0.1]. *)
Lemma flip_vertically_twice_float :
  let once := SandClock._flip_vertically (sc_self, sc_world world_float) in
  let twice := SandClock._flip_vertically once.2 in
  once.1 = Ok tt /\ twice.1 = Ok tt
  /\ PrimFloat.eqb (position (body_of twice.2.2 0)).2
                   (position (body_of (sc_world world_float) 0)).2 = false
  /\ position (body_of twice.2.2 0) <> position (body_of (sc_world world_float) 0).
Proof.
  cbv zeta. split; [vm_compute; reflexivity|]. split; [vm_compute; reflexivity|].
  assert (H : PrimFloat.eqb
                (position (body_of (SandClock._flip_vertically
                   (SandClock._flip_vertically (sc_self, sc_world world_float)).2).2.2 0)).2
                (position (body_of (sc_world world_float) 0)).2 = false)
    by (vm_compute; reflexivity).
  split; [exact H|]. intros E. rewrite E in H. vm_compute in H. discriminate H.
Qed.

(** ** solar_system *)

Local Open Scope R_scope.

Lemma update_keeps_orbit_radius_witness :
  (300, 100) <> (300, 300)
  /\ exists p',
      PlanetFacts.updates 3 (Planet.init (300, 100) 10 (1 / 100) true [0; 0; 255]%Z (300, 300))
      = (Ok tt, p')
      /\ Planet.distance (Planet.screen_center p') (Planet.center p')
         = Planet.original_vector_norm p'
      /\ Planet.original_vector_norm p' = Planet.distance (300, 300) (300, 100)
      /\ Planet.screen_center p' = (300, 300).
Proof.
  assert (H : (300, 100) <> (300, 300)) by (intros [= H]; lra).
  split; [exact H|].
  exact (PlanetFacts.update_keeps_orbit_radius (300, 100) 10 (1 / 100) true [0; 0; 255]%Z
           (300, 300) 3 H).
Defined.


Local Close Scope R_scope.

End Examples.

(** * More about the programs

    ** colorful_flooding *)

Module ColorfulFloodingMore.
Section More.
Context {F : Type} {NF : Num F}.
Import ColorfulFlooding ColorfulFloodingFacts.

(** [Space.add] of a body and a shape that are not in the space. *)
Lemma Space_add_fresh (objs : list (obj F)) (sp : Space F) :
  NoDup (describe <$> objs) ->
  (forall i, OBody i ∈ objs -> i ∉ sp_bodies sp) ->
  (forall sh, OShape sh ∈ objs -> sp_shapes sp !! shape_id sh = None) ->
  (forall sh sh', OShape sh ∈ objs -> OShape sh' ∈ objs -> shape_id sh = shape_id sh' -> sh = sh') ->
  exists sp', Space_add objs sp = (Ok tt, sp').
Proof.
  revert sp. induction objs as [|o objs IH]; intros sp Hnd Hb Hs Hinj.
  - exists sp. reflexivity.
  - rewrite fmap_cons in Hnd. apply list.NoDup_cons in Hnd as [Ho Hnd].
    unfold Space_add. cbn [for_each]. unfold mbind at 1, M_bind at 1.
    destruct o as [i|sh]; unfold Space_add1 at 1; mrun.
    + destruct (decide (i ∈ sp_bodies sp)) as [Hin|_]; [exfalso; apply (Hb i); [left | exact Hin]|].
      mrun. apply IH; [exact Hnd| | |].
      * intros j Hj. cbn [sp_bodies]. intros [Hj'%elem_of_singleton|Hj']%elem_of_union.
        -- subst j. apply Ho. apply list_elem_of_fmap. exists (OBody i). auto.
        -- apply (Hb j); [now right | exact Hj'].
      * intros sh Hsh. cbn [sp_shapes]. apply Hs. now right.
      * intros sh sh' H1 H2. apply Hinj; now right.
    + rewrite (Hs sh) by left. mrun. apply IH; [exact Hnd| | |].
      * intros j Hj. cbn [sp_bodies]. apply Hb. now right.
      * intros sh' Hsh'. cbn [sp_shapes]. rewrite lookup_insert_ne; [apply Hs; now right|].
        intros E. apply Ho. apply list_elem_of_fmap. exists (OShape sh'). split; [|exact Hsh'].
        rewrite (Hinj sh sh'); [reflexivity | left | now right | exact E].
      * intros sh1 sh2 H1 H2. apply Hinj; now right.
Qed.

Lemma runs_pure {St A} (H : Prop) (P : St -> Prop) (m : M St A) (Q : A -> St -> Prop) :
  (H -> runs P m Q) -> runs (fun s => H /\ P s) m Q.
Proof. intros Hm s [HH Hs]. apply Hm; assumption. Qed.

Lemma runs_new_border n a b :
  runs (fun w : World F => next_id w = n) (new_border a b)
       (fun r w => (r.1 = n /\ shape_id r.2 = S n) /\ next_id w = S (S n)).
Proof. intros w <-. eexists _, _. split; [reflexivity|]. repeat split. Qed.

Ltac distinct_objs :=
  repeat (apply list.NoDup_cons; split;
          [ let H := fresh in
            intros H;
            repeat (apply elem_of_cons in H as [H|H]; [try discriminate H; injection H; lia|]);
            inversion H
          | ]);
  apply NoDup_nil_2.

(** The constructor returns unless [n_sources] is [-1]. *)
Lemma init_returns cfg :
  n_sources cfg <> -1 -> runs (fun _ : World F => True) (init cfg) (fun _ _ => True).
Proof.
  intros Hn w _. unfold init.
  assert (Hrun : runs (fun w0 : World F => next_id w0 = next_id w) (init cfg) (fun _ _ => True)).
  2: { apply Hrun. reflexivity. }
  unfold init.
  eapply runs_bind with (R := fun _ w0 => next_id w0 = next_id w).
  { intros w0 Hw0. eexists tt, _. split; [reflexivity | exact Hw0]. }
  intros _.
  eapply runs_bind with (R := fun sp w0 => sp = Space_empty /\ next_id w0 = next_id w).
  { intros w0 Hw0. eexists _, _. split; [reflexivity|]. split; [reflexivity | exact Hw0]. }
  intros sp0. cbv zeta. apply runs_pure. intros ->.
  eapply runs_bind with (R := fun _ w0 => next_id w0 = next_id w).
  { intros w0 Hw0. unfold floordiv. destruct (_ =? 0) eqn:E0; [apply Z.eqb_eq in E0; lia|].
    eexists _, _. split; [reflexivity | exact Hw0]. }
  intros d.
  eapply runs_bind; [apply runs_new_border|]. intros [b0 s0].
  apply runs_pure. cbn [fst snd]. intros [-> Es0].
  eapply runs_bind; [apply runs_new_border|]. intros [b1 s1].
  apply runs_pure. cbn [fst snd]. intros [-> Es1].
  eapply runs_bind; [apply runs_new_border|]. intros [b2 s2].
  apply runs_pure. cbn [fst snd]. intros [-> Es2].
  eapply runs_bind; [apply runs_new_border|]. intros [b3 s3].
  apply runs_pure. cbn [fst snd]. intros [-> Es3].
  eapply runs_bind with (R := fun _ _ => True); [|intros sp; apply runs_ret; auto].
  intros w1 Hw1. unfold Space_add_to, log. mrun.
  match goal with
  | |- context [Space_add ?objs ?sp] =>
      destruct (Space_add_fresh objs sp) as [sp' ->]
  end.
  - cbn [fmap list_fmap describe]. rewrite Es0, Es1, Es2, Es3. distinct_objs.
  - intros i _. apply not_elem_of_empty.
  - intros sh _. apply lookup_empty.
  - intros sh sh' H H'. rewrite !elem_of_cons in H, H'.
    destruct H as [H|[H|[H|[H|[H|[H|[H|[H|H]]]]]]]]; try discriminate H;
      try (inversion H; fail); injection H as ->;
      destruct H' as [H'|[H'|[H'|[H'|[H'|[H'|[H'|[H'|H']]]]]]]]; try discriminate H';
      try (inversion H'; fail); injection H' as ->; intros E; first [reflexivity | lia].
  - eexists _, _. split; [reflexivity | exact I].
Qed.

Lemma init_divides_by_zero cfg (w : World F) :
  n_sources cfg = -1 -> (init cfg w).1 = Raise ZeroDivisionError.
Proof.
  intros Hn. unfold init, open_window, Space_new, floordiv, log. mrun. rewrite Hn.
  reflexivity.
Qed.

Lemma init_raises cfg (w : World F) e :
  (init cfg w).1 = Raise e -> e = ZeroDivisionError /\ n_sources cfg = -1.
Proof.
  intros He. destruct (decide (n_sources cfg = -1)) as [Hn|Hn].
  - rewrite (init_divides_by_zero cfg w Hn) in He. injection He as <-. auto.
  - destruct (init_returns cfg Hn w I) as (self & w' & E & _). rewrite E in He.
    discriminate He.
Qed.

(** X1.  A run of colorful_flooding can only fail in the constructor, and
    only by the division by [n_sources + 1]: an exception ends the run only
    when [n_sources] is [-1], and then it is [ZeroDivisionError], raised
    before any frame.  For every other configuration no method ever raises,
    whatever the events, the random draws and the engine do, and at the end
    of the run every ball of [balls_list] has its body and its shape in the
    space. *)
Theorem colorful_flooding_fails_only_in_constructor
        (cfg : ColorfulFlooding.Config F) (frames : list Frame) (w0 : World F) :
  match init cfg w0 with
  | (Ok self, w) =>
      n_sources cfg <> -1
      /\ (forall e, ended (main_loop simulation frames (self, w)) <> Crashed e)
      /\ balls_in_space (final (main_loop simulation frames (self, w))).1
  | (Raise e, _) => e = ZeroDivisionError /\ n_sources cfg = -1
  end.
Proof.
  pose proof (init_kept cfg w0) as Hk. pose proof (init_raises cfg w0) as Hr.
  destruct (init cfg w0) as [[self|e] w] eqn:E; cbn [fst] in Hr; [|apply Hr; reflexivity].
  destruct (main_loop_kept frames (self, w) false Hk) as [Hne (b' & Hs & _)].
  split; [|split; [exact Hne | apply Hs]].
  intros Hn. pose proof (init_divides_by_zero cfg w0 Hn) as Hz. rewrite E in Hz.
  discriminate Hz.
Qed.

#[global] Instance key_eq_dec : EqDecision key.
Proof. solve_decision. Defined.
#[global] Instance event_eq_dec : EqDecision event.
Proof. solve_decision. Defined.

(** The space bar was pressed before the first [QUIT] of the queue. *)
Fixpoint space_pressed (evs : list event) : bool :=
  match evs with
  | [] => false
  | QUIT :: _ => false
  | KEYDOWN K_SPACE :: _ => true
  | _ :: evs' => space_pressed evs'
  end.

Lemma set_remove_screen_bottom_twice (self : t F) :
  set_remove_screen_bottom true (set_remove_screen_bottom true self)
  = set_remove_screen_bottom true self.
Proof. reflexivity. Qed.

Lemma process_events_loop_result (evs : list event) (self : t F) (w : World F) :
  process_events_loop evs (self, w)
  = (Ok (if bool_decide (QUIT ∈ evs) then Some (PyBool false) else None),
     (if space_pressed evs then set_remove_screen_bottom true self else self, w)).
Proof.
  revert self. induction evs as [|ev evs IH]; intros self; [reflexivity|].
  assert (Hskip : ev <> QUIT -> bool_decide (QUIT ∈ ev :: evs) = bool_decide (QUIT ∈ evs)).
  { intros Hne. apply bool_decide_ext. rewrite elem_of_cons. split; [|auto].
    intros [E|H]; [congruence | exact H]. }
  destruct ev as [|[]| | |]; cbn [process_events_loop space_pressed];
    try (rewrite IH, Hskip by discriminate; reflexivity).
  - rewrite bool_decide_eq_true_2 by left. reflexivity.
  - mrun. rewrite IH, Hskip by discriminate. destruct (space_pressed evs); reflexivity.
Qed.

(** X2.  [ColorfulFlooding.process_events] never raises and empties the
    event queue.  It returns [False] exactly when the queue holds a [QUIT]
    event; otherwise it returns [True] as long as the space bar was never
    pressed, and from then on the list of balls itself, so that the main
    loop ends with the first pass that finds this list empty.  The only
    attribute it assigns is [_remove_screen_bottom], which it sets when the
    space bar is pressed before the first [QUIT] and never clears. *)
Theorem colorful_flooding_process_events_result (self : t F) (w : World F) :
  let evs := event_queue w in
  let self' := if space_pressed evs then set_remove_screen_bottom true self else self in
  process_events (self, w)
  = (Ok (if bool_decide (QUIT ∈ evs) then PyBool false
         else if _remove_screen_bottom self || space_pressed evs
              then PyList (balls_list self) else PyBool true),
     (self', set_event_queue [] (set_calls (fun l => l ++ [lib_event_get]) w))).
Proof.
  cbv zeta. unfold process_events, pygame_event_get, log. mrun.
  cbn [event_queue set_calls]. rewrite process_events_loop_result.
  destruct (bool_decide (QUIT ∈ event_queue w)); [reflexivity|]. mrun.
  destruct (space_pressed (event_queue w)); cbn [_remove_screen_bottom set_remove_screen_bottom].
  - rewrite orb_true_r. destruct self. reflexivity.
  - rewrite orb_false_r. destruct (_remove_screen_bottom self); reflexivity.
Qed.

(** What the loop over [self.balls_list] leaves of a list: a ball that is
    out of the screen is removed, and the ball after a removed one is not
    looked at. *)
Fixpoint swept {A} (out : A -> bool) (l : list A) : list A :=
  match l with
  | [] => []
  | x :: l' =>
      if out x
      then match l' with
           | [] => []
           | y :: l'' => y :: swept out l''
           end
      else x :: swept out l'
  end.

Lemma swept_ext {A} (f g : A -> bool) (l : list A) :
  (forall x, f x = g x) -> swept f l = swept g l.
Proof.
  intros E.
  assert (H : forall n (l : list A), (length l <= n)%nat -> swept f l = swept g l).
  { clear l. induction n as [|n IH]; intros [|x l] Hl; try reflexivity; cbn in Hl; [lia|].
    cbn [swept]. rewrite E. destruct (g x).
    - destruct l as [|y l]; [reflexivity|]. f_equal. apply IH. cbn in Hl. lia.
    - f_equal. apply IH. lia. }
  apply (H (length l)). reflexivity.
Qed.

Lemma remove_first_at (ball : Ball.t F) (pre rest : list (Ball.t F)) :
  NoDup (Ball.body <$> (pre ++ ball :: rest)) ->
  remove_first (Ball.same ball) (pre ++ ball :: rest) = Some (pre ++ rest).
Proof.
  induction pre as [|x pre IH]; intros Hnd; cbn [app remove_first].
  - unfold Ball.same. rewrite bool_decide_eq_true_2 by reflexivity. reflexivity.
  - cbn in Hnd. apply list.NoDup_cons in Hnd as [Hx Hnd]. unfold Ball.same at 1.
    rewrite bool_decide_eq_false_2.
    + rewrite IH by exact Hnd. reflexivity.
    + intros E. apply Hx. rewrite <- E. rewrite fmap_app, fmap_cons.
      apply elem_of_app. right. left.
Qed.

Lemma balls_in_space_remove (self : t F) (ball : Ball.t F) pre rest g :
  balls_in_space self ->
  balls_list self = pre ++ ball :: rest ->
  balls_in_space
    (set_space (mkSpace (sp_bodies (space self) ∖ {[Ball.body ball]})
                        (delete (shape_id (Ball.shape ball)) (sp_shapes (space self))) g)
               (set_balls_list (pre ++ rest) self)).
Proof.
  intros (Hall & Hnd & Hnds) El. rewrite El in Hall, Hnd, Hnds.
  rewrite fmap_app, fmap_cons in Hnd, Hnds.
  apply list.NoDup_app in Hnd as (Hnd1 & Hnd12 & Hnd2).
  apply list.NoDup_cons in Hnd2 as [Hnd2a Hnd2].
  apply list.NoDup_app in Hnds as (Hnds1 & Hnds12 & Hnds2).
  apply list.NoDup_cons in Hnds2 as [Hnds2a Hnds2].
  apply list.Forall_app in Hall as [Hall1 Hall2].
  apply list.Forall_cons in Hall2 as [_ Hall2].
  unfold balls_in_space. cbn [set_space set_balls_list space balls_list].
  split; [|split].
  - apply list.Forall_app. split.
    + rewrite list.Forall_forall in Hall1 |- *. intros y Hy.
      destruct (Hall1 y Hy) as [Hy1 Hy2]. split; cbn [sp_bodies sp_shapes].
      * apply elem_of_difference. split; [exact Hy1|].
        intros E%elem_of_singleton. apply (Hnd12 (Ball.body y)).
        -- apply list_elem_of_fmap. eauto.
        -- rewrite E. left.
      * rewrite lookup_delete_ne; [exact Hy2|]. intros E.
        apply (Hnds12 (shape_id (Ball.shape y))).
        -- apply list_elem_of_fmap. eauto.
        -- rewrite <- E. left.
    + rewrite list.Forall_forall in Hall2 |- *. intros y Hy.
      destruct (Hall2 y Hy) as [Hy1 Hy2]. split; cbn [sp_bodies sp_shapes].
      * apply elem_of_difference. split; [exact Hy1|].
        intros E%elem_of_singleton. apply Hnd2a. rewrite <- E.
        apply list_elem_of_fmap. eauto.
      * rewrite lookup_delete_ne; [exact Hy2|]. intros E.
        apply Hnds2a. rewrite E. apply list_elem_of_fmap. eauto.
  - rewrite fmap_app. apply list.NoDup_app. split; [exact Hnd1|]. split; [|exact Hnd2].
    intros x Hx1 Hx2. apply (Hnd12 x Hx1). now right.
  - rewrite fmap_app. apply list.NoDup_app. split; [exact Hnds1|]. split; [|exact Hnds2].
    intros x Hx1 Hx2. apply (Hnds12 x Hx1). now right.
Qed.

(** One round of the loop, on the ball at the head of [rest]. *)
Lemma remove_if_out_at (ball : Ball.t F) (pre rest : list (Ball.t F)) (s : St F) :
  balls_in_space s.1 ->
  balls_list s.1 = pre ++ ball :: rest ->
  exists s', remove_if_out ball s = (Ok tt, s')
             /\ balls_in_space s'.1
             /\ balls_list s'.1
                = (if Ball.is_out_of_the_screen ball (screen_height (_config s.1)) s.2
                   then pre ++ rest else pre ++ ball :: rest)
             /\ _config s'.1 = _config s.1
             /\ bodies s'.2 = bodies s.2.
Proof.
  destruct s as [self w]. cbn [fst snd]. intros Hb El.
  pose proof Hb as (Hall & Hnd & Hnds).
  unfold remove_if_out. mrun.
  destruct (Ball.is_out_of_the_screen _ _ _).
  2: { exists (self, w). auto. }
  unfold list_remove. rewrite El, remove_first_at by (rewrite <- El; exact Hnd).
  unfold space_remove, attr_space_remove, log. mrun.
  assert (Hball : ball_in_space (space self) ball).
  { rewrite list.Forall_forall in Hall. apply Hall. rewrite El.
    apply elem_of_app. right. left. }
  destruct Hball as [Hbody [sh Hshape]].
  unfold Space_remove. simpl. unfold Space_remove1. mrun.
  cbn [space set_balls_list set_space sp_bodies sp_shapes].
  destruct (decide _) as [_|N]; [|contradiction].
  cbn [sp_shapes]. rewrite Hshape. cbn [fst snd].
  eexists. split; [reflexivity|]. cbn [fst snd].
  split; [apply balls_in_space_remove; assumption|]. repeat split.
Qed.

Lemma is_out_same (ball : Ball.t F) h (w w' : World F) :
  bodies w' = bodies w ->
  Ball.is_out_of_the_screen ball h w' = Ball.is_out_of_the_screen ball h w.
Proof. intros E. unfold Ball.is_out_of_the_screen, body_of. rewrite E. reflexivity. Qed.

Lemma for_from_swept (fuel : nat) (pre rest : list (Ball.t F)) (s : St F) :
  balls_in_space s.1 ->
  balls_list s.1 = pre ++ rest ->
  (length rest <= fuel)%nat ->
  exists s', for_from fuel (length pre) (fun s : St F => balls_list s.1) remove_if_out s
             = (Ok tt, s')
             /\ balls_in_space s'.1
             /\ balls_list s'.1
                = pre ++ swept (fun b => Ball.is_out_of_the_screen
                                           b (screen_height (_config s.1)) s.2) rest
             /\ bodies s'.2 = bodies s.2.
Proof.
  revert pre rest s. induction fuel as [|fuel IH]; intros pre rest s Hb El Hf.
  - destruct rest; [|cbn in Hf; lia]. exists s. rewrite app_nil_r in *. auto.
  - cbn [for_from]. mrun. rewrite El.
    destruct rest as [|ball rest].
    { rewrite app_nil_r, lookup_ge_None_2 by lia. exists s. rewrite app_nil_r in *. auto. }
    rewrite lookup_app_r, Nat.sub_diag by lia. cbn [lookup list_lookup].
    destruct (remove_if_out_at ball pre rest s Hb El) as (s1 & E1 & Hb1 & El1 & Hc1 & Hw1).
    rewrite E1. cbn [swept].
    destruct (Ball.is_out_of_the_screen ball (screen_height (_config s.1)) s.2) eqn:Hout.
    + destruct rest as [|y rest].
      * rewrite app_nil_r in El1.
        destruct fuel as [|fuel]; [exists s1; rewrite app_nil_r; auto|].
        cbn [for_from]. mrun. rewrite El1, lookup_ge_None_2 by (cbn; lia).
        exists s1. rewrite app_nil_r. auto.
      * destruct (IH (pre ++ [y]) rest s1 Hb1) as (s2 & E2 & Hb2 & El2 & Hw2).
        { rewrite El1, <- app_assoc. reflexivity. }
        { cbn in Hf. lia. }
        rewrite length_app, Nat.add_1_r in E2. exists s2. split; [exact E2|].
        split; [exact Hb2|]. split; [|congruence].
        rewrite El2, <- app_assoc, Hc1. cbn [app]. do 2 f_equal.
        apply swept_ext. intros x. apply is_out_same. exact Hw1.
    + destruct (IH (pre ++ [ball]) rest s1 Hb1) as (s2 & E2 & Hb2 & El2 & Hw2).
      { rewrite El1, <- app_assoc. reflexivity. }
      { cbn in Hf. lia. }
      rewrite length_app, Nat.add_1_r in E2. exists s2. split; [exact E2|].
      split; [exact Hb2|]. split; [|congruence].
      rewrite El2, <- app_assoc, Hc1. cbn [app]. do 2 f_equal.
      apply swept_ext. intros x. apply is_out_same. exact Hw1.
Qed.

(** X3.  The loop of [run_logic] over [self.balls_list], which removes
    from the list it walks: when the balls of the list are in the space, the
    loop returns, and it leaves the list [swept]: every ball it looks at and
    finds out of the screen is removed from the list and from the space, but
    the ball that follows a removed one is skipped and stays for this frame,
    out of the screen or not.  The bodies are not touched. *)
Theorem colorful_flooding_sweep_skips (self : t F) (w : World F) :
  balls_in_space self ->
  exists s',
    for_in (fun s : St F => balls_list s.1) remove_if_out (self, w) = (Ok tt, s')
    /\ balls_list s'.1
       = swept (fun b => Ball.is_out_of_the_screen b (screen_height (_config self)) w)
               (balls_list self)
    /\ balls_in_space s'.1
    /\ bodies s'.2 = bodies w.
Proof.
  intros Hb. unfold for_in. mrun.
  destruct (for_from_swept (length (balls_list self)) [] (balls_list self) (self, w) Hb
              eq_refl) as (s' & E & Hb' & El & Hw); [cbn; lia|].
  exists s'. auto.
Qed.

(** [balls_in_space], as a test that can be run. *)
Definition balls_in_spaceb (self : t F) : bool :=
  forallb (fun b => bool_decide (Ball.body b ∈ sp_bodies (space self))
                    && bool_decide (is_Some (sp_shapes (space self)
                                               !! shape_id (Ball.shape b))))
          (balls_list self)
  && bool_decide (NoDup (Ball.body <$> balls_list self))
  && bool_decide (NoDup ((fun b => shape_id (Ball.shape b)) <$> balls_list self)).

Lemma balls_in_spaceb_true (self : t F) : balls_in_spaceb self = true -> balls_in_space self.
Proof.
  unfold balls_in_spaceb. rewrite !andb_true_iff, !bool_decide_eq_true, forallb_forall.
  intros [[H4 H5] H6]. split; [|split; assumption].
  apply list.Forall_forall. intros b Hb. apply list_elem_of_In, H4 in Hb.
  apply andb_true_iff in Hb as [Hb1 Hb2]. apply bool_decide_eq_true in Hb1, Hb2.
  split; assumption.
Qed.
End More.

(** Two sources, a ball from each in every frame, and an engine that drops
    every body of the space far below the screen. *)
Definition falling_world : World PrimFloat.float :=
  mkWorld ∅ 0 (fun _ _ _ => ((float_of_Z 0, float_of_Z 10000), (float_of_Z 0, float_of_Z 0)))
          (fun k => k) 0 [] (0, 0) (fun _ => true) [].

Definition two_sources : ColorfulFlooding.Config PrimFloat.float :=
  ColorfulFlooding.mkConfig 600 600 100 2 1 1 5 (float_of_Z 1) (float_of_Z 0) 60.

(** The state in which the loop over the balls is entered in the second
    frame, before the balls of that frame are created: the two balls of the
    first frame, both below the screen. *)
Definition two_fallen : ColorfulFlooding.St PrimFloat.float :=
  match ColorfulFlooding.init two_sources falling_world with
  | (Ok self, w) =>
      let s := final (main_loop ColorfulFlooding.simulation [mkFrame [] (0, 0)] (self, w)) in
      (s.1, (Space_step (ColorfulFlooding.space s.1) s.2).2)
  | (Raise _, w) =>
      (ColorfulFlooding.mk two_sources Space_empty []
         (0%nat, mkShape 0%nat 0%nat (Circle 0) (float_of_Z 0) (float_of_Z 0)) [] 0 false, w)
  end.

Lemma colorful_flooding_sweep_skips_witness :
  ColorfulFloodingFacts.balls_in_space two_fallen.1
  /\ Ball.body <$> ColorfulFlooding.balls_list two_fallen.1 = [8%nat; 10%nat]
  /\ forallb (fun b => Ball.is_out_of_the_screen b 600 two_fallen.2)
            (ColorfulFlooding.balls_list two_fallen.1) = true
  /\ exists s',
      for_in (fun s : ColorfulFlooding.St PrimFloat.float => ColorfulFlooding.balls_list s.1)
             ColorfulFlooding.remove_if_out (two_fallen.1, two_fallen.2) = (Ok tt, s')
      /\ Ball.body <$> ColorfulFlooding.balls_list s'.1 = [10%nat].
Proof.
  assert (Hb : ColorfulFloodingFacts.balls_in_space two_fallen.1)
    by (apply balls_in_spaceb_true; vm_compute; reflexivity).
  split; [exact Hb|]. split; [vm_compute; reflexivity|].
  split; [vm_compute; reflexivity|].
  destruct (colorful_flooding_sweep_skips two_fallen.1 two_fallen.2 Hb)
    as (s' & E & El & _).
  exists s'. split; [exact E|]. rewrite El. vm_compute. reflexivity.
Defined.

End ColorfulFloodingMore.

(** ** pizza_rain *)

Module PizzaMore.

(** [k] calls of [pizza.update()] without arguments. *)
Definition falls (k : nat) (p : Pizza.t) : Pizza.t :=
  PizzaFacts.updates (repeat (None, None) k) p.

Lemma falls_S k p : falls (S k) p = falls k (Pizza.fall p).
Proof. reflexivity. Qed.

Lemma falls_before_rotation (k : nat) (p : Pizza.t) :
  0 <= Pizza.n_updates p ->
  Pizza.n_updates p + Z.of_nat k < Pizza.rotation_every p ->
  Pizza.image (falls k p) = Pizza.image p
  /\ Pizza.n_updates (falls k p) = Pizza.n_updates p + Z.of_nat k
  /\ Pizza.rotation_every (falls k p) = Pizza.rotation_every p.
Proof.
  revert p. induction k as [|k IH]; intros p H0 Hk.
  - cbn. repeat split. lia.
  - rewrite falls_S.
    assert (E : Pizza.fall p
                = Pizza.mk (Pizza.image p) (Pizza.rect (Pizza.fall p)) (Pizza.vertical_speed p)
                           (Pizza.rotation_every p) (Pizza.diameter p) (Pizza.screen_height p)
                           (Pizza.n_updates p + 1)).
    { unfold Pizza.fall. destruct (_ =? _) eqn:E; [apply Z.eqb_eq in E; lia | reflexivity]. }
    destruct (IH (Pizza.fall p)) as (H1 & H2 & H3).
    + rewrite E. cbn. lia.
    + rewrite E. cbn. lia.
    + rewrite H1, H2, H3, E. cbn. repeat split. lia.
Qed.

(** X4.  A pizza whose update counter is 0 and whose [rotation_every] is
    at least 1 rotates exactly every [rotation_every] plain [update] calls:
    the image stays as it is during the first [rotation_every - 1] calls,
    and the call number [rotation_every] turns it by 90 degrees and puts the
    counter back to 0. *)
Theorem pizza_rotates_every (p : Pizza.t) (k : nat) :
  Pizza.n_updates p = 0 ->
  1 <= Pizza.rotation_every p ->
  let period := Z.to_nat (Pizza.rotation_every p) in
  ((k < period)%nat ->
   Pizza.image (falls k p) = Pizza.image p /\ Pizza.n_updates (falls k p) = Z.of_nat k)
  /\ Pizza.image (falls period p) = surface_rotate (Pizza.image p) 90
  /\ Pizza.n_updates (falls period p) = 0
  /\ Pizza.rotation_every (falls period p) = Pizza.rotation_every p.
Proof.
  intros H0 Hre period. split.
  - intros Hk. destruct (falls_before_rotation k p) as (H1 & H2 & _); [lia | lia |].
    split; [exact H1 | lia].
  - destruct period as [|n] eqn:En; [lia|].
    destruct (falls_before_rotation n p) as (H1 & H2 & H3); [lia | lia |].
    replace (S n) with (n + 1)%nat by lia. unfold falls, PizzaFacts.updates.
    rewrite repeat_app, foldl_app. fold (PizzaFacts.updates (repeat (None, None) n) p).
    fold (falls n p). cbn [repeat foldl fst snd Pizza.update]. unfold Pizza.fall.
    rewrite H2, H3, H0.
    replace (0 + Z.of_nat n + 1 =? Pizza.rotation_every p) with true
      by (symmetry; apply Z.eqb_eq; lia).
    cbn. rewrite H1. repeat split; assumption.
Qed.

(** X5.  Changing the rotation frequency forces a rotation: after
    [update(rotation_every_incr=incr)], whatever the increment and the
    counter were, the very next plain [update] turns the image by 90 degrees
    and puts the counter back to 0.  The new [rotation_every] is the old one
    plus the increment, but at least 1. *)
Theorem pizza_rotation_incr_forces_rotation (p : Pizza.t) (incr : Z) :
  let p1 := Pizza.update None (Some incr) p in
  let p2 := Pizza.update None None p1 in
  Pizza.rotation_every p1 = Z.max 1 (Pizza.rotation_every p + incr)
  /\ Pizza.image p1 = Pizza.image p
  /\ Pizza.image p2 = surface_rotate (Pizza.image p) 90
  /\ Pizza.n_updates p2 = 0
  /\ Pizza.rotation_every p2 = Pizza.rotation_every p1.
Proof.
  cbv zeta. cbn [Pizza.update]. unfold Pizza.fall.
  cbn [Pizza.rotation_every Pizza.image Pizza.n_updates].
  replace (Z.max 1 (Pizza.rotation_every p + incr) - 1 + 1
           =? Z.max 1 (Pizza.rotation_every p + incr)) with true
    by (symmetry; apply Z.eqb_eq; lia).
  repeat split.
Qed.

Lemma pizza_rotates_every_witness :
  let p := Pizza.mk (mkSurface "pizza.png" 40 40 0) (mkRect 0 0 40 40) 3 5 40 600 0 in
  Pizza.image (falls 4 p) = Pizza.image p
  /\ Pizza.image (falls 5 p) = surface_rotate (Pizza.image p) 90
  /\ Pizza.n_updates (falls 5 p) = 0.
Proof.
  cbv zeta.
  destruct (pizza_rotates_every
              (Pizza.mk (mkSurface "pizza.png" 40 40 0) (mkRect 0 0 40 40) 3 5 40 600 0) 4)
    as (H1 & H2 & H3 & _); [reflexivity | cbn; lia |].
  split; [apply H1; cbn; lia|]. split; [exact H2 | exact H3].
Defined.

End PizzaMore.

Module PizzaRainMore.
Section More.
Context {F : Type}.
Import PizzaRain.

(** No pizza of the list collides with one that comes before it. *)
Fixpoint no_overlap (l : list Pizza.t) : Prop :=
  match l with
  | [] => True
  | p :: l' => Forall (fun q => colliderect (Pizza.rect q) (Pizza.rect p) = false) l'
               /\ no_overlap l'
  end.

Lemma no_overlap_snoc (l : list Pizza.t) (p : Pizza.t) :
  no_overlap l -> spritecollide p l = false -> no_overlap (l ++ [p]).
Proof.
  unfold spritecollide. induction l as [|q l IH]; intros Hl Hp; cbn [app no_overlap].
  - split; [constructor | exact I].
  - destruct Hl as [Hq Hl]. cbn [existsb] in Hp. apply orb_false_iff in Hp as [Hpq Hp].
    split; [|apply IH; assumption].
    apply list.Forall_app. split; [exact Hq|]. constructor; [exact Hpq | constructor].
Qed.

(** What the placement loop keeps of a pizza: everything but its rectangle,
    whose size stays. *)
Definition same_pizza (p q : Pizza.t) : Prop :=
  Pizza.image q = Pizza.image p /\ Pizza.vertical_speed q = Pizza.vertical_speed p
  /\ Pizza.rotation_every q = Pizza.rotation_every p /\ Pizza.n_updates q = Pizza.n_updates p
  /\ rect_w (Pizza.rect q) = rect_w (Pizza.rect p)
  /\ rect_h (Pizza.rect q) = rect_h (Pizza.rect p).

Lemma place_free (fuel : nat) cfg (group : list Pizza.t) (pizza : Pizza.t) (w : World F) :
  match place fuel cfg group pizza w with
  | (Ok (Some placed), _) => spritecollide placed group = false /\ same_pizza pizza placed
  | _ => True
  end.
Proof.
  revert pizza w. induction fuel as [|fuel IH]; intros pizza w; cbn [place].
  - destruct (spritecollide pizza group) eqn:E; [exact I|]. cbn. split; [exact E|].
    repeat split.
  - destruct (spritecollide pizza group) eqn:E; [|cbn; split; [exact E | repeat split]].
    unfold mbind at 1, M_bind at 1.
    destruct (randrange 0 (screen_width cfg) w) as [[x|e] w1]; [|exact I].
    unfold mbind at 1, M_bind at 1.
    destruct (randrange 0 (screen_height cfg) w1) as [[y|e] w2]; [|exact I].
    specialize (IH (Pizza.set_center x y pizza) w2).
    destruct (place fuel cfg group (Pizza.set_center x y pizza) w2) as [[[placed|]|e] w3];
      try exact I.
    destruct IH as [H1 H2]. split; [exact H1|].
    destruct H2 as (E1 & E2 & E3 & E4 & E5 & E6). repeat split; assumption.
Qed.

Lemma Pizza_init_attributes path vs re d sh (w : World F) :
  match Pizza.init path vs re d sh w with
  | (Ok p, _) => Pizza.vertical_speed p = vs /\ Pizza.rotation_every p = re
                 /\ Pizza.n_updates p = 0
                 /\ rect_w (Pizza.rect p) = d /\ rect_h (Pizza.rect p) = d
  | _ => True
  end.
Proof.
  unfold Pizza.init, log. mrun. destruct (path_exists w path); [|exact I]. mrun.
  repeat split.
Qed.

(** The pizzas of the configuration: speed, rotation frequency, size. *)
Definition as_configured cfg (p : Pizza.t) : Prop :=
  Pizza.vertical_speed p = vertical_speed cfg /\ Pizza.rotation_every p = rotation_every cfg
  /\ Pizza.n_updates p = 0
  /\ rect_w (Pizza.rect p) = diameter cfg /\ rect_h (Pizza.rect p) = diameter cfg.

Lemma create_pizzas_free (fuel n : nat) cfg (group : list Pizza.t) (w : World F) :
  no_overlap group -> Forall (as_configured cfg) group ->
  match create_pizzas fuel n cfg group w with
  | (Ok (Some l), _) =>
      no_overlap l /\ length l = (length group + n)%nat /\ Forall (as_configured cfg) l
  | _ => True
  end.
Proof.
  revert group w. induction n as [|n IH]; intros group w Hg Hc; cbn [create_pizzas].
  - cbn. split; [exact Hg|]. split; [lia | exact Hc].
  - unfold mbind at 1, M_bind at 1.
    destruct (choice (pizza_images_files cfg) w) as [[img|e] w1]; [|exact I].
    unfold mbind at 1, M_bind at 1.
    pose proof (Pizza_init_attributes (dir_path cfg +:+ "/images/" +:+ img)
                  (vertical_speed cfg) (rotation_every cfg) (diameter cfg)
                  (screen_height cfg) w1) as Hi.
    destruct (Pizza.init _ _ _ _ _ w1) as [[pizza|e] w2]; [|exact I].
    unfold mbind at 1, M_bind at 1.
    pose proof (place_free fuel cfg group pizza w2) as Hp.
    destruct (place fuel cfg group pizza w2) as [[[placed|]|e] w3]; try exact I.
    destruct Hp as [Hfree (E1 & E2 & E3 & E4 & E5 & E6)].
    specialize (IH (group ++ [placed]) w3 (no_overlap_snoc group placed Hg Hfree)).
    destruct (create_pizzas fuel n cfg (group ++ [placed]) w3) as [[[l|]|e] w4]; try exact I.
    destruct IH as (H1 & H2 & H3).
    + apply list.Forall_app. split; [exact Hc|]. constructor; [|constructor].
      destruct Hi as (I1 & I2 & I3 & I4 & I5). unfold as_configured.
      rewrite E2, E3, E4, E5, E6. repeat split; assumption.
    + split; [exact H1|]. split; [|exact H3]. rewrite H2, length_app. cbn. lia.
Qed.

(** X6.  When [PizzaRain.__init__] returns, the group holds
    [number_of_pizzas] pizzas, each with the speed, the rotation frequency
    and the diameter of the configuration, and no pizza overlaps one that
    was created before it: the placement loop redraws the position of a new
    pizza until it is free.  The simulation starts running (not paused). *)
Theorem pizza_rain_init_no_overlap (fuel : nat) cfg (w : World F) :
  match init fuel cfg w with
  | (Ok (Some self), _) =>
      length (_pizza_list self) = Z.to_nat (number_of_pizzas cfg)
      /\ no_overlap (_pizza_list self)
      /\ Forall (as_configured cfg) (_pizza_list self)
      /\ _is_running self = true /\ _config self = cfg
  | _ => True
  end.
Proof.
  unfold init. unfold mbind at 1, M_bind at 1.
  destruct (open_window (screen_width cfg) (screen_height cfg) w) as [[[]|e] w1]; [|exact I].
  unfold mbind at 1, M_bind at 1.
  pose proof (create_pizzas_free fuel (Z.to_nat (number_of_pizzas cfg)) cfg [] w1 I
                (Forall_nil_2 _)) as H.
  destruct (create_pizzas fuel (Z.to_nat (number_of_pizzas cfg)) cfg [] w1)
    as [[[l|]|e] w2]; try exact I.
  destruct H as (H1 & H2 & H3). cbn. repeat split; assumption.
Qed.

End More.
End PizzaRainMore.

(** ** solar_system *)

Module PlanetMore.
Local Open Scope R_scope.

(** X7.  [Planet.update] raises [ZeroDivisionError] exactly when the
    planet sits on the screen centre (the vector to rescale has length 0),
    and leaves the planet as it was; in every other case it returns, whatever
    [original_vector_norm] holds. *)
Theorem planet_update_raises_at_centre (p : Planet.t) :
  ((Planet.update p).1 = Raise ZeroDivisionError <-> Planet.center p = Planet.screen_center p)
  /\ ((Planet.update p).1 = Ok tt <-> Planet.center p <> Planet.screen_center p)
  /\ (Planet.center p = Planet.screen_center p -> (Planet.update p).2 = p).
Proof.
  destruct p as [[cx cy] rad t cw col [sx sy] o].
  cbn [Planet.center Planet.screen_center].
  pose proof (PlanetFacts.stepped_norm sx sy cx cy t cw) as Hs. cbv zeta in Hs.
  unfold Planet.update.
  cbn [Planet.center Planet.screen_center Planet.original_vector_norm
       Planet.translation_step Planet.clockwise_translation Planet.radius Planet.color
       fst snd].
  destruct (if cw then (sy - cy, - (sx - cx)) else (- (sy - cy), sx - cx))
    as [vpx vpy] eqn:Evp.
  cbn [fst snd] in Hs.
  set (nx := t * vpx + cx) in *. set (ny := t * vpy + cy) in *.
  set (nn := Planet.distance (sx, sy) (nx, ny)).
  assert (Hnn : nn = 0 <-> (cx, cy) = (sx, sy)).
  { unfold nn, Planet.distance. cbn [fst snd]. rewrite Hs. split.
    - intros E. apply sqrt_eq_0 in E.
      + assert (H1 : 0 < 1 + t ^ 2) by (pose proof (pow2_ge_0 t); lra).
        assert (H2 : (sx - cx) ^ 2 + (sy - cy) ^ 2 = 0) by nra.
        pose proof (pow2_ge_0 (sx - cx)). pose proof (pow2_ge_0 (sy - cy)).
        assert (sx - cx = 0) by nra. assert (sy - cy = 0) by nra.
        f_equal; lra.
      + pose proof (pow2_ge_0 t). pose proof (pow2_ge_0 (sx - cx)).
        pose proof (pow2_ge_0 (sy - cy)). nra.
    - intros [= -> ->]. replace ((1 + t ^ 2) * ((sx - sx) ^ 2 + (sy - sy) ^ 2)) with 0 by ring.
      apply sqrt_0. }
  destruct (Req_dec_T nn 0) as [E|E]; cbn [fst snd].
  - apply Hnn in E. repeat split; auto; try discriminate.
    intros H. contradiction.
  - repeat split; auto; try discriminate.
    + intros H. apply Hnn in H. contradiction.
    + intros _ H. apply Hnn in H. contradiction.
    + intros H. apply Hnn in H. contradiction.
Qed.

End PlanetMore.

(** ** shooting_star *)

Module SparkMore.
Section More.
Context {F : Type} {NF : Num F}.

(** [k] calls of [zero_radius] in a row, with the value of the last one. *)
Fixpoint zero_radius_calls (k : nat) (last : bool) : M (Spark.t F) bool :=
  match k with
  | O => mret last
  | S k' => r ← Spark.zero_radius; zero_radius_calls k' r
  end.

Lemma zero_radius_once (sp : Spark.t F) :
  Spark.lifespan sp <> 0 ->
  Spark.zero_radius sp
  = (Ok (Spark._init_radius sp * (Spark._time_steps_left sp - 1) / Spark.lifespan sp =? 0),
     Spark.mk (Spark.color sp)
              (Spark._init_radius sp * (Spark._time_steps_left sp - 1) / Spark.lifespan sp)
              (Spark._init_radius sp) (Spark.lifespan sp) (Spark._time_steps_left sp - 1)
              (Spark.body sp) (Spark.shape sp)).
Proof.
  intros HL. unfold Spark.zero_radius, floordiv. mrun.
  cbn [Spark.lifespan Spark._init_radius Spark._time_steps_left Spark.color Spark.body
       Spark.shape].
  destruct (Spark.lifespan sp =? 0) eqn:E; [apply Z.eqb_eq in E; contradiction|].
  reflexivity.
Qed.

Lemma zero_radius_calls_result (k : nat) (last : bool) (sp : Spark.t F) :
  Spark.lifespan sp <> 0 -> (0 < k)%nat ->
  let left := Spark._time_steps_left sp - Z.of_nat k in
  let radius := Spark._init_radius sp * left / Spark.lifespan sp in
  zero_radius_calls k last sp
  = (Ok (radius =? 0),
     Spark.mk (Spark.color sp) radius (Spark._init_radius sp) (Spark.lifespan sp) left
              (Spark.body sp) (Spark.shape sp)).
Proof.
  revert last sp. induction k as [|k IH]; intros last sp HL Hk; [lia|].
  cbv zeta. cbn [zero_radius_calls]. unfold mbind, M_bind.
  rewrite zero_radius_once by exact HL.
  destruct k as [|k].
  - cbn [zero_radius_calls]. mrun. replace (Z.of_nat 1) with 1 by reflexivity. reflexivity.
  - rewrite IH; [|cbn; exact HL | lia].
    cbn [Spark.lifespan Spark._init_radius Spark._time_steps_left Spark.color Spark.body
         Spark.shape].
    replace (Spark._time_steps_left sp - 1 - Z.of_nat (S k))
      with (Spark._time_steps_left sp - Z.of_nat (S (S k))) by lia.
    reflexivity.
Qed.

(** X8.  A spark shrinks linearly and is gone after [lifespan] calls: for
    a spark as [Spark.__init__] builds it, with a lifespan other than 0, the
    [k]-th call of [zero_radius] ([k >= 1]) returns, sets the radius to
    [init_radius * (lifespan - k) // lifespan] and tells whether this is 0;
    the call number [lifespan] sets it to 0 and returns [True]. *)
Theorem spark_zero_radius_after (mouse_pos : Z * Z) (color : rgb) (radius lifespan : Z)
        (w w' : World F) (sp : Spark.t F) (k : nat) (last : bool) :
  Spark.init mouse_pos color radius lifespan w = (Ok sp, w') ->
  lifespan <> 0 -> (0 < k)%nat ->
  exists sp',
    zero_radius_calls k last sp
    = (Ok (radius * (lifespan - Z.of_nat k) / lifespan =? 0), sp')
    /\ Spark.radius sp' = radius * (lifespan - Z.of_nat k) / lifespan
    /\ Spark._time_steps_left sp' = lifespan - Z.of_nat k
    /\ (Z.of_nat k = lifespan -> Spark.radius sp' = 0).
Proof.
  intros Hi HL Hk.
  assert (Hsp : Spark._init_radius sp = radius /\ Spark.lifespan sp = lifespan
                /\ Spark._time_steps_left sp = lifespan).
  { revert Hi. unfold Spark.init, Body_new, Body_set_position, Shape_new, fresh_id. mrun.
    intros [= <- _]. repeat split. }
  destruct Hsp as (E1 & E2 & E3).
  pose proof (zero_radius_calls_result k last sp) as H. cbv zeta in H.
  rewrite E1, E2, E3 in H. eexists. split; [apply H; assumption|].
  cbn [Spark.radius Spark._time_steps_left]. repeat split.
  intros ->. rewrite Z.sub_diag, Z.mul_0_r. reflexivity.
Qed.

(** With a lifespan of 0, [zero_radius] raises [ZeroDivisionError]. *)
Lemma zero_radius_lifespan_0 (sp : Spark.t F) :
  Spark.lifespan sp = 0 ->
  (Spark.zero_radius sp).1 = Raise ZeroDivisionError.
Proof.
  intros HL. unfold Spark.zero_radius, floordiv. mrun.
  cbn [Spark.lifespan]. rewrite HL. reflexivity.
Qed.

End More.

Lemma spark_zero_radius_after_witness :
  exists sp w' sp',
    Spark.init (100, 100) [1; 2; 3] 6 3 Examples.world_float = (Ok sp, w')
    /\ zero_radius_calls 3 false sp = (Ok true, sp')
    /\ Spark.radius sp' = 0.
Proof.
  destruct (Spark.init (100, 100) [1; 2; 3] 6 3 Examples.world_float) as [r w'] eqn:Ei.
  assert (Er : exists sp, r = Ok sp) by (injection Ei as <- _; eexists; reflexivity).
  destruct Er as [sp ->]. exists sp, w'.
  destruct (spark_zero_radius_after (100, 100) [1; 2; 3] 6 3 Examples.world_float w' sp 3
              false Ei) as (sp' & E & _ & _ & H0); [lia | lia |].
  exists sp'. split; [reflexivity|]. split; [exact E | apply H0; reflexivity].
Defined.

End SparkMore.

(** ** wrecking_ball *)

Module WreckingBallMore.
Section More.
Context {F : Type} {NF : Num F}.
Import WreckingBall.

(** X9.  The test that keeps the wrecking ball in the screen reads the
    velocity once and assigns it up to twice, so the second assignment wins:
    past the top or the bottom edge the vertical velocity is reversed and the
    horizontal one is left as it was, also when the ball is past a side edge
    at the same time (in a corner the horizontal reversal is lost); past a
    side edge only, the horizontal velocity is reversed; inside the screen
    nothing changes.  The position, the other bodies and the attributes of
    the object are never touched. *)
Theorem wrecking_ball_bounce_velocity (self : t F) (w : World F) :
  let ball := body_of w (wrecking_ball_body self) in
  let r := of_int (shape_radius (wrecking_ball_shape self)) in
  let out_x := nlt (of_int (screen_width (_config self))) (nadd (position ball).1 r)
               || nlt (nsub (position ball).1 r) (of_int 0) in
  let out_y := nlt (of_int (screen_height (_config self))) (nadd (position ball).2 r)
               || nlt (nsub (position ball).2 r) (of_int 0) in
  let after := bounce (self, w) in
  after.1 = Ok tt /\ after.2.1 = self
  /\ body_of after.2.2 (wrecking_ball_body self)
     = (if out_y then set_velocity ((velocity ball).1, nneg (velocity ball).2) ball
        else if out_x then set_velocity (nneg (velocity ball).1, (velocity ball).2) ball
             else ball)
  /\ forall i, i <> wrecking_ball_body self -> body_of after.2.2 i = body_of w i.
Proof.
  cbv zeta. unfold bounce, Body_set_velocity. mrun.
  destruct (velocity (body_of w (wrecking_ball_body self))) as [vx vy] eqn:Ev.
  destruct (position (body_of w (wrecking_ball_body self))) as [x y] eqn:Ep.
  cbn [fst snd].
  destruct (nlt (of_int (screen_width (_config self)))
                (nadd x (of_int (shape_radius (wrecking_ball_shape self))))
            || nlt (nsub x (of_int (shape_radius (wrecking_ball_shape self)))) (of_int 0));
    destruct (nlt (of_int (screen_height (_config self)))
                  (nadd y (of_int (shape_radius (wrecking_ball_shape self))))
              || nlt (nsub y (of_int (shape_radius (wrecking_ball_shape self)))) (of_int 0));
    mrun; (split; [reflexivity|]); (split; [reflexivity|]);
    unfold body_of; cbn [bodies set_bodies]; (split; [|intros i Hi]);
    rewrite ?lookup_total_insert_eq, ?lookup_total_insert_ne by congruence;
    rewrite ?lookup_total_insert_eq, ?lookup_total_insert_ne by congruence;
    reflexivity.
Qed.

End More.
End WreckingBallMore.

(** ** All the programs *)

Module ProgramsMore.
Section More.
Context {F : Type} {NF : Num F}.

(** A method that returns, assigns no attribute of [self], and leaves the
    bodies, the random generator and the event queue alone. *)
Definition read_only {X A} (m : M (X * World F) A) : Prop :=
  forall s, exists a w',
    m s = (Ok a, (s.1, w'))
    /\ bodies w' = bodies s.2 /\ next_id w' = next_id s.2
    /\ rng_pos w' = rng_pos s.2 /\ event_queue w' = event_queue s.2.

Lemma read_only_ret {X A} (a : A) : read_only (mret a : M (X * World F) A).
Proof. intros [x w]. exists a, w. repeat split. Qed.

Lemma read_only_bind {X A B} (m : M (X * World F) A) (f : A -> M (X * World F) B) :
  read_only m -> (forall a, read_only (f a)) -> read_only (m ≫= f).
Proof.
  intros Hm Hf s. destruct (Hm s) as (a & w1 & E1 & H1 & H2 & H3 & H4).
  destruct (Hf a (s.1, w1)) as (b & w2 & E2 & G1 & G2 & G3 & G4). cbn [fst snd] in *.
  exists b, w2. unfold mbind, M_bind. rewrite E1, E2. repeat split; congruence.
Qed.

Lemma read_only_gets {X A} (f : X * World F -> A) : read_only (gets f).
Proof. intros [x w]. exists (f (x, w)), w. repeat split. Qed.

Lemma read_only_log {X} (c : call) : read_only (on_world (log c) : M (X * World F) unit).
Proof. intros [x w]. eexists tt, _. split; [reflexivity|]. repeat split. Qed.

Lemma read_only_for_each {X A} (l : list A) (body : A -> M (X * World F) unit) :
  (forall x, read_only (body x)) -> read_only (for_each l body).
Proof.
  intros Hb. induction l as [|x l IH]; cbn [for_each].
  - apply read_only_ret.
  - apply read_only_bind; [apply Hb | intros _; exact IH].
Qed.

Lemma read_only_structure_draw {X} (st : SandClockStructure.t F) :
  read_only (on_world (SandClockStructure.draw st) : M (X * World F) unit).
Proof.
  unfold SandClockStructure.draw. intros [x w]. cbn [fst snd].
  assert (H : forall (l : list (Shape F)) (w0 : World F), exists w',
             for_each l (fun _ => log lib_draw_line) w0 = (Ok tt, w')
             /\ bodies w' = bodies w0 /\ next_id w' = next_id w0
             /\ rng_pos w' = rng_pos w0 /\ event_queue w' = event_queue w0).
  { induction l as [|sh l IH]; intros w0; [exists w0; repeat split|].
    cbn [for_each]. unfold mbind, M_bind, log at 1. mrun.
    destruct (IH (set_calls (fun l0 => l0 ++ [lib_draw_line]) w0))
      as (w' & E & H1 & H2 & H3 & H4).
    exists w'. rewrite E. repeat split; assumption. }
  destruct (H (SandClockStructure.shape st) w) as (w' & E & H1).
  exists tt, w'. unfold on_world. cbn [fst snd]. rewrite E. split; [reflexivity | exact H1].
Qed.

Ltac read_only_go :=
  repeat first
    [ apply read_only_log
    | apply read_only_gets
    | apply read_only_ret
    | apply read_only_structure_draw
    | apply read_only_for_each; intros ?
    | apply read_only_bind; [|intros ?] ].

(** X10.  In every program, [draw] and [clock_tick] return, assign no
    attribute of the simulation object, move no body, create no Pymunk
    object, draw no random number and consume no event: all they do is call
    Pygame. *)
Theorem draw_and_clock_tick_read_only (p : program) :
  read_only (sim_draw (p_simulation (the_program (F:=F) p)))
  /\ read_only (sim_clock_tick (p_simulation (the_program (F:=F) p))).
Proof.
  destruct p; cbn [the_program p_simulation sim_draw sim_clock_tick
                   ColorfulFlooding.simulation PizzaRain.simulation
                   ReboundCollisions.simulation SandClock.simulation
                   ShootingStar.simulation SolarSystem.simulation WreckingBall.simulation];
    split.
  - unfold ColorfulFlooding.draw, Ball.draw. read_only_go.
  - unfold ColorfulFlooding.clock_tick. read_only_go.
  - unfold PizzaRain.draw. read_only_go.
  - unfold PizzaRain.clock_tick. read_only_go.
  - unfold ReboundCollisions.draw, ReboundCircle.draw. read_only_go.
  - unfold ReboundCollisions.clock_tick. read_only_go.
  - unfold SandClock.draw, SandGrain.draw. read_only_go.
  - unfold SandClock.clock_tick. read_only_go.
  - unfold ShootingStar.draw, Spark.draw. read_only_go.
  - unfold ShootingStar.clock_tick. read_only_go.
  - unfold SolarSystem.draw, Sun.draw, Planet.draw. read_only_go.
  - unfold SolarSystem.clock_tick. read_only_go.
  - unfold WreckingBall.draw, SmallBall.draw. read_only_go.
  - unfold WreckingBall.clock_tick. read_only_go.
Qed.


(** What the loop over the events hands back: [False] from inside the
    loop when it meets [QUIT], nothing otherwise. *)
Definition quit_or_go (evs : list event) : option bool :=
  if bool_decide (QUIT ∈ evs) then Some false else None.

Lemma quit_or_go_here (evs : list event) : quit_or_go (QUIT :: evs) = Some false.
Proof. unfold quit_or_go. rewrite bool_decide_eq_true_2 by left. reflexivity. Qed.

Lemma quit_or_go_skip (ev : event) (evs : list event) :
  ev <> QUIT -> quit_or_go (ev :: evs) = quit_or_go evs.
Proof.
  intros Hne. unfold quit_or_go.
  assert (E : bool_decide (QUIT ∈ ev :: evs) = bool_decide (QUIT ∈ evs)).
  { apply bool_decide_ext. rewrite elem_of_cons. split; [|auto].
    intros [E|H]; [congruence | exact H]. }
  rewrite E. reflexivity.
Qed.

Lemma pure_loop_result (loop : list event -> option bool) (evs : list event) :
  loop [] = None -> (forall l, loop (QUIT :: l) = Some false) ->
  (forall ev l, ev <> QUIT -> loop (ev :: l) = loop l) ->
  loop evs = quit_or_go evs.
Proof.
  intros H0 Hq Hs. induction evs as [|ev evs IH]; [exact H0|].
  destruct (decide (ev = QUIT)) as [->|Hne].
  - rewrite Hq, quit_or_go_here. reflexivity.
  - rewrite Hs, quit_or_go_skip by exact Hne. exact IH.
Qed.

Lemma wb_loop_result evs : WreckingBall.process_events_loop evs = quit_or_go evs.
Proof.
  apply pure_loop_result; [reflexivity | reflexivity|].
  intros [] l H; try reflexivity. contradiction.
Qed.

Lemma sol_loop_result evs : SolarSystem.process_events_loop evs = quit_or_go evs.
Proof.
  apply pure_loop_result; [reflexivity | reflexivity|].
  intros [] l H; try reflexivity. contradiction.
Qed.

Lemma sc_loop_result evs (s : SandClock.St F) :
  (SandClock.process_events_loop evs s).1 = Ok (quit_or_go evs).
Proof.
  revert s. induction evs as [|ev evs IH]; intros s; [reflexivity|].
  destruct ev as [|[]| | |]; cbn [SandClock.process_events_loop];
    rewrite ?quit_or_go_here, ?quit_or_go_skip by discriminate;
    try reflexivity; try apply IH; mrun; apply IH.
Qed.

Lemma ss_loop_result evs (s : ShootingStar.St F) :
  (ShootingStar.process_events_loop evs s).1 = Ok (quit_or_go evs).
Proof.
  revert s. induction evs as [|ev evs IH]; intros s; [reflexivity|].
  destruct ev as [|[]| | |]; cbn [ShootingStar.process_events_loop];
    rewrite ?quit_or_go_here, ?quit_or_go_skip by discriminate;
    try reflexivity; try apply IH; mrun; apply IH.
Qed.

Lemma rc_loop_result evs (s : ReboundCollisions.St F) :
  (ReboundCollisions.process_events_loop evs s).1 = Ok (quit_or_go evs).
Proof.
  revert s. induction evs as [|ev evs IH]; intros s; [reflexivity|].
  destruct ev as [|[]| | |]; cbn [ReboundCollisions.process_events_loop];
    rewrite ?quit_or_go_here, ?quit_or_go_skip by discriminate;
    try reflexivity; try apply IH.
Qed.

Lemma pr_loop_result evs (s : PizzaRain.St F) :
  (PizzaRain.process_events_loop evs s).1 = Ok (quit_or_go evs).
Proof.
  revert s. induction evs as [|ev evs IH]; intros s; [reflexivity|].
  destruct ev as [|k| | |]; cbn [PizzaRain.process_events_loop];
    rewrite ?quit_or_go_here, ?quit_or_go_skip by discriminate;
    try reflexivity; try apply IH.
  all: destruct k; unfold PizzaRain.group_update; mrun; apply IH.
Qed.

Lemma cf_loop_result evs (s : ColorfulFlooding.St F) :
  (ColorfulFlooding.process_events_loop evs s).1
  = Ok (if bool_decide (QUIT ∈ evs) then Some (PyBool false) else None).
Proof.
  destruct s as [self w]. rewrite ColorfulFloodingMore.process_events_loop_result.
  reflexivity.
Qed.

(** What [process_events] returns when the loop came to its end. *)
Definition at_the_end {A} (p : program) (v : pyval A) : Prop :=
  match p with
  | colorful_flooding => True
  | _ => v = PyBool true
  end.

(** X11.  In every program [process_events] never raises, and it returns
    [False] exactly when the event queue holds a [QUIT] event (the events
    queued after it are dropped unread).  Without a [QUIT], the six programs
    other than colorful_flooding return [True]. *)
Theorem process_events_quit (p : program) (self : p_self (the_program (F:=F) p))
        (w : World F) :
  exists v, (sim_process_events (p_simulation (the_program p)) (self, w)).1 = Ok v
            /\ (v = PyBool false <-> QUIT ∈ event_queue w)
            /\ (QUIT ∉ event_queue w -> at_the_end p v).
Proof.
  assert (Hend : forall (r : option bool),
             r = quit_or_go (event_queue w) ->
             exists v : pyval unit,
               Ok (match r with Some b => PyBool b | None => PyBool true end) = Ok v
               /\ (v = PyBool false <-> QUIT ∈ event_queue w)
               /\ (QUIT ∉ event_queue w -> v = PyBool true)).
  { intros r ->. unfold quit_or_go. eexists. split; [reflexivity|].
    destruct (bool_decide (QUIT ∈ event_queue w)) eqn:E;
      [apply bool_decide_eq_true in E | apply bool_decide_eq_false in E].
    - split; [split; auto | intros H; contradiction].
    - split; [split; [discriminate | intros H; contradiction] | reflexivity]. }
  destruct p; cbn [the_program p_simulation p_self sim_process_events at_the_end] in *.
  - unfold ColorfulFlooding.simulation, sim_process_events, ColorfulFlooding.process_events,
      pygame_event_get, log. mrun. cbn [event_queue set_calls].
    match goal with
    | |- context [ColorfulFlooding.process_events_loop ?evs ?s] =>
        pose proof (cf_loop_result evs s) as H;
        destruct (ColorfulFlooding.process_events_loop evs s) as [[r|e] s2]
    end; cbn [fst] in H; [injection H as ->|discriminate H].
    destruct (bool_decide (QUIT ∈ event_queue w)) eqn:E;
      [apply bool_decide_eq_true in E | apply bool_decide_eq_false in E].
    + eexists. split; [reflexivity|]. split; [split; auto | auto].
    + mrun. eexists. split; [reflexivity|]. split; [|auto].
      split; [|intros H; contradiction].
      destruct (negb _); discriminate.
  - unfold PizzaRain.simulation, sim_process_events, PizzaRain.process_events,
      pygame_event_get, log. mrun. cbn [event_queue set_calls].
    match goal with
    | |- context [PizzaRain.process_events_loop ?evs ?s] =>
        pose proof (pr_loop_result evs s) as H;
        destruct (PizzaRain.process_events_loop evs s) as [[r|e] s2]
    end; cbn [fst] in H; [injection H as H|discriminate H].
    destruct (Hend r H) as (v & Ev & Hv). exists v. split; [|exact Hv].
    destruct r; exact Ev.
  - unfold ReboundCollisions.simulation, sim_process_events, ReboundCollisions.process_events,
      pygame_event_get, log. mrun. cbn [event_queue set_calls].
    match goal with
    | |- context [ReboundCollisions.process_events_loop ?evs ?s] =>
        pose proof (rc_loop_result evs s) as H;
        destruct (ReboundCollisions.process_events_loop evs s) as [[r|e] s2]
    end; cbn [fst] in H; [injection H as H|discriminate H].
    destruct (Hend r H) as (v & Ev & Hv). exists v. split; [|exact Hv].
    destruct r; exact Ev.
  - unfold SandClock.simulation, sim_process_events, SandClock.process_events,
      pygame_event_get, log. mrun. cbn [event_queue set_calls].
    match goal with
    | |- context [SandClock.process_events_loop ?evs ?s] =>
        pose proof (sc_loop_result evs s) as H;
        destruct (SandClock.process_events_loop evs s) as [[r|e] s2]
    end; cbn [fst] in H; [injection H as H|discriminate H].
    destruct (Hend r H) as (v & Ev & Hv). exists v. split; [|exact Hv].
    destruct r; exact Ev.
  - unfold ShootingStar.simulation, sim_process_events, ShootingStar.process_events,
      pygame_event_get, log. mrun. cbn [event_queue set_calls].
    match goal with
    | |- context [ShootingStar.process_events_loop ?evs ?s] =>
        pose proof (ss_loop_result evs s) as H;
        destruct (ShootingStar.process_events_loop evs s) as [[r|e] s2]
    end; cbn [fst] in H; [injection H as H|discriminate H].
    destruct (Hend r H) as (v & Ev & Hv). exists v. split; [|exact Hv].
    destruct r; exact Ev.
  - unfold SolarSystem.simulation, sim_process_events, SolarSystem.process_events,
      pygame_event_get, log. mrun. cbn [event_queue set_calls].
    destruct (Hend _ (sol_loop_result (event_queue w))) as (v & Ev & Hv).
    exists v. split; [|exact Hv].
    destruct (SolarSystem.process_events_loop (event_queue w)); exact Ev.
  - unfold WreckingBall.simulation, sim_process_events, WreckingBall.process_events,
      pygame_event_get, log. mrun. cbn [event_queue set_calls].
    destruct (Hend _ (wb_loop_result (event_queue w))) as (v & Ev & Hv).
    exists v. split; [|exact Hv].
    destruct (WreckingBall.process_events_loop (event_queue w)); exact Ev.
Qed.

End More.
End ProgramsMore.

(** ** Runs in which no method raises *)

Module LoopFacts.
Section Loop.
Context {F X A : Type}.
Import ColorfulFloodingFacts.

(** When the four methods return and keep [I], and [I] does not depend on
    the events and the mouse, a run never raises and ends in [I]. *)
Lemma main_loop_runs (sim : Simulation (X * World F) A) (I : X * World F -> Prop) :
  (forall f s, I s -> I (s.1, arrive f s.2)) ->
  runs I (sim_process_events sim) (fun _ => I) ->
  runs I (sim_run_logic sim) (fun _ => I) ->
  runs I (sim_draw sim) (fun _ => I) ->
  runs I (sim_clock_tick sim) (fun _ => I) ->
  forall frames s, I s ->
    (forall e, ended (main_loop sim frames s) <> Crashed e)
    /\ I (final (main_loop sim frames s)).
Proof.
  intros Ha Hp Hr Hd Hc frames. induction frames as [|f frames IH]; intros s Hs.
  { cbn. split; [discriminate | exact Hs]. }
  cbn [main_loop]. unfold iteration.
  destruct (Hp _ (Ha f s Hs)) as (v & s1 & E1 & H1). rewrite E1.
  destruct (Hr _ H1) as ([] & s2 & E2 & H2). rewrite E2.
  destruct (Hd _ H2) as ([] & s3 & E3 & H3). rewrite E3.
  destruct (Hc _ H3) as ([] & s4 & E4 & H4). rewrite E4.
  destruct (truthy v); cbn [final ended].
  - apply IH, H4.
  - split; [discriminate | exact H4].
Qed.

End Loop.

Section Draws.
Context {F : Type} {NF : Num F}.

(** [random.randrange(start, stop)], in one step. *)
Lemma randrange_result (start stop : Z) (w : World F) :
  randrange start stop w
  = if start <? stop
    then (Ok (start + Z.of_nat (rng w (rng_pos w)) mod (stop - start)),
          set_rng_pos (S (rng_pos w)) w)
    else (Raise (ValueError "empty range for randrange()"), w).
Proof. unfold randrange, rng_draw. destruct (start <? stop); reflexivity. Qed.

(** A computation on the world that returns, with a result in [Q], and
    builds no Pymunk object. *)
Definition draws_only {A} (m : M (World F) A) (Q : A -> Prop) : Prop :=
  forall w, exists a w', m w = (Ok a, w') /\ Q a /\ next_id w' = next_id w.

Lemma draws_random_color : draws_only random_color (fun _ => True).
Proof. intros w. eexists _, _. split; [reflexivity|]. split; [exact I | reflexivity]. Qed.

Lemma draws_choice_sign : draws_only choice_sign (fun _ => True).
Proof. intros w. eexists _, _. split; [reflexivity|]. split; [exact I | reflexivity]. Qed.

Lemma draws_mouse_get_pos : draws_only pygame_mouse_get_pos (fun _ => True).
Proof. intros w. eexists _, _. split; [reflexivity|]. split; [exact I | reflexivity]. Qed.

Lemma draws_randrange (a b : Z) : a < b -> draws_only (randrange a b) (fun v => a <= v < b).
Proof.
  intros H w. rewrite randrange_result.
  destruct (a <? b) eqn:E; [|apply Z.ltb_ge in E; lia].
  eexists _, _. split; [reflexivity|]. split; [|reflexivity].
  pose proof (Z.mod_pos_bound (Z.of_nat (rng w (rng_pos w))) (b - a) ltac:(lia)). lia.
Qed.

Lemma runs_draws {X A} (self : X) (n : nat) (m : M (World F) A) (Q : A -> Prop) :
  draws_only m Q ->
  ColorfulFloodingFacts.runs (fun s : X * World F => s.1 = self /\ next_id s.2 = n)
    (on_world m) (fun a s => Q a /\ (s.1 = self /\ next_id s.2 = n)).
Proof.
  intros Hm [x w] [Hx Hn]. cbn [fst snd] in *. destruct (Hm w) as (a & w' & E & Ha & Hw').
  exists a, (x, w'). unfold on_world. cbn [fst snd]. rewrite E.
  split; [reflexivity|]. split; [exact Ha|]. split; [exact Hx | congruence].
Qed.

End Draws.
End LoopFacts.

(** ** sand_clock, again *)

Module SandClockStructureMore.
Section More.
Context {F : Type} {NF : Num F}.
Import SandClockStructure.


End More.

(** *** Exact arithmetic *)

Lemma Qc_trunc_ge (n : Z) (q : Qc) : (Qc_of_Z n <= q)%Qc -> n <= Qc_trunc q.
Proof.
  unfold Qcle, Qc_of_Z, Q2Qc, Qc_trunc. cbn [this]. rewrite Qred_correct.
  unfold Qle, inject_Z. cbn [Qnum Qden]. intros H.
  pose proof (Z.quot_rem' (Qnum q) (Z.pos (Qden q))) as E.
  pose proof (Z.rem_bound_abs (Qnum q) (Z.pos (Qden q)) ltac:(lia)) as B.
  nia.
Qed.

Lemma Qc_trunc_gt (n : Z) (q : Qc) : n < Qc_trunc q -> (Qc_of_Z n < q)%Qc.
Proof.
  unfold Qclt, Qc_of_Z, Q2Qc, Qc_trunc. cbn [this]. rewrite Qred_correct.
  unfold Qlt, inject_Z. cbn [Qnum Qden]. intros H.
  pose proof (Z.quot_rem' (Qnum q) (Z.pos (Qden q))) as E.
  pose proof (Z.rem_bound_abs (Qnum q) (Z.pos (Qden q)) ltac:(lia)) as B.
  nia.
Qed.

(** The wall [y = m * x + b] of the upper bulb, and where an integer point
    lies with respect to it. *)
Lemma wall_side (H T X TL n : Z) (p : positive) :
  let m := (Qc_of_Z (- H) / Qc_of_Z (- Z.pos p))%Qc in
  let q := (m * Qc_of_Z X + (Qc_of_Z T - m * Qc_of_Z TL))%Qc in
  ((Qc_of_Z n <= q)%Qc <-> (n - T) * Z.pos p <= H * (X - TL))
  /\ ((Qc_of_Z n < q)%Qc <-> (n - T) * Z.pos p < H * (X - TL)).
Proof.
  cbv zeta. unfold Qcle, Qclt, Qc_of_Z.
  repeat (unfold Qcplus, Qcminus, Qcmult, Qcdiv, Qcinv, Qcopp, Q2Qc;
          cbn [this]; rewrite ?Qred_correct).
  change (- Z.pos p) with (Z.neg p).
  unfold Qle, Qlt, Qplus, Qminus, Qopp, Qmult, Qdiv, Qinv, inject_Z; cbn [Qnum Qden].
  rewrite ?Pos.mul_1_l, ?Pos.mul_1_r, ?Pos2Z.inj_mul.
  split; split; intros; nia.
Qed.

(** X13.  Over exact (rational) arithmetic the grain starts inside the
    upper bulb: when [init_grain_random_position] returns [(x, y)], the point
    lies more than 5 pixels above the slanted wall of its side, that is
    [(y + 5 - top) * (width // 2) < (height // 2) * (width // 2 - |center_x - x|)],
    where [top] is the top edge.  The function raises only when the structure
    is narrow ([width // 2 <= 45]) or flat
    ([30 * (height // 2) < 11 * (width // 2)]); for every other structure it
    returns for all random draws. *)
Theorem init_grain_random_position_in_bulb
        (self : SandClockStructure.t Qc) (w : World Qc) :
  let cx := (SandClockStructure.center self).1 in
  let half := SandClockStructure.width self / 2 in
  let h2 := SandClockStructure.height self / 2 in
  let top := (SandClockStructure.center self).2 - h2 in
  match (SandClockStructure.init_grain_random_position self w).1 with
  | Ok (x, y) => (y + 5 - top) * half < h2 * (half - Z.abs (cx - x))
  | Raise _ => half <= 45 \/ 30 * h2 < 11 * half
  end.
Proof.
  cbv zeta.
  unfold SandClockStructure.init_grain_random_position. cbn [fst snd].
  set (cx := (SandClockStructure.center self).1).
  set (cy := (SandClockStructure.center self).2).
  set (half := SandClockStructure.width self / 2).
  set (h2 := SandClockStructure.height self / 2).
  replace (cx - half - cx) with (- half) by lia.
  replace (cy - h2 - cy) with (- h2) by lia.
  destruct (- half =? 0) eqn:E0.
  { apply Z.eqb_eq in E0. left. lia. }
  apply Z.eqb_neq in E0. mrun. rewrite LoopFacts.randrange_result.
  destruct (_ <? _) eqn:Ex at 1; [|left; apply Z.ltb_ge in Ex; lia].
  apply Z.ltb_lt in Ex. rewrite LoopFacts.randrange_result.
  match goal with |- context [Z.of_nat ?d mod ?k] =>
    pose proof (Z.mod_pos_bound (Z.of_nat d) k ltac:(lia)) as Hx;
    set (dx := Z.of_nat d mod k) in * end.
  cbn [rng rng_pos set_rng_pos of_int nadd nsub nmul ndiv ntrunc Num_Qc].
  destruct half as [|p|p] eqn:Eh; try lia.
  match goal with |- context [Qc_trunc ?q] =>
    pose proof (Qc_trunc_ge (cy - h2 + 11) q) as Hge;
    pose proof (fun n => Qc_trunc_gt n q) as Hgt;
    pose proof (fun n => wall_side h2 (cy - h2) (cx - Z.pos p + 30 + dx) (cx - Z.pos p) n p)
      as Hw; cbv zeta in Hw;
    set (y_max := Qc_trunc q) in * end.
  destruct (_ <? _) eqn:Ey.
  - apply Z.ltb_lt in Ey.
    match goal with |- context [Z.of_nat ?d mod ?k] =>
      pose proof (Z.mod_pos_bound (Z.of_nat d) k ltac:(lia)) as Hy;
      set (dy := Z.of_nat d mod k) in * end.
    unfold random_gt_half, rng_draw. mrun.
    specialize (Hgt (cy - h2 + 5 + dy + 5) ltac:(lia)).
    apply Hw in Hgt.
    destruct (Nat.odd _); nia.
  - apply Z.ltb_ge in Ey. right.
    destruct (decide (11 * Z.pos p <= 30 * h2)) as [Hs|Hs]; [|lia].
    exfalso. enough (cy - h2 + 11 <= y_max) by lia.
    apply Hge, Hw. nia.
Qed.

End SandClockStructureMore.

Module SandClockMore.
Section More.
Context {F : Type} {NF : Num F}.
Import SandClock.

(** A body and a shape that a space holds. *)
Definition in_space (sp : Space F) (body : nat) (shape : Shape F) : Prop :=
  body ∈ sp_bodies sp /\ sp_shapes sp !! shape_id shape = Some shape.

(** The sand clock as its constructor leaves it. *)
Definition furnished (self : t F) : Prop :=
  let cfg := _config self in
  let structure := sand_clock_structure self in
  length (sand_grains_list self) = Z.to_nat (n_sand_grains cfg)
  /\ (forall g, g ∈ sand_grains_list self ->
        in_space (space self) (SandGrain.body g) (SandGrain.shape g)
        /\ shape_body (SandGrain.shape g) = SandGrain.body g
        /\ geom (SandGrain.shape g) = Circle (sand_grain_radius cfg)
        /\ SandGrain.radius g = sand_grain_radius cfg)
  /\ NoDup (SandGrain.body <$> sand_grains_list self)
  /\ (forall sh, sh ∈ SandClockStructure.shape structure ->
        sp_shapes (space self) !! shape_id sh = Some sh)
  /\ sp_bodies (space self)
     = list_to_set (SandClockStructure.body structure
                    ++ (SandGrain.body <$> sand_grains_list self))
  /\ dom (sp_shapes (space self))
     = list_to_set (shape_id <$> (SandClockStructure.shape structure
                                  ++ (SandGrain.shape <$> sand_grains_list self)))
  /\ gravity (space self) = (0, gravity_y cfg).

Lemma add_structure_result (l : list (nat * Shape F)) (sp : Space F) (w : World F) :
  NoDup l.*1 -> NoDup (shape_id <$> l.*2) ->
  (forall b, b ∈ l.*1 -> b ∉ sp_bodies sp) ->
  (forall sh, sh ∈ l.*2 -> sp_shapes sp !! shape_id sh = None) ->
  exists sp' w',
    add_structure l sp w = (Ok sp', w')
    /\ next_id w' = next_id w
    /\ sp_bodies sp' = list_to_set l.*1 ∪ sp_bodies sp
    /\ dom (sp_shapes sp') = list_to_set (shape_id <$> l.*2) ∪ dom (sp_shapes sp)
    /\ (forall sh, sh ∈ l.*2 -> sp_shapes sp' !! shape_id sh = Some sh)
    /\ (forall k, k ∉ shape_id <$> l.*2 -> sp_shapes sp' !! k = sp_shapes sp !! k)
    /\ gravity sp' = gravity sp.
Proof.
  revert sp w. induction l as [|[b sh] l IH]; intros sp w Hb Hs Hfb Hfs.
  - exists sp, w. cbn. repeat split; try reflexivity.
    + symmetry. apply (left_id_L ∅ (∪)).
    + symmetry. apply (left_id_L ∅ (∪)).
    + intros sh Hsh. inversion Hsh.
  - rewrite !fmap_cons in *. cbn [fst snd] in *.
    apply list.NoDup_cons in Hb as [Hb1 Hb]. apply list.NoDup_cons in Hs as [Hs1 Hs].
    cbn [add_structure]. unfold Space_add_to, log, Space_add. cbn [for_each].
    unfold Space_add1. mrun.
    rewrite decide_False by (apply Hfb; left). mrun. cbn [sp_shapes].
    rewrite (Hfs sh) by left. mrun.
    set (sp1 := mkSpace _ _ _). set (w1 := set_calls _ w).
    destruct (IH sp1 w1 Hb Hs) as (sp' & w' & E & Hn & Hbs & Hd & Hin & Hout & Hg).
    { intros b' Hb'. unfold sp1. cbn [sp_bodies].
      intros [->%elem_of_singleton|H]%elem_of_union; [contradiction|].
      revert H. apply Hfb. now right. }
    { intros sh' Hsh'. unfold sp1. cbn [sp_shapes]. rewrite lookup_insert_ne.
      - apply Hfs. now right.
      - intros E. apply Hs1. rewrite E. apply list_elem_of_fmap. eauto. }
    exists sp', w'. split; [exact E|]. split; [exact Hn|].
    split.
    { rewrite Hbs. unfold sp1. cbn [sp_bodies list_to_set].
      rewrite (assoc_L (∪)), (comm_L (∪) (list_to_set _) {[b]}). reflexivity. }
    split.
    { rewrite Hd. unfold sp1. cbn [sp_shapes list_to_set]. rewrite dom_insert_L.
      rewrite (assoc_L (∪)), (comm_L (∪) (list_to_set _) {[shape_id sh]}). reflexivity. }
    split.
    { intros sh' [->|Hsh']%elem_of_cons; [|apply Hin, Hsh'].
      rewrite Hout by exact Hs1. unfold sp1. cbn [sp_shapes]. apply lookup_insert_eq. }
    split.
    { intros k Hk. rewrite Hout.
      - unfold sp1. cbn [sp_shapes]. apply lookup_insert_ne. intros <-. apply Hk. left.
      - intros H. apply Hk. now right. }
    rewrite Hg. reflexivity.
Qed.

Lemma add_grains_eq (l : list (SandGrain.t F)) (sp : Space F) (w : World F) :
  add_grains l sp w
  = add_structure ((fun g => (SandGrain.body g, SandGrain.shape g)) <$> l) sp w.
Proof.
  revert sp w. induction l as [|g l IH]; intros sp w; [reflexivity|].
  cbn [add_grains add_structure fmap list_fmap]. unfold mbind, M_bind.
  destruct (Space_add_to sp _ w) as [[sp1|e] w1]; [|reflexivity]. rewrite IH. reflexivity.
Qed.

Lemma SandGrain_init_shape center radius mass color_type (w : World F) :
  match SandGrain.init center radius mass color_type w with
  | (Ok g, w') =>
      SandGrain.body g = next_id w /\ shape_id (SandGrain.shape g) = S (next_id w)
      /\ shape_body (SandGrain.shape g) = SandGrain.body g
      /\ geom (SandGrain.shape g) = Circle radius
      /\ SandGrain.radius g = radius
      /\ next_id w' = S (S (next_id w))
  | (Raise _, _) => True
  end.
Proof.
  unfold SandGrain.init.
  destruct (String.eqb color_type "random"); [repeat split|].
  destruct (String.eqb color_type "yellow"); [repeat split | exact I].
Qed.

(** A grain that was built while the counter of objects went from [lo] to
    [hi]. *)
Definition new_grain (cfg : Config) (lo hi : nat) (g : SandGrain.t F) : Prop :=
  (lo <= SandGrain.body g < hi)%nat
  /\ (lo <= shape_id (SandGrain.shape g) < hi)%nat
  /\ shape_body (SandGrain.shape g) = SandGrain.body g
  /\ geom (SandGrain.shape g) = Circle (sand_grain_radius cfg)
  /\ SandGrain.radius g = sand_grain_radius cfg.

Lemma new_grain_mono cfg lo lo' hi hi' g :
  (lo' <= lo)%nat -> (hi <= hi')%nat -> new_grain cfg lo hi g -> new_grain cfg lo' hi' g.
Proof. unfold new_grain. intros ? ? (? & ? & ?). split; [lia|]. split; [lia | assumption]. Qed.

Lemma create_grains_fresh n cfg (st : SandClockStructure.t F) acc (w : World F) :
  match create_grains n cfg st acc w with
  | (Ok l, w') =>
      exists new,
        l = acc ++ new /\ length new = n /\ (next_id w <= next_id w')%nat
        /\ NoDup (SandGrain.body <$> new)
        /\ NoDup (shape_id <$> (SandGrain.shape <$> new))
        /\ Forall (new_grain cfg (next_id w) (next_id w')) new
  | (Raise _, _) => (0 < n)%nat
  end.
Proof.
  revert acc w. induction n as [|n IH]; intros acc w; cbn [create_grains].
  - exists []. rewrite app_nil_r. repeat split; try constructor. 
  - unfold mbind at 1, M_bind at 1.
    pose proof (SandClockFacts.init_grain_random_position_builds_nothing st w) as H1.
    destruct (SandClockStructure.init_grain_random_position st w) as [[center|e] w1];
      cbn [fst snd] in *; [|lia].
    unfold mbind at 1, M_bind at 1.
    pose proof (SandGrain_init_shape center (sand_grain_radius cfg) (sand_grain_mass cfg)
                  (sand_grain_color_type cfg) w1) as H2.
    destruct (SandGrain.init center (sand_grain_radius cfg) (sand_grain_mass cfg)
                (sand_grain_color_type cfg) w1) as [[g|e] w2]; [|lia].
    destruct H2 as (Hb & Hs & Hsb & Hg & Hr & Hw2).
    specialize (IH (acc ++ [g]) w2).
    destruct (create_grains n cfg st (acc ++ [g]) w2) as [[l|e] w3]; [|lia].
    destruct IH as (new & -> & Hlen & Hle & Hnb & Hns & Hall).
    exists (g :: new). rewrite <- app_assoc. split; [reflexivity|].
    split; [cbn; lia|]. split; [lia|].
    rewrite !fmap_cons.
    split.
    { apply list.NoDup_cons. split; [|exact Hnb].
      intros (g' & E & Hg')%list_elem_of_fmap.
      rewrite list.Forall_forall in Hall. apply Hall in Hg' as ((? & ?) & _). lia. }
    split.
    { apply list.NoDup_cons. split; [|exact Hns].
      intros (sh & E & (g' & -> & Hg')%list_elem_of_fmap)%list_elem_of_fmap.
      rewrite list.Forall_forall in Hall. apply Hall in Hg' as (_ & (? & ?) & _). lia. }
    constructor.
    + unfold new_grain. repeat split; try assumption; lia.
    + eapply list.Forall_impl; [exact Hall|]. intros g'. apply new_grain_mono; lia.
Qed.

Lemma runs_static_body n :
  ColorfulFloodingFacts.runs (fun w : World F => next_id w = n)
    SandClockStructure.static_body (fun b w => b = n /\ next_id w = S n).
Proof. intros w <-. eexists _, _. split; [reflexivity|]. split; reflexivity. Qed.

Lemma runs_segment n body a b radius :
  ColorfulFloodingFacts.runs (fun w : World F => next_id w = n)
    (SandClockStructure.segment body a b radius)
    (fun sh w => shape_id sh = n /\ next_id w = S n).
Proof. intros w <-. eexists _, _. split; [reflexivity|]. split; reflexivity. Qed.

Lemma SandClockStructure_init_ids center width height neck_width line_width line_color
      (w : World F) :
  exists st w',
    SandClockStructure.init center width height neck_width line_width line_color w
    = (Ok st, w')
    /\ next_id w' = (12 + next_id w)%nat
    /\ SandClockStructure.body st = seq (next_id w) 6
    /\ shape_id <$> SandClockStructure.shape st = seq (6 + next_id w) 6
    /\ SandClockStructure.center st = center
    /\ SandClockStructure.width st = width
    /\ SandClockStructure.height st = height.
Proof.
  assert (H : ColorfulFloodingFacts.runs (fun w0 : World F => next_id w0 = next_id w)
                (SandClockStructure.init center width height neck_width line_width line_color)
                (fun st w' =>
                   next_id w' = (12 + next_id w)%nat
                   /\ SandClockStructure.body st = seq (next_id w) 6
                   /\ shape_id <$> SandClockStructure.shape st = seq (6 + next_id w) 6
                   /\ SandClockStructure.center st = center
                   /\ SandClockStructure.width st = width
                   /\ SandClockStructure.height st = height)).
  2: { destruct (H w eq_refl) as (st & w' & E & HQ). exists st, w'. split; assumption. }
  unfold SandClockStructure.init. cbv zeta.
  do 6 (eapply ColorfulFloodingFacts.runs_bind; [apply runs_static_body|]; intros ?;
        apply ColorfulFloodingMore.runs_pure; intros ->).
  eapply ColorfulFloodingFacts.runs_bind; [apply runs_segment|]. intros s0.
  apply ColorfulFloodingMore.runs_pure. intros E0.
  eapply ColorfulFloodingFacts.runs_bind; [apply runs_segment|]. intros s1.
  apply ColorfulFloodingMore.runs_pure. intros E1.
  eapply ColorfulFloodingFacts.runs_bind; [apply runs_segment|]. intros s2.
  apply ColorfulFloodingMore.runs_pure. intros E2.
  eapply ColorfulFloodingFacts.runs_bind; [apply runs_segment|]. intros s3.
  apply ColorfulFloodingMore.runs_pure. intros E3.
  eapply ColorfulFloodingFacts.runs_bind; [apply runs_segment|]. intros s4.
  apply ColorfulFloodingMore.runs_pure. intros E4.
  eapply ColorfulFloodingFacts.runs_bind; [apply runs_segment|]. intros s5.
  apply ColorfulFloodingMore.runs_pure. intros E5.
  apply ColorfulFloodingFacts.runs_ret. intros w' Hw'.
  cbn [SandClockStructure.body SandClockStructure.shape SandClockStructure.center
       SandClockStructure.width SandClockStructure.height fmap list_fmap].
  rewrite E0, E1, E2, E3, E4, E5, Hw'. repeat split.
Qed.

Lemma grain_pairs (l : list (SandGrain.t F)) :
  ((fun g => (SandGrain.body g, SandGrain.shape g)) <$> l).*1 = SandGrain.body <$> l
  /\ ((fun g => (SandGrain.body g, SandGrain.shape g)) <$> l).*2 = SandGrain.shape <$> l.
Proof. split; rewrite <- list_fmap_compose; reflexivity. Qed.

Lemma init_furnished cfg (w : World F) :
  match init cfg w with
  | (Ok self, _) =>
      _config self = cfg /\ _tip_over self = false /\ _reset self = false /\ furnished self
  | (Raise _, _) => 0 < n_sand_grains cfg
  end.
Proof.
  unfold init, open_window, Space_new, log. mrun.
  match goal with
  | |- context [SandClockStructure.init ?a ?b ?c ?d ?e ?f ?w] =>
      destruct (SandClockStructure_init_ids a b c d e f w)
        as (st & w2 & E & Hn2 & Hb & Hs & _); rewrite E; clear E
  end.
  cbn [next_id set_calls] in Hn2, Hb, Hs.
  assert (Hlb : length (SandClockStructure.body st) = 6%nat) by (rewrite Hb; reflexivity).
  assert (Hls : length (SandClockStructure.shape st) = 6%nat).
  { rewrite <- (length_fmap shape_id), Hs. reflexivity. }
  match goal with
  | |- context [add_structure ?l ?sp ?w] =>
      destruct (add_structure_result l sp w)
        as (sp1 & w3 & E & Hn3 & Hb1 & Hd1 & Hin1 & Hout1 & Hg1)
  end.
  { rewrite fst_zip by lia. rewrite Hb. apply NoDup_seq. }
  { rewrite snd_zip by lia. rewrite Hs. apply NoDup_seq. }
  { intros b _. cbn. apply not_elem_of_empty. }
  { intros sh _. cbn. apply lookup_empty. }
  rewrite E. clear E. rewrite fst_zip in Hb1 by lia. rewrite snd_zip in Hd1, Hin1, Hout1 by lia.
  cbn [sp_bodies sp_shapes set_gravity Space_empty gravity] in Hb1, Hd1, Hout1, Hg1.
  rewrite dom_empty_L in Hd1. rewrite (right_id_L ∅ (∪)) in Hb1, Hd1.
  pose proof (create_grains_fresh (Z.to_nat (n_sand_grains cfg)) cfg st [] w3) as Hc.
  destruct (create_grains _ cfg st [] w3) as [[l|e] w4]; [|lia].
  destruct Hc as (new & -> & Hlen & Hle & Hnb & Hns & Hall). cbn [app].
  rewrite list.Forall_forall in Hall.
  rewrite add_grains_eq.
  match goal with
  | |- context [add_structure ?l ?sp ?w] =>
      destruct (add_structure_result l sp w)
        as (sp2 & w5 & E & Hn5 & Hb2 & Hd2 & Hin2 & Hout2 & Hg2)
  end.
  { rewrite (proj1 (grain_pairs new)). exact Hnb. }
  { rewrite (proj2 (grain_pairs new)). exact Hns. }
  { intros b. rewrite (proj1 (grain_pairs new)). intros (g & -> & Hg)%list_elem_of_fmap.
    cbn. rewrite Hb1, Hb, elem_of_list_to_set, elem_of_seq.
    apply Hall in Hg as ((? & ?) & _). lia. }
  { intros sh. rewrite (proj2 (grain_pairs new)). intros (g & -> & Hg)%list_elem_of_fmap.
    cbn. rewrite Hout1; [apply lookup_empty|]. rewrite Hs, elem_of_seq.
    apply Hall in Hg as (_ & (? & ?) & _). lia. }
  rewrite E. clear E.
  rewrite (proj1 (grain_pairs new)) in Hb2.
  rewrite (proj2 (grain_pairs new)) in Hd2, Hin2, Hout2.
  split; [reflexivity|]. split; [reflexivity|]. split; [reflexivity|].
  unfold furnished.
  cbn [_config space sand_clock_structure sand_grains_list].
  split; [exact Hlen|].
  split.
  { intros g Hg. pose proof (Hall g Hg) as (_ & _ & Hsb & Hgeom & Hr).
    split; [|auto]. split.
    - rewrite Hb2. apply elem_of_union. left. apply elem_of_list_to_set.
      apply list_elem_of_fmap. exists g. auto.
    - apply Hin2. apply list_elem_of_fmap. exists g. auto. }
  split; [exact Hnb|].
  split.
  { intros sh Hsh. rewrite Hout2; [apply Hin1, Hsh|].
    intros (k' & E & (g & -> & Hg)%list_elem_of_fmap)%list_elem_of_fmap.
    cbn in E.
    assert (Hk : shape_id sh ∈ seq (6 + next_id w) 6).
    { rewrite <- Hs. apply list_elem_of_fmap. eauto. }
    apply elem_of_seq in Hk. apply Hall in Hg as (_ & (? & ?) & _). lia. }
  split.
  { rewrite Hb2, Hb1, list_to_set_app_L. apply (comm_L (∪)). }
  split.
  { rewrite Hd2, Hd1, fmap_app, list_to_set_app_L. apply (comm_L (∪)). }
  rewrite Hg2. exact Hg1.
Qed.

(** The attributes that only the constructor assigns. *)
Definition built (self : t F) :=
  (_config self, space self, sand_clock_structure self, sand_grains_list self).

Definition as_built (cfg : Config) (self : t F) : Prop :=
  furnished self /\ _config self = cfg.

Lemma as_built_same cfg (a b : t F) : built a = built b -> as_built cfg a -> as_built cfg b.
Proof.
  unfold built, as_built, furnished. intros [= E1 E2 E3 E4]. cbv zeta.
  rewrite E1, E2, E3, E4. auto.
Qed.

Lemma process_events_built (s : St F) : built (process_events s).2.1 = built s.1.
Proof.
  destruct s as [self w]. unfold process_events, pygame_event_get, log. mrun.
  set (evs := event_queue _). set (w1 := set_event_queue _ _).
  assert (H : forall s : St F, built (process_events_loop evs s).2.1 = built s.1).
  { induction evs as [|ev evs IH]; intros s; [reflexivity|].
    destruct ev as [|[]| | |]; cbn [process_events_loop]; try apply IH; try reflexivity.
    - mrun. rewrite IH. reflexivity.
    - mrun. rewrite IH. reflexivity. }
  specialize (H (self, w1)).
  destruct (process_events_loop evs (self, w1)) as [[[b|]|e] s2]; exact H.
Qed.

Lemma run_logic_as_built cfg (s : St F) :
  as_built cfg s.1 -> as_built cfg (run_logic s).2.1.
Proof.
  destruct s as [self w]. intros H. unfold run_logic, Space_step, log. mrun.
  set (w1 := set_bodies _ _).
  assert (Hreset : forall (self1 : t F) (w2 : World F),
             as_built cfg self1 ->
             as_built cfg
                      ((if _reset self1
                        then fun s : t F * World F =>
                               let (r0, s'0) :=
                                 let '(r0, w') := init (_config self1) s.2 in
                                 (r0, (set_reset false s.1, w')) in
                               match r0 with
                               | Ok a0 => (Ok tt, (a0, s'0.2))
                               | Raise e => (Raise e, s'0)
                               end
                        else fun s : t F * World F => (Ok tt, s)) (self1, w2)).2.1).
  { intros self1 w2 H1. destruct (_reset self1); [|exact H1]. cbn [fst snd].
    pose proof (init_furnished (_config self1) w2) as Hi.
    destruct (init (_config self1) w2) as [[self2|e] w3]; cbn [fst snd] in *.
    - destruct Hi as (Hc & _ & _ & Hf). split; [exact Hf|]. rewrite Hc. apply H1.
    - revert H1. apply as_built_same. reflexivity. }
  destruct (_tip_over self).
  - cbn [fst snd].
    destruct (SandClockFacts.flip_each
                (SandClockStructure.center (sand_clock_structure self)).2
                (sand_grains_list self) (set_tip_over false self) w1)
      as (w2 & E & _).
    { apply H. }
    rewrite SandClockFacts.flip_vertically_eq.
    cbn [sand_clock_structure sand_grains_list set_tip_over].
    cbn [sand_clock_structure sand_grains_list set_tip_over] in E. rewrite E.
    apply (Hreset (set_tip_over false self) w2). revert H. apply as_built_same. reflexivity.
  - apply (Hreset self w1). exact H.
Qed.

Lemma main_loop_as_built cfg (frames : list Frame) (s : St F) :
  as_built cfg s.1 -> as_built cfg (final (main_loop simulation frames s)).1.
Proof.
  revert s. induction frames as [|f frames IH]; intros s H; [exact H|].
  cbn [main_loop].
  match goal with
  | |- context [let (_, _) := ?it in _] => set (x := it)
  end.
  assert (Hi : as_built cfg (final x.1).1).
  { unfold x, iteration.
    cbn [simulation sim_process_events sim_run_logic sim_draw sim_clock_tick].
    pose proof (process_events_built (s.1, arrive f s.2)) as H1.
    assert (H1' : as_built cfg (process_events (s.1, arrive f s.2)).2.1).
    { revert H. apply as_built_same. symmetry. exact H1. }
    clear H1.
    destruct (process_events (s.1, arrive f s.2)) as [[v|e] s1]; cbn [fst snd] in H1';
      [|exact H1'].
    pose proof (run_logic_as_built cfg s1 H1') as H2.
    destruct (run_logic s1) as [[[]|e] s2]; cbn [fst snd] in H2; [|exact H2].
    pose proof (SandClockFacts.draw_same_self s2) as H3.
    destruct (draw s2) as [[[]|e] s3]; cbn [fst snd] in H3; [|cbn; rewrite H3; exact H2].
    pose proof (SandClockFacts.clock_tick_same_self s3) as H4.
    destruct (clock_tick s3) as [[[]|e] s4]; cbn [fst snd] in H4; cbn; rewrite H4, H3;
      exact H2. }
  clearbody x. destruct x as [r [v|]]; cbn [fst] in Hi; [|exact Hi].
  destruct (truthy v); [|exact Hi]. cbn [final]. apply IH, Hi.
Qed.

(** X14.  What [SandClock.__init__] builds, and what every run keeps.
    When the constructor returns, the object holds exactly [n_sand_grains]
    grains (none for a negative number), each a circle of radius
    [sand_grain_radius] attached to a body of its own; the space, with gravity
    [(0, gravity_y)], holds the body and the shape of every grain, the six
    bodies and the six segments of the structure, and nothing else; both flags
    are clear.  The constructor can only raise while it creates a grain:
    without grains it always returns.  The grains, the structure and the space
    are as described also at the end of every run that did not raise,
    whatever keys were pressed, a restart (key R) included. *)
Theorem sand_clock_stays_furnished (cfg : Config) (frames : list Frame) (w : World F) :
  match init cfg w with
  | (Ok self, w') =>
      _config self = cfg /\ _tip_over self = false /\ _reset self = false
      /\ furnished self
      /\ let r := main_loop simulation frames (self, w') in
         match ended r with
         | Crashed _ => True
         | _ => _config (final r).1 = cfg /\ furnished (final r).1
         end
  | (Raise _, _) => 0 < n_sand_grains cfg
  end.
Proof.
  pose proof (init_furnished cfg w) as Hi.
  destruct (init cfg w) as [[self|e] w']; [|exact Hi].
  destruct Hi as (Hc & Ht & Hr & Hf). repeat (split; [assumption|]). cbv zeta.
  pose proof (main_loop_as_built cfg frames (self, w') (conj Hf Hc)) as [H1 H2].
  destruct (ended _); auto.
Qed.

(** The key was pressed before the first [QUIT] of the queue. *)
Fixpoint pressed (k : key) (evs : list event) : bool :=
  match evs with
  | [] => false
  | QUIT :: _ => false
  | KEYDOWN k' :: evs' => bool_decide (k' = k) || pressed k evs'
  | _ :: evs' => pressed k evs'
  end.

Lemma process_events_loop_flags (evs : list event) (self : t F) (w : World F) :
  process_events_loop evs (self, w)
  = (Ok (if bool_decide (QUIT ∈ evs) then Some false else None),
     (set_reset (_reset self || pressed K_r evs)
                (set_tip_over (_tip_over self || pressed K_SPACE evs) self), w)).
Proof.
  revert self. induction evs as [|ev evs IH]; intros self.
  { cbn. rewrite !orb_false_r. destruct self. reflexivity. }
  assert (Hskip : ev <> QUIT -> bool_decide (QUIT ∈ ev :: evs) = bool_decide (QUIT ∈ evs)).
  { intros Hne. apply bool_decide_ext. rewrite elem_of_cons. split; [|auto].
    intros [E|H]; [congruence | exact H]. }
  destruct ev as [|[]| | |]; cbn [process_events_loop pressed];
    try (rewrite IH, Hskip by discriminate; reflexivity).
  - rewrite bool_decide_eq_true_2 by left. rewrite !orb_false_r. destruct self. reflexivity.
  - mrun. rewrite IH, Hskip by discriminate. destruct self; cbn.
    rewrite orb_true_r. reflexivity.
  - mrun. rewrite IH, Hskip by discriminate. destruct self; cbn.
    rewrite orb_true_r. reflexivity.
Qed.

(** X15.  A press of the space bar acts once, in the frame in which it
    is read.  From a state with both flags clear and grains with bodies of
    their own, when the queue holds no R key before its first [QUIT]:
    [process_events] followed by [run_logic] returns and leaves the object as
    it was (both flags clear again).  The bodies are those that [Space.step]
    left, except that, when the space bar was pressed before the first
    [QUIT] (once or several times), the body of every grain is mirrored once
    from [(x, y)] to [(x, 2 * center_y - y)]; a [QUIT] in the queue does not
    prevent this. *)
Theorem sand_clock_tip_over_once (self : t F) (w : World F) :
  let evs := event_queue w in
  let c := (SandClockStructure.center (sand_clock_structure self)).2 in
  let after_events := (process_events (self, w)).2 in
  let stepped := (Space_step (space self) after_events.2).2 in
  NoDup (SandGrain.body <$> sand_grains_list self) ->
  _tip_over self = false -> _reset self = false -> pressed K_r evs = false ->
  exists w',
    run_logic after_events = (Ok tt, (self, w'))
    /\ forall i,
         body_of w' i
         = if pressed K_SPACE evs && bool_decide (i ∈ SandGrain.body <$> sand_grains_list self)
           then set_position (SandClockFacts.mirrored c (position (body_of stepped i)))
                             (body_of stepped i)
           else body_of stepped i.
Proof.
  cbv zeta. intros Hnd Ht Hr Hk.
  unfold process_events, pygame_event_get, log. mrun. cbn [event_queue set_calls].
  rewrite process_events_loop_flags, Ht, Hr, Hk. cbn [orb].
  set (w1 := set_event_queue _ _).
  assert (H : exists w',
             run_logic (set_reset false (set_tip_over (pressed K_SPACE (event_queue w)) self),
                        w1) = (Ok tt, (self, w'))
             /\ forall i,
                 body_of w' i
                 = if pressed K_SPACE (event_queue w)
                      && bool_decide (i ∈ SandGrain.body <$> sand_grains_list self)
                   then set_position
                          (SandClockFacts.mirrored
                             (SandClockStructure.center (sand_clock_structure self)).2
                             (position (body_of (Space_step (space self) w1).2 i)))
                          (body_of (Space_step (space self) w1).2 i)
                   else body_of (Space_step (space self) w1).2 i).
  2: { destruct (bool_decide (QUIT ∈ event_queue w)); exact H. }
  destruct self as [cfg sp st gr t r]. cbn [_tip_over _reset] in Ht, Hr. subst t r.
  cbn [sand_grains_list sand_clock_structure space] in *.
  unfold run_logic. mrun. unfold Space_step at 1, log. mrun.
  cbn [_tip_over _reset set_reset set_tip_over space _config sand_clock_structure
       sand_grains_list].
  set (stepped := set_bodies _ _).
  change (Space_step sp w1).2 with stepped.
  destruct (pressed K_SPACE (event_queue w)).
  - rewrite SandClockFacts.flip_vertically_eq.
    cbn [_tip_over _reset set_reset set_tip_over space _config sand_clock_structure
         sand_grains_list fst snd].
    destruct (SandClockFacts.flip_each (SandClockStructure.center st).2 gr
                (mk cfg sp st gr false false) stepped Hnd) as (w2 & E & _ & Hpos).
    change (set_tip_over false (set_reset false (set_tip_over true
              (mk cfg sp st gr false false)))) with (mk cfg sp st gr false false).
    rewrite E. cbn [_reset fst snd]. exists w2. split; [reflexivity|].
    intros i. rewrite Hpos. cbn [andb].
    destruct (decide (i ∈ SandGrain.body <$> gr)) as [Hi|Hi].
    + rewrite bool_decide_eq_true_2 by exact Hi. reflexivity.
    + rewrite bool_decide_eq_false_2 by exact Hi. reflexivity.
  - cbn [_reset fst snd]. exists stepped. split; reflexivity.
Qed.

End More.

(** The space bar is pressed twice between two frames. *)
Definition two_presses : World Qc :=
  set_event_queue [KEYDOWN K_SPACE; MOUSEBUTTONDOWN; KEYDOWN K_SPACE]
                  (Examples.sc_world Examples.world_Qc).

Lemma sand_clock_tip_over_once_witness :
  exists w',
    SandClock.run_logic (SandClock.process_events (Examples.sc_self, two_presses)).2
    = (Ok tt, (Examples.sc_self, w'))
    /\ position (body_of w' 2) = (Qc_of_Z 250, Qc_of_Z 150).
Proof.
  destruct (sand_clock_tip_over_once Examples.sc_self two_presses
              Examples.sc_grains_distinct eq_refl eq_refl eq_refl) as (w' & E & Hpos).
  exists w'. split; [exact E|]. rewrite Hpos.
  vm_compute. f_equal; apply Qc_is_canon; reflexivity.
Defined.

End SandClockMore.

(** ** solar_system, again *)

Module SolarSystemMore.
Section More.
Context {F : Type}.
Import SolarSystem.

Definition sum_list (l : list Z) : Z := foldr Z.add 0 l.

Lemma sum_list_app (l k : list Z) : sum_list (l ++ k) = sum_list l + sum_list k.
Proof.
  unfold sum_list. induction l as [|x l IH]; cbn [foldr app]; [reflexivity|].
  rewrite IH. lia.
Qed.

(** The lists of the configuration have an entry for each of [n] planets. *)
Definition enough (cfg : Config) (n : nat) : Prop :=
  (n <= length (planets_radius cfg))%nat
  /\ (n <= length (planets_translation_steps cfg))%nat
  /\ (n <= length (planets_colors cfg))%nat.

(** The [y] coordinate of the lower edge of planet [i], as the loop of the
    constructor reaches it: the sun, the planets before it and the gaps
    lie below. *)
Definition lower_edge (cfg : Config) (i : nat) : Z :=
  screen_height cfg / 2 - sun_radius cfg - (Z.of_nat i + 1) * intra_planets_distance cfg
  - 2 * sum_list (take i (planets_radius cfg)).

(** Planet [i] as the constructor builds it. *)
Definition placed (cfg : Config) (i : nat) (p : Planet.t) : Prop :=
  planets_radius cfg !! i = Some (Planet.radius p)
  /\ planets_translation_steps cfg !! i = Some (Planet.translation_step p)
  /\ planets_colors cfg !! i = Some (Planet.color p)
  /\ Planet.screen_center p = point (screen_width cfg / 2, screen_height cfg / 2)
  /\ Planet.center p = point (screen_width cfg / 2, lower_edge cfg i - Planet.radius p)
  /\ Planet.original_vector_norm p
     = Rabs (IZR (screen_height cfg / 2 - (lower_edge cfg i - Planet.radius p))).

Lemma distance_vertical (x y y' : R) : Planet.distance (x, y) (x, y') = Rabs (y - y').
Proof.
  unfold Planet.distance. cbn [fst snd].
  replace ((x - x) ^ 2 + (y - y') ^ 2)%R with (Rsqr (y - y')) by (unfold Rsqr; ring).
  apply sqrt_Rsqr_abs.
Qed.

Lemma create_planets_placed (cfg : Config) (n i : nat) (acc : list Planet.t) (w : World F) :
  length acc = i ->
  (forall j p, acc !! j = Some p -> placed cfg j p) ->
  match (create_planets n i cfg (screen_width cfg / 2, screen_height cfg / 2)
                        (lower_edge cfg i) acc w).1 with
  | Ok l =>
      (n = 0%nat \/ enough cfg (i + n)) /\ length l = (i + n)%nat
      /\ forall j p, l !! j = Some p -> placed cfg j p
  | Raise e => e = IndexError /\ ~ enough cfg (i + n)
  end.
Proof.
  revert i acc w. induction n as [|n IH]; intros i acc w Hlen Hacc; cbn [create_planets].
  { cbn. split; [left; reflexivity|]. split; [lia | exact Hacc]. }
  unfold index, choice_bool, rng_draw. mrun.
  destruct (planets_radius cfg !! i) as [r|] eqn:Er; mrun.
  2: { split; [reflexivity|]. apply lookup_ge_None in Er. unfold enough. lia. }
  destruct (planets_translation_steps cfg !! i) as [ts|] eqn:Es; mrun.
  2: { split; [reflexivity|]. apply lookup_ge_None in Es. unfold enough. lia. }
  destruct (planets_colors cfg !! i) as [c|] eqn:Ec; mrun.
  2: { split; [reflexivity|]. apply lookup_ge_None in Ec. unfold enough. lia. }
  cbn [Planet.radius Planet.init].
  set (planet := Planet.init _ _ _ _ _ _).
  assert (Hplanet : placed cfg i planet).
  { unfold placed, planet. cbn.
    repeat (split; [first [assumption | reflexivity]|]).
    unfold point. cbn [fst snd]. rewrite distance_vertical, <- minus_IZR. reflexivity. }
  replace (lower_edge cfg i - r - (r + intra_planets_distance cfg)) with (lower_edge cfg (S i)).
  2: { unfold lower_edge. rewrite (take_S_r _ _ _ Er), sum_list_app. cbn. lia. }
  match goal with
  | |- context [create_planets n (S i) cfg ?c ?y ?a ?w1] =>
      specialize (IH (S i) a w1)
  end.
  destruct (create_planets n (S i) cfg _ _ _ _) as [[l|e] w2]; cbn [fst] in *.
  - destruct IH as (He & Hl & Hp).
    + rewrite length_app. cbn. lia.
    + intros j p. destruct (decide (j < i)%nat) as [Hj|Hj].
      * rewrite lookup_app_l by lia. apply Hacc.
      * rewrite lookup_app_r by lia. rewrite Hlen.
        destruct (j - i)%nat as [|k] eqn:Ek; [|destruct k; discriminate].
        intros [= <-]. assert (j = i) by lia. subst j.
        exact Hplanet.
    + split; [|split; [lia | exact Hp]]. right.
      destruct He as [->|He]; [|replace (i + S n)%nat with (S i + n)%nat by lia; exact He].
      apply lookup_lt_Some in Er, Es, Ec. unfold enough. lia.
  - rewrite Nat.add_succ_r. apply IH.
    + rewrite length_app. cbn. lia.
    + intros j p. destruct (decide (j < i)%nat) as [Hj|Hj].
      * rewrite lookup_app_l by lia. apply Hacc.
      * rewrite lookup_app_r by lia. rewrite Hlen.
        destruct (j - i)%nat as [|k] eqn:Ek; [|destruct k; discriminate].
        intros [= <-]. assert (j = i) by lia. subst j.
        exact Hplanet.
Qed.


(** *** The planets stay on their orbits *)

(** A planet [p] that moved from where [p0] was, along the orbit of [p0]. *)
Definition orbits (p0 p : Planet.t) : Prop :=
  PlanetFacts.on_orbit p
  /\ Planet.screen_center p = Planet.screen_center p0
  /\ Planet.original_vector_norm p = Planet.original_vector_norm p0
  /\ Planet.radius p = Planet.radius p0.

Lemma orbits_update (p0 p : Planet.t) :
  orbits p0 p -> exists p', Planet.update p = (Ok tt, p') /\ orbits p0 p'.
Proof.
  intros (Ho & Hs & Hn & Hr).
  destruct (PlanetFacts.update_on_orbit p Ho) as (p' & E & Ho' & Hs' & Hn').
  exists p'. split; [exact E|]. unfold orbits.
  split; [exact Ho'|]. split; [congruence|]. split; [congruence|].
  rewrite <- Hr. revert E. unfold Planet.update.
  destruct (if Planet.clockwise_translation p then _ else _) as [vx vy].
  destruct (Req_dec_T _ 0); [discriminate|]. intros [= <-]. reflexivity.
Qed.

Lemma update_planets_orbits (todo0 todo done : list Planet.t) (self : t) :
  Forall2 orbits todo0 todo ->
  planets_list self = done ++ todo ->
  exists todo',
    update_planets done todo self = (Ok tt, set_planets_list (done ++ todo') self)
    /\ Forall2 orbits todo0 todo'.
Proof.
  intros H. revert done self. induction H as [|p0 p todo0 todo Hp Hrest IH]; intros done self E.
  - exists []. split; [|constructor]. cbn [update_planets]. rewrite <- E.
    destruct self; reflexivity.
  - destruct (orbits_update p0 p Hp) as (p' & Eu & Hp').
    cbn [update_planets]. rewrite Eu. mrun.
    destruct (IH (done ++ [p']) (set_planets_list (done ++ p' :: todo) self))
      as (todo' & E' & H').
    { cbn [planets_list set_planets_list]. rewrite <- app_assoc. reflexivity. }
    exists (p' :: todo'). split; [|constructor; assumption].
    rewrite E'. rewrite <- app_assoc. reflexivity.
Qed.

Lemma runs_read_only {X A} (I : X -> Prop) (m : M (X * World F) A) :
  ProgramsMore.read_only m ->
  ColorfulFloodingFacts.runs (fun s => I s.1) m (fun _ s => I s.1).
Proof.
  intros Hm s Hs. destruct (Hm s) as (a & w' & E & _). exists a, (s.1, w').
  split; [exact E | exact Hs].
Qed.

Lemma sum_list_nonneg (l : list Z) : Forall (Z.le 0) l -> 0 <= sum_list l.
Proof.
  unfold sum_list. induction 1 as [|x l Hx Hl IH]; cbn [foldr]; lia.
Qed.

Lemma placed_on_orbit (cfg : Config) (i : nat) (p : Planet.t) :
  0 <= sun_radius cfg -> 0 < intra_planets_distance cfg ->
  Forall (Z.le 0) (planets_radius cfg) ->
  placed cfg i p ->
  PlanetFacts.on_orbit p
  /\ Planet.original_vector_norm p
     = IZR (sun_radius cfg + (Z.of_nat i + 1) * intra_planets_distance cfg
            + 2 * sum_list (take i (planets_radius cfg)) + Planet.radius p).
Proof.
  intros Hs Hd Hr (Er & _ & _ & Esc & Ec & En).
  assert (Hsum : 0 <= sum_list (take i (planets_radius cfg))).
  { apply sum_list_nonneg. apply list.Forall_forall. intros x Hx.
    rewrite list.Forall_forall in Hr. apply Hr.
    apply (subseteq_take i). exact Hx. }
  assert (Hrad : 0 <= Planet.radius p).
  { rewrite list.Forall_forall in Hr. apply Hr. eapply list_elem_of_lookup_2. exact Er. }
  assert (Hlt : 0 < screen_height cfg / 2 - (lower_edge cfg i - Planet.radius p)).
  { unfold lower_edge. nia. }
  split; [split|].
  - rewrite Ec, Esc. unfold point. cbn [fst snd]. intros [= E%eq_IZR]. lia.
  - rewrite Ec, Esc, En. unfold point. cbn [fst snd].
    rewrite distance_vertical, <- minus_IZR. reflexivity.
  - rewrite En, Rabs_pos_eq by (apply IZR_le; lia). f_equal. unfold lower_edge. lia.
Qed.

(** X17.  With a sun radius at least 0, a positive
    [intra_planets_distance] and no negative planet radius, a run of
    solar_system never raises once the constructor has returned, and at its
    end there are still [n_planets] planets, planet [i] at distance
    [sun_radius + (i + 1) * intra_planets_distance
     + 2 * (radius_0 + ... + radius_(i-1)) + radius_i]
    from the centre of the screen, over the real numbers: the orbits neither
    shrink nor grow, whatever the translation steps and the number of
    frames. *)
Theorem solar_system_planets_stay_on_orbit
        (cfg : Config) (frames : list Frame) (w : World F) :
  0 <= sun_radius cfg -> 0 < intra_planets_distance cfg ->
  Forall (Z.le 0) (planets_radius cfg) ->
  match init cfg w with
  | (Ok self, w') =>
      let r := main_loop simulation frames (self, w') in
      (forall e, ended r <> Crashed e)
      /\ length (planets_list (final r).1) = Z.to_nat (n_planets cfg)
      /\ forall i p,
           planets_list (final r).1 !! i = Some p ->
           exists radius,
             planets_radius cfg !! i = Some radius
             /\ Planet.distance (point (screen_width cfg / 2, screen_height cfg / 2))
                                (Planet.center p)
                = IZR (sun_radius cfg + (Z.of_nat i + 1) * intra_planets_distance cfg
                       + 2 * sum_list (take i (planets_radius cfg)) + radius)
  | (Raise _, _) => True
  end.
Proof.
  intros Hs Hd Hr.
  assert (E0 : screen_height cfg / 2 - (sun_radius cfg + intra_planets_distance cfg)
               = lower_edge cfg 0).
  { unfold lower_edge. rewrite take_0. cbn [sum_list foldr]. lia. }
  destruct (init cfg w) as [[self|e] w'] eqn:Ei; [|exact I].
  assert (Hinit : length (planets_list self) = Z.to_nat (n_planets cfg)
                  /\ forall i p, planets_list self !! i = Some p -> placed cfg i p).
  { revert Ei. unfold init, open_window, log, Sun.init. mrun. cbn [Sun.radius]. rewrite E0.
    match goal with
    | |- context [create_planets ?n 0 cfg ?c ?y [] ?w1] =>
        pose proof (create_planets_placed cfg n 0 [] w1 eq_refl) as H
    end.
    destruct (create_planets _ _ _ _ _ _ _) as [[l|e] w2]; cbn [fst] in H; [|discriminate].
    intros [= <- _]. cbn [planets_list].
    destruct H as (_ & Hl & Hp); [intros j p Hj; discriminate Hj|]. auto. }
  destruct Hinit as [Hlen Hplaced]. cbv zeta.
  set (I := fun s : St F => Forall2 orbits (planets_list self) (planets_list s.1)).
  destruct (LoopFacts.main_loop_runs simulation I) with (frames := frames) (s := (self, w'))
    as [Hne Hfin].
  - intros f s H. exact H.
  - intros [self1 w1] H. unfold simulation, sim_process_events, process_events,
      pygame_event_get, log. mrun.
    destruct (process_events_loop _) as [b|]; eexists _, _; (split; [reflexivity | exact H]).
  - intros [self1 w1] H. unfold simulation, sim_run_logic, run_logic. mrun.
    destruct (update_planets_orbits (planets_list self) (planets_list self1) [] self1 H eq_refl)
      as (todo' & E & H').
    rewrite E. eexists _, _. split; [reflexivity | exact H'].
  - apply (runs_read_only (fun x => Forall2 orbits (planets_list self) (planets_list x))).
    unfold simulation, sim_draw, draw, Sun.draw, Planet.draw.
    repeat first [ apply ProgramsMore.read_only_log | apply ProgramsMore.read_only_gets
                 | apply ProgramsMore.read_only_for_each; intros ?
                 | apply ProgramsMore.read_only_bind; [|intros ?] ].
  - apply (runs_read_only (fun x => Forall2 orbits (planets_list self) (planets_list x))).
    unfold simulation, sim_clock_tick, clock_tick.
    repeat first [ apply ProgramsMore.read_only_log | apply ProgramsMore.read_only_gets
                 | apply ProgramsMore.read_only_bind; [|intros ?] ].
  - unfold I. cbn [fst]. apply Forall2_lookup. intros i.
    destruct (planets_list self !! i) as [p|] eqn:Ep; constructor.
    destruct (placed_on_orbit cfg i p Hs Hd Hr (Hplaced i p Ep)) as [Ho _].
    repeat split; apply Ho.
  - split; [exact Hne|]. unfold I in Hfin. split.
    + rewrite <- Hlen. symmetry. eapply Forall2_length, Hfin.
    + intros i p Hp.
      destruct (Forall2_lookup_r _ _ _ _ _ Hfin Hp) as (p0 & Hp0 & Ho & Hsc & Hn & Hrad).
      pose proof (Hplaced i p0 Hp0) as Hpl.
      destruct (placed_on_orbit cfg i p0 Hs Hd Hr Hpl) as [_ Hnorm].
      destruct Hpl as (Er & _ & _ & Esc & _).
      exists (Planet.radius p0). split; [exact Er|].
      rewrite <- Hnorm, <- Hn, <- Esc, <- Hsc. apply Ho.
Qed.

End More.

(** Two planets of radius 10 and 15 around a sun of radius 30. *)
Definition two_planets : SolarSystem.Config :=
  SolarSystem.mkConfig "solar_system" "background.png" 800 600 30 [255; 255; 0] 20 2
                       [10; 15] [0.01; 0.02]%R [[0; 0; 255]; [255; 0; 0]] 60.

Lemma solar_system_planets_stay_on_orbit_witness :
  let frames := [mkFrame [] (0, 0); mkFrame [KEYDOWN K_SPACE] (5, 5); mkFrame [QUIT] (0, 0)] in
  exists self w',
    SolarSystem.init two_planets Examples.world_Qc = (Ok self, w')
    /\ let r := main_loop SolarSystem.simulation frames (self, w') in
       (forall e, ended r <> Crashed e)
       /\ length (SolarSystem.planets_list (final r).1) = 2%nat
       /\ forall p, SolarSystem.planets_list (final r).1 !! 1%nat = Some p ->
                    Planet.distance (IZR 400, IZR 300) (Planet.center p) = IZR 105.
Proof.
  cbv zeta.
  pose proof (solar_system_planets_stay_on_orbit two_planets
                [mkFrame [] (0, 0); mkFrame [KEYDOWN K_SPACE] (5, 5); mkFrame [QUIT] (0, 0)]
                Examples.world_Qc) as H.
  destruct (SolarSystem.init two_planets Examples.world_Qc) as [[self|e] w'] eqn:Ei;
    [|exfalso; revert Ei; vm_compute; discriminate].
  exists self, w'. split; [reflexivity|].
  destruct H as (Hne & Hlen & Hp).
  - cbn. lia.
  - cbn. lia.
  - cbn. repeat constructor; lia.
  - split; [exact Hne|]. split; [exact Hlen|].
    intros p Ep. destruct (Hp 1%nat p Ep) as (radius & Er & Ed).
    cbn in Er. injection Er as <-. exact Ed.
Defined.

End SolarSystemMore.

(** ** shooting_star, again *)

Module ShootingStarMore.
Section More.
Context {F : Type} {NF : Num F}.
Import ShootingStar.

(** A configuration whose ranges of radii and lifespans are not empty, and
    whose lifespans are positive. *)
Definition good_config (cfg : Config) : Prop :=
  min_radius cfg < max_radius cfg /\ 0 < min_lifespan cfg < max_lifespan cfg.

(** The body and the shape of a spark are in the space. *)
Definition held (sp : Space F) (spark : Spark.t F) : Prop :=
  Spark.body spark ∈ sp_bodies sp
  /\ sp_shapes sp !! shape_id (Spark.shape spark) = Some (Spark.shape spark).

(** What every state of a run satisfies. *)
Definition steady (cfg : Config) (s : St F) : Prop :=
  _config s.1 = cfg
  /\ Forall (fun spark => Spark.lifespan spark <> 0 /\ held (space s.1) spark) (spark_list s.1)
  /\ (forall i, i ∈ sp_bodies (space s.1) -> (i < next_id s.2)%nat)
  /\ (forall k sh, sp_shapes (space s.1) !! k = Some sh -> (k < next_id s.2)%nat).

(** The space of [s'] holds what the space of [s] holds. *)
Definition grown (s s' : St F) : Prop :=
  sp_bodies (space s.1) ⊆ sp_bodies (space s'.1)
  /\ sp_shapes (space s.1) ⊆ sp_shapes (space s'.1).

Lemma grown_refl (s : St F) : grown s s.
Proof. split; reflexivity. Qed.

Lemma grown_trans (s1 s2 s3 : St F) : grown s1 s2 -> grown s2 s3 -> grown s1 s3.
Proof. intros [H1 H2] [H3 H4]. split; etrans; eassumption. Qed.

Lemma runs_Spark_init {X} (self : X) (n : nat) pos color radius lifespan :
  ColorfulFloodingFacts.runs (fun s : X * World F => s.1 = self /\ next_id s.2 = n)
    (on_world (Spark.init pos color radius lifespan))
    (fun spark s => (Spark.body spark = n /\ shape_id (Spark.shape spark) = S n
                     /\ Spark.lifespan spark = lifespan)
                    /\ (s.1 = self /\ next_id s.2 = S (S n))).
Proof.
  intros [x w] [Hx Hn]. cbn [fst snd] in *. subst.
  eexists _, _. split; [reflexivity|]. repeat split.
Qed.

Lemma add_spark_steady cfg (spark : Spark.t F) (self : t F) (w : World F) :
  steady cfg (self, w) ->
  (next_id w <= Spark.body spark)%nat -> (next_id w <= shape_id (Spark.shape spark))%nat ->
  Spark.lifespan spark <> 0 ->
  forall w', (Spark.body spark < next_id w')%nat ->
             (shape_id (Spark.shape spark) < next_id w')%nat ->
  exists s',
    (on_self (modify (fun self => set_spark_list (spark_list self ++ [spark]) self));;
     space_add [OBody (Spark.body spark); OShape (Spark.shape spark)]) (self, w')
    = (Ok tt, s')
    /\ steady cfg s' /\ grown (self, w) s'.
Proof.
  intros (Hc & Hsp & Hb & Hs) Hnb Hns Hl w' Hb' Hs'. cbn [fst snd] in *.
  assert (Hfb : Spark.body spark ∉ sp_bodies (space self)).
  { intros H%Hb. lia. }
  assert (Hfs : sp_shapes (space self) !! shape_id (Spark.shape spark) = None).
  { destruct (sp_shapes (space self) !! shape_id (Spark.shape spark)) as [sh|] eqn:E;
      [|reflexivity]. apply Hs in E. lia. }
  unfold space_add, attr_space_add, log, Space_add. cbn [for_each]. unfold Space_add1. mrun.
  cbn [space set_spark_list sp_bodies sp_shapes].
  rewrite decide_False by exact Hfb. mrun. cbn [sp_shapes]. rewrite Hfs. mrun.
  eexists. split; [reflexivity|].
  split; [split; [exact Hc|]; split; [|split]|split]; cbn [fst snd space set_space
    set_spark_list spark_list sp_bodies sp_shapes _config next_id set_calls].
  - apply Forall_app. split.
    + eapply list.Forall_impl; [exact Hsp|]. intros x (Hx & Hx1 & Hx2).
      split; [exact Hx|]. split; cbn [sp_bodies sp_shapes].
      * apply elem_of_union. right. exact Hx1.
      * rewrite lookup_insert_ne; [exact Hx2|]. intros E. rewrite E, Hx2 in Hfs.
        discriminate Hfs.
    + constructor; [|constructor]. split; [exact Hl|]. split; cbn [sp_bodies sp_shapes].
      * apply elem_of_union. left. apply elem_of_singleton. reflexivity.
      * apply lookup_insert_eq.
  - intros i [->%elem_of_singleton|H%Hb]%elem_of_union; [exact Hb' | lia].
  - intros k sh. destruct (decide (k = shape_id (Spark.shape spark))) as [->|Hk].
    + intros _. exact Hs'.
    + rewrite lookup_insert_ne by congruence. intros H%Hs. lia.
  - apply union_subseteq_r.
  - apply insert_subseteq. exact Hfs.
Qed.

Lemma create_steady cfg (mouse_pos : Z * Z) (self : t F) (w : World F) :
  good_config cfg -> steady cfg (self, w) ->
  exists s', _create_and_add_a_new_spark mouse_pos (self, w) = (Ok tt, s')
             /\ steady cfg s' /\ grown (self, w) s'.
Proof.
  intros (Hr & Hl0 & Hl) Hst.
  assert (Hc : _config self = cfg) by apply Hst.
  assert (H : ColorfulFloodingFacts.runs
                (fun s : St F => s.1 = self /\ next_id s.2 = next_id w)
                (_create_and_add_a_new_spark mouse_pos)
                (fun _ s' => steady cfg s' /\ grown (self, w) s')).
  2: { destruct (H (self, w)) as ([] & s' & E & H'); [split; reflexivity|].
       exists s'. split; assumption. }
  unfold _create_and_add_a_new_spark.
  eapply ColorfulFloodingFacts.runs_bind
    with (R := fun c s => c = cfg /\ (s.1 = self /\ next_id s.2 = next_id w)).
  { intros s [Hs1 Hs2]. eexists _, _. split; [reflexivity|]. cbn. rewrite Hs1. auto. }
  intros c. apply ColorfulFloodingMore.runs_pure. intros ->.
  eapply ColorfulFloodingFacts.runs_bind; [apply LoopFacts.runs_draws, LoopFacts.draws_random_color|].
  intros color. apply ColorfulFloodingMore.runs_pure. intros _.
  eapply ColorfulFloodingFacts.runs_bind; [apply LoopFacts.runs_draws, LoopFacts.draws_randrange, Hr|].
  intros radius. apply ColorfulFloodingMore.runs_pure. intros _.
  eapply ColorfulFloodingFacts.runs_bind; [apply LoopFacts.runs_draws, LoopFacts.draws_randrange, Hl|].
  intros lifespan. apply ColorfulFloodingMore.runs_pure. intros Hlife.
  eapply ColorfulFloodingFacts.runs_bind; [apply LoopFacts.runs_draws, LoopFacts.draws_choice_sign|].
  intros sign. apply ColorfulFloodingMore.runs_pure. intros _. cbv zeta.
  eapply ColorfulFloodingFacts.runs_bind; [apply runs_Spark_init|].
  intros spark. apply ColorfulFloodingMore.runs_pure. intros (Eb & Es & El).
  intros [self1 w1] [E1 Hn1]. cbn [fst snd] in E1, Hn1. subst self1.
  destruct (add_spark_steady cfg spark self w Hst) with (w' := w1) as (s' & E & H1 & H2);
    try lia.
  exists tt, s'. split; [exact E|]. split; assumption.
Qed.


(** Both [steady] and [grown] look at the configuration, the space and
    the list of sparks of the object, and at the counter of the world. *)
Lemma steady_same cfg (self self' : t F) (w w' : World F) :
  _config self' = _config self -> space self' = space self ->
  spark_list self' = spark_list self -> (next_id w <= next_id w')%nat ->
  steady cfg (self, w) -> steady cfg (self', w').
Proof.
  intros E1 E2 E3 Hn (Hc & Hsp & Hb & Hs). unfold steady. cbn [fst snd] in *.
  rewrite E1, E2, E3. split; [exact Hc|]. split; [exact Hsp|]. split.
  - intros i H%Hb. lia.
  - intros k sh H%Hs. lia.
Qed.

Lemma grown_same (s0 : St F) (self self' : t F) (w w' : World F) :
  space self' = space self -> grown s0 (self, w) -> grown s0 (self', w').
Proof. unfold grown. cbn [fst snd]. intros ->. auto. Qed.

(** What a run keeps, starting from [s0]. *)
Definition kept_from cfg (s0 s : St F) : Prop := steady cfg s /\ grown s0 s.

Lemma runs_new_sparks cfg (s0 : St F) (n : nat) :
  good_config cfg ->
  ColorfulFloodingFacts.runs (kept_from cfg s0)
    (repeat_n n (mouse_pos ← on_world pygame_mouse_get_pos;
                 _create_and_add_a_new_spark mouse_pos))
    (fun _ => kept_from cfg s0).
Proof.
  intros Hg. induction n as [|n IH]; cbn [repeat_n].
  { apply ColorfulFloodingFacts.runs_ret. auto. }
  eapply ColorfulFloodingFacts.runs_bind with (R := fun _ => kept_from cfg s0);
    [|intros []; exact IH].
  intros [self w] [Hst Hgr].
  unfold mbind at 1, M_bind at 1, on_world at 1. cbn [fst snd].
  destruct (LoopFacts.draws_mouse_get_pos w) as (pos & w1 & E & _ & Hn). rewrite E.
  destruct (create_steady cfg pos self w1 Hg) as (s' & E' & H1 & H2).
  { revert Hst. apply steady_same; try reflexivity. lia. }
  exists tt, s'. split; [exact E'|]. split; [exact H1|].
  eapply grown_trans; [|exact H2]. revert Hgr. apply grown_same. reflexivity.
Qed.

Lemma remove_first_Forall {A} (P : A -> Prop) (f : A -> bool) (l l' : list A) :
  remove_first f l = Some l' -> Forall P l -> Forall P l'.
Proof.
  revert l'. induction l as [|x l IH]; intros l'; cbn [remove_first]; [discriminate|].
  destruct (f x).
  - intros [= <-] H. inversion H; assumption.
  - destruct (remove_first f l) as [l1|]; [|discriminate]. cbn. intros [= <-] H.
    inversion H; subst. constructor; [assumption | apply IH; auto].
Qed.

Lemma remove_first_found {A} (f : A -> bool) (l : list A) (x : A) :
  x ∈ l -> f x = true -> exists l', remove_first f l = Some l'.
Proof.
  induction l as [|y l IH]; [intros H; inversion H|].
  intros [->|H]%elem_of_cons Hx; cbn [remove_first].
  - rewrite Hx. eauto.
  - destruct (f y); [eauto|]. destruct (IH H Hx) as [l' ->]. cbn. eauto.
Qed.

Lemma shrink_spark_kept cfg (s0 : St F) (spark : Spark.t F) (self : t F) (w : World F) :
  spark ∈ spark_list self -> kept_from cfg s0 (self, w) ->
  exists l, shrink_spark spark (self, w) = (Ok tt, (set_spark_list l self, w))
            /\ (length l <= length (spark_list self))%nat
            /\ kept_from cfg s0 (set_spark_list l self, w).
Proof.
  intros Hin [(Hc & Hsp & Hb & Hs) Hgr]. cbn [fst snd] in *.
  pose proof Hsp as Hall. rewrite list.Forall_forall in Hall.
  destruct (Hall spark Hin) as (Hl & Hh).
  unfold shrink_spark. rewrite (SparkMore.zero_radius_once spark Hl). cbn [fst snd].
  set (spark' := Spark.mk _ _ _ _ _ _ _).
  set (l := (fun x => if Spark.same spark x then spark' else x) <$> spark_list self).
  assert (Hl' : Forall (fun x => Spark.lifespan x <> 0 /\ held (space self) x) l).
  { unfold l. apply list.Forall_fmap. eapply list.Forall_impl; [exact Hsp|].
    intros x Hx. cbn. destruct (Spark.same spark x); [|exact Hx].
    split; [exact Hl | exact Hh]. }
  assert (Hkept : forall l1, Forall (fun x => Spark.lifespan x <> 0 /\ held (space self) x) l1 ->
                             kept_from cfg s0 (set_spark_list l1 self, w)).
  { intros l1 H1. split; [|revert Hgr; apply grown_same; reflexivity].
    unfold steady. cbn [fst snd _config space spark_list set_spark_list]. auto. }
  destruct (_ =? 0).
  - assert (Hfound : exists l', remove_first (Spark.same spark) l = Some l').
    { apply (remove_first_found _ _ spark').
      - unfold l. apply list_elem_of_fmap. exists spark. split; [|exact Hin].
        unfold Spark.same. rewrite bool_decide_eq_true_2 by reflexivity. reflexivity.
      - unfold Spark.same. apply bool_decide_eq_true_2. reflexivity. }
    destruct Hfound as [l' El']. unfold list_remove. mrun. rewrite El'. mrun.
    exists l'. split; [destruct self; reflexivity|]. split.
    + assert (Hlen : forall (k k' : list (Spark.t F)),
                 remove_first (Spark.same spark) k = Some k' -> (length k' <= length k)%nat).
      { induction k as [|y k IHk]; intros k'; cbn [remove_first]; [discriminate|].
        destruct (Spark.same spark y); [intros [= <-]; cbn; lia|].
        destruct (remove_first _ k) as [k1|]; [|discriminate]. cbn. intros [= <-].
        cbn. specialize (IHk k1 eq_refl). lia. }
      apply Hlen in El'. unfold l in El'. rewrite length_fmap in El'. exact El'.
    + apply Hkept. eapply remove_first_Forall; eassumption.
  - exists l. split; [reflexivity|]. split; [unfold l; rewrite length_fmap; lia|].
    apply Hkept, Hl'.
Qed.

Lemma set_spark_list_twice (l l' : list (Spark.t F)) (self : t F) :
  set_spark_list l' (set_spark_list l self) = set_spark_list l' self.
Proof. reflexivity. Qed.

Lemma set_spark_list_same (self : t F) : set_spark_list (spark_list self) self = self.
Proof. destruct self. reflexivity. Qed.

Lemma shrink_loop_kept cfg (s0 : St F) (fuel i : nat) (self : t F) (w : World F) :
  kept_from cfg s0 (self, w) ->
  exists l,
    for_from fuel i (fun s : St F => spark_list s.1) shrink_spark (self, w)
    = (Ok tt, (set_spark_list l self, w))
    /\ kept_from cfg s0 (set_spark_list l self, w).
Proof.
  revert i self. induction fuel as [|fuel IH]; intros i self H; cbn [for_from].
  { exists (spark_list self). rewrite set_spark_list_same. split; [reflexivity | exact H]. }
  mrun. destruct (spark_list self !! i) as [spark|] eqn:Ei.
  2: { exists (spark_list self). rewrite set_spark_list_same. split; [reflexivity | exact H]. }
  mrun. apply list_elem_of_lookup_2 in Ei.
  destruct (shrink_spark_kept cfg s0 spark self w Ei H) as (l & E & _ & H1).
  rewrite E. destruct (IH (S i) (set_spark_list l self) H1) as (l' & E' & H').
  exists l'. rewrite set_spark_list_twice in E', H'. split; assumption.
Qed.

Lemma run_logic_kept cfg (s0 : St F) :
  good_config cfg ->
  ColorfulFloodingFacts.runs (kept_from cfg s0) run_logic (fun _ => kept_from cfg s0).
Proof.
  intros Hg. unfold run_logic.
  eapply ColorfulFloodingFacts.runs_bind with (R := fun _ => kept_from cfg s0).
  { apply ColorfulFloodingFacts.runs_gets. auto. }
  intros self.
  eapply ColorfulFloodingFacts.runs_bind with (R := fun _ => kept_from cfg s0).
  { intros [self1 w] [Hst Hgr]. eexists tt, _. split; [reflexivity|]. split.
    - revert Hst. apply steady_same; reflexivity.
    - revert Hgr. apply grown_same. reflexivity. }
  intros [].
  eapply ColorfulFloodingFacts.runs_bind with (R := fun _ => kept_from cfg s0).
  { destruct (_is_mouse_still_pressed self).
    - apply runs_new_sparks, Hg.
    - apply ColorfulFloodingFacts.runs_ret. auto. }
  intros [] [self1 w] H. unfold for_in. mrun.
  destruct (shrink_loop_kept cfg s0 (length (spark_list self1)) 0 self1 w H) as (l & E & H').
  eexists tt, _. split; [exact E | exact H'].
Qed.

Lemma process_events_kept cfg (s0 : St F) :
  ColorfulFloodingFacts.runs (kept_from cfg s0) process_events (fun _ => kept_from cfg s0).
Proof.
  intros [self w] H. unfold process_events, pygame_event_get, log. mrun.
  set (evs := event_queue _). set (w1 := set_event_queue _ _).
  assert (H1 : kept_from cfg s0 (self, w1)).
  { destruct H as [Hst Hgr]. split.
    - revert Hst. apply steady_same; reflexivity.
    - revert Hgr. apply grown_same. reflexivity. }
  assert (Hloop : forall self1 : t F,
             kept_from cfg s0 (self1, w1) ->
             exists r self2, process_events_loop evs (self1, w1) = (Ok r, (self2, w1))
                             /\ kept_from cfg s0 (self2, w1)).
  { clear H H1. induction evs as [|ev evs IH]; intros self1 H1.
    - exists None, self1. split; [reflexivity | exact H1].
    - destruct ev as [|k| | |]; cbn [process_events_loop]; try apply IH, H1.
      exists (Some false), self1. split; [reflexivity | exact H1]. }
  destruct (Hloop self H1) as (r & self2 & E & H2). rewrite E.
  destruct r as [b|]; eexists _, _; (split; [reflexivity | exact H2]).
Qed.

Lemma read_only_kept {A} cfg (s0 : St F) (m : M (St F) A) :
  ProgramsMore.read_only m ->
  ColorfulFloodingFacts.runs (kept_from cfg s0) m (fun _ => kept_from cfg s0).
Proof.
  intros Hm [self w] [Hst Hgr]. destruct (Hm (self, w)) as (a & w' & E & _ & Hn & _).
  cbn [fst snd] in *. exists a, (self, w'). split; [exact E|]. split.
  - revert Hst. apply steady_same; try reflexivity. lia.
  - revert Hgr. apply grown_same. reflexivity.
Qed.

Lemma main_loop_kept_from cfg (s0 : St F) (frames : list Frame) (s : St F) :
  good_config cfg -> kept_from cfg s0 s ->
  (forall e, ended (main_loop simulation frames s) <> Crashed e)
  /\ kept_from cfg s0 (final (main_loop simulation frames s)).
Proof.
  intros Hg. apply (LoopFacts.main_loop_runs simulation (kept_from cfg s0)).
  - intros f [self w] [Hst Hgr]. split.
    + revert Hst. apply steady_same; reflexivity.
    + revert Hgr. apply grown_same. reflexivity.
  - apply process_events_kept.
  - apply run_logic_kept, Hg.
  - apply read_only_kept. unfold simulation, sim_draw, draw, Spark.draw.
    repeat first [ apply ProgramsMore.read_only_log | apply ProgramsMore.read_only_gets
                 | apply ProgramsMore.read_only_for_each; intros ?
                 | apply ProgramsMore.read_only_bind; [|intros ?] ].
  - apply read_only_kept. unfold simulation, sim_clock_tick, clock_tick.
    repeat first [ apply ProgramsMore.read_only_log | apply ProgramsMore.read_only_gets
                 | apply ProgramsMore.read_only_bind; [|intros ?] ].
Qed.

Lemma init_steady cfg (w : World F) :
  exists self w', init cfg w = (Ok self, w') /\ steady cfg (self, w')
                  /\ spark_list self = [] /\ sp_bodies (space self) = ∅.
Proof.
  eexists _, _. split; [reflexivity|]. split; [|split; reflexivity].
  split; [reflexivity|]. split; [constructor|]. split.
  - intros i H. cbn in H. apply elem_of_empty in H. contradiction.
  - intros k sh H. cbn in H. rewrite lookup_empty in H. discriminate.
Qed.

(** X18.  With a non-empty range of radii and a non-empty range of
    positive lifespans, the constructor of shooting_star returns and no run
    ever raises, whatever the events, the random draws and the engine do.
    At the end of a run the body and the shape of every spark of
    [spark_list] are in the space.  The space only grows: a spark that
    leaves [spark_list] when its radius reaches 0 stays in the Pymunk space,
    so the space at the end of a run is contained in the space after any
    further frames. *)
Theorem shooting_star_never_crashes
        (cfg : Config) (frames more : list Frame) (w : World F) :
  good_config cfg ->
  exists self w',
    init cfg w = (Ok self, w')
    /\ let r := main_loop simulation frames (self, w') in
       let r' := main_loop simulation more (final r) in
       (forall e, ended r <> Crashed e) /\ (forall e, ended r' <> Crashed e)
       /\ Forall (held (space (final r).1)) (spark_list (final r).1)
       /\ sp_bodies (space (final r).1) ⊆ sp_bodies (space (final r').1)
       /\ sp_shapes (space (final r).1) ⊆ sp_shapes (space (final r').1).
Proof.
  intros Hg. destruct (init_steady cfg w) as (self & w' & E & Hst & _).
  exists self, w'. split; [exact E|]. cbv zeta.
  destruct (main_loop_kept_from cfg (self, w') frames (self, w') Hg) as [Hne [Hst1 _]].
  { split; [exact Hst | apply grown_refl]. }
  set (s1 := final (main_loop simulation frames (self, w'))) in *.
  destruct (main_loop_kept_from cfg s1 more s1 Hg) as [Hne' [_ Hgr]].
  { split; [exact Hst1 | apply grown_refl]. }
  split; [exact Hne|]. split; [exact Hne'|]. split; [|exact Hgr].
  destruct Hst1 as (_ & Hsp & _). eapply list.Forall_impl; [exact Hsp|].
  intros x [_ Hx]. exact Hx.
Qed.

End More.

(** Sparks of radius 1 that live for one frame, two of them in every frame
    in which the mouse is pressed. *)
Definition short_lived : ShootingStar.Config := ShootingStar.mkConfig 600 600 100 1 2 1 2 2 60.

Definition pressed_once : list Frame := [mkFrame [MOUSEBUTTONDOWN] (100, 100)].

Definition started : ShootingStar.St PrimFloat.float :=
  match ShootingStar.init short_lived Examples.world_float with
  | (Ok self, w) => (self, w)
  | (Raise _, w) => (ShootingStar.mk short_lived None false [] Space_empty, w)
  end.

Lemma shooting_star_never_crashes_witness :
  let r := main_loop ShootingStar.simulation pressed_once (started.1, started.2) in
  let r' := main_loop ShootingStar.simulation pressed_once (final r) in
  ShootingStar.init short_lived Examples.world_float = (Ok started.1, started.2)
  /\ (forall e, ended r <> Crashed e) /\ (forall e, ended r' <> Crashed e)
  /\ length (ShootingStar.spark_list (final r).1) = 1%nat
  /\ size (sp_bodies (ShootingStar.space (final r).1)) = 2%nat
  /\ sp_bodies (ShootingStar.space (final r).1) ⊆ sp_bodies (ShootingStar.space (final r').1).
Proof.
  cbv zeta.
  destruct (shooting_star_never_crashes short_lived pressed_once pressed_once
              Examples.world_float) as (self & w' & E & H).
  { unfold good_config. cbn. lia. }
  assert (Es : started = (self, w')) by (unfold started; rewrite E; reflexivity).
  rewrite Es. cbn [fst snd]. cbv zeta in H. destruct H as (H1 & H2 & _ & H3 & _).
  split; [exact E|]. split; [exact H1|]. split; [exact H2|].
  split; [|split; [|exact H3]].
  - rewrite <- Es. vm_compute. reflexivity.
  - rewrite <- Es. vm_compute. reflexivity.
Defined.

End ShootingStarMore.

(** ** rebound_collisions *)

Module ReboundCollisionsMore.
Section More.
Context {F : Type} {NF : Num F}.
Import ReboundCollisions.

(** A configuration none of whose five ranges is empty. *)
Definition ranges_not_empty (cfg : Config) : Prop :=
  min_mass cfg < max_mass cfg /\ min_moment cfg < max_moment cfg
  /\ min_radius cfg < max_radius cfg
  /\ min_velocity_x cfg < max_velocity_x cfg /\ min_velocity_y cfg < max_velocity_y cfg.

(** The body and the shape of a circle are in the space. *)
Definition circle_held (sp : Space F) (circle : ReboundCircle.t F) : Prop :=
  ReboundCircle.body circle ∈ sp_bodies sp
  /\ sp_shapes sp !! shape_id (ReboundCircle.shape circle) = Some (ReboundCircle.shape circle).

(** What every state of a run satisfies. *)
Definition settled (cfg : Config) (s : St F) : Prop :=
  _config s.1 = cfg
  /\ Forall (circle_held (space s.1)) (circle_list s.1)
  /\ (forall i, i ∈ sp_bodies (space s.1) -> (i < next_id s.2)%nat)
  /\ (forall k sh, sp_shapes (space s.1) !! k = Some sh -> (k < next_id s.2)%nat)
  /\ size (sp_bodies (space s.1)) = length (circle_list s.1).

Lemma settled_same cfg (self self' : t F) (w w' : World F) :
  _config self' = _config self -> space self' = space self ->
  circle_list self' = circle_list self -> (next_id w <= next_id w')%nat ->
  settled cfg (self, w) -> settled cfg (self', w').
Proof.
  intros E1 E2 E3 Hn (Hc & Hsp & Hb & Hs & Hz). unfold settled. cbn [fst snd] in *.
  rewrite E1, E2, E3. split; [exact Hc|]. split; [exact Hsp|]. split; [|split; [|exact Hz]].
  - intros i H%Hb. lia.
  - intros k sh H%Hs. lia.
Qed.

Lemma runs_Circle_init {X} (self : X) (n : nat) mass moment center radius velocity color :
  ColorfulFloodingFacts.runs (fun s : X * World F => s.1 = self /\ next_id s.2 = n)
    (on_world (ReboundCircle.init mass moment center radius velocity color))
    (fun circle s => (ReboundCircle.body circle = n
                      /\ shape_id (ReboundCircle.shape circle) = S n)
                     /\ (s.1 = self /\ next_id s.2 = S (S n))).
Proof.
  intros [x w] [Hx Hn]. cbn [fst snd] in *. subst.
  eexists _, _. split; [reflexivity|]. repeat split.
Qed.

Lemma add_circle_settled cfg (circle : ReboundCircle.t F) (self : t F) (w : World F) :
  settled cfg (self, w) ->
  (next_id w <= ReboundCircle.body circle)%nat ->
  (next_id w <= shape_id (ReboundCircle.shape circle))%nat ->
  forall w', (ReboundCircle.body circle < next_id w')%nat ->
             (shape_id (ReboundCircle.shape circle) < next_id w')%nat ->
  exists sp w'',
    (on_self (modify (fun self => set_circle_list (circle_list self ++ [circle]) self));;
     space_add [OBody (ReboundCircle.body circle); OShape (ReboundCircle.shape circle)])
      (self, w')
    = (Ok tt, (mk (_config self) (_mouse_pos self) sp (circle_list self ++ [circle]), w''))
    /\ settled cfg (mk (_config self) (_mouse_pos self) sp (circle_list self ++ [circle]), w'').
Proof.
  intros (Hc & Hsp & Hb & Hs & Hz) Hnb Hns w' Hb' Hs'. cbn [fst snd] in *.
  assert (Hfb : ReboundCircle.body circle ∉ sp_bodies (space self)).
  { intros H%Hb. lia. }
  assert (Hfs : sp_shapes (space self) !! shape_id (ReboundCircle.shape circle) = None).
  { destruct (sp_shapes (space self) !! shape_id (ReboundCircle.shape circle)) as [sh|] eqn:E;
      [|reflexivity]. apply Hs in E. lia. }
  unfold space_add, attr_space_add, log, Space_add. cbn [for_each]. unfold Space_add1. mrun.
  cbn [space set_circle_list sp_bodies sp_shapes].
  rewrite decide_False by exact Hfb. mrun. cbn [sp_shapes]. rewrite Hfs. mrun.
  eexists _, _. split; [reflexivity|].
  split; [exact Hc|]; split; [|split; [|split]];
    cbn [fst snd space circle_list sp_bodies sp_shapes _config next_id set_calls].
  - apply Forall_app. split.
    + eapply list.Forall_impl; [exact Hsp|]. intros x (Hx1 & Hx2).
      split; cbn [sp_bodies sp_shapes].
      * apply elem_of_union. right. exact Hx1.
      * rewrite lookup_insert_ne; [exact Hx2|]. intros E. rewrite E, Hx2 in Hfs.
        discriminate Hfs.
    + constructor; [|constructor]. split; cbn [sp_bodies sp_shapes].
      * apply elem_of_union. left. apply elem_of_singleton. reflexivity.
      * apply lookup_insert_eq.
  - intros i [->%elem_of_singleton|H%Hb]%elem_of_union; [exact Hb' | lia].
  - intros k sh. destruct (decide (k = shape_id (ReboundCircle.shape circle))) as [->|Hk].
    + intros _. exact Hs'.
    + rewrite lookup_insert_ne by congruence. intros H%Hs. lia.
  - rewrite size_union by (apply disjoint_singleton_l; exact Hfb).
    rewrite size_singleton, length_app, Hz. cbn. lia.
Qed.

Lemma bind_randrange {X B} (a b : Z) (f : Z -> M (X * World F) B) (x : X) (w : World F) :
  (on_world (randrange a b) ≫= f) (x, w)
  = if a <? b
    then f (a + Z.of_nat (rng w (rng_pos w)) mod (b - a)) (x, set_rng_pos (S (rng_pos w)) w)
    else (Raise (ValueError "empty range for randrange()"), (x, w)).
Proof.
  unfold mbind, M_bind, on_world. cbn [fst snd].
  rewrite LoopFacts.randrange_result. destruct (a <? b); reflexivity.
Qed.

Lemma bind_choice_sign {X B} (f : Z -> M (X * World F) B) (x : X) (w : World F) :
  (on_world choice_sign ≫= f) (x, w)
  = f (if Nat.even (rng w (rng_pos w)) then -1 else 1) (x, set_rng_pos (S (rng_pos w)) w).
Proof. reflexivity. Qed.

Lemma create_result cfg (center : Z * Z) (self : t F) (w : World F) :
  settled cfg (self, w) ->
  match _create_and_add_a_new_circle center (self, w) with
  | (Ok _, s') =>
      ranges_not_empty cfg
      /\ (exists sp circle,
            s'.1 = mk cfg (_mouse_pos self) sp (circle_list self ++ [circle]))
      /\ settled cfg s'
  | (Raise e, _) => e = ValueError "empty range for randrange()" /\ ~ ranges_not_empty cfg
  end.
Proof.
  intros Hst. assert (Hc : _config self = cfg) by apply Hst.
  unfold _create_and_add_a_new_circle, ranges_not_empty.
  unfold mbind at 1, M_bind at 1, gets at 1. cbn [fst snd]. cbv beta. rewrite Hc.
  unfold St.
  rewrite bind_randrange. destruct (_ <? _) eqn:E1 at 1;
    [apply Z.ltb_lt in E1 | apply Z.ltb_ge in E1; split; [reflexivity | lia]].
  set (w1 := set_rng_pos _ w).
  rewrite bind_randrange. destruct (_ <? _) eqn:E2 at 1;
    [apply Z.ltb_lt in E2 | apply Z.ltb_ge in E2; split; [reflexivity | lia]].
  set (w2 := set_rng_pos _ w1).
  rewrite bind_randrange. destruct (_ <? _) eqn:E3 at 1;
    [apply Z.ltb_lt in E3 | apply Z.ltb_ge in E3; split; [reflexivity | lia]].
  set (w3 := set_rng_pos _ w2).
  rewrite bind_randrange. destruct (_ <? _) eqn:E4 at 1;
    [apply Z.ltb_lt in E4 | apply Z.ltb_ge in E4; split; [reflexivity | lia]].
  set (w4 := set_rng_pos _ w3).
  rewrite bind_choice_sign. set (w5 := set_rng_pos _ w4). cbv zeta.
  rewrite bind_randrange. destruct (_ <? _) eqn:E5 at 1;
    [apply Z.ltb_lt in E5 | apply Z.ltb_ge in E5; split; [reflexivity | lia]].
  set (w6 := set_rng_pos _ w5).
  rewrite bind_choice_sign. set (w7 := set_rng_pos _ w6). cbv zeta.
  unfold mbind at 1, M_bind at 1, on_world at 1. cbn [fst snd].
  destruct (LoopFacts.draws_random_color w7) as (color & w8 & Ec & _ & Hn8).
  rewrite Ec.
  unfold mbind at 1, M_bind at 1.
  match goal with
  | |- context [on_world (ReboundCircle.init ?a ?b ?c ?d ?e ?f) (self, w8)] =>
      destruct (runs_Circle_init self (next_id w) a b c d e f (self, w8))
        as (circle & [self9 w9] & Ei & (Eb & Es) & (E9 & Hn9))
  end.
  { split; [reflexivity|]. cbn [snd]. rewrite Hn8. reflexivity. }
  rewrite Ei. cbn [fst snd] in E9, Hn9. subst self9.
  destruct (add_circle_settled cfg circle self w Hst) with (w' := w9)
    as (sp & w'' & E & Hst'); try lia.
  unfold St in *. rewrite E. cbn [fst]. rewrite Hc in *.
  split; [lia|]. split; [eauto | exact Hst'].
Qed.

Lemma init_result cfg (w : World F) :
  match init cfg w with
  | (Ok self, w') =>
      ranges_not_empty cfg /\ settled cfg (self, w') /\ _mouse_pos self = None
      /\ length (circle_list self) = 1%nat
  | (Raise e, _) => e = ValueError "empty range for randrange()" /\ ~ ranges_not_empty cfg
  end.
Proof.
  unfold init, Space_new, log. mrun.
  set (w1 := set_calls _ _). set (self0 := mk cfg None _ []).
  pose proof (create_result cfg (screen_width cfg / 2, screen_height cfg / 2) self0 w1) as H.
  destruct (_create_and_add_a_new_circle _ (self0, w1)) as [[[]|e] [self1 w2]].
  - destruct H as (Hg & (sp & circle & E) & Hst).
    + split; [reflexivity|]. split; [constructor|]. split; [|split; [|reflexivity]].
      * intros i Hi. cbn in Hi. apply elem_of_empty in Hi. contradiction.
      * intros k sh Hk. cbn in Hk. rewrite lookup_empty in Hk. discriminate.
    + cbn [fst] in E. subst self1. split; [exact Hg|]. split; [exact Hst|].
      split; reflexivity.
  - apply H. split; [reflexivity|]. split; [constructor|]. split; [|split; [|reflexivity]].
    + intros i Hi. cbn in Hi. apply elem_of_empty in Hi. contradiction.
    + intros k sh Hk. cbn in Hk. rewrite lookup_empty in Hk. discriminate.
Qed.

(** The mouse was clicked before the first [QUIT] of the queue. *)
Fixpoint clicked (evs : list event) : bool :=
  match evs with
  | [] => false
  | QUIT :: _ => false
  | MOUSEBUTTONDOWN :: _ => true
  | _ :: evs' => clicked evs'
  end.

Lemma process_events_loop_click (evs : list event) (self : t F) (w : World F) :
  exists w',
    process_events_loop evs (self, w)
    = (Ok (if bool_decide (QUIT ∈ evs) then Some false else None),
       (if clicked evs then set_mouse_pos (Some (mouse w)) self else self, w'))
    /\ next_id w' = next_id w /\ mouse w' = mouse w.
Proof.
  revert self w. induction evs as [|ev evs IH]; intros self w.
  { exists w. repeat split. }
  assert (Hskip : ev <> QUIT -> bool_decide (QUIT ∈ ev :: evs) = bool_decide (QUIT ∈ evs)).
  { intros Hne. apply bool_decide_ext. rewrite elem_of_cons. split; [|auto].
    intros [E|H]; [congruence | exact H]. }
  destruct ev as [|k| | |]; cbn [process_events_loop clicked];
    try (rewrite Hskip by discriminate; apply IH).
  - exists w. rewrite bool_decide_eq_true_2 by left. repeat split.
  - unfold pygame_mouse_get_pos, log. mrun. cbn [mouse set_calls].
    destruct (IH (set_mouse_pos (Some (mouse w)) self)
                 (set_calls (fun l => l ++ [lib_mouse_get_pos]) w)) as (w' & E & Hn & Hm).
    exists w'. rewrite E, Hskip by discriminate. cbn [mouse set_calls].
    split; [|split; assumption].
    destruct (clicked evs); reflexivity.
Qed.

Lemma Circle_update_quiet (circle : ReboundCircle.t F) (a b : Z) (w : World F) :
  exists w', ReboundCircle.update circle a b w = (Ok tt, w') /\ next_id w' = next_id w.
Proof.
  unfold ReboundCircle.update, Body_set_velocity. mrun.
  destruct (velocity _) as [vx vy]. destruct (position _) as [x y].
  eexists. split; reflexivity.
Qed.

Lemma update_all_quiet (l : list (ReboundCircle.t F)) (a b : Z) (self : t F) (w : World F) :
  exists w',
    for_each l (fun circle => on_world (ReboundCircle.update circle a b)) (self, w)
    = (Ok tt, (self, w'))
    /\ next_id w' = next_id w.
Proof.
  revert w. induction l as [|c l IH]; intros w; cbn [for_each].
  { exists w. split; reflexivity. }
  unfold mbind, M_bind, on_world at 1. cbn [fst snd].
  destruct (Circle_update_quiet c a b w) as (w1 & E & Hn). rewrite E.
  destruct (IH w1) as (w' & E' & Hn'). exists w'. rewrite E'. split; [reflexivity|congruence].
Qed.

Lemma run_logic_result cfg (self : t F) (w : World F) :
  ranges_not_empty cfg -> settled cfg (self, w) ->
  exists s',
    run_logic (self, w) = (Ok tt, s')
    /\ settled cfg s' /\ _mouse_pos s'.1 = None
    /\ length (circle_list s'.1)
       = (length (circle_list self)
          + match _mouse_pos self with Some _ => 1 | None => 0 end)%nat.
Proof.
  intros Hg Hst. unfold run_logic.
  unfold mbind at 1, M_bind at 1, gets at 1. cbn [fst snd]. cbv beta.
  unfold mbind at 1, M_bind at 1, on_world at 1. cbn [fst snd].
  destruct (Space_step (space self) w) as [r0 w1] eqn:Estep.
  assert (Hstep : r0 = Ok tt /\ next_id w1 = next_id w).
  { revert Estep. unfold Space_step, log. mrun. intros [= <- <-]. split; reflexivity. }
  destruct Hstep as [-> Hn1].
  unfold mbind at 1, M_bind at 1.
  destruct (update_all_quiet (circle_list self) (screen_width (_config self))
              (screen_height (_config self)) self w1) as (w2 & E2 & Hn2).
  unfold St in *. rewrite E2. cbn [fst snd].
  assert (Hst2 : settled cfg (self, w2)).
  { revert Hst. apply settled_same; try reflexivity. rewrite Hn2, Hn1. reflexivity. }
  unfold mbind at 1, M_bind at 1, gets at 1. cbn [fst snd]. cbv beta.
  destruct (_mouse_pos self) as [pos|] eqn:Em.
  - pose proof (create_result cfg pos self w2 Hst2) as H.
    destruct (_create_and_add_a_new_circle pos (self, w2)) as [[[]|e] [self3 w3]] eqn:Ec.
    2: { destruct H as [_ H]. contradiction. }
    destruct H as (_ & (sp & circle & E) & Hst3). cbn [fst] in E. subst self3.
    mrun. rewrite Ec. unfold log. mrun. eexists. split; [reflexivity|]. cbn [fst snd].
    split; [|split; [reflexivity|]].
    + revert Hst3. apply settled_same; reflexivity.
    + cbn. rewrite length_app. reflexivity.
  - mrun. eexists. split; [reflexivity|]. cbn [fst snd].
    split; [|split; [exact Em | lia]].
    revert Hst2. apply settled_same; reflexivity.
Qed.

(** The clicks that a run sees: one for every frame with a click, up to
    the frame that brings [QUIT]. *)
Fixpoint clicks (frames : list Frame) : nat :=
  match frames with
  | [] => 0
  | f :: frames' =>
      (if clicked (frame_events f) then 1 else 0)
      + (if bool_decide (QUIT ∈ frame_events f) then 0 else clicks frames')
  end.

Lemma iteration_circles cfg (f : Frame) (self : t F) (w : World F) :
  ranges_not_empty cfg -> settled cfg (self, w) -> _mouse_pos self = None ->
  exists self' w',
    iteration simulation (self, arrive f w)
    = (mkRun [called_process_events (PyBool (negb (bool_decide (QUIT ∈ frame_events f))));
              called_run_logic; called_draw; called_clock_tick] StillRunning (self', w'),
       Some (PyBool (negb (bool_decide (QUIT ∈ frame_events f)))))
    /\ settled cfg (self', w') /\ _mouse_pos self' = None
    /\ length (circle_list self')
       = (length (circle_list self) + if clicked (frame_events f) then 1 else 0)%nat.
Proof.
  intros Hg Hst Hm. unfold iteration.
  cbn [simulation sim_process_events sim_run_logic sim_draw sim_clock_tick].
  assert (Hp : exists self1 w1,
             process_events (self, arrive f w)
             = (Ok (PyBool (negb (bool_decide (QUIT ∈ frame_events f)))), (self1, w1))
             /\ settled cfg (self1, w1)
             /\ circle_list self1 = circle_list self
             /\ _mouse_pos self1
                = if clicked (frame_events f) then Some (frame_mouse f) else None).
  { unfold process_events, pygame_event_get, log. mrun.
    cbn [event_queue arrive set_mouse set_event_queue set_calls].
    set (w0 := set_event_queue [] _).
    destruct (process_events_loop_click (frame_events f) self w0) as (w1 & E1 & Hn1 & _).
    unfold St in *. rewrite E1. clear E1.
    eexists _, w1. split; [destruct (bool_decide _); reflexivity|].
    destruct (clicked (frame_events f)); cbn [circle_list set_mouse_pos _mouse_pos].
    - split; [|split; reflexivity].
      revert Hst. apply settled_same; try reflexivity. rewrite Hn1. reflexivity.
    - split; [|split; [reflexivity | exact Hm]].
      revert Hst. apply settled_same; try reflexivity. rewrite Hn1. reflexivity. }
  destruct Hp as (self1 & w1 & E1 & Hst1 & Hl1 & Hm1). rewrite E1.
  destruct (run_logic_result cfg self1 w1 Hg Hst1) as ([self2 w2] & E2 & Hst2 & Hm2 & Hl2).
  cbn [fst snd] in Hm2, Hl2. rewrite E2.
  assert (Hd : ProgramsMore.read_only (draw (F:=F))).
  { unfold draw, ReboundCircle.draw.
    repeat first [ apply ProgramsMore.read_only_log | apply ProgramsMore.read_only_gets
                 | apply ProgramsMore.read_only_for_each; intros ?
                 | apply ProgramsMore.read_only_bind; [|intros ?] ]. }
  assert (Hc : ProgramsMore.read_only (clock_tick (F:=F))).
  { unfold clock_tick.
    repeat first [ apply ProgramsMore.read_only_log | apply ProgramsMore.read_only_gets
                 | apply ProgramsMore.read_only_bind; [|intros ?] ]. }
  destruct (Hd (self2, w2)) as ([] & w3 & E3 & _ & Hn3 & _). cbn [fst snd] in *.
  rewrite E3.
  destruct (Hc (self2, w3)) as ([] & w4 & E4 & _ & Hn4 & _). cbn [fst snd] in *.
  rewrite E4.
  exists self2, w4. split; [reflexivity|]. split; [|split; [exact Hm2|]].
  - revert Hst2. apply settled_same; try reflexivity. lia.
  - rewrite Hl2, Hl1, Hm1. destruct (clicked _); reflexivity.
Qed.

Lemma main_loop_circles cfg (frames : list Frame) (self : t F) (w : World F) :
  ranges_not_empty cfg -> settled cfg (self, w) -> _mouse_pos self = None ->
  (forall e, ended (main_loop simulation frames (self, w)) <> Crashed e)
  /\ settled cfg (final (main_loop simulation frames (self, w)))
  /\ _mouse_pos (final (main_loop simulation frames (self, w))).1 = None
  /\ length (circle_list (final (main_loop simulation frames (self, w))).1)
     = (length (circle_list self) + clicks frames)%nat.
Proof.
  intros Hg. revert self w. induction frames as [|f frames IH]; intros self w Hst Hm.
  { cbn. split; [discriminate|]. split; [exact Hst|]. split; [exact Hm | lia]. }
  cbn [main_loop clicks fst snd].
  destruct (iteration_circles cfg f self w Hg Hst Hm) as (self' & w' & E & Hst' & Hm' & Hl').
  unfold St in *. rewrite E. cbn [truthy].
  destruct (bool_decide (QUIT ∈ frame_events f)); cbn [negb final ended fst snd].
  - split; [discriminate|]. split; [exact Hst'|]. split; [exact Hm' | lia].
  - destruct (IH self' w' Hst' Hm') as (H1 & H2 & H3 & H4).
    split; [exact H1|]. split; [exact H2|]. split; [exact H3 | lia].
Qed.


End More.
End ReboundCollisionsMore.

(** ** Spaces that hold exactly the objects of a list *)

Module SpaceFacts.
Section Facts.
Context {F : Type} {NF : Num F}.

(** The space holds the bodies and the shapes of the list, each once, and
    nothing else. *)
Definition holds_exactly (sp : Space F) (objs : list (nat * Shape F)) : Prop :=
  NoDup objs.*1 /\ NoDup (shape_id <$> objs.*2)
  /\ sp_bodies sp = list_to_set objs.*1
  /\ (forall sh, sh ∈ objs.*2 -> sp_shapes sp !! shape_id sh = Some sh)
  /\ dom (sp_shapes sp) = list_to_set (shape_id <$> objs.*2).

Lemma holds_exactly_size (sp : Space F) objs :
  holds_exactly sp objs -> size (sp_bodies sp) = length objs.
Proof.
  intros (Hb & _ & E & _). rewrite E, size_list_to_set by exact Hb.
  apply length_fmap.
Qed.

Lemma holds_exactly_add (sp : Space F) objs (b : nat) (sh : Shape F) :
  holds_exactly sp objs -> b ∉ objs.*1 -> shape_id sh ∉ shape_id <$> objs.*2 ->
  exists sp',
    Space_add [OBody b; OShape sh] sp = (Ok tt, sp')
    /\ gravity sp' = gravity sp
    /\ holds_exactly sp' (objs ++ [(b, sh)]).
Proof.
  intros (Hb & Hs & Eb & Hl & Ed) Hfb Hfs.
  assert (Hb' : b ∉ sp_bodies sp) by (rewrite Eb, elem_of_list_to_set; exact Hfb).
  assert (Hs' : sp_shapes sp !! shape_id sh = None).
  { apply not_elem_of_dom. rewrite Ed, elem_of_list_to_set. exact Hfs. }
  unfold Space_add. cbn [for_each]. unfold Space_add1. mrun.
  rewrite decide_False by exact Hb'. mrun. cbn [sp_shapes]. rewrite Hs'. mrun.
  eexists. split; [reflexivity|]. split; [reflexivity|].
  unfold holds_exactly. rewrite !fmap_app. cbn [fmap list_fmap fst snd sp_bodies sp_shapes].
  split; [|split; [|split; [|split]]].
  - apply list.NoDup_app. split; [exact Hb|]. split; [|apply NoDup_singleton].
    intros x Hx Hx'. apply list_elem_of_singleton in Hx'. subst x. contradiction.
  - apply list.NoDup_app. split; [exact Hs|]. split; [|apply NoDup_singleton].
    intros x Hx Hx'. apply list_elem_of_singleton in Hx'. subst x. contradiction.
  - rewrite list_to_set_app_L, Eb. cbn. rewrite (right_id_L ∅ (∪)). apply (comm_L (∪)).
  - intros sh' [H|H]%elem_of_app.
    + rewrite lookup_insert_ne; [apply Hl, H|]. intros E. apply Hfs. rewrite E.
      apply list_elem_of_fmap. eauto.
    + apply list_elem_of_singleton in H. subst sh'. apply lookup_insert_eq.
  - rewrite dom_insert_L, list_to_set_app_L, Ed. cbn. rewrite (right_id_L ∅ (∪)).
    apply (comm_L (∪)).
Qed.

Lemma holds_exactly_remove (sp : Space F) o1 o2 (b : nat) (sh : Shape F) :
  holds_exactly sp (o1 ++ (b, sh) :: o2) ->
  exists sp',
    Space_remove [OBody b; OShape sh] sp = (Ok tt, sp')
    /\ gravity sp' = gravity sp
    /\ holds_exactly sp' (o1 ++ o2).
Proof.
  intros (Hb & Hs & Eb & Hl & Ed). rewrite !fmap_app, !fmap_cons in *. cbn [fst snd] in *.
  apply list.NoDup_app in Hb as (Hb1 & Hb12 & Hb2). apply list.NoDup_cons in Hb2 as [Hb2 Hb3].
  apply list.NoDup_app in Hs as (Hs1 & Hs12 & Hs2). apply list.NoDup_cons in Hs2 as [Hs2 Hs3].
  assert (Hb' : b ∈ sp_bodies sp).
  { rewrite Eb, elem_of_list_to_set, elem_of_app. right. left. }
  assert (Hs' : sp_shapes sp !! shape_id sh = Some sh).
  { apply Hl. rewrite elem_of_app. right. left. }
  unfold Space_remove. cbn [for_each]. unfold Space_remove1. mrun.
  rewrite decide_True by exact Hb'. mrun. cbn [sp_shapes]. rewrite Hs'. mrun.
  eexists. split; [reflexivity|]. split; [reflexivity|].
  unfold holds_exactly. rewrite !fmap_app. cbn [sp_bodies sp_shapes].
  assert (Hnb : b ∉ o1.*1 ++ o2.*1).
  { intros [H|H]%elem_of_app; [|contradiction]. apply (Hb12 b H). left. }
  assert (Hns : shape_id sh ∉ (shape_id <$> o1.*2) ++ (shape_id <$> o2.*2)).
  { intros [H|H]%elem_of_app; [|contradiction]. apply (Hs12 _ H). left. }
  split; [|split; [|split; [|split]]].
  - apply list.NoDup_app. split; [exact Hb1|]. split; [|exact Hb3].
    intros x H1 H2. apply (Hb12 x H1). right. exact H2.
  - apply list.NoDup_app. split; [exact Hs1|]. split; [|exact Hs3].
    intros x H1 H2. apply (Hs12 x H1). right. exact H2.
  - rewrite Eb. apply set_eq. intros x.
    rewrite elem_of_difference, !elem_of_list_to_set, !elem_of_app, elem_of_cons,
      elem_of_singleton.
    split.
    + intros [[H|[->|H]] Hx]; [left; exact H | contradiction | right; exact H].
    + intros H. split; [destruct H as [H|H]; auto|].
      intros ->. apply Hnb. apply elem_of_app. exact H.
  - intros sh' Hsh'. rewrite lookup_delete_ne.
    + apply Hl. rewrite elem_of_app in *. destruct Hsh' as [H|H]; [left | right; right]; exact H.
    + intros E. apply Hns. rewrite E, <- fmap_app. apply list_elem_of_fmap. eauto.
  - rewrite dom_delete_L, Ed. apply set_eq. intros x.
    rewrite elem_of_difference, !elem_of_list_to_set, !elem_of_app, elem_of_cons,
      elem_of_singleton.
    split.
    + intros [[H|[->|H]] Hx]; [left; exact H | contradiction | right; exact H].
    + intros H. split; [destruct H as [H|H]; auto|].
      intros ->. apply Hns. apply elem_of_app. exact H.
Qed.

End Facts.
End SpaceFacts.

(** ** wrecking_ball: the runs *)

Module WreckingBallRuns.
Section Runs.
Context {F : Type} {NF : Num F}.
Import WreckingBall.

(** Both ranges of initial velocities hold a number. *)
Definition velocities_not_empty (cfg : Config F) : Prop :=
  min_velocity_x cfg < max_velocity_x cfg /\ min_velocity_y cfg < max_velocity_y cfg.

Definition pair_of (b : SmallBall.t F) : nat * Shape F := (SmallBall.body b, SmallBall.shape b).

(** The Pymunk objects of the simulation: the wrecking ball, then the small
    balls of the list. *)
Definition objects (self : t F) : list (nat * Shape F) :=
  (wrecking_ball_body self, wrecking_ball_shape self) :: (pair_of <$> small_balls_list self).

(** What every state of a run satisfies: the space holds exactly the
    objects of the simulation, which were built before now. *)
Definition tidy (cfg : Config F) (s : St F) : Prop :=
  _config s.1 = cfg
  /\ SpaceFacts.holds_exactly (space s.1) (objects s.1)
  /\ Forall (fun o => (o.1 < next_id s.2)%nat /\ (shape_id o.2 < next_id s.2)%nat)
            (objects s.1).

Lemma tidy_same cfg (self : t F) (w w' : World F) :
  (next_id w <= next_id w')%nat -> tidy cfg (self, w) -> tidy cfg (self, w').
Proof.
  intros Hn (Hc & Hh & Hlt). split; [exact Hc|]. split; [exact Hh|]. cbn [fst snd] in *.
  eapply list.Forall_impl; [exact Hlt|]. intros o [H1 H2]. split; lia.
Qed.

Lemma wb_init_result (cfg : Config F) (w : World F) :
  match init cfg w with
  | (Ok self, w') =>
      velocities_not_empty cfg /\ tidy cfg (self, w') /\ small_balls_list self = []
  | (Raise e, _) => (exists msg, e = ValueError msg) /\ ~ velocities_not_empty cfg
  end.
Proof.
  unfold velocities_not_empty, init, open_window, Space_new, log.
  unfold Body_new, Body_set_position, fresh_id. mrun.
  rewrite LoopFacts.randrange_result. cbn [rng rng_pos set_bodies set_next_id set_calls].
  destruct (_ <? _) eqn:E1 at 1;
    [apply Z.ltb_lt in E1 | apply Z.ltb_ge in E1; split; [eauto | lia]].
  unfold choice_sign, rng_draw. mrun.
  rewrite LoopFacts.randrange_result. cbn [rng rng_pos set_bodies set_next_id set_calls set_rng_pos].
  destruct (_ <? _) eqn:E2 at 1;
    [apply Z.ltb_lt in E2 | apply Z.ltb_ge in E2; split; [eauto | lia]].
  unfold Body_set_velocity, Shape_new, fresh_id. mrun.
  cbn [next_id set_bodies set_next_id set_calls set_rng_pos].
  unfold Space_add_to, log. mrun.
  match goal with
  | |- context [Space_add [OBody ?b; OShape ?sh] ?sp] =>
      destruct (SpaceFacts.holds_exactly_add sp [] b sh) as (sp' & E & Hg & Hh)
  end.
  { unfold SpaceFacts.holds_exactly. cbn. repeat split; try constructor.
    all: try (intros sh H; inversion H). all: try apply dom_empty_L. }
  { intros H. inversion H. }
  { intros H. inversion H. }
  rewrite E. split; [lia|]. split; [|reflexivity].
  split; [reflexivity|]. split; [exact Hh|].
  cbn [fst snd objects wrecking_ball_body wrecking_ball_shape small_balls_list fmap list_fmap
       next_id set_calls set_next_id set_bodies set_rng_pos shape_id].
  constructor; [|constructor]. cbn. lia.
Qed.

Lemma bounce_quiet (self : t F) (w : World F) :
  exists w', bounce (self, w) = (Ok tt, (self, w')) /\ next_id w' = next_id w.
Proof.
  unfold bounce, Body_set_velocity. mrun.
  destruct (velocity _) as [vx vy]. destruct (position _) as [x y].
  destruct (_ || _); destruct (_ || _); mrun; eexists; split; reflexivity.
Qed.

Lemma runs_SmallBall_init {X} (self : X) (n : nat) center radius mass e f color :
  ColorfulFloodingFacts.runs (fun s : X * World F => s.1 = self /\ next_id s.2 = n)
    (on_world (SmallBall.init center radius mass e f color))
    (fun ball s => (SmallBall.body ball = n /\ shape_id (SmallBall.shape ball) = S n)
                   /\ (s.1 = self /\ next_id s.2 = S (S n))).
Proof.
  intros [x w] [Hx Hn]. cbn [fst snd] in *. subst.
  eexists _, _. split; [reflexivity|]. repeat split.
Qed.

Lemma add_small_ball_tidy cfg (ball : SmallBall.t F) (self : t F) (w w' : World F) :
  tidy cfg (self, w) ->
  (next_id w <= SmallBall.body ball < next_id w')%nat ->
  (next_id w <= shape_id (SmallBall.shape ball) < next_id w')%nat ->
  exists s',
    (on_self (modify (fun self => set_small_balls_list (small_balls_list self ++ [ball]) self));;
     space_add [OBody (SmallBall.body ball); OShape (SmallBall.shape ball)]) (self, w')
    = (Ok tt, s')
    /\ tidy cfg s'.
Proof.
  intros (Hc & Hh & Hlt) Hb Hs. cbn [fst snd] in *.
  rewrite list.Forall_forall in Hlt.
  destruct (SpaceFacts.holds_exactly_add (space self) (objects self)
              (SmallBall.body ball) (SmallBall.shape ball) Hh) as (sp' & E & _ & Hh').
  { intros (o & Eo & Ho)%list_elem_of_fmap. apply Hlt in Ho as [Ho _]. lia. }
  { intros (sh & Esh & (o & -> & Ho)%list_elem_of_fmap)%list_elem_of_fmap.
    apply Hlt in Ho as [_ Ho]. lia. }
  unfold space_add, attr_space_add, on_attr, log. mrun.
  cbn [space set_small_balls_list]. rewrite E.
  eexists. split; [reflexivity|].
  assert (Eo : objects (set_space sp' (set_small_balls_list (small_balls_list self ++ [ball])
                                         self))
               = objects self ++ [pair_of ball]).
  { unfold objects. cbn [wrecking_ball_body wrecking_ball_shape small_balls_list set_space
                         set_small_balls_list]. rewrite fmap_app. reflexivity. }
  split; [exact Hc|]. cbn [fst snd]. rewrite Eo. split; [exact Hh'|].
  apply Forall_app. split.
  - apply list.Forall_forall. intros o Ho. apply Hlt in Ho as [H1 H2].
    cbn [next_id set_calls]. split; lia.
  - constructor; [|constructor]. cbn [next_id set_calls pair_of fst snd]. split; lia.
Qed.

Lemma create_small_ball_tidy cfg (self : t F) (w : World F) :
  0 < screen_width cfg -> tidy cfg (self, w) ->
  exists s', create_small_ball (self, w) = (Ok tt, s') /\ tidy cfg s'.
Proof.
  intros Hw Hst. assert (Hc : _config self = cfg) by apply Hst.
  unfold create_small_ball.
  unfold mbind at 1, M_bind at 1, gets at 1. cbn [fst snd]. cbv beta. rewrite Hc.
  unfold St. rewrite ReboundCollisionsMore.bind_randrange.
  destruct (0 <? screen_width cfg) eqn:E1; [|apply Z.ltb_ge in E1; lia].
  set (w1 := set_rng_pos _ w). cbv zeta.
  unfold mbind at 1, M_bind at 1, on_world at 1. cbn [fst snd].
  destruct (LoopFacts.draws_random_color w1) as (color & w2 & Ec & _ & Hn2).
  rewrite Ec.
  unfold mbind at 1, M_bind at 1.
  match goal with
  | |- context [on_world (SmallBall.init ?a ?b ?c ?d ?e ?f) (self, w2)] =>
      destruct (runs_SmallBall_init self (next_id w) a b c d e f (self, w2))
        as (ball & [self3 w3] & Ei & (Eb & Es) & (E3 & Hn3))
  end.
  { split; [reflexivity|]. cbn [snd]. rewrite Hn2. reflexivity. }
  rewrite Ei. cbn [fst snd] in E3, Hn3. subst self3.
  destruct (add_small_ball_tidy cfg ball self w w3 Hst) as (s' & E & Hst'); try lia.
  unfold St in *. rewrite E. exists s'. split; [reflexivity | exact Hst'].
Qed.

Lemma remove_first_middle (x : SmallBall.t F) (l1 l2 : list (SmallBall.t F)) :
  SmallBall.body x ∉ SmallBall.body <$> l1 ->
  remove_first (SmallBall.same x) (l1 ++ x :: l2) = Some (l1 ++ l2).
Proof.
  induction l1 as [|y l1 IH]; intros H; cbn [app remove_first].
  - unfold SmallBall.same. rewrite bool_decide_eq_true_2 by reflexivity. reflexivity.
  - rewrite fmap_cons, not_elem_of_cons in H. destruct H as [Hy H].
    unfold SmallBall.same at 1. rewrite bool_decide_eq_false_2 by exact Hy.
    rewrite IH by exact H. reflexivity.
Qed.

Lemma remove_if_out_tidy cfg (x : SmallBall.t F) (self : t F) (w : World F) :
  x ∈ small_balls_list self -> tidy cfg (self, w) ->
  exists l sp w',
    remove_if_out x (self, w) = (Ok tt, (set_space sp (set_small_balls_list l self), w'))
    /\ (length l <= length (small_balls_list self))%nat
    /\ next_id w' = next_id w
    /\ tidy cfg (set_space sp (set_small_balls_list l self), w').
Proof.
  intros Hin Hst. pose proof Hst as (Hc & Hh & Hlt). cbn [fst snd] in *.
  unfold remove_if_out. mrun.
  destruct (SmallBall.is_out_of_screen _ _ _ _).
  2: { exists (small_balls_list self), (space self), w. destruct self.
       split; [reflexivity|]. split; [lia|]. split; [reflexivity | exact Hst]. }
  apply list_elem_of_split in Hin as (l1 & l2 & El).
  assert (Eo : objects self
               = ((wrecking_ball_body self, wrecking_ball_shape self) :: (pair_of <$> l1))
                 ++ pair_of x :: (pair_of <$> l2)).
  { unfold objects. rewrite El, fmap_app. reflexivity. }
  assert (Hx : SmallBall.body x ∉ SmallBall.body <$> l1).
  { destruct Hh as (Hnd & _). rewrite Eo in Hnd. rewrite fmap_app in Hnd.
    apply list.NoDup_app in Hnd as (_ & Hnd & _).
    intros Hx. apply (Hnd (SmallBall.body x)); [|left].
    rewrite fmap_cons. right. rewrite <- list_fmap_compose. exact Hx. }
  unfold list_remove. rewrite El, (remove_first_middle x l1 l2 Hx). mrun.
  rewrite Eo in Hh.
  destruct (SpaceFacts.holds_exactly_remove (space self) _ _ _ _ Hh) as (sp' & E & _ & Hh').
  unfold space_remove, attr_space_remove, on_attr, log. mrun.
  cbn [space set_small_balls_list]. rewrite E.
  exists (l1 ++ l2), sp'. eexists. split; [reflexivity|].
  split; [rewrite !length_app; cbn; lia|]. split; [reflexivity|].
  split; [exact Hc|]. cbn [fst snd].
  assert (Eo' : objects (set_space sp' (set_small_balls_list (l1 ++ l2) self))
                = ((wrecking_ball_body self, wrecking_ball_shape self) :: (pair_of <$> l1))
                  ++ (pair_of <$> l2)).
  { unfold objects. cbn [wrecking_ball_body wrecking_ball_shape small_balls_list set_space
                         set_small_balls_list]. rewrite fmap_app. reflexivity. }
  rewrite Eo'. split; [exact Hh'|].
  rewrite Eo in Hlt. rewrite list.Forall_forall in Hlt. apply list.Forall_forall.
  intros o Ho. cbn [next_id set_calls]. apply Hlt.
  rewrite elem_of_app in *. destruct Ho as [Ho|Ho]; [left | right; right]; exact Ho.
Qed.

Lemma sweep_tidy cfg (fuel i : nat) (self : t F) (w : World F) :
  tidy cfg (self, w) ->
  exists s', for_from fuel i (fun s : St F => small_balls_list s.1) remove_if_out (self, w)
             = (Ok tt, s')
             /\ tidy cfg s'.
Proof.
  revert i self w. induction fuel as [|fuel IH]; intros i self w H; cbn [for_from].
  { exists (self, w). split; [reflexivity | exact H]. }
  mrun. destruct (small_balls_list self !! i) as [x|] eqn:Ei.
  2: { exists (self, w). split; [reflexivity | exact H]. }
  mrun. apply list_elem_of_lookup_2 in Ei.
  destruct (remove_if_out_tidy cfg x self w Ei H) as (l & sp & w' & E & _ & _ & H1).
  unfold St in *. rewrite E. apply IH, H1.
Qed.

Lemma run_logic_tidy cfg :
  0 < screen_width cfg ->
  ColorfulFloodingFacts.runs (tidy cfg) run_logic (fun _ => tidy cfg).
Proof.
  intros Hw. unfold run_logic.
  eapply ColorfulFloodingFacts.runs_bind with (R := fun _ => tidy cfg).
  { apply ColorfulFloodingFacts.runs_gets. auto. }
  intros self0.
  eapply ColorfulFloodingFacts.runs_bind with (R := fun _ => tidy cfg).
  { intros [self w] H. eexists tt, _. split; [reflexivity|].
    revert H. apply tidy_same. reflexivity. }
  intros [].
  eapply ColorfulFloodingFacts.runs_bind with (R := fun _ => tidy cfg).
  { intros [self w] H. destruct (bounce_quiet self w) as (w' & E & Hn).
    exists tt, (self, w'). split; [exact E|]. revert H. apply tidy_same. lia. }
  intros [].
  eapply ColorfulFloodingFacts.runs_bind with (R := fun _ => tidy cfg).
  { intros [self w] H. destruct (create_small_ball_tidy cfg self w Hw H) as (s' & E & H').
    exists tt, s'. split; assumption. }
  intros [] [self w] H. unfold for_in. mrun.
  destruct (sweep_tidy cfg (length (small_balls_list self)) 0 self w H) as (s' & E & H').
  exists tt, s'. split; assumption.
Qed.

Lemma main_loop_tidy cfg (frames : list Frame) (s : St F) :
  0 < screen_width cfg -> tidy cfg s ->
  (forall e, ended (main_loop simulation frames s) <> Crashed e)
  /\ tidy cfg (final (main_loop simulation frames s)).
Proof.
  intros Hw. apply (LoopFacts.main_loop_runs simulation (tidy cfg)).
  - intros f [self w] H. revert H. apply tidy_same. reflexivity.
  - intros [self w] H. unfold simulation, sim_process_events, process_events,
      pygame_event_get, log. mrun.
    destruct (process_events_loop _) as [b|]; eexists _, _;
      (split; [reflexivity | revert H; apply tidy_same; reflexivity]).
  - apply run_logic_tidy, Hw.
  - intros [self w] H.
    assert (Hd : ProgramsMore.read_only (draw (F:=F))).
    { unfold draw, SmallBall.draw.
      repeat first [ apply ProgramsMore.read_only_log | apply ProgramsMore.read_only_gets
                   | apply ProgramsMore.read_only_for_each; intros ?
                   | apply ProgramsMore.read_only_bind; [|intros ?] ]. }
    destruct (Hd (self, w)) as (a & w' & E & _ & Hn & _). cbn [fst snd] in *.
    exists a, (self, w'). split; [exact E|]. revert H. apply tidy_same. lia.
  - intros [self w] H.
    assert (Hd : ProgramsMore.read_only (clock_tick (F:=F))).
    { unfold clock_tick.
      repeat first [ apply ProgramsMore.read_only_log | apply ProgramsMore.read_only_gets
                   | apply ProgramsMore.read_only_bind; [|intros ?] ]. }
    destruct (Hd (self, w)) as (a & w' & E & _ & Hn & _). cbn [fst snd] in *.
    exists a, (self, w'). split; [exact E|]. revert H. apply tidy_same. lia.
Qed.

(** X20.  The code of the constructor of wrecking_ball (the calls into
    Pygame and Pymunk are taken to succeed) raises (a [ValueError]) exactly
    when one of the two ranges of initial velocities is empty.  With a
    positive screen width no run ever raises after it, whatever the events,
    the random draws and the engine do, and the space stays tidy: at the end
    of a run it holds exactly the wrecking ball and the small balls of
    [small_balls_list], each body and each shape once, so it has one body
    more than the list has balls.  A small ball that leaves the list leaves
    the space with it. *)
Theorem wrecking_ball_space_is_tidy (cfg : Config F) (frames : list Frame) (w : World F) :
  0 < screen_width cfg ->
  match init cfg w with
  | (Ok self, w') =>
      velocities_not_empty cfg
      /\ let r := main_loop simulation frames (self, w') in
         (forall e, ended r <> Crashed e)
         /\ SpaceFacts.holds_exactly (space (final r).1) (objects (final r).1)
         /\ size (sp_bodies (space (final r).1))
            = S (length (small_balls_list (final r).1))
  | (Raise e, _) => (exists msg, e = ValueError msg) /\ ~ velocities_not_empty cfg
  end.
Proof.
  intros Hw. pose proof (wb_init_result cfg w) as Hi.
  destruct (init cfg w) as [[self|e] w']; [|exact Hi].
  destruct Hi as (Hv & Hst & _). split; [exact Hv|]. cbv zeta.
  destruct (main_loop_tidy cfg frames (self, w') Hw Hst) as (Hne & _ & Hh & _).
  split; [exact Hne|]. split; [exact Hh|].
  rewrite (SpaceFacts.holds_exactly_size _ _ Hh). unfold objects. cbn [length].
  rewrite length_fmap. reflexivity.
Qed.

End Runs.

(** A wrecking ball in a world whose engine drops every body of the space
    far below the screen. *)
Definition wrecking : WreckingBall.Config PrimFloat.float :=
  WreckingBall.mkConfig 600 600 100 1 5 1 5 30 5 1 (float_of_Z 1) (float_of_Z 0) 60.

Definition wb_built : WreckingBall.St PrimFloat.float :=
  match WreckingBall.init wrecking ColorfulFloodingMore.falling_world with
  | (Ok self, w) => (self, w)
  | (Raise _, w) =>
      (WreckingBall.mk wrecking Space_empty 0%nat
         (mkShape 0%nat 0%nat (Circle 0) (float_of_Z 0) (float_of_Z 0)) [], w)
  end.

Definition three_frames : list Frame :=
  [mkFrame [] (0, 0); mkFrame [KEYDOWN K_SPACE] (0, 0); mkFrame [] (0, 0)].

Lemma wrecking_ball_space_is_tidy_witness :
  let r := main_loop WreckingBall.simulation three_frames (wb_built.1, wb_built.2) in
  WreckingBall.init wrecking ColorfulFloodingMore.falling_world = (Ok wb_built.1, wb_built.2)
  /\ (forall e, ended r <> Crashed e)
  /\ length (WreckingBall.small_balls_list (final r).1) = 1%nat
  /\ size (sp_bodies (WreckingBall.space (final r).1)) = 2%nat.
Proof.
  cbv zeta.
  pose proof (wrecking_ball_space_is_tidy wrecking three_frames
                ColorfulFloodingMore.falling_world) as H.
  destruct (WreckingBall.init wrecking ColorfulFloodingMore.falling_world)
    as [[self|e] w'] eqn:E.
  2: { exfalso. destruct H as [_ H]; [cbn; lia|]. apply H. unfold velocities_not_empty.
       cbn. lia. }
  assert (Es : wb_built = (self, w')) by (unfold wb_built; rewrite E; reflexivity).
  rewrite Es. cbn [fst snd]. destruct H as (_ & H1 & _ & H3); [cbn; lia|].
  split; [reflexivity|]. split; [exact H1|].
  assert (El : length (WreckingBall.small_balls_list
                         (final (main_loop WreckingBall.simulation three_frames
                                           (self, w'))).1) = 1%nat).
  { rewrite <- Es. vm_compute. reflexivity. }
  split; [exact El|]. rewrite H3, El. reflexivity.
Defined.

End WreckingBallRuns.

(** ** pizza_rain: the runs *)

Module PizzaRainRuns.
Section Runs.
Context {F : Type}.
Import PizzaRain.

(** What decides when a pizza falls and turns, and its size. *)
Definition beat (p : Pizza.t) : Z * Z * Z * Z * Z :=
  (Pizza.vertical_speed p, Pizza.rotation_every p, Pizza.n_updates p,
   rect_w (Pizza.rect p), rect_h (Pizza.rect p)).

Lemma beat_update (a b : option Z) (p q : Pizza.t) :
  beat p = beat q -> beat (Pizza.update a b p) = beat (Pizza.update a b q).
Proof.
  unfold beat. intros [= E1 E2 E3 E4 E5].
  destruct a as [a|]; [|destruct b as [b|]]; unfold Pizza.update, Pizza.fall; cbv zeta;
    cbn [Pizza.vertical_speed Pizza.rotation_every Pizza.n_updates Pizza.rect rect_w rect_h].
  - rewrite E1, E2, E3, E4, E5. reflexivity.
  - rewrite E1, E2, E4, E5. reflexivity.
  - rewrite E2, E3. destruct (_ =? _);
      cbn [Pizza.vertical_speed Pizza.rotation_every Pizza.n_updates Pizza.rect rect_w rect_h];
      rewrite ?E1, ?E2, ?E3, ?E4, ?E5; reflexivity.
Qed.

Lemma beat_update_size (a b : option Z) (p : Pizza.t) :
  rect_w (Pizza.rect (Pizza.update a b p)) = rect_w (Pizza.rect p)
  /\ rect_h (Pizza.rect (Pizza.update a b p)) = rect_h (Pizza.rect p).
Proof.
  destruct a as [a|]; [|destruct b as [b|]]; unfold Pizza.update, Pizza.fall; cbv zeta;
    try (split; reflexivity).
  destruct (_ =? _); split; reflexivity.
Qed.

(** The pizzas of the group fall and turn together, and keep the size of
    the configuration. *)
Definition in_step (cfg : Config) (l : list Pizza.t) : Prop :=
  (forall p q, p ∈ l -> q ∈ l -> beat p = beat q)
  /\ Forall (fun p => rect_w (Pizza.rect p) = diameter cfg
                      /\ rect_h (Pizza.rect p) = diameter cfg) l.

Lemma in_step_update cfg (a b : option Z) (l : list Pizza.t) :
  in_step cfg l -> in_step cfg (Pizza.update a b <$> l).
Proof.
  intros [H1 H2]. split.
  - intros p' q' (p & -> & Hp)%list_elem_of_fmap (q & -> & Hq)%list_elem_of_fmap.
    apply beat_update, H1; assumption.
  - apply list.Forall_fmap. eapply list.Forall_impl; [exact H2|]. intros p [Hw Hh]. cbn.
    destruct (beat_update_size a b p) as [E1 E2]. rewrite E1, E2. auto.
Qed.

Definition staged (cfg : Config) (s : St F) : Prop :=
  _config s.1 = cfg
  /\ length (_pizza_list s.1) = Z.to_nat (number_of_pizzas cfg)
  /\ in_step cfg (_pizza_list s.1).

Lemma group_update_staged cfg (a b : option Z) :
  ColorfulFloodingFacts.runs (staged cfg) (group_update a b) (fun _ => staged cfg).
Proof.
  intros [self w] (Hc & Hl & Hs). eexists tt, _. split; [reflexivity|].
  split; [exact Hc|]. cbn [fst snd _pizza_list set_pizza_list].
  split; [rewrite length_fmap; exact Hl | apply in_step_update, Hs].
Qed.

Lemma process_events_loop_staged cfg (evs : list event) :
  ColorfulFloodingFacts.runs (staged cfg) (process_events_loop evs) (fun _ => staged cfg).
Proof.
  induction evs as [|ev evs IH]; cbn [process_events_loop].
  { apply ColorfulFloodingFacts.runs_ret. auto. }
  destruct ev as [|k| | |]; try exact IH.
  { apply ColorfulFloodingFacts.runs_ret. auto. }
  eapply ColorfulFloodingFacts.runs_bind with (R := fun _ => staged cfg).
  { apply ColorfulFloodingFacts.runs_gets. auto. }
  intros c.
  eapply ColorfulFloodingFacts.runs_bind with (R := fun _ => staged cfg); [|intros []; exact IH].
  destruct k; try apply group_update_staged.
  - intros [self w] H. eexists tt, _. split; [reflexivity | exact H].
  - apply ColorfulFloodingFacts.runs_ret. auto.
  - apply ColorfulFloodingFacts.runs_ret. auto.
Qed.

Lemma main_loop_staged cfg (frames : list Frame) (s : St F) :
  staged cfg s ->
  (forall e, ended (main_loop simulation frames s) <> Crashed e)
  /\ staged cfg (final (main_loop simulation frames s)).
Proof.
  apply (LoopFacts.main_loop_runs simulation (staged cfg)).
  - intros f [self w] H. exact H.
  - unfold simulation, sim_process_events, process_events.
    eapply ColorfulFloodingFacts.runs_bind with (R := fun _ => staged cfg).
    { intros [self w] H. eexists _, _. split; [reflexivity | exact H]. }
    intros evs.
    eapply ColorfulFloodingFacts.runs_bind with (R := fun _ => staged cfg).
    { apply process_events_loop_staged. }
    intros [b|]; apply ColorfulFloodingFacts.runs_ret; auto.
  - unfold simulation, sim_run_logic, run_logic.
    eapply ColorfulFloodingFacts.runs_bind with (R := fun _ => staged cfg).
    { apply ColorfulFloodingFacts.runs_gets. auto. }
    intros self.
    eapply ColorfulFloodingFacts.runs_bind with (R := fun _ => staged cfg).
    { destruct (_is_running self); [apply group_update_staged|].
      apply ColorfulFloodingFacts.runs_ret. auto. }
    intros [] [self1 w] H. eexists tt, _. split; [reflexivity | exact H].
  - intros [self w] H. eexists tt, _. split; [reflexivity | exact H].
  - intros [self w] H. eexists tt, _. split; [reflexivity | exact H].
Qed.


End Runs.
End PizzaRainRuns.
